(** * smallstring: a shallow embedding of [include/smallstring.hpp]

    The development follows the layering of the header:

    - machine integers, bit-fields and raw memory (the environment of the
      code: [std::malloc], [std::free], [std::memcpy]);
    - [malloc_core]: the 8-byte tagged representation;
    - [small_string_buffer]: tier selection, allocation, growth;
    - [basic_small_string]: the public operations, with the searches and
      comparisons over [std::char_traits<char>] ([traits_type]);
    - a world of string objects sharing one heap ([program], and
      [extended] for the members that take another string), and the
      theorems.

    The template parameter [NullTerminated] is a section variable; [Char] is
    [char] (one byte) and the allocator is the process allocator
    ([malloc_core]).  [Assert] is the debug configuration: a failed
    assertion, like an access outside an allocated block, stops the program
    ([Abort]). *)

From Stdlib Require Import ZArith Lia List Bool.
From stdpp Require Import base option list gmap numbers.
From coqutil Require Import Z.bitblast Byte Word.LittleEndianList.

Local Open Scope Z_scope.

(** ** Results of fallible code *)

Inductive exn : Type :=
| out_of_range
| logic_error.

Inductive result (A : Type) : Type :=
| Ok (a : A)
| Throw (e : exn)
| Abort.

Arguments Ok {A} a.
Arguments Throw {A} e.
Arguments Abort {A}.

#[global] Instance result_ret : MRet result := fun A a => Ok a.
#[global] Instance result_bind : MBind result := fun A B f m =>
  match m with
  | Ok a => f a
  | Throw e => Throw e
  | Abort => Abort
  end.

(** [Assert(condition, message)] of the header, debug configuration. *)
Definition Assert (condition : bool) : result unit :=
  if condition then Ok tt else Abort.

Definition is_Ok {A} (r : result A) : Prop := exists a, r = Ok a.

(** ** Machine integers *)

Definition u8 (x : Z) : Z := x mod 2 ^ 8.
Definition u16 (x : Z) : Z := x mod 2 ^ 16.
Definition u32 (x : Z) : Z := x mod 2 ^ 32.
Definition u64 (x : Z) : Z := x mod 2 ^ 64.

(** A bit-field of [w] bits at bit [off] of a little-endian word. *)
Definition bit_field (off w x : Z) : Z := Z.land (Z.shiftr x off) (Z.ones w).

Definition set_bit_field (off w v x : Z) : Z :=
  Z.lor (Z.land x (Z.lnot (Z.shiftl (Z.ones w) off)))
        (Z.shiftl (Z.land v (Z.ones w)) off).

(** [AlignUpTo<N>(n)], on [uint64_t]. *)
Definition AlignUpTo (N n : Z) : Z := Z.land (u64 (n + N - 1)) (u64 (- N)).

(** ** Raw memory

    The heap maps the address of every live allocation to its bytes.  A
    pointer into an allocation is the address of the allocation and an
    offset; [malloc] gets the address and the uninitialised content of the
    new block from the environment. *)

Abbreviation heap := (gmap Z (list byte)).
Abbreviation zero := Byte.x00.

Definition slice (blk : list byte) (off n : Z) : list byte :=
  take (Z.to_nat n) (drop (Z.to_nat off) blk).

Definition splice (blk : list byte) (off : Z) (bs : list byte) : list byte :=
  take (Z.to_nat off) blk ++ bs ++ drop (Z.to_nat off + length bs)%nat blk.

Definition block_read (blk : list byte) (off n : Z) : result (list byte) :=
  if (0 <=? off) && (0 <=? n) && (off + n <=? Z.of_nat (length blk))
  then Ok (slice blk off n) else Abort.

Definition block_write (blk : list byte) (off : Z) (bs : list byte)
  : result (list byte) :=
  if (0 <=? off) && (off + Z.of_nat (length bs) <=? Z.of_nat (length blk))
  then Ok (splice blk off bs) else Abort.

Definition load_bytes (h : heap) (base off n : Z) : result (list byte) :=
  match h !! base with
  | Some blk => block_read blk off n
  | None => Abort
  end.

Definition store_bytes (h : heap) (base off : Z) (bs : list byte) : result heap :=
  match h !! base with
  | Some blk => blk' ← block_write blk off bs; Ok (<[base := blk']> h)
  | None => Abort
  end.

Definition load32 (h : heap) (base off : Z) : result Z :=
  bs ← load_bytes h base off 4; Ok (le_combine bs).

Definition store32 (h : heap) (base off v : Z) : result heap :=
  store_bytes h base off (le_split 4 v).

(** What the allocator answers: an address and the bytes found there. *)
Record chunk : Type := { chunk_addr : Z; chunk_fill : nat -> byte }.

Definition fresh_block (c : chunk) (n : Z) : list byte :=
  map (chunk_fill c) (seq 0 (Z.to_nat n)).

(** [std::malloc(n)]: a block of [n] bytes at a 16-aligned user-space
    address that is not in use; no such block is out of memory.  The block
    is the [n] bytes that were asked for, whatever room the allocator
    keeps behind them: an access beyond them is outside the allocation. *)
Definition malloc (c : chunk) (h : heap) (n : Z) : result (Z * heap) :=
  if bool_decide (h !! chunk_addr c = None)
     && (0 <? chunk_addr c) && (chunk_addr c + n <? 2 ^ 47)
     && (chunk_addr c mod 16 =? 0)
  then Ok (chunk_addr c, <[chunk_addr c := fresh_block c n]> h)
  else Abort.

(** [std::free(p)]. *)
Definition free (h : heap) (p : Z) : result heap :=
  match h !! p with
  | Some _ => Ok (delete p h)
  | None => Abort
  end.

(** A [Char*]: into the string object itself ([internal.data]) or into an
    allocation. *)
Inductive ptr : Type :=
| in_object (off : Z)
| in_block (base off : Z).

Definition ptr_add (p : ptr) (n : Z) : ptr :=
  match p with
  | in_object off => in_object (off + n)
  | in_block base off => in_block base (off + n)
  end.

(** ** [enum class CoreType] and the two small structs *)

Inductive CoreType : Type := Internal | Short | Median | Long.

Definition CoreType_to_Z (t : CoreType) : Z :=
  match t with Internal => 0 | Short => 1 | Median => 2 | Long => 3 end.

Definition kIsInternal : Z := CoreType_to_Z Internal.
Definition kIsShort : Z := CoreType_to_Z Short.
Definition kIsMedian : Z := CoreType_to_Z Median.
Definition kIsLong : Z := CoreType_to_Z Long.

Record buffer_type_and_size : Type :=
  { buffer_size : Z; core_type : CoreType }.

Record capacity_and_size : Type :=
  { capacity_ : Z; size_ : Z }.

(** [sizeof(struct capacity_and_size<size_type>)] *)
Definition sizeof_capacity_and_size : Z := 8.
(** [sizeof(internal_core)] *)
Definition sizeof_internal_core : Z := 8.

(** ** [struct malloc_core] *)

Module malloc_core.
Section NullTerminated.
Context (NullTerminated : bool).

(** The 8 bytes of the union, as [body]; the bit-fields of its views. *)
Definition flag (body : Z) : Z := bit_field 62 2 body.
Definition internal_size (body : Z) : Z := bit_field 56 6 body.
Definition internal_data (body : Z) : list byte := le_split 7 body.
Definition cap_size_cap (body : Z) : Z := bit_field 48 5 body.
Definition cap_size_size (body : Z) : Z := bit_field 53 9 body.
Definition idle_or_ignore (body : Z) : Z := bit_field 48 14 body.
(** [int64_t c_str_ptr : 48], a signed field. *)
Definition c_str_ptr (body : Z) : Z :=
  let p := bit_field 0 48 body in if p <? 2 ^ 47 then p else p - 2 ^ 48.

Definition set_flag (v body : Z) : Z := set_bit_field 62 2 v body.
Definition set_internal_size (v body : Z) : Z := set_bit_field 56 6 v body.
Definition set_internal_data (d : list byte) (body : Z) : Z :=
  set_bit_field 0 56 (le_combine d) body.
Definition set_cap_size_size (v body : Z) : Z := set_bit_field 53 9 v body.
Definition set_idle_or_ignore (v body : Z) : Z := set_bit_field 48 14 v body.

(** Aggregate initialisation of an [external_core]. *)
Definition external_cap_size (ptr cap size flag : Z) : Z :=
  set_bit_field 0 48 ptr
    (set_bit_field 48 5 cap (set_bit_field 53 9 size (set_bit_field 62 2 flag 0))).

Definition external_idle (ptr idle flag : Z) : Z :=
  set_bit_field 0 48 ptr (set_bit_field 48 14 idle (set_bit_field 62 2 flag 0)).

Definition get_buffer_ptr (body : Z) : result Z :=
  Assert (0 <? flag body);;
  if flag body =? 1 then Ok (c_str_ptr body)
  else Ok (c_str_ptr body - sizeof_capacity_and_size).

(** [reinterpret_cast<Char*>(external.c_str_ptr)]: the allocation is the one
    [get_buffer_ptr] names. *)
Definition chars (body : Z) : ptr :=
  if flag body =? 1 then in_block (c_str_ptr body) 0
  else in_block (c_str_ptr body - sizeof_capacity_and_size) sizeof_capacity_and_size.

(** Reading and writing through a [Char*] of this object. *)
Definition read_chars (h : heap) (body : Z) (p : ptr) (n : Z)
  : result (list byte) :=
  match p with
  | in_object off => block_read (internal_data body) off n
  | in_block base off => load_bytes h base off n
  end.

Definition write_chars (h : heap) (body : Z) (p : ptr) (bs : list byte)
  : result (heap * Z) :=
  match p with
  | in_object off =>
      d ← block_write (internal_data body) off bs;
      Ok (h, set_internal_data d body)
  | in_block base off =>
      h' ← store_bytes h base off bs; Ok (h', body)
  end.

Definition internal_buffer_size : Z :=
  if NullTerminated then sizeof_internal_core - 2 else sizeof_internal_core - 1.

Definition median_long_buffer_header_size : Z :=
  if NullTerminated then sizeof_capacity_and_size + 1 else sizeof_capacity_and_size.

Definition max_short_buffer_size : Z := if NullTerminated then 255 else 256.

Definition max_median_buffer_size : Z := Z.shiftl 1 14 - 1.

Definition max_long_buffer_size : Z :=
  (2 ^ 32 - 1) - median_long_buffer_header_size.

Definition kInterCore : Z := CoreType_to_Z Internal.
Definition kShortCore : Z := CoreType_to_Z Short.
Definition kMedianCore : Z := CoreType_to_Z Median.
Definition kLongCore : Z := CoreType_to_Z Long.

Definition get_core_type (body : Z) : Z := flag body.

Definition is_external (body : Z) : bool := negb (flag body =? 0).

Definition capacity_from_buffer_header (h : heap) (body : Z) : result Z :=
  Assert (1 <? flag body);;
  load32 h (c_str_ptr body - 8) 0.

Definition max_real_cap_from_buffer_header (h : heap) (body : Z) : result Z :=
  c ← capacity_from_buffer_header h body;
  if NullTerminated then Ok (u32 (u32 (c - 1) - sizeof_capacity_and_size))
  else Ok (u32 (c - sizeof_capacity_and_size)).

Definition size_from_buffer_header (h : heap) (body : Z) : result Z :=
  Assert (1 <? flag body);;
  load32 h (c_str_ptr body - 8) 4.

Definition set_size_to_buffer_header (h : heap) (body : Z) (new_size : Z)
  : result heap :=
  Assert (1 <? flag body);;
  c ← capacity_from_buffer_header h body;
  Assert (256 <? c);;
  m ← max_real_cap_from_buffer_header h body;
  Assert (new_size <=? m);;
  store32 h (c_str_ptr body - 8) 4 new_size.

Definition increase_size_to_buffer_header (h : heap) (body : Z)
  (size_to_increase : Z) : result (heap * Z) :=
  Assert (1 <? flag body);;
  c ← capacity_from_buffer_header h body;
  Assert (256 <? c);;
  old ← load32 h (c_str_ptr body - 8) 4;
  let new := u32 (old + size_to_increase) in
  h' ← store32 h (c_str_ptr body - 8) 4 new;
  Ok (h', new).

Definition decrease_size_to_buffer_header (h : heap) (body : Z)
  (size_to_decrease : Z) : result (heap * Z) :=
  Assert (1 <? flag body);;
  c ← capacity_from_buffer_header h body;
  Assert (256 <? c);;
  s ← size_from_buffer_header h body;
  Assert (size_to_decrease <=? s);;
  old ← load32 h (c_str_ptr body - 8) 4;
  let new := u32 (old - size_to_decrease) in
  h' ← store32 h (c_str_ptr body - 8) 4 new;
  Ok (h', new).

Definition get_capacity_and_size_from_buffer_header (h : heap) (body : Z)
  : result capacity_and_size :=
  Assert (1 <? flag body);;
  c ← capacity_from_buffer_header h body;
  Assert (256 <? c);;
  s ← size_from_buffer_header h body;
  m ← max_real_cap_from_buffer_header h body;
  Assert (s <=? m);;
  cap ← load32 h (c_str_ptr body - 8) 0;
  size ← load32 h (c_str_ptr body - 8) 4;
  Ok {| capacity_ := cap; size_ := size |}.

Definition get_idle_capacity_from_buffer_header (h : heap) (body : Z)
  : result Z :=
  Assert (1 <? flag body);;
  c ← capacity_from_buffer_header h body;
  Assert (256 <? c);;
  cs ← get_capacity_and_size_from_buffer_header h body;
  if NullTerminated
  then Ok (u32 (u32 (u32 (capacity_ cs - size_ cs) - 1) - sizeof_capacity_and_size))
  else Ok (u32 (u32 (capacity_ cs - size_ cs) - sizeof_capacity_and_size)).

Definition idle_capacity (h : heap) (body : Z) : result Z :=
  match flag body with
  | 0 => Ok (u32 (internal_buffer_size - internal_size body))
  | 1 =>
      Assert (cap_size_cap body <=? 32);;
      Assert (cap_size_size body <=? 256);;
      if NullTerminated
      then Ok (u32 (u64 ((cap_size_cap body + 1) * 8 - cap_size_size body - 1)))
      else Ok (u32 (u64 ((cap_size_cap body + 1) * 8 - cap_size_size body)))
  | 2 => Ok (idle_or_ignore body)
  | _ => get_idle_capacity_from_buffer_header h body
  end.

Definition capacity (h : heap) (body : Z) : result Z :=
  match flag body with
  | 0 => Ok internal_buffer_size
  | 1 =>
      if NullTerminated then Ok (u32 ((cap_size_cap body + 1) * 8 - 1))
      else Ok (u32 ((cap_size_cap body + 1) * 8))
  | _ =>
      c ← capacity_from_buffer_header h body;
      if NullTerminated then Ok (u32 (u32 (c - 1) - sizeof_capacity_and_size))
      else Ok (u32 (c - sizeof_capacity_and_size))
  end.

Definition size (h : heap) (body : Z) : result Z :=
  match flag body with
  | 0 => Ok (internal_size body)
  | 1 => Ok (cap_size_size body)
  | _ => size_from_buffer_header h body
  end.

Definition nt_bytes : Z := if NullTerminated then 1 else 0.

Definition set_size_and_idle_and_set_term (h : heap) (body : Z) (new_size : Z)
  : result (heap * Z) :=
  match flag body with
  | 0 =>
      Assert (new_size <=? internal_buffer_size);;
      let body := set_internal_size (u8 new_size) body in
      if NullTerminated then
        Assert (internal_size body <? 7);;
        write_chars h body (in_object (internal_size body)) [zero]
      else Ok (h, body)
  | 1 =>
      Assert (new_size <=? (cap_size_cap body + 1) * 8 - nt_bytes);;
      let body := set_cap_size_size (u16 new_size) body in
      if NullTerminated
      then write_chars h body (ptr_add (chars body) new_size) [zero]
      else Ok (h, body)
  | 2 =>
      h ← set_size_to_buffer_header h body new_size;
      idle ← get_idle_capacity_from_buffer_header h body;
      let body := set_idle_or_ignore idle body in
      if NullTerminated
      then write_chars h body (ptr_add (chars body) new_size) [zero]
      else Ok (h, body)
  | _ =>
      h ← set_size_to_buffer_header h body new_size;
      if NullTerminated
      then write_chars h body (ptr_add (chars body) new_size) [zero]
      else Ok (h, body)
  end.

Definition increase_size_and_idle_and_set_term (h : heap) (body : Z)
  (size_to_increase : Z) : result (heap * Z) :=
  match flag body with
  | 0 =>
      Assert (u32 (internal_size body + size_to_increase) <=? internal_buffer_size);;
      let body := set_internal_size (internal_size body + size_to_increase) body in
      if NullTerminated
      then write_chars h body (in_object (internal_size body)) [zero]
      else Ok (h, body)
  | 1 =>
      idle ← idle_capacity h body;
      Assert (size_to_increase <=? idle);;
      let body := set_cap_size_size (cap_size_size body + size_to_increase) body in
      if NullTerminated
      then write_chars h body (ptr_add (chars body) (cap_size_size body)) [zero]
      else Ok (h, body)
  | 2 =>
      idle ← idle_capacity h body;
      Assert (size_to_increase <=? idle);;
      let body := set_idle_or_ignore (idle_or_ignore body - size_to_increase) body in
      '(h, new_str_size) ← increase_size_to_buffer_header h body size_to_increase;
      if NullTerminated
      then write_chars h body (ptr_add (chars body) new_str_size) [zero]
      else Ok (h, body)
  | _ =>
      idle ← idle_capacity h body;
      Assert (size_to_increase <=? idle);;
      '(h, new_str_size) ← increase_size_to_buffer_header h body size_to_increase;
      if NullTerminated
      then write_chars h body (ptr_add (chars body) new_str_size) [zero]
      else Ok (h, body)
  end.

Definition decrease_size_and_idle_and_set_term (h : heap) (body : Z)
  (size_to_decrease : Z) : result (heap * Z) :=
  match flag body with
  | 0 =>
      Assert (size_to_decrease <=? internal_size body);;
      let body := set_internal_size (internal_size body - size_to_decrease) body in
      if NullTerminated
      then write_chars h body (in_object (internal_size body)) [zero]
      else Ok (h, body)
  | 1 =>
      Assert (size_to_decrease <=? cap_size_size body);;
      let body := set_cap_size_size (cap_size_size body - size_to_decrease) body in
      if NullTerminated
      then write_chars h body (ptr_add (chars body) (cap_size_size body)) [zero]
      else Ok (h, body)
  | 2 =>
      s ← size_from_buffer_header h body;
      Assert (size_to_decrease <=? s);;
      let body := set_idle_or_ignore (idle_or_ignore body + size_to_decrease) body in
      '(h, new_str_size) ← decrease_size_to_buffer_header h body size_to_decrease;
      if NullTerminated
      then write_chars h body (ptr_add (chars body) new_str_size) [zero]
      else Ok (h, body)
  | _ =>
      s ← size_from_buffer_header h body;
      Assert (size_to_decrease <=? s);;
      '(h, new_str_size) ← decrease_size_to_buffer_header h body size_to_decrease;
      if NullTerminated
      then write_chars h body (ptr_add (chars body) new_str_size) [zero]
      else Ok (h, body)
  end.

Definition get_capacity_and_size (h : heap) (body : Z) : result capacity_and_size :=
  match flag body with
  | 0 => Ok {| capacity_ := internal_buffer_size; size_ := internal_size body |}
  | 1 =>
      if NullTerminated
      then Ok {| capacity_ := u32 (u32 ((cap_size_cap body + 1) * 8) - 1);
                 size_ := cap_size_size body |}
      else Ok {| capacity_ := u32 ((cap_size_cap body + 1) * 8);
                 size_ := cap_size_size body |}
  | _ =>
      cs ← get_capacity_and_size_from_buffer_header h body;
      let real_cap :=
        if NullTerminated
        then u32 (u32 (capacity_ cs - 1) - sizeof_capacity_and_size)
        else u32 (capacity_ cs - sizeof_capacity_and_size) in
      Ok {| capacity_ := real_cap; size_ := size_ cs |}
  end.

Definition begin_ptr (body : Z) : ptr :=
  if is_external body then chars body else in_object 0.

Definition end_ptr (h : heap) (body : Z) : result ptr :=
  match flag body with
  | 0 => Ok (in_object (internal_size body))
  | 1 => Ok (ptr_add (chars body) (cap_size_size body))
  | _ => s ← size_from_buffer_header h body; Ok (ptr_add (chars body) s)
  end.

(** [swap(malloc_core& other)]: the pair is ([*this], [other]). *)
Definition swap (body other : Z) : Z * Z :=
  let temp_body := other in
  let other := body in
  let body := temp_body in
  (body, other).

(** [malloc_core()]: [body{0}]. *)
Definition default_ctor : Z := 0.

(** [malloc_core(malloc_core&& gone)]: the new core and what is left in
    [gone], [body{std::exchange(gone.body, 0)}]. *)
Definition move_ctor (gone : Z) : Z * Z := (gone, 0).

End NullTerminated.
End malloc_core.

(** ** [size * growth] for [float Growth = 1.5F]

    [size] is converted to [float] (24 significant bits, ties to even), the
    product is rounded the same way, and the conversion back to [size_t]
    truncates.  Rounding commutes with the division by 2, so the product is
    computed on [3 * size]. *)

Definition round_to_float (x : Z) : Z :=
  let e := Z.log2 x - 23 in
  if e <=? 0 then x
  else
    let q := Z.shiftr x e in
    let r := Z.land x (Z.ones e) in
    let half := Z.shiftl 1 (e - 1) in
    let q := if (half <? r) || ((r =? half) && Z.odd q) then q + 1 else q in
    Z.shiftl q e.

Definition mul_growth (size : Z) : Z := round_to_float (3 * round_to_float size) / 2.

(** [n] rounded up to a multiple of 8. *)
Definition round_up_8 (n : Z) : Z := 8 * ((n + 7) / 8).

(** ** [class small_string_buffer] *)

Module small_string_buffer.
Section NullTerminated.
Context (NullTerminated : bool).

Definition calculate_median_long_real_idle_capacity (buffer_size old_size : Z)
  : result Z :=
  if NullTerminated then
    Assert (sizeof_capacity_and_size + 1 + old_size <=? buffer_size);;
    Ok (u32 (buffer_size - sizeof_capacity_and_size - 1 - old_size))
  else
    Assert (sizeof_capacity_and_size + old_size <=? buffer_size);;
    Ok (u32 (buffer_size - sizeof_capacity_and_size - old_size)).

(** Returns the new heap and the [external_core]. *)
Definition allocate_new_external_buffer (c : chunk) (h : heap)
  (type_and_size : buffer_type_and_size) (old_str_size : Z) : result (heap * Z) :=
  let type := core_type type_and_size in
  let new_buffer_size := buffer_size type_and_size in
  match type with
  | Internal => Abort
  | Short =>
      Assert (buffer_size type_and_size mod 8 =? 0);;
      '(buf, h) ← malloc c h new_buffer_size;
      Ok (h, malloc_core.external_cap_size buf
               (u8 (buffer_size type_and_size / 8 - 1)) (u16 old_str_size) kIsShort)
  | Median =>
      '(buf, h) ← malloc c h new_buffer_size;
      h ← store32 h buf 0 new_buffer_size;
      h ← store32 h buf 4 old_str_size;
      idle ← calculate_median_long_real_idle_capacity new_buffer_size old_str_size;
      Ok (h, malloc_core.external_idle (buf + sizeof_capacity_and_size)
               (u16 idle) kIsMedian)
  | Long =>
      '(buf, h) ← malloc c h new_buffer_size;
      h ← store32 h buf 0 new_buffer_size;
      h ← store32 h buf 4 old_str_size;
      Ok (h, malloc_core.external_idle (buf + sizeof_capacity_and_size) 0 kIsLong)
  end.

Definition calculate_new_buffer_size (size : Z) : result buffer_type_and_size :=
  if size <=? malloc_core.internal_buffer_size NullTerminated then
    Ok {| buffer_size := malloc_core.internal_buffer_size NullTerminated;
          core_type := Internal |}
  else if size <=? malloc_core.max_short_buffer_size NullTerminated then
    if NullTerminated
    then Ok {| buffer_size := u32 (AlignUpTo 8 (size + 1)); core_type := Short |}
    else Ok {| buffer_size := u32 (AlignUpTo 8 size); core_type := Short |}
  else if size <=? malloc_core.max_median_buffer_size then
    Ok {| buffer_size :=
            u32 (AlignUpTo 8 (size + malloc_core.median_long_buffer_header_size NullTerminated));
          core_type := Median |}
  else
    Assert (size <=? malloc_core.max_long_buffer_size NullTerminated);;
    Ok {| buffer_size :=
            u32 (AlignUpTo 8 (size + malloc_core.median_long_buffer_header_size NullTerminated));
          core_type := Long |}.

(** [calculate_new_buffer_size(size, growth)] at [Growth]. *)
Definition calculate_new_buffer_size_growth (size : Z) : result buffer_type_and_size :=
  calculate_new_buffer_size (mul_growth size).

Definition get_core_type (_core : Z) : Z := malloc_core.get_core_type _core.

Definition initial_allocate_with (c : chunk) (h : heap) (_core : Z)
  (cap_and_type : buffer_type_and_size) (size : Z) : result (heap * Z) :=
  let type := core_type cap_and_type in
  let new_buffer_size := buffer_size cap_and_type in
  match type with
  | Internal =>
      let _core := malloc_core.set_flag kIsInternal _core in
      let _core := malloc_core.set_internal_size (u8 size) _core in
      if NullTerminated
      then malloc_core.write_chars h _core (in_object size) [zero]
      else Ok (h, _core)
  | Short =>
      Assert (new_buffer_size mod 8 =? 0);;
      '(buf, h) ← malloc c h new_buffer_size;
      h ← (if NullTerminated then store_bytes h buf size [zero] else Ok h);
      Ok (h, malloc_core.external_cap_size buf
               (u8 (new_buffer_size / 8 - 1)) (u16 size) kIsShort)
  | Median =>
      '(buf, h) ← malloc c h new_buffer_size;
      h ← store32 h buf 0 new_buffer_size;
      h ← store32 h buf 4 size;
      h ← (if NullTerminated
           then store_bytes h buf (size + sizeof_capacity_and_size) [zero]
           else Ok h);
      idle ← calculate_median_long_real_idle_capacity new_buffer_size size;
      Ok (h, malloc_core.external_idle (buf + sizeof_capacity_and_size)
               (u16 idle) kIsMedian)
  | Long =>
      '(buf, h) ← malloc c h new_buffer_size;
      h ← store32 h buf 0 new_buffer_size;
      h ← store32 h buf 4 size;
      h ← (if NullTerminated
           then store_bytes h buf (size + sizeof_capacity_and_size) [zero]
           else Ok h);
      Ok (h, malloc_core.external_idle (buf + sizeof_capacity_and_size) 0 kIsLong)
  end.

Definition initial_allocate (c : chunk) (h : heap) (_core : Z)
  (new_string_size : Z) : result (heap * Z) :=
  Assert (new_string_size <? malloc_core.max_long_buffer_size NullTerminated);;
  cap_and_type ← calculate_new_buffer_size new_string_size;
  initial_allocate_with c h _core cap_and_type (u32 new_string_size).

Definition get_buffer (_core : Z) : ptr := malloc_core.begin_ptr _core.

Definition size (h : heap) (_core : Z) : result Z := malloc_core.size h _core.

Definition capacity (h : heap) (_core : Z) : result Z :=
  malloc_core.capacity NullTerminated h _core.

Definition idle_capacity (h : heap) (_core : Z) : result Z :=
  malloc_core.idle_capacity NullTerminated h _core.

Definition get_capacity_and_size (h : heap) (_core : Z) : result capacity_and_size :=
  malloc_core.get_capacity_and_size NullTerminated h _core.

(** [std::free(_core.external.get_buffer_ptr())] when the core is external. *)
Definition free_if_external (h : heap) (_core : Z) : result heap :=
  if malloc_core.is_external _core
  then p ← malloc_core.get_buffer_ptr _core; free h p
  else Ok h.

(** [allocate_more<Term>(new_append_size)] *)
Definition allocate_more (Term : bool) (c : chunk) (h : heap) (_core : Z)
  (new_append_size : Z) : result (heap * Z) :=
  old_delta ← malloc_core.idle_capacity NullTerminated h _core;
  if new_append_size <=? old_delta then Ok (h, _core)
  else
    old_size ← size h _core;
    ts ← calculate_new_buffer_size_growth (u32 (old_size + new_append_size));
    '(h, new_external) ← allocate_new_external_buffer c h ts old_size;
    old_data ← malloc_core.read_chars h _core (get_buffer _core) old_size;
    '(h, new_external) ←
      malloc_core.write_chars h new_external (malloc_core.chars new_external) old_data;
    '(h, new_external) ←
      (if NullTerminated && Term
       then malloc_core.write_chars h new_external
              (ptr_add (malloc_core.chars new_external) old_size) [zero]
       else Ok (h, new_external));
    h ← free_if_external h _core;
    Ok (h, new_external).

(** [buffer_reserve<Term, NeedCopy>(new_cap)] *)
Definition buffer_reserve (Term NeedCopy : bool) (c : chunk) (h : heap) (_core : Z)
  (new_cap : Z) : result (heap * Z) :=
  let origin_core_type := malloc_core.get_core_type _core in
  cs ← get_capacity_and_size h _core;
  let old_cap := capacity_ cs in
  let old_size := size_ cs in
  '(h, _core) ←
    (if old_cap <? new_cap then
       new_buffer_type_and_size ← calculate_new_buffer_size new_cap;
       '(h, new_external) ←
         allocate_new_external_buffer c h new_buffer_type_and_size old_size;
       '(h, new_external) ←
         (if NeedCopy then
            old_data ← malloc_core.read_chars h _core (get_buffer _core) old_size;
            malloc_core.write_chars h new_external
              (malloc_core.chars new_external) old_data
          else Ok (h, new_external));
       '(h, new_external) ←
         (if NullTerminated && Term && NeedCopy
          then malloc_core.write_chars h new_external
                 (ptr_add (malloc_core.chars new_external) old_size) [zero]
          else Ok (h, new_external));
       h ← free_if_external h _core;
       Ok (h, new_external)
     else Ok (h, _core));
  let new_core_type := malloc_core.get_core_type _core in
  Assert (origin_core_type <=? new_core_type);;
  Ok (h, _core).

Definition increase_size (h : heap) (_core : Z) (delta : Z) : result (heap * Z) :=
  let origin_core_type := malloc_core.get_core_type _core in
  '(h, _core) ←
    malloc_core.increase_size_and_idle_and_set_term NullTerminated h _core delta;
  let new_core_type := malloc_core.get_core_type _core in
  Assert (origin_core_type =? new_core_type);;
  Ok (h, _core).

Definition set_size (h : heap) (_core : Z) (new_size : Z) : result (heap * Z) :=
  let origin_core_type := malloc_core.get_core_type _core in
  '(h, _core) ←
    malloc_core.set_size_and_idle_and_set_term NullTerminated h _core new_size;
  let new_core_type := malloc_core.get_core_type _core in
  Assert (origin_core_type =? new_core_type);;
  Ok (h, _core).

Definition decrease_size (h : heap) (_core : Z) (delta : Z) : result (heap * Z) :=
  let origin_core_type := malloc_core.get_core_type _core in
  '(h, _core) ←
    malloc_core.decrease_size_and_idle_and_set_term NullTerminated h _core delta;
  let new_core_type := malloc_core.get_core_type _core in
  Assert (origin_core_type =? new_core_type);;
  Ok (h, _core).

(** [small_string_buffer(const Allocator&)] *)
Definition ctor : Z := malloc_core.default_ctor.

(** [small_string_buffer(small_string_buffer&& other, const Allocator&)] *)
Definition move_ctor (other : Z) : Z * Z := malloc_core.move_ctor other.

(** [~small_string_buffer()] *)
Definition dtor (h : heap) (_core : Z) : result heap := free_if_external h _core.

Definition swap (_core other : Z) : Z * Z := malloc_core.swap _core other.

Definition end_ (h : heap) (_core : Z) : result ptr := malloc_core.end_ptr h _core.

(** [static_assign<Size>(ch)] *)
Definition static_assign (Size : Z) (h : heap) (_core : Z) (ch : byte)
  : result (heap * Z) :=
  '(h, _core) ← malloc_core.write_chars h _core (get_buffer _core)
                  (replicate (Z.to_nat Size) ch);
  set_size h _core Size.

End NullTerminated.
End small_string_buffer.

(** ** [std::char_traits<char>]

    Characters compare as [unsigned char].  Of the result of [compare]
    only the sign is specified; [find] reads the characters in order and
    stops at the first match. *)

Module traits_type.

Definition eq (a b : byte) : bool := byte.unsigned a =? byte.unsigned b.

Definition lt (a b : byte) : bool := byte.unsigned a <? byte.unsigned b.

(** [compare(s1, s2, count)], on the [count] characters read at [s1] and at
    [s2]. *)
Fixpoint compare (s1 s2 : list byte) : Z :=
  match s1, s2 with
  | a :: s1, b :: s2 =>
      if lt a b then -1 else if lt b a then 1 else compare s1 s2
  | _, _ => 0
  end.

(** [find(p, count, ch)]: [p] is the array from the pointer on, the answer
    the offset of the match from the pointer, [None] for [nullptr]. *)
Fixpoint find (p : list byte) (count : Z) (ch : byte) : result (option Z) :=
  if count <=? 0 then Ok None
  else
    match p with
    | [] => Abort
    | a :: p =>
        if eq a ch then Ok (Some 0)
        else found ← find p (count - 1) ch; Ok (option_map Z.succ found)
    end.

End traits_type.

(** [std::equal(first1, last1, first2)], on the characters of the two
    ranges. *)
Fixpoint std_equal (s1 s2 : list byte) : bool :=
  match s1, s2 with
  | a :: s1, b :: s2 => traits_type.eq a b && std_equal s1 s2
  | [], [] => true
  | _, _ => false
  end.

(** ** [class basic_small_string]

    A [const Char* s] argument with its [count] is the array [s] points to,
    an array that is not part of the string; reading more than it holds is
    undefined.  [insert] and [append] read their argument after they have
    moved the characters or replaced the buffer: theirs is a [char_ptr],
    such an array or a pointer into the memory of the program.  Operations
    take the default [Safe = true]. *)

Module basic_small_string.
Section NullTerminated.
Context (NullTerminated : bool).

Definition npos : Z := 2 ^ 32 - 1.

(** [basic_small_string(initialized_later, size_t new_string_size, allocator)] *)
Definition ctor_initialized_later (c : chunk) (h : heap) (new_string_size : Z)
  : result (heap * Z) :=
  let _core := small_string_buffer.ctor in
  Assert (u32 (u32 new_string_size
               + malloc_core.median_long_buffer_header_size NullTerminated)
          <=? 2 ^ 32 - 1);;
  small_string_buffer.initial_allocate NullTerminated c h _core (u32 new_string_size).

(** [basic_small_string(initialized_later, type_and_size, new_string_size, allocator)] *)
Definition ctor_initialized_later_with (c : chunk) (h : heap)
  (type_and_size : buffer_type_and_size) (new_string_size : Z) : result (heap * Z) :=
  let _core := small_string_buffer.ctor in
  small_string_buffer.initial_allocate_with NullTerminated c h _core type_and_size
    (u32 new_string_size).

(** [basic_small_string(const Allocator&)] *)
Definition ctor_default : Z := small_string_buffer.ctor.

Definition data (_core : Z) : ptr := small_string_buffer.get_buffer _core.

Definition size (h : heap) (_core : Z) : result Z := small_string_buffer.size h _core.

Definition capacity (h : heap) (_core : Z) : result Z :=
  small_string_buffer.capacity NullTerminated h _core.

Definition get_core_type (_core : Z) : Z := small_string_buffer.get_core_type _core.

Definition empty (h : heap) (_core : Z) : result bool :=
  n ← size h _core; Ok (n =? 0).

(** [basic_small_string(size_t count, Char ch, allocator)] *)
Definition ctor_fill (c : chunk) (h : heap) (count : Z) (ch : byte)
  : result (heap * Z) :=
  '(h, _core) ← ctor_initialized_later c h count;
  malloc_core.write_chars h _core (data _core) (replicate (Z.to_nat count) ch).

(** [basic_small_string(const Char* s, size_t count, allocator)] *)
Definition ctor_chars (c : chunk) (h : heap) (s : list byte) (count : Z)
  : result (heap * Z) :=
  '(h, _core) ← ctor_initialized_later c h count;
  src ← block_read s 0 count;
  malloc_core.write_chars h _core (data _core) src.

(** [basic_small_string(const basic_small_string& other)] *)
Definition ctor_copy (c : chunk) (h : heap) (other : Z) : result (heap * Z) :=
  n ← size h other;
  '(h, _core) ← ctor_initialized_later c h n;
  n ← size h other;
  src ← malloc_core.read_chars h other (data other) n;
  malloc_core.write_chars h _core (data _core) src.

(** [basic_small_string(basic_small_string&& other, allocator)]: the new
    string and what is left of [other]. *)
Definition ctor_move (other : Z) : Z * Z := small_string_buffer.move_ctor other.

(** [~basic_small_string()] *)
Definition dtor (h : heap) (_core : Z) : result heap :=
  small_string_buffer.dtor h _core.

(** [operator=(basic_small_string&& other)] with [this != &other]: the
    heap, [*this] and [other]. *)
Definition move_assign (h : heap) (_core other : Z) : result (heap * Z * Z) :=
  h ← dtor h _core;
  let '(_core, other) := ctor_move other in
  Ok (h, _core, other).

(** [assign(const Char* s, size_type count)] *)
Definition assign (c : chunk) (h : heap) (_core : Z) (s : list byte) (count : Z)
  : result (heap * Z) :=
  '(h, _core) ← small_string_buffer.buffer_reserve NullTerminated false false c h _core count;
  let buffer := small_string_buffer.get_buffer _core in
  src ← block_read s 0 count;
  '(h, _core) ← malloc_core.write_chars h _core buffer src;
  small_string_buffer.set_size NullTerminated h _core count.

(** [assign(size_type count, Char ch)] *)
Definition assign_fill (c : chunk) (h : heap) (_core : Z) (count : Z) (ch : byte)
  : result (heap * Z) :=
  '(h, _core) ← small_string_buffer.buffer_reserve NullTerminated false false c h _core count;
  let buffer := small_string_buffer.get_buffer _core in
  '(h, _core) ← malloc_core.write_chars h _core buffer (replicate (Z.to_nat count) ch);
  small_string_buffer.set_size NullTerminated h _core count.

(** [at(size_type pos)]: the reference it returns is the address of the
    element. *)
Definition at_ (h : heap) (_core : Z) (pos : Z) : result ptr :=
  n ← size h _core;
  if n <=? pos then Throw out_of_range
  else Ok (ptr_add (small_string_buffer.get_buffer _core) pos).

(** [at(size_type pos) const] *)
Definition at_const (h : heap) (_core : Z) (pos : Z) : result ptr :=
  n ← size h _core;
  if n <=? pos then Throw out_of_range
  else Ok (ptr_add (data _core) pos).

(** [operator[](size_type pos)] *)
Definition subscript (h : heap) (_core : Z) (pos : Z) : result ptr :=
  n ← size h _core;
  if n <=? pos then Throw out_of_range
  else Ok (ptr_add (small_string_buffer.get_buffer _core) pos).

(** [operator[](size_type pos) const] *)
Definition subscript_const (h : heap) (_core : Z) (pos : Z) : result ptr :=
  n ← size h _core;
  if n <=? pos then Throw out_of_range
  else Ok (ptr_add (data _core) pos).

(** Reading through a reference to one [Char]. *)
Definition deref (h : heap) (_core : Z) (p : ptr) : result byte :=
  bs ← malloc_core.read_chars h _core p 1;
  match bs with
  | [b] => Ok b
  | _ => Abort
  end.

(** [reserve(size_type new_cap)] *)
Definition reserve (c : chunk) (h : heap) (_core : Z) (new_cap : Z)
  : result (heap * Z) :=
  small_string_buffer.buffer_reserve NullTerminated true true c h _core new_cap.

(** [swap(basic_small_string& other)] *)
Definition swap (_core other : Z) : Z * Z := small_string_buffer.swap _core other.

(** [shrink_to_fit()] *)
Definition shrink_to_fit (c : chunk) (h : heap) (_core : Z) : result (heap * Z) :=
  let origin_core_type := small_string_buffer.get_core_type _core in
  cs ← small_string_buffer.get_capacity_and_size NullTerminated h _core;
  let cap := capacity_ cs in
  let size := size_ cs in
  Assert (size <=? cap);;
  cap_and_type ← small_string_buffer.calculate_new_buffer_size NullTerminated size;
  '(h, _core) ←
    (if buffer_size cap_and_type <? cap then
       '(h, new_str) ← ctor_initialized_later_with c h cap_and_type size;
       src ← malloc_core.read_chars h _core (data _core) size;
       '(h, new_str) ← malloc_core.write_chars h new_str (data new_str) src;
       let '(_core, new_str) := swap _core new_str in
       h ← dtor h new_str;
       Ok (h, _core)
     else Ok (h, _core));
  let new_core_type := small_string_buffer.get_core_type _core in
  Assert (new_core_type <=? origin_core_type);;
  Ok (h, _core).

(** [clear()] *)
Definition clear (h : heap) (_core : Z) : result (heap * Z) :=
  small_string_buffer.set_size NullTerminated h _core 0.

(** A [const Char*] argument that is read late: an array of the caller's,
    or a pointer into the string object or into an allocation, behind
    which the code finds what is there when it reads. *)
Inductive char_ptr : Type :=
| array (s : list byte)
| inside (p : ptr).

(** What a copy of [count] characters finds behind the pointer. *)
Definition read_from (h : heap) (_core : Z) (s : char_ptr) (count : Z)
  : result (list byte) :=
  match s with
  | array s => block_read s 0 count
  | inside p => malloc_core.read_chars h _core p count
  end.

(** Some character of the [count] at [dest] is one of the [count] at [s]. *)
Definition overlaps (dest : ptr) (s : char_ptr) (count : Z) : bool :=
  match s with
  | array _ => false
  | inside p =>
      match dest, p with
      | in_object a, in_object b => (b <? a + count) && (a <? b + count)
      | in_block x a, in_block y b =>
          (x =? y) && (b <? a + count) && (a <? b + count)
      | _, _ => false
      end
  end.

(** [std::memcpy(dest, s, count)] into the string: the characters are read
    when the copy is made, and a copy between overlapping ranges is
    undefined. *)
Definition memcpy_from (h : heap) (_core : Z) (dest : ptr) (s : char_ptr) (count : Z)
  : result (heap * Z) :=
  if overlaps dest s count then Abort
  else
    src ← read_from h _core s count;
    malloc_core.write_chars h _core dest src.

(** [insert(size_type index, const Char* str, size_type count)] *)
Definition insert (c : chunk) (h : heap) (_core : Z) (index : Z) (str : char_ptr)
  (count : Z) : result (heap * Z) :=
  if count =? 0 then Ok (h, _core)
  else
    old_size ← size h _core;
    if old_size <? index then Throw out_of_range
    else
      '(h, _core) ← small_string_buffer.allocate_more NullTerminated false c h _core count;
      let buffer := small_string_buffer.get_buffer _core in
      '(h, _core) ←
        (if index <? old_size then
           moved ← malloc_core.read_chars h _core (ptr_add buffer index)
                     (old_size - index);
           malloc_core.write_chars h _core (ptr_add (ptr_add buffer index) count) moved
         else Ok (h, _core));
      '(h, _core) ← memcpy_from h _core (ptr_add buffer index) str count;
      small_string_buffer.increase_size NullTerminated h _core count.

(** [erase(size_type index, size_type count)] *)
Definition erase (h : heap) (_core : Z) (index count : Z) : result (heap * Z) :=
  old_size ← size h _core;
  if old_size <? index then Throw out_of_range
  else
    let real_count := Z.min count (u32 (old_size - index)) in
    if real_count =? 0 then Ok (h, _core)
    else
      let new_size := u64 (old_size - real_count) in
      Assert (u32 (index + real_count) <=? old_size);;
      let right_size := u64 (u64 (old_size - index) - real_count) in
      let buffer_ptr := small_string_buffer.get_buffer _core in
      '(h, _core) ←
        (if 0 <? right_size then
           moved ← malloc_core.read_chars h _core
                     (ptr_add (ptr_add buffer_ptr index) real_count) (u32 right_size);
           malloc_core.write_chars h _core (ptr_add buffer_ptr index) moved
         else Ok (h, _core));
      small_string_buffer.set_size NullTerminated h _core (u32 new_size).

(** [push_back(Char c)] *)
Definition push_back (c : chunk) (h : heap) (_core : Z) (ch : byte)
  : result (heap * Z) :=
  '(h, _core) ← small_string_buffer.allocate_more NullTerminated false c h _core 1;
  n ← size h _core;
  '(h, _core) ← malloc_core.write_chars h _core (ptr_add (data _core) n) [ch];
  small_string_buffer.increase_size NullTerminated h _core 1.

(** [pop_back()] *)
Definition pop_back (h : heap) (_core : Z) : result (heap * Z) :=
  small_string_buffer.decrease_size NullTerminated h _core 1.

(** [append(const Char* s, size_type count)] *)
Definition append (c : chunk) (h : heap) (_core : Z) (s : char_ptr) (count : Z)
  : result (heap * Z) :=
  if count =? 0 then Ok (h, _core)
  else
    '(h, _core) ← small_string_buffer.allocate_more NullTerminated false c h _core count;
    e ← small_string_buffer.end_ h _core;
    '(h, _core) ← memcpy_from h _core e s count;
    small_string_buffer.increase_size NullTerminated h _core count.

(** [resize(size_type count, Char ch)] *)
Definition resize (c : chunk) (h : heap) (_core : Z) (count : Z) (ch : byte)
  : result (heap * Z) :=
  Assert (count <? 2 ^ 32 - 1);;
  cs ← small_string_buffer.get_capacity_and_size NullTerminated h _core;
  let cap := capacity_ cs in
  let old_size := size_ cs in
  if count <=? old_size then small_string_buffer.set_size NullTerminated h _core count
  else
    '(h, _core) ←
      (if cap <? count
       then small_string_buffer.buffer_reserve NullTerminated false true c h _core count
       else Ok (h, _core));
    '(h, _core) ← malloc_core.write_chars h _core (ptr_add (data _core) old_size)
                    (replicate (Z.to_nat (count - old_size)) ch);
    small_string_buffer.set_size NullTerminated h _core count.

(** *** Further members

    A [const basic_small_string& other] argument is [*this] itself or
    another string object; a [std::basic_string_view] is the array it
    views. *)

Inductive operand : Type :=
| itself
| another (other : Z).

Definition the (_core : Z) (other : operand) : Z :=
  match other with
  | itself => _core
  | another other => other
  end.

(** The array from a [Char*] of this object on. *)
Definition chars_from (h : heap) (_core : Z) (p : ptr) : result (list byte) :=
  match p with
  | in_object off =>
      if (0 <=? off) && (off <=? Z.of_nat (length (malloc_core.internal_data _core)))
      then Ok (drop (Z.to_nat off) (malloc_core.internal_data _core)) else Abort
  | in_block base off =>
      match h !! base with
      | Some blk =>
          if (0 <=? off) && (off <=? Z.of_nat (length blk))
          then Ok (drop (Z.to_nat off) blk) else Abort
      | None => Abort
      end
  end.

(** [last - first], for two pointers into one array. *)
Definition ptr_diff (last first : ptr) : result Z :=
  match last, first with
  | in_object a, in_object b => Ok (a - b)
  | in_block p a, in_block q b => if p =? q then Ok (a - b) else Abort
  | _, _ => Abort
  end.

(** [operator=(const basic_small_string& other)] *)
Definition copy_assign (c : chunk) (h : heap) (_core : Z) (other : operand)
  : result (heap * Z) :=
  match other with
  | itself => Ok (h, _core)
  | another other =>
      n ← size h other;
      let count := u32 n in
      '(h, _core) ← small_string_buffer.buffer_reserve NullTerminated false false c h _core count;
      let buffer := small_string_buffer.get_buffer _core in
      src ← malloc_core.read_chars h other (data other) count;
      '(h, _core) ← malloc_core.write_chars h _core buffer src;
      small_string_buffer.set_size NullTerminated h _core count
  end.

(** [front() const] *)
Definition front (h : heap) (_core : Z) : result byte := deref h _core (data _core).

(** [back() const] *)
Definition back (h : heap) (_core : Z) : result byte :=
  size ← small_string_buffer.size h _core;
  let buffer := small_string_buffer.get_buffer _core in
  deref h _core (ptr_add buffer (u32 (size - 1))).

(** [insert(size_type index, size_type count, Char ch)] *)
Definition insert_fill (c : chunk) (h : heap) (_core : Z) (index count : Z) (ch : byte)
  : result (heap * Z) :=
  if count =? 0 then Ok (h, _core)
  else
    n ← size h _core;
    if n <? index then Throw out_of_range
    else
      '(h, _core) ← small_string_buffer.allocate_more NullTerminated false c h _core count;
      old_size ← size h _core;
      let buffer := small_string_buffer.get_buffer _core in
      '(h, _core) ←
        (if index <? old_size then
           moved ← malloc_core.read_chars h _core (ptr_add buffer index)
                     (old_size - index);
           malloc_core.write_chars h _core (ptr_add (ptr_add buffer index) count) moved
         else Ok (h, _core));
      '(h, _core) ← malloc_core.write_chars h _core (ptr_add buffer index)
                      (replicate (Z.to_nat count) ch);
      small_string_buffer.increase_size NullTerminated h _core count.

(** [append(size_type count, Char c)] *)
Definition append_fill (c : chunk) (h : heap) (_core : Z) (count : Z) (ch : byte)
  : result (heap * Z) :=
  if count =? 0 then Ok (h, _core)
  else
    '(h, _core) ← small_string_buffer.allocate_more NullTerminated false c h _core count;
    e ← small_string_buffer.end_ h _core;
    '(h, _core) ← malloc_core.write_chars h _core e (replicate (Z.to_nat count) ch);
    small_string_buffer.increase_size NullTerminated h _core count.

(** [append(const basic_small_string& other)]: [other] is read where the
    code reads it, after the buffer of [*this] may have been replaced. *)
Definition append_string (c : chunk) (h : heap) (_core : Z) (other : operand)
  : result (heap * Z) :=
  e ← empty h (the _core other);
  if e : bool then Ok (h, _core)
  else
    n ← size h (the _core other);
    '(h, _core) ← small_string_buffer.allocate_more NullTerminated false c h _core (u32 n);
    other_size ← size h (the _core other);
    e ← small_string_buffer.end_ h _core;
    src ← malloc_core.read_chars h (the _core other) (data (the _core other)) other_size;
    '(h, _core) ← malloc_core.write_chars h _core e src;
    small_string_buffer.increase_size NullTerminated h _core (u32 other_size).

(** [replace(size_type pos, size_type count, const Char* str, size_type count2)] *)
Definition replace (c : chunk) (h : heap) (_core : Z) (pos count : Z) (str : list byte)
  (count2 : Z) : result (heap * Z) :=
  cs ← small_string_buffer.get_capacity_and_size NullTerminated h _core;
  let cap := capacity_ cs in
  let old_size := size_ cs in
  if old_size <? pos then Throw out_of_range
  else if count2 =? 0 then erase h _core pos count
  else
    let count := Z.min count (u32 (old_size - pos)) in
    if (u32 (old_size - pos) <=? count) && (count2 <=? u32 (cap - pos)) then
      src ← block_read str 0 count2;
      '(h, _core) ← malloc_core.write_chars h _core
                      (ptr_add (small_string_buffer.get_buffer _core) pos) src;
      let new_size := u32 (pos + count2) in
      small_string_buffer.set_size NullTerminated h _core new_size
    else if count =? count2 then
      src ← block_read str 0 count2;
      malloc_core.write_chars h _core
        (ptr_add (small_string_buffer.get_buffer _core) pos) src
    else
      '(h, ret) ← ctor_initialized_later c h (u32 (u32 (old_size - count) + count2));
      let p := data ret in
      left ← malloc_core.read_chars h _core (data _core) pos;
      '(h, ret) ← malloc_core.write_chars h ret p left;
      let p := ptr_add p pos in
      src ← block_read str 0 count2;
      '(h, ret) ← malloc_core.write_chars h ret p src;
      let p := ptr_add p count2 in
      let first := ptr_add (ptr_add (data _core) pos) count in
      last ← small_string_buffer.end_ h _core;
      n ← ptr_diff last first;
      right ← malloc_core.read_chars h _core first n;
      '(h, ret) ← malloc_core.write_chars h ret p right;
      '(h, _core, ret) ← move_assign h _core ret;
      h ← dtor h ret;
      Ok (h, _core).

(** [replace(size_type pos, size_type count, size_type count2, Char ch)] *)
Definition replace_fill (c : chunk) (h : heap) (_core : Z) (pos count count2 : Z)
  (ch : byte) : result (heap * Z) :=
  cs ← small_string_buffer.get_capacity_and_size NullTerminated h _core;
  let cap := capacity_ cs in
  let old_size := size_ cs in
  if old_size <? pos then Throw out_of_range
  else if count2 =? 0 then erase h _core pos count
  else
    let count := Z.min count (u32 (old_size - pos)) in
    if (u32 (old_size - pos) <=? count) && (count2 <=? u32 (cap - pos)) then
      '(h, _core) ← malloc_core.write_chars h _core
                      (ptr_add (small_string_buffer.get_buffer _core) pos)
                      (replicate (Z.to_nat count2) ch);
      let new_size := u32 (pos + count2) in
      small_string_buffer.set_size NullTerminated h _core new_size
    else if count =? count2 then
      malloc_core.write_chars h _core
        (ptr_add (small_string_buffer.get_buffer _core) pos)
        (replicate (Z.to_nat count2) ch)
    else
      '(h, ret) ← ctor_initialized_later c h (u32 (u32 (old_size - count) + count2));
      let p := data ret in
      left ← malloc_core.read_chars h _core (data _core) pos;
      '(h, ret) ← malloc_core.write_chars h ret p left;
      let p := ptr_add p pos in
      '(h, ret) ← malloc_core.write_chars h ret p (replicate (Z.to_nat count2) ch);
      let p := ptr_add p count2 in
      let first := ptr_add (ptr_add (data _core) pos) count in
      last ← small_string_buffer.end_ h _core;
      n ← ptr_diff last first;
      right ← malloc_core.read_chars h _core first n;
      '(h, ret) ← malloc_core.write_chars h ret p right;
      '(h, _core, ret) ← move_assign h _core ret;
      h ← dtor h ret;
      Ok (h, _core).

(** [copy(Char* dest, size_type count, size_type pos) const]: the array at
    [dest] afterwards and the number of characters copied. *)
Definition copy (h : heap) (_core : Z) (dest : list byte) (count pos : Z)
  : result (list byte * Z) :=
  current_size ← size h _core;
  if current_size <? pos then Throw out_of_range
  else
    let count :=
      if (count =? npos) || (current_size <? u32 (pos + count))
      then u32 (u64 (current_size - pos)) else count in
    src ← malloc_core.read_chars h _core (ptr_add (data _core) pos) count;
    dest ← block_write dest 0 src;
    Ok (dest, count).

(** [resize(size_t count)] *)
Definition resize_count (c : chunk) (h : heap) (_core : Z) (count : Z)
  : result (heap * Z) :=
  Assert (count <? 2 ^ 32 - 1);;
  cs ← small_string_buffer.get_capacity_and_size NullTerminated h _core;
  let cap := capacity_ cs in
  let old_size := size_ cs in
  if count <=? old_size then small_string_buffer.set_size NullTerminated h _core (u32 count)
  else
    '(h, _core) ←
      (if cap <? count
       then small_string_buffer.buffer_reserve NullTerminated false true c h _core (u32 count)
       else Ok (h, _core));
    '(h, _core) ← malloc_core.write_chars h _core (ptr_add (data _core) old_size)
                    (replicate (Z.to_nat (count - old_size)) zero);
    small_string_buffer.set_size NullTerminated h _core (u32 count).

(** The loop of [find(const Char* str, size_type pos, size_type count)];
    [first] is [first_ptr - data_ptr].  The loop ends within [current_size]
    rounds, which is what it is given. *)
Fixpoint find_loop (rounds : nat) (h : heap) (_core : Z) (str : list byte)
  (count : Z) (elem0 : byte) (current_size first len : Z) : result Z :=
  match rounds with
  | O => Abort
  | S rounds =>
      if len <? count then Ok npos
      else
        let data_ptr := small_string_buffer.get_buffer _core in
        p ← chars_from h _core (ptr_add data_ptr first);
        found ← traits_type.find p (u32 (u32 (len - count) + 1)) elem0;
        match found with
        | None => Ok npos
        | Some k =>
            let first := first + k in
            s1 ← malloc_core.read_chars h _core (ptr_add data_ptr first) count;
            s2 ← block_read str 0 count;
            if traits_type.compare s1 s2 =? 0 then Ok first
            else
              let first := first + 1 in
              find_loop rounds h _core str count elem0 current_size first
                (u32 (current_size - first))
        end
  end.

(** [find(const Char* str, size_type pos, size_type count) const] *)
Definition find (h : heap) (_core : Z) (str : list byte) (pos count : Z) : result Z :=
  current_size ← small_string_buffer.size h _core;
  if count =? 0 then Ok (if pos <=? current_size then pos else npos)
  else if current_size <=? pos then Ok npos
  else
    match str with
    | [] => Abort
    | elem0 :: _ =>
        find_loop (S (Z.to_nat current_size)) h _core str count elem0 current_size pos
          (u32 (current_size - pos))
    end.

(** [find(Char ch, size_type pos) const] *)
Definition find_char (h : heap) (_core : Z) (ch : byte) (pos : Z) : result Z :=
  n ← size h _core;
  p ← chars_from h _core (ptr_add (data _core) pos);
  found ← traits_type.find p (u64 (n - pos)) ch;
  match found with
  | None => Ok npos
  | Some k => Ok (pos + k)
  end.

(** The loop of [rfind(Char ch, size_type pos)]: [current_size] counts
    down to 0. *)
Fixpoint rfind_char_loop (h : heap) (_core : Z) (ch : byte) (current_size : nat)
  : result Z :=
  match current_size with
  | O => Ok npos
  | S current_size =>
      b ← deref h _core (ptr_add (small_string_buffer.get_buffer _core)
                           (Z.of_nat current_size));
      if traits_type.eq b ch then Ok (Z.of_nat current_size)
      else rfind_char_loop h _core ch current_size
  end.

(** [rfind(Char ch, size_type pos) const] *)
Definition rfind_char (h : heap) (_core : Z) (ch : byte) (pos : Z) : result Z :=
  current_size ← size h _core;
  if 0 <? current_size then
    let current_size := current_size - 1 in
    let current_size := if pos <? current_size then pos else current_size in
    rfind_char_loop h _core ch (Z.to_nat (current_size + 1))
  else Ok npos.

(** [compare(const basic_small_string& other) const] *)
Definition compare (h : heap) (_core other : Z) : result Z :=
  this_size ← size h _core;
  other_size ← size h other;
  s1 ← malloc_core.read_chars h _core (data _core) (Z.min this_size other_size);
  s2 ← malloc_core.read_chars h other (data other) (Z.min this_size other_size);
  let r := traits_type.compare s1 s2 in
  Ok (if negb (r =? 0) then r
      else if other_size <? this_size then 1
      else if this_size <? other_size then -1 else 0).

(** [compare(size_type pos1, size_type count1, const Char* str, size_type count2) const] *)
Definition compare_chars (h : heap) (_core : Z) (pos1 count1 : Z) (str : list byte)
  (count2 : Z) : result Z :=
  n ← size h _core;
  if n <? pos1 then Throw out_of_range
  else
    let count1 := Z.min count1 (u32 (n - pos1)) in
    s1 ← malloc_core.read_chars h _core (ptr_add (data _core) pos1) (Z.min count1 count2);
    s2 ← block_read str 0 (Z.min count1 count2);
    let r := traits_type.compare s1 s2 in
    Ok (if negb (r =? 0) then r
        else if count2 <? count1 then 1
        else if count1 <? count2 then -1 else 0).

(** [starts_with(std::basic_string_view<Char> view) const] *)
Definition starts_with (h : heap) (_core : Z) (view : list byte) : result bool :=
  n ← size h _core;
  if Z.of_nat (length view) <=? n then
    r ← compare_chars h _core 0 (u32 (Z.of_nat (length view))) view
          (u32 (Z.of_nat (length view)));
    Ok (r =? 0)
  else Ok false.

(** [ends_with(std::basic_string_view<Char> view) const] *)
Definition ends_with (h : heap) (_core : Z) (view : list byte) : result bool :=
  n ← size h _core;
  if Z.of_nat (length view) <=? n then
    r ← compare_chars h _core (u32 (n - Z.of_nat (length view)))
          (u32 (Z.of_nat (length view))) view (u32 (Z.of_nat (length view)));
    Ok (r =? 0)
  else Ok false.

(** [substr(size_type pos, size_type count) const&]: the new string. *)
Definition substr (c : chunk) (h : heap) (_core : Z) (pos count : Z)
  : result (heap * Z) :=
  current_size ← size h _core;
  if current_size <? pos then Throw out_of_range
  else
    let n := u32 (Z.min count (u64 (current_size - pos))) in
    '(h, ret) ← ctor_initialized_later c h n;
    src ← malloc_core.read_chars h _core (ptr_add (data _core) pos) n;
    malloc_core.write_chars h ret (data ret) src.

(** [substr(size_type pos, size_type count) &&]: the heap, the string
    returned and what is left of [*this]. *)
Definition substr_move (c : chunk) (h : heap) (_core : Z) (pos count : Z)
  : result (heap * Z * Z) :=
  current_size ← size h _core;
  if current_size <? pos then Throw out_of_range
  else
    '(h, _core) ← erase h _core 0 pos;
    '(h, _core) ←
      (if count <? u64 (current_size - pos) then resize_count c h _core count
       else Ok (h, _core));
    let '(ret, _core) := ctor_move _core in
    Ok (h, ret, _core).

(** [operator==(const basic_small_string& lhs, const basic_small_string& rhs)] *)
Definition equal (h : heap) (lhs rhs : Z) : result bool :=
  n ← size h lhs;
  m ← size h rhs;
  if n =? m then
    s1 ← malloc_core.read_chars h lhs (data lhs) n;
    s2 ← malloc_core.read_chars h rhs (data rhs) n;
    Ok (std_equal s1 s2)
  else Ok false.

(** [operator+(const basic_small_string& lhs, const basic_small_string& rhs)]:
    the new string. *)
Definition plus (c1 c2 : chunk) (h : heap) (lhs rhs : Z) : result (heap * Z) :=
  '(h, result) ← ctor_copy c1 h lhs;
  append_string c2 h result (another rhs).

End NullTerminated.
End basic_small_string.

(** ** Well-formed strings

    A string is seen as its tier, the array its data pointer points to
    ([internal.data], or the allocation behind the header) and its size. *)

Abbreviation len l := (Z.of_nat (length l)).

Module inv.
Section NullTerminated.
Context (NullTerminated : bool).

(** A Median or Long allocation: the header, then the characters. *)
Definition hdr_block (cap sz : Z) (area : list byte) : list byte :=
  le_split 4 cap ++ le_split 4 sz ++ area.

(** How the core and its allocation encode the array and the size. *)
Definition layout (h : heap) (body : Z) (t : CoreType) (area : list byte) (sz : Z)
  : Prop :=
  match t with
  | Internal =>
      malloc_core.internal_size body = sz /\ malloc_core.internal_data body = area
  | Short =>
      h !! malloc_core.c_str_ptr body = Some area /\
      malloc_core.cap_size_size body = sz /\
      len area = (malloc_core.cap_size_cap body + 1) * 8
  | Median =>
      h !! (malloc_core.c_str_ptr body - 8) = Some (hdr_block (len area + 8) sz area) /\
      272 <= len area + 8 <= 16392 /\
      malloc_core.idle_or_ignore body
      = (len area - malloc_core.nt_bytes NullTerminated - sz) mod 2 ^ 14
  | Long =>
      h !! (malloc_core.c_str_ptr body - 8) = Some (hdr_block (len area + 8) sz area) /\
      16392 <= len area + 8 < 2 ^ 32
  end.

(** A string in the middle of an operation: the size field may be ahead of
    the array. *)
Definition shape (h : heap) (body : Z) (t : CoreType) (area : list byte) (sz : Z)
  : Prop :=
  malloc_core.flag body = CoreType_to_Z t /\ 0 <= sz /\ layout h body t area sz.

(** A well-formed string: the size is within the capacity. *)
Definition repr (h : heap) (body : Z) (t : CoreType) (area : list byte) (sz : Z)
  : Prop :=
  malloc_core.flag body = CoreType_to_Z t /\
  0 <= sz <= len area - malloc_core.nt_bytes NullTerminated /\
  layout h body t area sz.

(** The part of [repr] the header accessors rely on. *)
Definition hdr_ok (h : heap) (body : Z) (area : list byte) (sz : Z) : Prop :=
  1 < malloc_core.flag body /\
  h !! (malloc_core.c_str_ptr body - 8) = Some (hdr_block (len area + 8) sz area) /\
  256 < len area + 8 < 2 ^ 32 /\
  0 <= sz <= len area - malloc_core.nt_bytes NullTerminated.

(** A buffer of the selector that holds [n] characters, within the band
    of its tier. *)
Definition fits (ts : buffer_type_and_size) (n : Z) : Prop :=
  match core_type ts with
  | Internal =>
      buffer_size ts = malloc_core.internal_buffer_size NullTerminated /\
      n <= malloc_core.internal_buffer_size NullTerminated
  | Short =>
      8 <= buffer_size ts <= 256 /\ buffer_size ts mod 8 = 0 /\
      n <= buffer_size ts - malloc_core.nt_bytes NullTerminated
  | Median =>
      272 <= buffer_size ts <= 16392 /\
      n <= buffer_size ts - 8 - malloc_core.nt_bytes NullTerminated
  | Long =>
      16392 <= buffer_size ts < 2 ^ 32 /\
      n <= buffer_size ts - 8 - malloc_core.nt_bytes NullTerminated
  end.

(** An answer of the allocator that [malloc] accepts for [n] bytes. *)
Definition valid_chunk (c : chunk) (h : heap) (n : Z) : Prop :=
  h !! chunk_addr c = None /\ 0 < chunk_addr c /\ chunk_addr c + n < 2 ^ 47 /\
  chunk_addr c mod 16 = 0.

(** The size an allocation records: the Short core has a 9-bit field. *)
Definition stored_size (t : CoreType) (sz : Z) : Z :=
  match t with
  | Short => sz mod 2 ^ 9
  | _ => sz
  end.

(** The zero byte after the content, when the policy asks for it. *)
Definition terminated (area : list byte) (sz : Z) : Prop :=
  NullTerminated = true -> area !! Z.to_nat sz = Some zero.

Definition content (area : list byte) (sz : Z) : list byte := slice area 0 sz.

Definition wf_string (h : heap) (body : Z) : Prop :=
  exists t area sz, repr h body t area sz /\ terminated area sz.

(** The allocation a core owns. *)
Definition owner (body : Z) : option Z :=
  if malloc_core.flag body =? 0 then None
  else if malloc_core.flag body =? 1 then Some (malloc_core.c_str_ptr body)
  else Some (malloc_core.c_str_ptr body - 8).

(** The heap once the allocation of a core, if it has one, is freed. *)
Definition release (h : heap) (body : Z) : heap :=
  match owner body with
  | Some p => delete p h
  | None => h
  end.

(** What a step on one string may do to the heap: the allocations of the
    other strings stay as they are, and the string's allocation is the one
    it had or a new one. *)
Definition evolves (h : heap) (body : Z) (h' : heap) (body' : Z) : Prop :=
  (forall k, is_Some (h !! k) -> owner body <> Some k -> h' !! k = h !! k) /\
  (forall p, owner body' = Some p -> owner body = Some p \/ h !! p = None).

(** A step that keeps the string in its buffer: same tier, same pointer,
    and no other allocation touched. *)
Definition same_buffer (body body' : Z) : Prop :=
  malloc_core.flag body' = malloc_core.flag body /\
  (malloc_core.flag body <> 0 ->
   malloc_core.c_str_ptr body' = malloc_core.c_str_ptr body).

Definition stable (h : heap) (body : Z) (h' : heap) (body' : Z) : Prop :=
  same_buffer body body' /\
  (forall k, owner body <> Some k -> h' !! k = h !! k).

(** The array after [set_size]-like code wrote the terminator at [n]. *)
Definition term_at (area : list byte) (n : Z) : list byte :=
  if NullTerminated then splice area n [zero] else area.

(** The cached or computed idle capacity of a well-formed string. *)
Definition idle_of (t : CoreType) (area : list byte) (sz : Z) : Z :=
  match t with
  | Median => (len area - malloc_core.nt_bytes NullTerminated - sz) mod 2 ^ 14
  | _ => len area - malloc_core.nt_bytes NullTerminated - sz
  end.

End NullTerminated.
End inv.

(** ** Programs

    A program holds string objects, named by numbers, on one heap, and runs
    the public operations of [basic_small_string] on them; the size
    primitives of [small_string_buffer] are steps too.  Every [malloc] of a
    step is answered by the [chunk] the step carries.  A step on a name
    that holds no string, a constructor on a name that holds one, and a
    character array shorter than the count that comes with it, are not
    programs ([Abort]).  The argument of [insert] and [append] may point
    into the strings of the program. *)

Module program.
Section NullTerminated.
Context (NullTerminated : bool).

Record state : Type := {
  heap_of : heap;
  strings : gmap nat Z;
}.

Definition init : state := {| heap_of := ∅; strings := ∅ |}.

Inductive op : Type :=
| Default (i : nat)
| Fill (i : nat) (c : chunk) (count : Z) (ch : byte)
| Chars (i : nat) (c : chunk) (s : list byte) (count : Z)
| Copy (i : nat) (c : chunk) (j : nat)
| Move (i j : nat)
| Dtor (i : nat)
| MoveAssign (i j : nat)
| Assign (i : nat) (c : chunk) (s : list byte) (count : Z)
| AssignFill (i : nat) (c : chunk) (count : Z) (ch : byte)
| Reserve (i : nat) (c : chunk) (new_cap : Z)
| ShrinkToFit (i : nat) (c : chunk)
| Clear (i : nat)
| Insert (i : nat) (c : chunk) (index : Z) (str : basic_small_string.char_ptr)
    (count : Z)
| Erase (i : nat) (index count : Z)
| PushBack (i : nat) (c : chunk) (ch : byte)
| PopBack (i : nat)
| Append (i : nat) (c : chunk) (s : basic_small_string.char_ptr) (count : Z)
| Resize (i : nat) (c : chunk) (count : Z) (ch : byte)
| Swap (i j : nat)
| SetSize (i : nat) (new_size : Z)
| IncreaseSize (i : nat) (delta : Z)
| DecreaseSize (i : nat) (delta : Z)
| InitializedLater (i : nat) (c : chunk) (new_string_size : Z)
| InitializedLaterWith (i : nat) (c : chunk) (type_and_size : buffer_type_and_size)
    (new_string_size : Z).

(** The arguments are values of their C++ types: [size_type] is 32 bits,
    [size_t] 64.  The constructor that takes a buffer layout leaves it to
    its caller that the layout is valid for the size (the note at
    [initial_allocate]): a program gives it a layout of the band of its
    tier that holds the size. *)
Definition size_type (x : Z) : Prop := 0 <= x < 2 ^ 32.
Definition size_t (x : Z) : Prop := 0 <= x < 2 ^ 64.

Definition typed (o : op) : Prop :=
  match o with
  | Fill _ _ count _ | Chars _ _ _ count | InitializedLater _ _ count => size_t count
  | InitializedLaterWith _ _ type_and_size new_string_size =>
      size_t new_string_size /\ inv.fits NullTerminated type_and_size new_string_size
  | Assign _ _ _ count | AssignFill _ _ count _ | Append _ _ _ count
  | Resize _ _ count _ => size_type count
  | Reserve _ _ n | SetSize _ n | IncreaseSize _ n | DecreaseSize _ n => size_type n
  | Insert _ _ index _ count | Erase _ index count => size_type index /\ size_type count
  | _ => True
  end.

(** The state once the string [i] is [_core] and the heap [h]. *)
Definition put (w : state) (i : nat) (h : heap) (_core : Z) : state :=
  {| heap_of := h; strings := <[i := _core]> (strings w) |}.

(** A member function on the string [i]. *)
Definition on_string (w : state) (i : nat) (f : heap -> Z -> result (heap * Z))
  : result state :=
  match strings w !! i with
  | Some _core => '(h, _core) ← f (heap_of w) _core; Ok (put w i h _core)
  | None => Abort
  end.

(** A constructor for the new string [i]. *)
Definition construct (w : state) (i : nat) (f : heap -> result (heap * Z))
  : result state :=
  match strings w !! i with
  | Some _ => Abort
  | None => '(h, _core) ← f (heap_of w); Ok (put w i h _core)
  end.

Definition exec (w : state) (o : op) : result state :=
  match o with
  | Default i =>
      construct w i (fun h => Ok (h, basic_small_string.ctor_default))
  | Fill i c count ch =>
      construct w i (fun h => basic_small_string.ctor_fill NullTerminated c h count ch)
  | Chars i c s count =>
      construct w i (fun h => basic_small_string.ctor_chars NullTerminated c h s count)
  | Copy i c j =>
      match strings w !! j with
      | Some other =>
          construct w i (fun h => basic_small_string.ctor_copy NullTerminated c h other)
      | None => Abort
      end
  | Move i j =>
      match strings w !! i, strings w !! j with
      | None, Some other =>
          let '(_core, other) := basic_small_string.ctor_move other in
          Ok (put (put w j (heap_of w) other) i (heap_of w) _core)
      | _, _ => Abort
      end
  | Dtor i =>
      match strings w !! i with
      | Some _core =>
          h ← basic_small_string.dtor (heap_of w) _core;
          Ok {| heap_of := h; strings := delete i (strings w) |}
      | None => Abort
      end
  | MoveAssign i j =>
      match strings w !! i, strings w !! j with
      | Some _core, Some other =>
          if bool_decide (i = j) then Ok w
          else
            '(h, _core, other) ← basic_small_string.move_assign (heap_of w) _core other;
            Ok (put (put w j h other) i h _core)
      | _, _ => Abort
      end
  | Assign i c s count =>
      on_string w i (fun h _core =>
        basic_small_string.assign NullTerminated c h _core s count)
  | AssignFill i c count ch =>
      on_string w i (fun h _core =>
        basic_small_string.assign_fill NullTerminated c h _core count ch)
  | Reserve i c new_cap =>
      on_string w i (fun h _core =>
        basic_small_string.reserve NullTerminated c h _core new_cap)
  | ShrinkToFit i c =>
      on_string w i (fun h _core =>
        basic_small_string.shrink_to_fit NullTerminated c h _core)
  | Clear i =>
      on_string w i (fun h _core => basic_small_string.clear NullTerminated h _core)
  | Insert i c index s count =>
      on_string w i (fun h _core =>
        basic_small_string.insert NullTerminated c h _core index s count)
  | Erase i index count =>
      on_string w i (fun h _core =>
        basic_small_string.erase NullTerminated h _core index count)
  | PushBack i c ch =>
      on_string w i (fun h _core =>
        basic_small_string.push_back NullTerminated c h _core ch)
  | PopBack i =>
      on_string w i (fun h _core => basic_small_string.pop_back NullTerminated h _core)
  | Append i c s count =>
      on_string w i (fun h _core =>
        basic_small_string.append NullTerminated c h _core s count)
  | Resize i c count ch =>
      on_string w i (fun h _core =>
        basic_small_string.resize NullTerminated c h _core count ch)
  | Swap i j =>
      match strings w !! i, strings w !! j with
      | Some _core, Some other =>
          let '(_core, other) := basic_small_string.swap _core other in
          Ok (put (put w j (heap_of w) other) i (heap_of w) _core)
      | _, _ => Abort
      end
  | SetSize i new_size =>
      on_string w i (fun h _core =>
        small_string_buffer.set_size NullTerminated h _core new_size)
  | IncreaseSize i delta =>
      on_string w i (fun h _core =>
        small_string_buffer.increase_size NullTerminated h _core delta)
  | DecreaseSize i delta =>
      on_string w i (fun h _core =>
        small_string_buffer.decrease_size NullTerminated h _core delta)
  | InitializedLater i c new_string_size =>
      construct w i (fun h =>
        basic_small_string.ctor_initialized_later NullTerminated c h new_string_size)
  | InitializedLaterWith i c type_and_size new_string_size =>
      construct w i (fun h =>
        basic_small_string.ctor_initialized_later_with NullTerminated c h type_and_size
          new_string_size)
  end.

(** The states a program can be in: an operation that throws or stops
    takes no step. *)
Inductive reachable : state -> Prop :=
| reachable_init : reachable init
| reachable_step w o w' :
    reachable w -> typed o -> exec w o = Ok w' -> reachable w'.

(** A program: its operations, in order. *)
Fixpoint run (w : state) (os : list op) : result state :=
  match os with
  | [] => Ok w
  | o :: os => w ← exec w o; run w os
  end.

(** Every string is well formed, and no two strings own one allocation. *)
Definition wf_state (w : state) : Prop :=
  (forall i _core, strings w !! i = Some _core ->
     inv.wf_string NullTerminated (heap_of w) _core) /\
  (forall i j ci cj p, i <> j ->
     strings w !! i = Some ci -> strings w !! j = Some cj ->
     inv.owner ci = Some p -> inv.owner cj <> Some p).

End NullTerminated.
End program.

(** ** The growth selection, as the specification words it

    [select(old_size + extra)], scaled by the factor 1.5, and the tier
    selection run again on the scaled value. *)

Module spec.
Section NullTerminated.
Context (NullTerminated : bool).

Definition select (L : Z) : result buffer_type_and_size :=
  small_string_buffer.calculate_new_buffer_size NullTerminated L.

Definition select_with_growth (old_size extra : Z) : result buffer_type_and_size :=
  ts ← select (old_size + extra);
  select (3 * buffer_size ts / 2).

End NullTerminated.
End spec.

(** ** Allocator answers for examples: a block of zeros at an address. *)

Definition chunk_at (a : Z) : chunk := {| chunk_addr := a; chunk_fill := fun _ => zero |}.

(** ** Example programs *)

Module example.
Import program.

(** "hello worl" *)
Definition hello : list byte :=
  map byte.of_Z [104; 101; 108; 108; 111; 32; 119; 111; 114; 108].

(** A final state of a program, when it has one. *)
Definition final (NullTerminated : bool) (os : list op) : state :=
  match run NullTerminated init os with
  | Ok w => w
  | _ => init
  end.

(** [small_string s("hello worl", 10);] *)
Definition built : list op := [Chars 0 (chunk_at 16) hello 10].
Definition built_state : state := Eval vm_compute in final true built.
Definition built_core : Z := Eval vm_compute in default 0 (strings built_state !! 0%nat).

(** [small_string s;] *)
Definition empty : list op := [Default 0].
Definition empty_state : state := Eval vm_compute in final true empty.

(** [small_string s; s.reserve(100);] *)
Definition reserved : list op := [Default 0; Reserve 0 (chunk_at 16) 100].
Definition reserved_state : state := Eval vm_compute in final true reserved.
Definition shrunk_state : state :=
  Eval vm_compute in final true (reserved ++ [ShrinkToFit 0 (chunk_at 32)]).


(** [small_string s; s.append("hello worl", 10);] *)
Definition appended : list op :=
  [Default 0; Append 0 (chunk_at 16) (basic_small_string.array hello) 10].

(** [small_byte_string s; s.reserve(16380);] *)
Definition byte_reserved : list op := [Default 0; Reserve 0 (chunk_at 16) 16380].

End example.

(** ** What a string reads as *)

Module observe.

(** The string reads [bs] through [(data(), size())]. *)
Definition holds (h : heap) (_core : Z) (bs : list byte) : Prop :=
  basic_small_string.size h _core = Ok (len bs) /\
  malloc_core.read_chars h _core (basic_small_string.data _core) (len bs) = Ok bs.

(** The lexicographic order on sequences of characters, the characters
    compared as [unsigned char]. *)
Inductive lex_lt : list byte -> list byte -> Prop :=
| lex_lt_nil b s2 : lex_lt [] (b :: s2)
| lex_lt_head a b s1 s2 :
    byte.unsigned a < byte.unsigned b -> lex_lt (a :: s1) (b :: s2)
| lex_lt_tail a s1 s2 : lex_lt s1 s2 -> lex_lt (a :: s1) (a :: s2).

End observe.

(** ** Programs with the further members *)

Module extended.
Section NullTerminated.
Context (NullTerminated : bool).

Import program.

Inductive op : Type :=
| Basic (o : program.op)
| CopyAssign (i : nat) (c : chunk) (j : nat)
| InsertFill (i : nat) (c : chunk) (index count : Z) (ch : byte)
| AppendFill (i : nat) (c : chunk) (count : Z) (ch : byte)
| AppendString (i : nat) (c : chunk) (j : nat)
| Replace (i : nat) (c : chunk) (pos count : Z) (str : list byte) (count2 : Z)
| ReplaceFill (i : nat) (c : chunk) (pos count count2 : Z) (ch : byte)
| ResizeCount (i : nat) (c : chunk) (count : Z)
| Substr (i : nat) (c : chunk) (j : nat) (pos count : Z)
| SubstrMove (i : nat) (c : chunk) (j : nat) (pos count : Z)
| Plus (i : nat) (c1 c2 : chunk) (j k : nat).

Definition typed (o : op) : Prop :=
  match o with
  | Basic o => program.typed NullTerminated o
  | InsertFill _ _ index count _ => size_type index /\ size_type count
  | AppendFill _ _ count _ => size_type count
  | Replace _ _ pos count _ count2 | ReplaceFill _ _ pos count count2 _ =>
      size_type pos /\ size_type count /\ size_type count2
  | ResizeCount _ _ count => size_t count
  | Substr _ _ _ pos count | SubstrMove _ _ _ pos count =>
      size_type pos /\ size_type count
  | _ => True
  end.

(** The argument [j] of a member of the string [i]. *)
Definition operand_of (w : state) (i j : nat) : option basic_small_string.operand :=
  if bool_decide (i = j) then Some basic_small_string.itself
  else basic_small_string.another <$> strings w !! j.

Definition exec (w : state) (o : op) : result state :=
  match o with
  | Basic o => program.exec NullTerminated w o
  | CopyAssign i c j =>
      match operand_of w i j with
      | Some other =>
          on_string w i (fun h _core =>
            basic_small_string.copy_assign NullTerminated c h _core other)
      | None => Abort
      end
  | InsertFill i c index count ch =>
      on_string w i (fun h _core =>
        basic_small_string.insert_fill NullTerminated c h _core index count ch)
  | AppendFill i c count ch =>
      on_string w i (fun h _core =>
        basic_small_string.append_fill NullTerminated c h _core count ch)
  | AppendString i c j =>
      match operand_of w i j with
      | Some other =>
          on_string w i (fun h _core =>
            basic_small_string.append_string NullTerminated c h _core other)
      | None => Abort
      end
  | Replace i c pos count str count2 =>
      on_string w i (fun h _core =>
        basic_small_string.replace NullTerminated c h _core pos count str count2)
  | ReplaceFill i c pos count count2 ch =>
      on_string w i (fun h _core =>
        basic_small_string.replace_fill NullTerminated c h _core pos count count2 ch)
  | ResizeCount i c count =>
      on_string w i (fun h _core =>
        basic_small_string.resize_count NullTerminated c h _core count)
  | Substr i c j pos count =>
      match strings w !! j with
      | Some other =>
          construct w i (fun h =>
            basic_small_string.substr NullTerminated c h other pos count)
      | None => Abort
      end
  | SubstrMove i c j pos count =>
      match strings w !! i, strings w !! j with
      | None, Some other =>
          '(h, ret, other) ←
            basic_small_string.substr_move NullTerminated c (heap_of w) other pos count;
          Ok (put (put w j h other) i h ret)
      | _, _ => Abort
      end
  | Plus i c1 c2 j k =>
      match strings w !! j, strings w !! k with
      | Some lhs, Some rhs =>
          construct w i (fun h =>
            basic_small_string.plus NullTerminated c1 c2 h lhs rhs)
      | _, _ => Abort
      end
  end.

Inductive reachable : state -> Prop :=
| reachable_init : reachable init
| reachable_step w o w' :
    reachable w -> typed o -> exec w o = Ok w' -> reachable w'.

Fixpoint run (w : state) (os : list op) : result state :=
  match os with
  | [] => Ok w
  | o :: os => w ← exec w o; run w os
  end.

End NullTerminated.
End extended.

(** ** More sample programs *)

Module sample.
Import program.

(** [small_string s("hello worl", 10), t("hel", 3);] *)
Definition pair : list op :=
  example.built ++ [Chars 1 (chunk_at 48) (take 3 example.hello) 3].
Definition pair_state : state := Eval vm_compute in example.final true pair.
Definition short_core : Z := Eval vm_compute in default 0 (strings pair_state !! 1%nat).

(** [small_string s; s.reserve(300);] *)
Definition median : list op := [Default 0; Reserve 0 (chunk_at 16) 300].
Definition median_state : state := Eval vm_compute in example.final true median.
Definition median_core : Z := Eval vm_compute in default 0 (strings median_state !! 0%nat).

Definition l : byte := byte.of_Z 108.

End sample.

(** * Proofs *)

(** ** Bit-fields *)

Lemma bit_field_div_mod off w x :
  0 <= off -> 0 <= w -> bit_field off w x = (x / 2 ^ off) mod 2 ^ w.
Proof.
  intros. unfold bit_field.
  rewrite Z.land_ones, Z.shiftr_div_pow2 by lia. reflexivity.
Qed.

Lemma bit_field_range off w x :
  0 <= off -> 0 <= w -> 0 <= bit_field off w x < 2 ^ w.
Proof.
  intros. rewrite bit_field_div_mod by lia.
  apply Z.mod_pos_bound. apply Z.pow_pos_nonneg; lia.
Qed.

Lemma bit_field_set_same off w v x :
  0 <= off -> 0 <= w ->
  bit_field off w (set_bit_field off w v x) = v mod 2 ^ w.
Proof.
  intros. unfold bit_field, set_bit_field.
  rewrite <- Z.land_ones by lia. Z.bitblast.
Qed.

Lemma bit_field_set_other off w off' w' v x :
  0 <= off -> 0 <= w -> 0 <= off' -> 0 <= w' ->
  off' + w' <= off \/ off + w <= off' ->
  bit_field off' w' (set_bit_field off w v x) = bit_field off' w' x.
Proof.
  intros. unfold bit_field, set_bit_field. Z.bitblast.
Qed.

Lemma bit_field_0 off w : bit_field off w 0 = 0.
Proof. unfold bit_field. rewrite Z.shiftr_0_l. apply Z.land_0_l. Qed.

Lemma le_split_bit_field n x :
  le_split n (bit_field 0 (Z.of_nat n * 8) x) = le_split n x.
Proof.
  rewrite bit_field_div_mod by lia.
  rewrite Z.pow_0_r, Z.div_1_r. symmetry. apply le_split_mod.
Qed.

Lemma AlignUpTo_8 n :
  0 <= n < 2 ^ 64 - 8 -> AlignUpTo 8 n = 8 * ((n + 7) / 8).
Proof.
  intros Hn. unfold AlignUpTo, u64.
  replace (n + 8 - 1) with (n + 7) by lia.
  change (- (8) mod 2 ^ 64) with (Z.land (Z.lnot (Z.ones 3)) (Z.ones 64)).
  rewrite <- Z.land_ones by lia.
  transitivity (Z.shiftl (Z.shiftr (Z.land (n + 7) (Z.ones 64)) 3) 3).
  - Z.bitblast; rewrite Z.land_spec, Z.testbit_ones_nonneg by lia;
      repeat (rewrite ?andb_true_r, ?andb_false_r, ?andb_true_l; simpl);
      try reflexivity; destruct (Z.ltb_spec l 64); try lia;
      rewrite ?andb_true_r, ?andb_false_r; reflexivity.
  - rewrite Z.land_ones, Z.mod_small by lia.
    rewrite Z.shiftl_mul_pow2, Z.shiftr_div_pow2 by lia.
    change (2 ^ 3) with 8. lia.
Qed.

(** ** Blocks of bytes *)

Lemma length_slice (blk : list byte) off n :
  0 <= off -> 0 <= n -> off + n <= len blk -> len (slice blk off n) = n.
Proof.
  intros. unfold slice. rewrite length_take, length_drop. lia.
Qed.

Lemma length_splice (blk bs : list byte) off :
  0 <= off -> off + len bs <= len blk -> length (splice blk off bs) = length blk.
Proof.
  intros. unfold splice. rewrite !length_app, length_take, length_drop. lia.
Qed.

Lemma lookup_slice (blk : list byte) off n (i : nat) :
  0 <= off -> 0 <= n ->
  slice blk off n !! i =
  if Z.of_nat i <? n then blk !! (Z.to_nat off + i)%nat else None.
Proof.
  intros. unfold slice. destruct (Z.ltb_spec (Z.of_nat i) n).
  - rewrite lookup_take_lt by lia. apply lookup_drop.
  - apply lookup_take_ge. lia.
Qed.

Lemma lookup_splice (blk bs : list byte) off (i : nat) :
  0 <= off -> off + len bs <= len blk ->
  splice blk off bs !! i =
  if (off <=? Z.of_nat i) && (Z.of_nat i <? off + len bs)
  then bs !! (i - Z.to_nat off)%nat else blk !! i.
Proof.
  intros. unfold splice.
  destruct (Z.leb_spec off (Z.of_nat i)); simpl.
  - rewrite lookup_app_r by (rewrite length_take; lia).
    rewrite length_take. replace (Z.to_nat off `min` length blk)%nat with (Z.to_nat off) by lia.
    destruct (Z.ltb_spec (Z.of_nat i) (off + len bs)).
    + apply lookup_app_l. lia.
    + rewrite lookup_app_r by lia. rewrite lookup_drop. f_equal. lia.
  - rewrite lookup_app_l by (rewrite length_take; lia).
    apply lookup_take_lt. lia.
Qed.

Lemma slice_all (blk : list byte) : slice blk 0 (len blk) = blk.
Proof. unfold slice. simpl. rewrite drop_0, take_ge; [reflexivity | lia]. Qed.

Lemma slice_splice_same (blk bs : list byte) off :
  0 <= off -> off + len bs <= len blk -> slice (splice blk off bs) off (len bs) = bs.
Proof.
  intros. apply list_eq; intros i.
  rewrite lookup_slice, lookup_splice by lia.
  destruct (Z.ltb_spec (Z.of_nat i) (len bs)).
  - replace ((off <=? Z.of_nat (Z.to_nat off + i)) && (Z.of_nat (Z.to_nat off + i) <? off + len bs)) with true
      by (symmetry; apply andb_true_iff; split; [apply Z.leb_le | apply Z.ltb_lt]; lia).
    f_equal. lia.
  - symmetry. apply lookup_ge_None. lia.
Qed.

Lemma slice_splice_before (blk bs : list byte) off off' n :
  0 <= off' -> 0 <= n -> off' + n <= off -> off + len bs <= len blk ->
  slice (splice blk off bs) off' n = slice blk off' n.
Proof.
  intros. apply list_eq; intros i.
  rewrite !lookup_slice by lia.
  destruct (Z.ltb_spec (Z.of_nat i) n); [|reflexivity].
  rewrite lookup_splice by lia.
  replace (off <=? Z.of_nat (Z.to_nat off' + i)) with false
    by (symmetry; apply Z.leb_gt; lia). reflexivity.
Qed.

Lemma slice_app_l (a b : list byte) n : n = len a -> slice (a ++ b) 0 n = a.
Proof.
  intros ->. unfold slice. simpl. rewrite drop_0, Nat2Z.id. apply take_app_length.
Qed.

Lemma slice_app_r (a b : list byte) k off n :
  k = len a -> 0 <= off -> slice (a ++ b) (k + off) n = slice b off n.
Proof.
  intros -> ?. unfold slice. f_equal.
  replace (Z.to_nat (len a + off)) with (length a + Z.to_nat off)%nat by lia.
  rewrite drop_app_add. reflexivity.
Qed.

Lemma splice_app_r (a b bs : list byte) k off :
  k = len a -> 0 <= off -> splice (a ++ b) (k + off) bs = a ++ splice b off bs.
Proof.
  intros -> ?. unfold splice.
  replace (Z.to_nat (len a + off)) with (length a + Z.to_nat off)%nat by lia.
  rewrite take_app_add, <- Nat.add_assoc, drop_app_add, <- app_assoc. reflexivity.
Qed.

Lemma splice_app_l (a a' b : list byte) :
  length a' = length a -> splice (a ++ b) 0 a' = a' ++ b.
Proof.
  intros E. unfold splice. simpl. rewrite E, drop_app_length. reflexivity.
Qed.

Lemma splice_nil (blk : list byte) off :
  0 <= off <= len blk -> splice blk off [] = blk.
Proof. intros. unfold splice. simpl. rewrite Nat.add_0_r. apply take_drop. Qed.


(** ** The fields of the core *)

Module core_facts.
Import malloc_core.

Ltac field_simpl :=
  unfold flag, internal_size, cap_size_cap, cap_size_size, idle_or_ignore,
    c_str_ptr, set_flag, set_internal_size, set_internal_data,
    set_cap_size_size, set_idle_or_ignore, external_cap_size, external_idle;
  repeat first
    [ rewrite bit_field_set_same by lia
    | rewrite bit_field_set_other by lia
    | rewrite bit_field_0 ].

Lemma flag_external_cap_size p c s f : flag (external_cap_size p c s f) = f mod 2 ^ 2.
Proof. field_simpl. reflexivity. Qed.

Lemma cap_external_cap_size p c s f :
  cap_size_cap (external_cap_size p c s f) = c mod 2 ^ 5.
Proof. field_simpl. reflexivity. Qed.

Lemma size_external_cap_size p c s f :
  cap_size_size (external_cap_size p c s f) = s mod 2 ^ 9.
Proof. field_simpl. reflexivity. Qed.

Lemma ptr_external_cap_size p c s f :
  0 <= p < 2 ^ 47 -> c_str_ptr (external_cap_size p c s f) = p.
Proof.
  intros. field_simpl. rewrite Z.mod_small by lia.
  destruct (Z.ltb_spec p (2 ^ 47)); lia.
Qed.

Lemma flag_external_idle p i f : flag (external_idle p i f) = f mod 2 ^ 2.
Proof. field_simpl. reflexivity. Qed.

Lemma idle_external_idle p i f :
  idle_or_ignore (external_idle p i f) = i mod 2 ^ 14.
Proof. field_simpl. reflexivity. Qed.

Lemma ptr_external_idle p i f :
  0 <= p < 2 ^ 47 -> c_str_ptr (external_idle p i f) = p.
Proof.
  intros. field_simpl. rewrite Z.mod_small by lia.
  destruct (Z.ltb_spec p (2 ^ 47)); lia.
Qed.

Lemma flag_set_cap_size_size v b : flag (set_cap_size_size v b) = flag b.
Proof. field_simpl. reflexivity. Qed.

Lemma cap_set_cap_size_size v b : cap_size_cap (set_cap_size_size v b) = cap_size_cap b.
Proof. field_simpl. reflexivity. Qed.

Lemma ptr_set_cap_size_size v b : c_str_ptr (set_cap_size_size v b) = c_str_ptr b.
Proof. field_simpl. reflexivity. Qed.

Lemma size_set_cap_size_size v b : cap_size_size (set_cap_size_size v b) = v mod 2 ^ 9.
Proof. field_simpl. reflexivity. Qed.

Lemma flag_set_idle_or_ignore v b : flag (set_idle_or_ignore v b) = flag b.
Proof. field_simpl. reflexivity. Qed.

Lemma ptr_set_idle_or_ignore v b : c_str_ptr (set_idle_or_ignore v b) = c_str_ptr b.
Proof. field_simpl. reflexivity. Qed.

Lemma idle_set_idle_or_ignore v b : idle_or_ignore (set_idle_or_ignore v b) = v mod 2 ^ 14.
Proof. field_simpl. reflexivity. Qed.

Lemma flag_set_internal_size v b : flag (set_internal_size v b) = flag b.
Proof. field_simpl. reflexivity. Qed.

Lemma size_set_internal_size v b : internal_size (set_internal_size v b) = v mod 2 ^ 6.
Proof. field_simpl. reflexivity. Qed.

Lemma flag_set_internal_data d b : flag (set_internal_data d b) = flag b.
Proof. field_simpl. reflexivity. Qed.

Lemma size_set_internal_data d b : internal_size (set_internal_data d b) = internal_size b.
Proof. field_simpl. reflexivity. Qed.

Lemma flag_set_flag v b : flag (set_flag v b) = v mod 2 ^ 2.
Proof. field_simpl. reflexivity. Qed.

Lemma size_set_flag v b : internal_size (set_flag v b) = internal_size b.
Proof. field_simpl. reflexivity. Qed.

Lemma internal_data_bit_field b : internal_data b = le_split 7 (bit_field 0 56 b).
Proof. symmetry. apply (le_split_bit_field 7). Qed.

Lemma data_set_internal_size v b : internal_data (set_internal_size v b) = internal_data b.
Proof.
  rewrite (internal_data_bit_field (set_internal_size v b)), (internal_data_bit_field b).
  field_simpl. reflexivity.
Qed.

Lemma data_set_flag v b : internal_data (set_flag v b) = internal_data b.
Proof.
  rewrite (internal_data_bit_field (set_flag v b)), (internal_data_bit_field b).
  field_simpl. reflexivity.
Qed.

Lemma data_set_internal_data d b :
  length d = 7%nat -> internal_data (set_internal_data d b) = d.
Proof.
  intros E. rewrite (internal_data_bit_field (set_internal_data d b)). field_simpl.
  change (2 ^ 56) with (2 ^ (Z.of_nat 7 * 8)).
  rewrite <- le_split_mod. rewrite <- E. apply split_le_combine.
Qed.

Lemma length_internal_data b : length (internal_data b) = 7%nat.
Proof. apply length_le_split. Qed.

Lemma flag_0 : flag 0 = 0.
Proof. reflexivity. Qed.

Lemma internal_size_0 : internal_size 0 = 0.
Proof. reflexivity. Qed.

Lemma flag_range b : 0 <= flag b < 4.
Proof. apply (bit_field_range 62 2); lia. Qed.

Lemma internal_size_range b : 0 <= internal_size b < 64.
Proof. apply (bit_field_range 56 6); lia. Qed.

Lemma cap_size_cap_range b : 0 <= cap_size_cap b < 32.
Proof. apply (bit_field_range 48 5); lia. Qed.

Lemma cap_size_size_range b : 0 <= cap_size_size b < 512.
Proof. apply (bit_field_range 53 9); lia. Qed.

Lemma idle_or_ignore_range b : 0 <= idle_or_ignore b < 16384.
Proof. apply (bit_field_range 48 14); lia. Qed.

Create Rewrite HintDb fields.

#[export] Hint Rewrite flag_external_cap_size cap_external_cap_size
  size_external_cap_size flag_external_idle idle_external_idle
  flag_set_cap_size_size cap_set_cap_size_size ptr_set_cap_size_size
  size_set_cap_size_size flag_set_idle_or_ignore ptr_set_idle_or_ignore
  idle_set_idle_or_ignore flag_set_internal_size size_set_internal_size
  flag_set_internal_data size_set_internal_data flag_set_flag size_set_flag
  data_set_internal_size data_set_flag : fields.

End core_facts.

(** ** Reading and writing blocks *)

Lemma Assert_true c : c = true -> Assert c = Ok tt.
Proof. intros ->. reflexivity. Qed.

Lemma block_read_ok (blk : list byte) off n :
  0 <= off -> 0 <= n -> off + n <= len blk -> block_read blk off n = Ok (slice blk off n).
Proof.
  intros. unfold block_read.
  replace (0 <=? off) with true by (symmetry; apply Z.leb_le; lia).
  replace (0 <=? n) with true by (symmetry; apply Z.leb_le; lia).
  replace (off + n <=? len blk) with true by (symmetry; apply Z.leb_le; lia).
  reflexivity.
Qed.

Lemma block_write_ok (blk bs : list byte) off :
  0 <= off -> off + len bs <= len blk -> block_write blk off bs = Ok (splice blk off bs).
Proof.
  intros. unfold block_write.
  replace (0 <=? off) with true by (symmetry; apply Z.leb_le; lia).
  replace (off + len bs <=? len blk) with true by (symmetry; apply Z.leb_le; lia).
  reflexivity.
Qed.

Lemma load_bytes_ok (h : heap) p blk off n :
  h !! p = Some blk -> 0 <= off -> 0 <= n -> off + n <= len blk ->
  load_bytes h p off n = Ok (slice blk off n).
Proof. intros E ???. unfold load_bytes. rewrite E. apply block_read_ok; lia. Qed.

Lemma store_bytes_ok (h : heap) p blk off bs :
  h !! p = Some blk -> 0 <= off -> off + len bs <= len blk ->
  store_bytes h p off bs = Ok (<[p := splice blk off bs]> h).
Proof.
  intros E ??. unfold store_bytes. rewrite E, block_write_ok by lia. reflexivity.
Qed.

Section Header.
Context (h : heap) (p cap sz : Z) (area : list byte).
Context (E : h !! p = Some (inv.hdr_block cap sz area)).

Lemma length_hdr_block : len (inv.hdr_block cap sz area) = len area + 8.
Proof. unfold inv.hdr_block. rewrite !length_app, !length_le_split. lia. Qed.

Lemma load32_hdr_cap : load32 h p 0 = Ok (cap mod 2 ^ 32).
Proof using E.
  unfold load32.
  rewrite (load_bytes_ok h p _ 0 4 E) by (rewrite ?length_hdr_block; lia).
  unfold inv.hdr_block. cbv [mbind result_bind]. f_equal.
  rewrite slice_app_l by (rewrite length_le_split; reflexivity).
  apply (le_combine_split 4).
Qed.

Lemma load32_hdr_size : load32 h p 4 = Ok (sz mod 2 ^ 32).
Proof using E.
  unfold load32.
  rewrite (load_bytes_ok h p _ 4 4 E) by (rewrite ?length_hdr_block; lia).
  unfold inv.hdr_block. cbv [mbind result_bind]. f_equal.
  change 4 with (4 + 0) at 1.
  rewrite slice_app_r by (rewrite ?length_le_split; lia).
  rewrite slice_app_l by (rewrite length_le_split; reflexivity).
  apply (le_combine_split 4).
Qed.

Lemma store32_hdr_size sz' :
  store32 h p 4 sz' = Ok (<[p := inv.hdr_block cap sz' area]> h).
Proof using E.
  unfold store32.
  rewrite (store_bytes_ok h p _ 4 _ E) by (rewrite ?length_hdr_block, ?length_le_split; lia).
  unfold inv.hdr_block.
  apply (f_equal Ok), (f_equal (fun b => <[p:=b]> h)).
  change 4 with (4 + 0) at 1.
  rewrite splice_app_r by (rewrite ?length_le_split; lia).
  rewrite splice_app_l by (rewrite !length_le_split; reflexivity).
  reflexivity.
Qed.

Lemma load_bytes_hdr off n :
  0 <= off -> 0 <= n -> off + n <= len area ->
  load_bytes h p (8 + off) n = Ok (slice area off n).
Proof using E.
  intros.
  rewrite (load_bytes_ok h p _ (8 + off) n E) by (rewrite ?length_hdr_block; lia).
  unfold inv.hdr_block. f_equal.
  rewrite app_assoc.
  apply slice_app_r; [rewrite length_app, !length_le_split; lia | lia].
Qed.

Lemma store_bytes_hdr off bs :
  0 <= off -> off + len bs <= len area ->
  store_bytes h p (8 + off) bs = Ok (<[p := inv.hdr_block cap sz (splice area off bs)]> h).
Proof using E.
  intros.
  rewrite (store_bytes_ok h p _ (8 + off) _ E) by (rewrite ?length_hdr_block; lia).
  unfold inv.hdr_block.
  apply (f_equal Ok), (f_equal (fun b => <[p:=b]> h)).
  rewrite (app_assoc _ _ area).
  rewrite splice_app_r by (rewrite ?length_app, ?length_le_split; lia).
  rewrite <- app_assoc. reflexivity.
Qed.

End Header.

(** ** [malloc_core] on well-formed strings *)

Ltac zbool :=
  repeat match goal with
  | |- context [?a <=? ?b] =>
      first [ rewrite (proj2 (Z.leb_le a b)) by lia
            | rewrite (proj2 (Z.leb_gt a b)) by lia ]
  | |- context [?a <? ?b] =>
      first [ rewrite (proj2 (Z.ltb_lt a b)) by lia
            | rewrite (proj2 (Z.ltb_ge a b)) by lia ]
  | |- context [?a =? ?b] =>
      first [ rewrite (proj2 (Z.eqb_eq a b)) by lia
            | rewrite (proj2 (Z.eqb_neq a b)) by lia ]
  end.

Ltac mred_in H :=
  cbv beta iota delta [mbind result_bind mret result_ret Assert
                         capacity_ size_ buffer_size core_type] in H.

Ltac mred :=
  cbv beta iota delta [mbind result_bind mret result_ret Assert
                         capacity_ size_ buffer_size core_type].

Ltac wrap_small :=
  unfold u8, u16, u32, u64;
  repeat match goal with
  | |- context [?x mod ?m] => rewrite (Z.mod_small x m) by lia
  end.

Lemma two_p_14 : 2 ^ 14 = 16384. Proof. reflexivity. Qed.
Lemma two_p_32 : 2 ^ 32 = 4294967296. Proof. reflexivity. Qed.

Module core_specs.
Import malloc_core core_facts.
Section NullTerminated.
Context (NullTerminated : bool).

Abbreviation nt := (nt_bytes NullTerminated).
Abbreviation repr := (inv.repr NullTerminated).

Lemma nt_range : 0 <= nt <= 1.
Proof. unfold nt_bytes. destruct NullTerminated; lia. Qed.


Lemma repr_len_area {h body t area sz} :
  repr h body t area sz ->
  match t with
  | Internal => len area = 7
  | Short => 8 <= len area <= 256
  | Median => 272 <= len area + 8 <= 16392
  | Long => 16392 <= len area + 8 < 2 ^ 32
  end.
Proof.
  intros R.
  destruct R as (F & B & T). destruct t.
  - destruct T as [_ <-]. rewrite length_internal_data. reflexivity.
  - destruct T as (_ & _ & L). pose proof (cap_size_cap_range body). lia.
  - destruct T as (_ & L & _). exact L.
  - destruct T as (_ & L). exact L.
Qed.

Lemma repr_bounds {h body t area sz} :
  repr h body t area sz -> 0 <= sz <= len area - nt /\ len area + 8 < 2 ^ 32.
Proof.
  intros R.
  pose proof (repr_len_area R) as L. destruct R as (F & B & T).
  split; [exact B|]. destruct t; lia.
Qed.

Lemma repr_hdr_ok {h body t area sz} :
  repr h body t area sz -> t = Median \/ t = Long ->
  inv.hdr_ok NullTerminated h body area sz.
Proof.
  intros R Ht. pose proof (repr_bounds R) as [B L]. destruct R as (F & _ & T).
  unfold inv.hdr_ok. rewrite F.
  destruct Ht; subst t; cbv beta iota delta [inv.layout] in T;
    cbn [CoreType_to_Z]; (split; [lia|]);
    (split; [tauto|]); (split; [lia|]); exact B.
Qed.

Section HeaderAccessors.
Context {h : heap} {body : Z} {area : list byte} {sz : Z}.
Context (H : inv.hdr_ok NullTerminated h body area sz).

Lemma capacity_from_buffer_header_ok :
  capacity_from_buffer_header h body = Ok (len area + 8).
Proof using H.
  destruct H as (F & E & L & B). unfold capacity_from_buffer_header.
  zbool. mred. rewrite (load32_hdr_cap _ _ _ _ _ E), Z.mod_small by lia. reflexivity.
Qed.

Lemma size_from_buffer_header_ok : size_from_buffer_header h body = Ok sz.
Proof using H.
  destruct H as (F & E & L & B). pose proof nt_range.
  unfold size_from_buffer_header.
  zbool. mred. rewrite (load32_hdr_size _ _ _ _ _ E), Z.mod_small by lia. reflexivity.
Qed.

Lemma load32_size_ok : load32 h (c_str_ptr body - 8) 4 = Ok sz.
Proof using H.
  destruct H as (F & E & L & B). pose proof nt_range.
  rewrite (load32_hdr_size _ _ _ _ _ E), Z.mod_small by lia. reflexivity.
Qed.

Lemma max_real_cap_from_buffer_header_ok :
  max_real_cap_from_buffer_header NullTerminated h body = Ok (len area - nt).
Proof using H.
  unfold max_real_cap_from_buffer_header.
  rewrite capacity_from_buffer_header_ok. mred.
  destruct H as (F & E & L & B).
  unfold nt_bytes in *. unfold sizeof_capacity_and_size.
  destruct NullTerminated; f_equal; wrap_small; lia.
Qed.

Lemma get_capacity_and_size_from_buffer_header_ok :
  get_capacity_and_size_from_buffer_header NullTerminated h body
  = Ok {| capacity_ := len area + 8; size_ := sz |}.
Proof using H.
  unfold get_capacity_and_size_from_buffer_header.
  rewrite capacity_from_buffer_header_ok, size_from_buffer_header_ok,
    max_real_cap_from_buffer_header_ok.
  destruct H as (F & E & L & B). pose proof nt_range.
  zbool. mred. zbool. mred.
  rewrite (load32_hdr_size _ _ _ _ _ E), (load32_hdr_cap _ _ _ _ _ E).
  rewrite !Z.mod_small by lia. reflexivity.
Qed.

Lemma get_idle_capacity_from_buffer_header_ok :
  get_idle_capacity_from_buffer_header NullTerminated h body = Ok (len area - nt - sz).
Proof using H.
  unfold get_idle_capacity_from_buffer_header.
  rewrite capacity_from_buffer_header_ok,
    get_capacity_and_size_from_buffer_header_ok.
  destruct H as (F & E & L & B). pose proof nt_range.
  zbool. mred. zbool. mred.
  unfold nt_bytes in *. unfold sizeof_capacity_and_size.
  destruct NullTerminated; f_equal; wrap_small; lia.
Qed.

Lemma set_size_to_buffer_header_ok new_size :
  0 <= new_size <= len area - nt ->
  set_size_to_buffer_header NullTerminated h body new_size
  = Ok (<[c_str_ptr body - 8 := inv.hdr_block (len area + 8) new_size area]> h).
Proof using H.
  intros Hn. unfold set_size_to_buffer_header.
  rewrite capacity_from_buffer_header_ok, max_real_cap_from_buffer_header_ok.
  destruct H as (F & E & L & B).
  zbool. mred. zbool. mred.
  apply (store32_hdr_size _ _ _ _ _ E).
Qed.

Lemma increase_size_to_buffer_header_ok d :
  0 <= d -> sz + d <= len area - nt ->
  increase_size_to_buffer_header h body d
  = Ok (<[c_str_ptr body - 8 := inv.hdr_block (len area + 8) (sz + d) area]> h, sz + d).
Proof using H.
  intros Hd Hs. unfold increase_size_to_buffer_header.
  rewrite capacity_from_buffer_header_ok, load32_size_ok.
  destruct H as (F & E & L & B). pose proof nt_range.
  zbool. mred. zbool. mred.
  rewrite (store32_hdr_size _ _ _ _ _ E). mred.
  unfold u32. rewrite Z.mod_small by lia. reflexivity.
Qed.

Lemma decrease_size_to_buffer_header_ok d :
  0 <= d <= sz ->
  decrease_size_to_buffer_header h body d
  = Ok (<[c_str_ptr body - 8 := inv.hdr_block (len area + 8) (sz - d) area]> h, sz - d).
Proof using H.
  intros Hd. unfold decrease_size_to_buffer_header.
  rewrite capacity_from_buffer_header_ok, size_from_buffer_header_ok, load32_size_ok.
  destruct H as (F & E & L & B). pose proof nt_range.
  zbool. mred. zbool. mred. zbool. mred.
  rewrite (store32_hdr_size _ _ _ _ _ E). mred.
  unfold u32. rewrite Z.mod_small by lia. reflexivity.
Qed.

End HeaderAccessors.

Lemma size_repr {h body t area sz} :
  repr h body t area sz -> size h body = Ok sz.
Proof.
  intros R.
  unfold size. pose proof R as (F & _ & T). rewrite F.
  destruct t; cbv beta iota delta [inv.layout] in T; simpl CoreType_to_Z; cbv iota.
  - f_equal. tauto.
  - f_equal. tauto.
  - apply (size_from_buffer_header_ok (repr_hdr_ok R ltac:(tauto))).
  - apply (size_from_buffer_header_ok (repr_hdr_ok R ltac:(tauto))).
Qed.

Lemma capacity_repr {h body t area sz} :
  repr h body t area sz -> capacity NullTerminated h body = Ok (len area - nt).
Proof.
  intros R.
  pose proof (repr_bounds R) as [B L]. pose proof (repr_len_area R) as La.
  unfold capacity. pose proof R as (F & _ & T). rewrite F.
  destruct t; cbv beta iota delta [inv.layout] in T; cbv beta iota in La; simpl CoreType_to_Z; cbv iota.
  - unfold internal_buffer_size, nt_bytes, sizeof_internal_core.
    destruct NullTerminated; f_equal; lia.
  - destruct T as (_ & _ & Lc). rewrite <- Lc. unfold nt_bytes in *.
    destruct NullTerminated; f_equal; wrap_small; lia.
  - rewrite (capacity_from_buffer_header_ok (repr_hdr_ok R ltac:(tauto))). mred.
    unfold nt_bytes in *. unfold sizeof_capacity_and_size.
    destruct NullTerminated; f_equal; wrap_small; lia.
  - rewrite (capacity_from_buffer_header_ok (repr_hdr_ok R ltac:(tauto))). mred.
    unfold nt_bytes in *. unfold sizeof_capacity_and_size.
    destruct NullTerminated; f_equal; wrap_small; lia.
Qed.

Lemma get_capacity_and_size_repr {h body t area sz} :
  repr h body t area sz ->
  get_capacity_and_size NullTerminated h body
  = Ok {| capacity_ := len area - nt; size_ := sz |}.
Proof.
  intros R.
  pose proof (repr_bounds R) as [B L]. pose proof (repr_len_area R) as La.
  unfold get_capacity_and_size. pose proof R as (F & _ & T). rewrite F.
  destruct t; cbv beta iota delta [inv.layout] in T; cbv beta iota in La; simpl CoreType_to_Z; cbv iota.
  - destruct T as [-> _].
    unfold internal_buffer_size, nt_bytes, sizeof_internal_core.
    destruct NullTerminated; do 2 f_equal; lia.
  - destruct T as (_ & -> & Lc). rewrite <- Lc. unfold nt_bytes in *.
    destruct NullTerminated; do 2 f_equal; wrap_small; lia.
  - rewrite (get_capacity_and_size_from_buffer_header_ok (repr_hdr_ok R ltac:(tauto))). mred.
    simpl capacity_. simpl size_.
    unfold nt_bytes in *. unfold sizeof_capacity_and_size.
    destruct NullTerminated; do 2 f_equal; wrap_small; lia.
  - rewrite (get_capacity_and_size_from_buffer_header_ok (repr_hdr_ok R ltac:(tauto))). mred.
    simpl capacity_. simpl size_.
    unfold nt_bytes in *. unfold sizeof_capacity_and_size.
    destruct NullTerminated; do 2 f_equal; wrap_small; lia.
Qed.

Lemma idle_capacity_repr {h body t area sz} :
  repr h body t area sz ->
  idle_capacity NullTerminated h body = Ok (inv.idle_of NullTerminated t area sz).
Proof.
  intros R.
  pose proof (repr_bounds R) as [B L]. pose proof (repr_len_area R) as La.
  unfold idle_capacity, inv.idle_of. pose proof R as (F & _ & T). rewrite F.
  destruct t; cbv beta iota delta [inv.layout] in T; cbv beta iota in La; simpl CoreType_to_Z; cbv iota.
  - destruct T as [-> _].
    unfold internal_buffer_size, nt_bytes, sizeof_internal_core in *.
    destruct NullTerminated; f_equal; wrap_small; lia.
  - destruct T as (_ & -> & Lc). pose proof (cap_size_cap_range body).
    pose proof nt_range. mred. zbool. mred. unfold nt_bytes in *.
    destruct NullTerminated; f_equal; wrap_small; lia.
  - f_equal. tauto.
  - apply (get_idle_capacity_from_buffer_header_ok (repr_hdr_ok R ltac:(tauto))).
Qed.

End NullTerminated.
End core_specs.

Module core_access.
Import malloc_core core_facts core_specs.
Section NullTerminated.
Context (NullTerminated : bool).

Abbreviation nt := (nt_bytes NullTerminated).
Abbreviation repr := (inv.repr NullTerminated).

Lemma same_buffer_refl body : inv.same_buffer body body.
Proof. split; auto. Qed.

Lemma same_buffer_trans b1 b2 b3 :
  inv.same_buffer b1 b2 -> inv.same_buffer b2 b3 -> inv.same_buffer b1 b3.
Proof.
  intros [F1 P1] [F2 P2]. split; [congruence|].
  intros N. rewrite P2, P1; auto. congruence.
Qed.

Lemma same_buffer_owner b1 b2 : inv.same_buffer b1 b2 -> inv.owner b2 = inv.owner b1.
Proof.
  intros [F P]. unfold inv.owner. rewrite F.
  destruct (Z.eqb_spec (flag b1) 0); [reflexivity|]. rewrite P by assumption. reflexivity.
Qed.

Lemma same_buffer_begin_ptr b1 b2 : inv.same_buffer b1 b2 -> begin_ptr b2 = begin_ptr b1.
Proof.
  intros [F P]. unfold begin_ptr, is_external, chars. rewrite F.
  destruct (Z.eqb_spec (flag b1) 0); [reflexivity|]. cbn [negb].
  rewrite P by assumption. reflexivity.
Qed.

Lemma stable_refl h body : inv.stable h body h body.
Proof. split; [apply same_buffer_refl | auto]. Qed.

Lemma stable_trans h1 b1 h2 b2 h3 b3 :
  inv.stable h1 b1 h2 b2 -> inv.stable h2 b2 h3 b3 -> inv.stable h1 b1 h3 b3.
Proof.
  intros [S1 K1] [S2 K2]. split; [eapply same_buffer_trans; eassumption|].
  intros k N. rewrite K2, K1; auto. rewrite (same_buffer_owner _ _ S1). exact N.
Qed.

Lemma stable_evolves h1 b1 h2 b2 : inv.stable h1 b1 h2 b2 -> inv.evolves h1 b1 h2 b2.
Proof.
  intros [S K]. split.
  - intros k _ N. apply K, N.
  - intros p E. left. rewrite <- (same_buffer_owner _ _ S). exact E.
Qed.

Lemma repr_shape h body t area sz :
  repr h body t area sz -> inv.shape NullTerminated h body t area sz.
Proof. intros (F & B & T). split; [exact F|]. split; [lia | exact T]. Qed.

Lemma shape_repr h body t area sz :
  inv.shape NullTerminated h body t area sz -> sz <= len area - nt ->
  repr h body t area sz.
Proof. intros (F & B & T) ?. split; [exact F|]. split; [lia | exact T]. Qed.

Lemma shape_owner h body t area sz :
  inv.shape NullTerminated h body t area sz ->
  inv.owner body =
  match t with
  | Internal => None
  | Short => Some (c_str_ptr body)
  | _ => Some (c_str_ptr body - 8)
  end.
Proof. intros (F & _). unfold inv.owner. rewrite F. destruct t; reflexivity. Qed.

Lemma repr_owner h body t area sz :
  repr h body t area sz ->
  inv.owner body =
  match t with
  | Internal => None
  | Short => Some (c_str_ptr body)
  | _ => Some (c_str_ptr body - 8)
  end.
Proof. intros R. apply (shape_owner _ _ _ _ _ (repr_shape _ _ _ _ _ R)). Qed.

Lemma shape_begin_ptr h body t area sz :
  inv.shape NullTerminated h body t area sz ->
  begin_ptr body =
  match t with
  | Internal => in_object 0
  | Short => in_block (c_str_ptr body) 0
  | _ => in_block (c_str_ptr body - 8) 8
  end.
Proof.
  intros (F & _). unfold begin_ptr, is_external, chars. rewrite F.
  destruct t; reflexivity.
Qed.

Lemma repr_begin_ptr h body t area sz :
  repr h body t area sz ->
  begin_ptr body =
  match t with
  | Internal => in_object 0
  | Short => in_block (c_str_ptr body) 0
  | _ => in_block (c_str_ptr body - 8) 8
  end.
Proof. intros R. apply (shape_begin_ptr _ _ _ _ _ (repr_shape _ _ _ _ _ R)). Qed.

(** [shape] reads the heap at the owned allocation only. *)
Lemma shape_frame h h' body t area sz :
  inv.shape NullTerminated h body t area sz ->
  (forall k, inv.owner body = Some k -> h' !! k = h !! k) ->
  inv.shape NullTerminated h' body t area sz.
Proof.
  intros R K. rewrite (shape_owner _ _ _ _ _ R) in K.
  destruct R as (F & B & T). split; [exact F|]. split; [exact B|].
  destruct t; cbv beta iota delta [inv.layout] in *; try exact T.
  - destruct T as (E & T). split; [|exact T]. rewrite K; auto.
  - destruct T as (E & T). split; [|exact T]. rewrite K; auto.
  - destruct T as (E & T). split; [|exact T]. rewrite K; auto.
Qed.

Lemma repr_frame h h' body t area sz :
  repr h body t area sz ->
  (forall k, inv.owner body = Some k -> h' !! k = h !! k) ->
  repr h' body t area sz.
Proof.
  intros R K. apply shape_repr; [|destruct R as (_ & B & _); lia].
  eapply shape_frame; [apply repr_shape; exact R | exact K].
Qed.

Lemma shape_owned h body t area sz p :
  inv.shape NullTerminated h body t area sz -> inv.owner body = Some p ->
  is_Some (h !! p).
Proof.
  intros R E. rewrite (shape_owner _ _ _ _ _ R) in E. destruct R as (_ & _ & T).
  destruct t; cbv beta iota delta [inv.layout] in T; try discriminate;
    injection E as <-; destruct T as (-> & _); eauto.
Qed.

Lemma repr_owned h body t area sz p :
  repr h body t area sz -> inv.owner body = Some p -> is_Some (h !! p).
Proof. intros R. apply (shape_owned _ _ _ _ _ _ (repr_shape _ _ _ _ _ R)). Qed.

Lemma shape_len_area h body t area sz :
  inv.shape NullTerminated h body t area sz ->
  match t with
  | Internal => len area = 7
  | Short => 8 <= len area <= 256
  | Median => 272 <= len area + 8 <= 16392
  | Long => 16392 <= len area + 8 < 2 ^ 32
  end.
Proof.
  intros (F & B & T). destruct t; cbv beta iota delta [inv.layout] in T.
  - destruct T as [_ <-]. rewrite length_internal_data. reflexivity.
  - destruct T as (_ & _ & L). pose proof (cap_size_cap_range body). lia.
  - destruct T as (_ & L & _). exact L.
  - destruct T as (_ & L). exact L.
Qed.

Lemma read_chars_shape h body t area sz off n :
  inv.shape NullTerminated h body t area sz -> 0 <= off -> 0 <= n ->
  off + n <= len area ->
  read_chars h body (ptr_add (begin_ptr body) off) n = Ok (slice area off n).
Proof.
  intros R ? ? ?. rewrite (shape_begin_ptr _ _ _ _ _ R).
  destruct R as (F & B & T).
  destruct t; cbv beta iota delta [inv.layout] in T; cbn [ptr_add read_chars].
  - destruct T as (_ & <-). apply block_read_ok; lia.
  - destruct T as (E & _). apply (load_bytes_ok _ _ _ _ _ E); lia.
  - destruct T as (E & _). apply (load_bytes_hdr _ _ _ _ _ E); lia.
  - destruct T as (E & _). apply (load_bytes_hdr _ _ _ _ _ E); lia.
Qed.

Lemma write_chars_shape h body t area sz off bs :
  inv.shape NullTerminated h body t area sz -> 0 <= off ->
  off + len bs <= len area ->
  exists h' body',
    write_chars h body (ptr_add (begin_ptr body) off) bs = Ok (h', body') /\
    inv.shape NullTerminated h' body' t (splice area off bs) sz /\
    inv.stable h body h' body'.
Proof.
  intros R ? ?. rewrite (shape_begin_ptr _ _ _ _ _ R).
  pose proof (shape_owner _ _ _ _ _ R) as O.
  pose proof (length_splice area bs off ltac:(lia) ltac:(lia)) as Ls.
  destruct R as (F & B & T). unfold inv.shape.
  destruct t; cbv beta iota delta [inv.layout] in *; cbn [ptr_add write_chars];
    rewrite ?Ls.
  - destruct T as (S & D).
    exists h, (set_internal_data (splice area off bs) body).
    rewrite D, block_write_ok by lia. split; [reflexivity|]. split.
    + split; [autorewrite with fields; exact F|]. split; [exact B|].
      split; [autorewrite with fields; exact S|].
      apply data_set_internal_data. rewrite Ls, <- D. apply length_internal_data.
    + split; [|auto]. split; [autorewrite with fields; reflexivity|].
      intros N. rewrite F in N. cbn [CoreType_to_Z] in N. lia.
  - destruct T as (E & S & L).
    exists (<[c_str_ptr body := splice area off bs]> h), body.
    rewrite (store_bytes_ok _ _ _ _ _ E) by lia. split; [reflexivity|]. split.
    + split; [exact F|]. split; [exact B|].
      split; [apply lookup_insert_eq|]. split; [exact S|]. exact L.
    + split; [apply same_buffer_refl|]. intros k N. rewrite O in N.
      apply lookup_insert_ne. congruence.
  - destruct T as (E & L & I).
    exists (<[c_str_ptr body - 8 := inv.hdr_block (len area + 8) sz (splice area off bs)]> h), body.
    rewrite (store_bytes_hdr _ _ _ _ _ E) by lia. split; [reflexivity|]. split.
    + split; [exact F|]. split; [exact B|].
      split; [apply lookup_insert_eq|]. split; assumption.
    + split; [apply same_buffer_refl|]. intros k N. rewrite O in N.
      apply lookup_insert_ne. congruence.
  - destruct T as (E & L).
    exists (<[c_str_ptr body - 8 := inv.hdr_block (len area + 8) sz (splice area off bs)]> h), body.
    rewrite (store_bytes_hdr _ _ _ _ _ E) by lia. split; [reflexivity|]. split.
    + split; [exact F|]. split; [exact B|].
      split; [apply lookup_insert_eq|]. assumption.
    + split; [apply same_buffer_refl|]. intros k N. rewrite O in N.
      apply lookup_insert_ne. congruence.
Qed.

Lemma read_chars_repr h body t area sz off n :
  repr h body t area sz -> 0 <= off -> 0 <= n -> off + n <= len area ->
  read_chars h body (ptr_add (begin_ptr body) off) n = Ok (slice area off n).
Proof. intros R. apply (read_chars_shape _ _ _ _ _ _ _ (repr_shape _ _ _ _ _ R)). Qed.

Lemma write_chars_repr h body t area sz off bs :
  repr h body t area sz -> 0 <= off -> off + len bs <= len area ->
  exists h' body',
    write_chars h body (ptr_add (begin_ptr body) off) bs = Ok (h', body') /\
    repr h' body' t (splice area off bs) sz /\
    inv.stable h body h' body'.
Proof.
  intros R ? ?.
  destruct (write_chars_shape _ _ _ _ _ off bs (repr_shape _ _ _ _ _ R))
    as (h' & body' & W & S & St); [lia | lia |].
  exists h', body'. split; [exact W|]. split; [|exact St].
  apply shape_repr; [exact S|]. rewrite length_splice by lia.
  destruct R as (_ & B & _). lia.
Qed.

End NullTerminated.
End core_access.

(** ** The size mutators of [malloc_core] *)

Module core_resize.
Import malloc_core core_facts core_specs core_access.
Section NullTerminated.
Context (NullTerminated : bool).

Abbreviation nt := (nt_bytes NullTerminated).
Abbreviation repr := (inv.repr NullTerminated).
Abbreviation term_at := (inv.term_at NullTerminated).

Lemma length_term_at area n :
  0 <= n <= len area - nt -> length (term_at area n) = length area.
Proof.
  intros. unfold inv.term_at, nt_bytes in *. destruct NullTerminated; [|reflexivity].
  apply length_splice; cbn [length]; lia.
Qed.

Lemma terminated_term_at area n :
  0 <= n <= len area - nt -> inv.terminated NullTerminated (term_at area n) n.
Proof.
  intros Hn E. unfold inv.term_at, nt_bytes in *. rewrite E in *.
  rewrite lookup_splice by (cbn [length]; lia).
  rewrite Z2Nat.id by lia. cbn [length]. zbool. cbn [andb].
  rewrite Nat.sub_diag. reflexivity.
Qed.

Lemma slice_term_at area n off k :
  0 <= n <= len area - nt -> 0 <= off -> 0 <= k -> off + k <= n ->
  slice (term_at area n) off k = slice area off k.
Proof.
  intros. unfold inv.term_at, nt_bytes in *. destruct NullTerminated; [|reflexivity].
  apply slice_splice_before; cbn [length]; lia.
Qed.

Lemma chars_begin_ptr body : flag body <> 0 -> begin_ptr body = chars body.
Proof.
  intros N. unfold begin_ptr, is_external.
  destruct (Z.eqb_spec (flag body) 0); [contradiction | reflexivity].
Qed.

(** Writing the terminator, as every size mutator ends. *)
Lemma write_terminator h body t area n :
  repr h body t area n ->
  exists h' body',
    (if NullTerminated
     then write_chars h body (ptr_add (begin_ptr body) n) [zero]
     else Ok (h, body)) = Ok (h', body') /\
    repr h' body' t (term_at area n) n /\
    inv.stable h body h' body'.
Proof.
  unfold inv.term_at. destruct NullTerminated; intros R.
  - pose proof (repr_bounds _ R) as [B _]. unfold nt_bytes in B.
    apply (write_chars_repr true); [exact R | lia | cbn [length]; lia].
  - exists h, body. split; [reflexivity|]. split; [exact R | apply stable_refl].
Qed.

Lemma set_size_repr h body t area sz n :
  repr h body t area sz -> 0 <= n <= len area - nt ->
  exists h' body',
    set_size_and_idle_and_set_term NullTerminated h body n = Ok (h', body') /\
    repr h' body' t (term_at area n) n /\
    inv.stable h body h' body'.
Proof.
  intros R Hn. pose proof (repr_bounds _ R) as [B L].
  pose proof (repr_len_area _ R) as La. pose proof (nt_range NullTerminated) as Hnt.
  pose proof (repr_owner _ _ _ _ _ _ R) as O.
  unfold set_size_and_idle_and_set_term.
  pose proof R as (F & _ & T). rewrite F.
  destruct t; cbv beta iota delta [inv.layout] in T; cbv beta iota in La; cbn [CoreType_to_Z]; cbv iota.
  - (* Internal *)
    set (body1 := set_internal_size (u8 n) body).
    assert (R1 : repr h body1 Internal area n).
    { subst body1. split; [autorewrite with fields; exact F|]. split; [lia|].
      cbv beta iota delta [inv.layout]. autorewrite with fields. split; [|tauto].
      wrap_small; lia. }
    assert (S1 : inv.stable h body h body1).
    { split; [|auto]. split; [subst body1; autorewrite with fields; reflexivity|].
      rewrite F. cbn [CoreType_to_Z]. lia. }
    destruct (write_terminator _ _ _ _ _ R1) as (h' & body' & W & R' & S').
    exists h', body'. split; [|split; [exact R' | eapply stable_trans; eassumption]].
    rewrite <- W. unfold internal_buffer_size, sizeof_internal_core.
    rewrite (repr_begin_ptr _ _ _ _ _ _ R1). cbn [ptr_add].
    unfold nt_bytes in *. destruct R1 as (_ & _ & -> & _).
    destruct NullTerminated; zbool; mred; reflexivity.
  - (* Short *)
    destruct T as (E & S & Lc).
    set (body1 := set_cap_size_size (u16 n) body).
    assert (R1 : repr h body1 Short area n).
    { subst body1. split; [autorewrite with fields; exact F|]. split; [lia|].
      cbv beta iota delta [inv.layout]. autorewrite with fields. split; [exact E|]. split; [|exact Lc].
      wrap_small; lia. }
    assert (S1 : inv.stable h body h body1).
    { split; [|auto]. split; subst body1; autorewrite with fields; reflexivity. }
    destruct (write_terminator _ _ _ _ _ R1) as (h' & body' & W & R' & S').
    exists h', body'. split; [|split; [exact R' | eapply stable_trans; eassumption]].
    rewrite <- W. rewrite chars_begin_ptr by (destruct R1 as (-> & _); cbn; lia).
    rewrite <- Lc. zbool. mred. reflexivity.
  - (* Median *)
    pose proof (repr_hdr_ok _ R ltac:(tauto)) as H.
    rewrite (set_size_to_buffer_header_ok _ H) by lia. mred.
    set (h1 := <[c_str_ptr body - 8 := inv.hdr_block (len area + 8) n area]> h).
    assert (H1 : inv.hdr_ok NullTerminated h1 body area n).
    { destruct H as (Hf & _ & Hl & _). split; [exact Hf|].
      split; [apply lookup_insert_eq|]. split; [exact Hl | lia]. }
    rewrite (get_idle_capacity_from_buffer_header_ok _ H1). mred.
    set (body1 := set_idle_or_ignore (len area - nt - n) body).
    assert (R1 : repr h1 body1 Median area n).
    { subst body1. split; [autorewrite with fields; exact F|]. split; [lia|].
      cbv beta iota delta [inv.layout]. autorewrite with fields. split; [apply lookup_insert_eq|].
      split; [tauto | reflexivity]. }
    assert (S1 : inv.stable h body h1 body1).
    { split; [split; subst body1; autorewrite with fields; reflexivity|].
      intros k N. rewrite O in N. apply lookup_insert_ne. congruence. }
    destruct (write_terminator _ _ _ _ _ R1) as (h' & body' & W & R' & S').
    exists h', body'. split; [|split; [exact R' | eapply stable_trans; eassumption]].
    rewrite <- W. rewrite chars_begin_ptr by (destruct R1 as (-> & _); cbn; lia).
    reflexivity.
  - (* Long *)
    pose proof (repr_hdr_ok _ R ltac:(tauto)) as H.
    rewrite (set_size_to_buffer_header_ok _ H) by lia. mred.
    set (h1 := <[c_str_ptr body - 8 := inv.hdr_block (len area + 8) n area]> h).
    assert (R1 : repr h1 body Long area n).
    { split; [exact F|]. split; [lia|].
      split; [apply lookup_insert_eq | tauto]. }
    assert (S1 : inv.stable h body h1 body).
    { split; [apply same_buffer_refl|].
      intros k N. rewrite O in N. apply lookup_insert_ne. congruence. }
    destruct (write_terminator _ _ _ _ _ R1) as (h' & body' & W & R' & S').
    exists h', body'. split; [|split; [exact R' | eapply stable_trans; eassumption]].
    rewrite <- W. rewrite chars_begin_ptr by (destruct R1 as (-> & _); cbn; lia).
    reflexivity.
Qed.

Lemma hdr_ok_same_buffer h body body1 area sz :
  inv.hdr_ok NullTerminated h body area sz -> inv.same_buffer body body1 ->
  inv.hdr_ok NullTerminated h body1 area sz.
Proof.
  intros (F & E & L) [Sf Sp]. split; [lia|]. rewrite Sp by lia. split; assumption.
Qed.

Lemma idle_of_le t area sz :
  0 <= sz <= len area - nt ->
  0 <= inv.idle_of NullTerminated t area sz <= len area - nt - sz.
Proof.
  intros. unfold inv.idle_of. destruct t; try lia.
  split; [apply Z.mod_pos_bound; lia | apply Z.mod_le; lia].
Qed.

Lemma increase_size_repr h body t area sz d :
  repr h body t area sz -> 0 <= d <= inv.idle_of NullTerminated t area sz ->
  exists h' body',
    increase_size_and_idle_and_set_term NullTerminated h body d = Ok (h', body') /\
    repr h' body' t (term_at area (sz + d)) (sz + d) /\
    inv.stable h body h' body'.
Proof.
  intros R Hd. pose proof (repr_bounds _ R) as [B L].
  pose proof (repr_len_area _ R) as La. pose proof (nt_range NullTerminated) as Hnt.
  pose proof (repr_owner _ _ _ _ _ _ R) as O.
  pose proof (idle_of_le t area sz B) as Hi.
  unfold increase_size_and_idle_and_set_term.
  rewrite (idle_capacity_repr _ R).
  pose proof R as (F & _ & T). rewrite F.
  destruct t; cbv beta iota delta [inv.layout] in T; cbv beta iota in La; cbn [CoreType_to_Z]; cbv iota.
  - (* Internal *)
    destruct T as (S & D). rewrite S.
    set (body1 := set_internal_size (sz + d) body).
    assert (R1 : repr h body1 Internal area (sz + d)).
    { subst body1. split; [autorewrite with fields; exact F|]. split; [lia|].
      cbv beta iota delta [inv.layout]. autorewrite with fields. split; [|exact D]. wrap_small; lia. }
    assert (S1 : inv.stable h body h body1).
    { split; [|auto]. split; [subst body1; autorewrite with fields; reflexivity|].
      rewrite F. cbn [CoreType_to_Z]. lia. }
    destruct (write_terminator _ _ _ _ _ R1) as (h' & body' & W & R' & S').
    exists h', body'. split; [|split; [exact R' | eapply stable_trans; eassumption]].
    rewrite <- W. unfold internal_buffer_size, sizeof_internal_core.
    rewrite (repr_begin_ptr _ _ _ _ _ _ R1). cbn [ptr_add].
    unfold nt_bytes in *. destruct R1 as (_ & _ & -> & _).
    destruct NullTerminated; wrap_small; zbool; mred; reflexivity.
  - (* Short *)
    destruct T as (E & S & Lc). rewrite S.
    set (body1 := set_cap_size_size (sz + d) body).
    assert (R1 : repr h body1 Short area (sz + d)).
    { subst body1. split; [autorewrite with fields; exact F|]. split; [lia|].
      cbv beta iota delta [inv.layout]. autorewrite with fields. split; [exact E|]. split; [|exact Lc].
      wrap_small; lia. }
    assert (S1 : inv.stable h body h body1).
    { split; [|auto]. split; subst body1; autorewrite with fields; reflexivity. }
    destruct (write_terminator _ _ _ _ _ R1) as (h' & body' & W & R' & S').
    exists h', body'. split; [|split; [exact R' | eapply stable_trans; eassumption]].
    rewrite <- W. rewrite chars_begin_ptr by (destruct R1 as (-> & _); cbn; lia).
    destruct R1 as (_ & _ & _ & -> & _). mred. zbool. mred. reflexivity.
  - (* Median *)
    destruct T as (E & Lm & I). rewrite I. mred. zbool. mred.
    set (body1 := set_idle_or_ignore _ body).
    assert (Sb : inv.same_buffer body body1).
    { split; subst body1; autorewrite with fields; reflexivity. }
    pose proof (hdr_ok_same_buffer _ _ _ _ _ (repr_hdr_ok _ R ltac:(tauto)) Sb) as H1.
    rewrite (increase_size_to_buffer_header_ok _ H1) by lia. mred.
    set (h1 := <[c_str_ptr body1 - 8 := _]> h).
    assert (R1 : repr h1 body1 Median area (sz + d)).
    { split; [destruct Sb as [-> _]; exact F|]. split; [lia|].
      split; [apply lookup_insert_eq|]. split; [exact Lm|].
      subst body1. autorewrite with fields. unfold inv.idle_of in Hd.
      rewrite Zminus_mod_idemp_l. f_equal. lia. }
    assert (S1 : inv.stable h body h1 body1).
    { split; [exact Sb|]. intros k N. rewrite O in N. subst h1.
      destruct Sb as [_ ->]; [|rewrite F; cbn [CoreType_to_Z]; lia].
      apply lookup_insert_ne. congruence. }
    destruct (write_terminator _ _ _ _ _ R1) as (h' & body' & W & R' & S').
    exists h', body'. split; [|split; [exact R' | eapply stable_trans; eassumption]].
    rewrite <- W. rewrite chars_begin_ptr by (destruct R1 as (-> & _); cbn; lia).
    reflexivity.
  - (* Long *)
    destruct T as (E & Lm). unfold inv.idle_of in *. mred. zbool. mred.
    pose proof (repr_hdr_ok _ R ltac:(tauto)) as H1.
    rewrite (increase_size_to_buffer_header_ok _ H1) by lia. mred.
    set (h1 := <[c_str_ptr body - 8 := _]> h).
    assert (R1 : repr h1 body Long area (sz + d)).
    { split; [exact F|]. split; [lia|].
      split; [apply lookup_insert_eq | exact Lm]. }
    assert (S1 : inv.stable h body h1 body).
    { split; [apply same_buffer_refl|]. intros k N. rewrite O in N.
      apply lookup_insert_ne. congruence. }
    destruct (write_terminator _ _ _ _ _ R1) as (h' & body' & W & R' & S').
    exists h', body'. split; [|split; [exact R' | eapply stable_trans; eassumption]].
    rewrite <- W. rewrite chars_begin_ptr by (destruct R1 as (-> & _); cbn; lia).
    reflexivity.
Qed.

Lemma decrease_size_repr h body t area sz d :
  repr h body t area sz -> 0 <= d <= sz ->
  exists h' body',
    decrease_size_and_idle_and_set_term NullTerminated h body d = Ok (h', body') /\
    repr h' body' t (term_at area (sz - d)) (sz - d) /\
    inv.stable h body h' body'.
Proof.
  intros R Hd. pose proof (repr_bounds _ R) as [B L].
  pose proof (repr_len_area _ R) as La. pose proof (nt_range NullTerminated) as Hnt.
  pose proof (repr_owner _ _ _ _ _ _ R) as O.
  unfold decrease_size_and_idle_and_set_term.
  pose proof R as (F & _ & T). rewrite F.
  destruct t; cbv beta iota delta [inv.layout] in T; cbv beta iota in La; cbn [CoreType_to_Z]; cbv iota.
  - (* Internal *)
    destruct T as (S & D). rewrite S.
    set (body1 := set_internal_size (sz - d) body).
    assert (R1 : repr h body1 Internal area (sz - d)).
    { subst body1. split; [autorewrite with fields; exact F|]. split; [lia|].
      cbv beta iota delta [inv.layout]. autorewrite with fields. split; [|exact D]. wrap_small; lia. }
    assert (S1 : inv.stable h body h body1).
    { split; [|auto]. split; [subst body1; autorewrite with fields; reflexivity|].
      rewrite F. cbn [CoreType_to_Z]. lia. }
    destruct (write_terminator _ _ _ _ _ R1) as (h' & body' & W & R' & S').
    exists h', body'. split; [|split; [exact R' | eapply stable_trans; eassumption]].
    rewrite <- W.
    rewrite (repr_begin_ptr _ _ _ _ _ _ R1). cbn [ptr_add].
    destruct R1 as (_ & _ & -> & _).
    zbool; mred; reflexivity.
  - (* Short *)
    destruct T as (E & S & Lc). rewrite S.
    set (body1 := set_cap_size_size (sz - d) body).
    assert (R1 : repr h body1 Short area (sz - d)).
    { subst body1. split; [autorewrite with fields; exact F|]. split; [lia|].
      cbv beta iota delta [inv.layout]. autorewrite with fields. split; [exact E|]. split; [|exact Lc].
      wrap_small; lia. }
    assert (S1 : inv.stable h body h body1).
    { split; [|auto]. split; subst body1; autorewrite with fields; reflexivity. }
    destruct (write_terminator _ _ _ _ _ R1) as (h' & body' & W & R' & S').
    exists h', body'. split; [|split; [exact R' | eapply stable_trans; eassumption]].
    rewrite <- W. rewrite chars_begin_ptr by (destruct R1 as (-> & _); cbn; lia).
    destruct R1 as (_ & _ & _ & -> & _). zbool. mred. reflexivity.
  - (* Median *)
    destruct T as (E & Lm & I). rewrite I.
    pose proof (repr_hdr_ok _ R ltac:(tauto)) as H0.
    rewrite (size_from_buffer_header_ok _ H0). mred. zbool. mred.
    set (body1 := set_idle_or_ignore _ body).
    assert (Sb : inv.same_buffer body body1).
    { split; subst body1; autorewrite with fields; reflexivity. }
    pose proof (hdr_ok_same_buffer _ _ _ _ _ H0 Sb) as H1.
    rewrite (decrease_size_to_buffer_header_ok _ H1) by lia. mred.
    set (h1 := <[c_str_ptr body1 - 8 := _]> h).
    assert (R1 : repr h1 body1 Median area (sz - d)).
    { split; [destruct Sb as [-> _]; exact F|]. split; [lia|].
      split; [apply lookup_insert_eq|]. split; [exact Lm|].
      subst body1. autorewrite with fields.
      rewrite Zplus_mod_idemp_l. f_equal. lia. }
    assert (S1 : inv.stable h body h1 body1).
    { split; [exact Sb|]. intros k N. rewrite O in N. subst h1.
      destruct Sb as [_ ->]; [|rewrite F; cbn [CoreType_to_Z]; lia].
      apply lookup_insert_ne. congruence. }
    destruct (write_terminator _ _ _ _ _ R1) as (h' & body' & W & R' & S').
    exists h', body'. split; [|split; [exact R' | eapply stable_trans; eassumption]].
    rewrite <- W. rewrite chars_begin_ptr by (destruct R1 as (-> & _); cbn; lia).
    reflexivity.
  - (* Long *)
    destruct T as (E & Lm).
    pose proof (repr_hdr_ok _ R ltac:(tauto)) as H1.
    rewrite (size_from_buffer_header_ok _ H1). mred. zbool. mred.
    rewrite (decrease_size_to_buffer_header_ok _ H1) by lia. mred.
    set (h1 := <[c_str_ptr body - 8 := _]> h).
    assert (R1 : repr h1 body Long area (sz - d)).
    { split; [exact F|]. split; [lia|].
      split; [apply lookup_insert_eq | exact Lm]. }
    assert (S1 : inv.stable h body h1 body).
    { split; [apply same_buffer_refl|]. intros k N. rewrite O in N.
      apply lookup_insert_ne. congruence. }
    destruct (write_terminator _ _ _ _ _ R1) as (h' & body' & W & R' & S').
    exists h', body'. split; [|split; [exact R' | eapply stable_trans; eassumption]].
    rewrite <- W. rewrite chars_begin_ptr by (destruct R1 as (-> & _); cbn; lia).
    reflexivity.
Qed.

End NullTerminated.
End core_resize.

(** ** The float product *)

Lemma round_to_float_small x : 0 <= x < 2 ^ 24 -> round_to_float x = x.
Proof.
  intros Hx. unfold round_to_float.
  destruct (Z.eq_dec x 0) as [->|N]; [reflexivity|].
  assert (Z.log2 x < 24) by (apply Z.log2_lt_pow2; lia).
  zbool. reflexivity.
Qed.

Lemma round_to_float_lower x : 0 <= x -> 2 ^ 24 * (x - round_to_float x) <= x.
Proof.
  intros Hx. unfold round_to_float.
  destruct (Z.leb_spec (Z.log2 x - 23) 0) as [|He]; [lia|].
  set (e := Z.log2 x - 23) in *.
  assert (Hl : 2 ^ Z.log2 x <= x) by (apply Z.log2_spec; destruct (Z.eq_dec x 0); subst; cbn in *; lia).
  replace (Z.log2 x) with (24 + (e - 1)) in Hl by lia.
  rewrite Z.pow_add_r in Hl by lia.
  rewrite Z.shiftr_div_pow2, Z.land_ones, !Z.shiftl_mul_pow2 by lia.
  replace (2 ^ e) with (2 * 2 ^ (e - 1)) by (rewrite <- Z.pow_succ_r by lia; f_equal; lia).
  assert (Hp : 0 < 2 ^ (e - 1)) by (apply Z.pow_pos_nonneg; lia).
  set (P := 2 ^ (e - 1)) in *.
  pose proof (Z.div_mod x (2 * P) ltac:(lia)) as Hdm.
  pose proof (Z.mod_pos_bound x (2 * P) ltac:(lia)) as Hm.
  set (q := x / (2 * P)) in *. set (r := x mod (2 * P)) in *.
  rewrite Z.mul_1_l.
  destruct (Z.ltb_spec P r); cbn [orb].
  - nia.
  - destruct (Z.eqb_spec r P); cbn [andb]; [destruct (Z.odd q)|]; nia.
Qed.

Lemma mul_growth_lower x : 0 <= x -> x <= mul_growth x.
Proof.
  intros Hx. unfold mul_growth.
  pose proof (round_to_float_lower x Hx) as H1.
  assert (Hy : 0 <= round_to_float x) by lia.
  pose proof (round_to_float_lower (3 * round_to_float x) ltac:(lia)) as H2.
  apply Z.div_le_lower_bound; lia.
Qed.

Lemma mul_growth_small x : 0 <= x -> 3 * x < 2 ^ 24 -> mul_growth x = 3 * x / 2.
Proof.
  intros. unfold mul_growth. rewrite (round_to_float_small x) by lia.
  rewrite round_to_float_small by lia. reflexivity.
Qed.

(** ** The selector *)

Module selector.
Import malloc_core small_string_buffer.
Section NullTerminated.
Context (NullTerminated : bool).

Abbreviation nt := (nt_bytes NullTerminated).

Lemma header_size_eq : median_long_buffer_header_size NullTerminated = 8 + nt.
Proof. unfold median_long_buffer_header_size, nt_bytes. destruct NullTerminated; reflexivity. Qed.

Lemma internal_buffer_size_eq : internal_buffer_size NullTerminated = 7 - nt.
Proof. unfold internal_buffer_size, nt_bytes. destruct NullTerminated; reflexivity. Qed.

Lemma max_short_buffer_size_eq : max_short_buffer_size NullTerminated = 256 - nt.
Proof. unfold max_short_buffer_size, nt_bytes. destruct NullTerminated; reflexivity. Qed.

Lemma max_long_buffer_size_eq : max_long_buffer_size NullTerminated = 2 ^ 32 - 9 - nt.
Proof. unfold max_long_buffer_size. rewrite header_size_eq. lia. Qed.

Lemma max_median_buffer_size_eq : max_median_buffer_size = 16383.
Proof. reflexivity. Qed.

Lemma round_up_8_bounds n : n <= round_up_8 n < n + 8 /\ round_up_8 n mod 8 = 0.
Proof.
  unfold round_up_8. split; [|rewrite Z.mul_comm; apply Z_mod_mult].
  pose proof (Z.div_mod (n + 7) 8 ltac:(lia)).
  pose proof (Z.mod_pos_bound (n + 7) 8 ltac:(lia)). lia.
Qed.

(** The selector, case by case. *)
Lemma calculate_new_buffer_size_eq size :
  0 <= size < 2 ^ 64 ->
  calculate_new_buffer_size NullTerminated size =
  if size <=? 7 - nt
  then Ok {| buffer_size := 7 - nt; core_type := Internal |}
  else if size <=? 256 - nt
  then Ok {| buffer_size := round_up_8 (size + nt); core_type := Short |}
  else if size <=? 16383
  then Ok {| buffer_size := round_up_8 (size + 8 + nt); core_type := Median |}
  else if size <=? 2 ^ 32 - 9 - nt
  then Ok {| buffer_size := round_up_8 (size + 8 + nt) mod 2 ^ 32; core_type := Long |}
  else Abort.
Proof.
  intros Hs. unfold calculate_new_buffer_size.
  rewrite header_size_eq, internal_buffer_size_eq, max_short_buffer_size_eq,
    max_long_buffer_size_eq, max_median_buffer_size_eq.
  pose proof (round_up_8_bounds (size + nt)).
  pose proof (round_up_8_bounds (size + 8 + nt)).
  assert (Hnt : 0 <= nt <= 1) by (unfold nt_bytes; destruct NullTerminated; lia).
  destruct (Z.leb_spec size (7 - nt)); [reflexivity|].
  destruct (Z.leb_spec size (256 - nt)).
  { unfold nt_bytes in *. destruct NullTerminated; do 2 f_equal;
      rewrite AlignUpTo_8 by lia; unfold u32; rewrite ?Z.add_0_r in *;
      apply Z.mod_small; lia. }
  destruct (Z.leb_spec size 16383).
  { do 2 f_equal. rewrite AlignUpTo_8 by lia. unfold u32.
    rewrite Z.add_assoc. apply Z.mod_small. lia. }
  destruct (Z.leb_spec size (2 ^ 32 - 9 - nt)); mred; [|reflexivity].
  do 2 f_equal. rewrite AlignUpTo_8 by lia. unfold u32.
  rewrite Z.add_assoc. reflexivity.
Qed.

Lemma calculate_new_buffer_size_fits size ts :
  0 <= size < 2 ^ 64 ->
  calculate_new_buffer_size NullTerminated size = Ok ts ->
  inv.fits NullTerminated ts size \/
  (core_type ts = Long /\ buffer_size ts = 0 /\ 2 ^ 32 - 15 - nt <= size).
Proof.
  intros Hs. rewrite calculate_new_buffer_size_eq by exact Hs.
  pose proof (round_up_8_bounds (size + nt)).
  pose proof (round_up_8_bounds (size + 8 + nt)).
  assert (Hnt : 0 <= nt <= 1) by (unfold nt_bytes; destruct NullTerminated; lia).
  unfold inv.fits. rewrite internal_buffer_size_eq.
  destruct (Z.leb_spec size (7 - nt)); [intros [= <-]; left; cbn; lia|].
  destruct (Z.leb_spec size (256 - nt)).
  { intros [= <-]. left. cbn [core_type buffer_size].
    unfold round_up_8 in *. 
    pose proof (Z.div_mod (size + nt + 7) 8 ltac:(lia)).
    pose proof (Z.mod_pos_bound (size + nt + 7) 8 ltac:(lia)). lia. }
  destruct (Z.leb_spec size 16383).
  { intros [= <-]. left. cbn [core_type buffer_size].
    unfold round_up_8 in *.
    pose proof (Z.div_mod (size + 8 + nt + 7) 8 ltac:(lia)).
    pose proof (Z.mod_pos_bound (size + 8 + nt + 7) 8 ltac:(lia)). lia. }
  destruct (Z.leb_spec size (2 ^ 32 - 9 - nt)); [|discriminate].
  intros [= <-]. cbn [core_type buffer_size].
  unfold round_up_8 in *.
  pose proof (Z.div_mod (size + 8 + nt + 7) 8 ltac:(lia)).
  pose proof (Z.mod_pos_bound (size + 8 + nt + 7) 8 ltac:(lia)).
  destruct (Z_lt_le_dec (size + 8 + nt + 7) (2 ^ 32)).
  - left. rewrite Z.mod_small by lia. lia.
  - right. split; [reflexivity|]. split; [|lia].
    replace (8 * ((size + 8 + nt + 7) / 8)) with (2 ^ 32) by lia. reflexivity.
Qed.

Lemma calculate_new_buffer_size_tier size ts :
  0 <= size < 2 ^ 64 ->
  calculate_new_buffer_size NullTerminated size = Ok ts ->
  match core_type ts with
  | Internal => size <= 7 - nt
  | Short => 7 - nt < size <= 256 - nt
  | Median => 256 - nt < size <= 16383
  | Long => 16383 < size
  end.
Proof.
  intros Hs. rewrite calculate_new_buffer_size_eq by exact Hs.
  destruct (Z.leb_spec size (7 - nt)); [intros [= <-]; cbn; lia|].
  destruct (Z.leb_spec size (256 - nt)); [intros [= <-]; cbn; lia|].
  destruct (Z.leb_spec size 16383); [intros [= <-]; cbn; lia|].
  destruct (Z.leb_spec size (2 ^ 32 - 9 - nt)); [intros [= <-]; cbn; lia|discriminate].
Qed.

End NullTerminated.
End selector.

(** ** Allocation *)

Lemma length_fresh_block c n : 0 <= n -> len (fresh_block c n) = n.
Proof. intros. unfold fresh_block. rewrite length_map, length_seq. lia. Qed.

Lemma malloc_ok c h n :
  inv.valid_chunk c h n ->
  malloc c h n = Ok (chunk_addr c, <[chunk_addr c := fresh_block c n]> h).
Proof.
  intros (E & P & Q & A). unfold malloc.
  rewrite bool_decide_eq_true_2 by exact E. zbool. reflexivity.
Qed.

Lemma malloc_inv c h n p h' :
  malloc c h n = Ok (p, h') ->
  inv.valid_chunk c h n /\ p = chunk_addr c /\
  h' = <[chunk_addr c := fresh_block c n]> h.
Proof.
  unfold malloc, inv.valid_chunk.
  destruct (bool_decide_reflect (h !! chunk_addr c = None)); [|discriminate].
  destruct (Z.ltb_spec 0 (chunk_addr c)); [|discriminate].
  destruct (Z.ltb_spec (chunk_addr c + n) (2 ^ 47)); [|discriminate].
  destruct (Z.eqb_spec (chunk_addr c mod 16) 0); [|discriminate].
  cbn [andb]. intros [= <- <-]. auto.
Qed.

Lemma block_read_inv (blk : list byte) off n bs :
  block_read blk off n = Ok bs ->
  0 <= off /\ 0 <= n /\ off + n <= len blk /\ bs = slice blk off n.
Proof.
  unfold block_read.
  destruct (Z.leb_spec 0 off); [|discriminate].
  destruct (Z.leb_spec 0 n); [|discriminate].
  destruct (Z.leb_spec (off + n) (len blk)); [|discriminate].
  cbn [andb]. intros [= <-]. auto.
Qed.

Lemma block_write_inv (blk bs : list byte) off blk' :
  block_write blk off bs = Ok blk' ->
  0 <= off /\ off + len bs <= len blk /\ blk' = splice blk off bs.
Proof.
  unfold block_write.
  destruct (Z.leb_spec 0 off); [|discriminate].
  destruct (Z.leb_spec (off + len bs) (len blk)); [|discriminate].
  cbn [andb]. intros [= <-]. auto.
Qed.

Lemma load_bytes_inv (h : heap) p blk off n bs :
  h !! p = Some blk -> load_bytes h p off n = Ok bs ->
  0 <= off /\ 0 <= n /\ off + n <= len blk /\ bs = slice blk off n.
Proof. intros E. unfold load_bytes. rewrite E. apply block_read_inv. Qed.

Lemma store_bytes_inv (h : heap) p blk off bs h' :
  h !! p = Some blk -> store_bytes h p off bs = Ok h' ->
  0 <= off /\ off + len bs <= len blk /\ h' = <[p := splice blk off bs]> h.
Proof.
  intros E. unfold store_bytes. rewrite E.
  destruct (block_write blk off bs) as [blk'| |] eqn:W; try discriminate.
  apply block_write_inv in W as (? & ? & ->). cbn. intros [= <-]. auto.
Qed.

(** Writing the two fields of a header at the start of a block. *)
Lemma store_header (h : heap) p blk cap sz :
  h !! p = Some blk -> 8 <= len blk ->
  (h1 ← store32 h p 0 cap; store32 h1 p 4 sz)
  = Ok (<[p := inv.hdr_block cap sz (drop 8 blk)]> h).
Proof.
  intros E Hl. unfold store32.
  rewrite (store_bytes_ok _ _ _ _ _ E) by (rewrite ?length_le_split; lia). mred.
  erewrite store_bytes_ok;
    [| apply lookup_insert_eq | lia
     | rewrite length_splice by (rewrite ?length_le_split; lia);
       rewrite length_le_split; lia ].
  rewrite insert_insert_eq. apply (f_equal Ok), (f_equal (fun b => <[p:=b]> h)).
  unfold inv.hdr_block.
  assert (E1 : splice blk 0 (le_split 4 cap) = le_split 4 cap ++ drop 4 blk).
  { unfold splice. rewrite length_le_split. reflexivity. }
  rewrite E1. change 4 with (4 + 0) at 1.
  rewrite splice_app_r by (rewrite ?length_le_split; lia). f_equal.
  unfold splice. rewrite length_le_split. cbn [Z.to_nat take app Nat.add].
  rewrite drop_drop. reflexivity.
Qed.

Lemma store_header_inv (h : heap) p blk cap sz h1 h2 :
  h !! p = Some blk -> store32 h p 0 cap = Ok h1 -> store32 h1 p 4 sz = Ok h2 ->
  8 <= len blk.
Proof.
  intros E S1 S2. unfold store32 in *.
  apply (store_bytes_inv _ _ _ _ _ _ E) in S1 as (_ & L1 & ->).
  apply (store_bytes_inv _ _ (splice blk 0 (le_split 4 cap))) in S2 as (_ & L2 & _);
    [|apply lookup_insert_eq].
  rewrite length_splice in L2 by lia. rewrite length_le_split in *. lia.
Qed.

Module alloc_specs.
Import malloc_core core_facts core_specs core_access core_resize small_string_buffer selector.
Section NullTerminated.
Context (NullTerminated : bool).

Abbreviation nt := (nt_bytes NullTerminated).
Abbreviation repr := (inv.repr NullTerminated).
Abbreviation shape := (inv.shape NullTerminated).

Lemma mod_mod_pow (x a b : Z) : 0 <= b <= a -> (x mod 2 ^ a) mod 2 ^ b = x mod 2 ^ b.
Proof.
  intros. apply Z.mod_mod_divide.
  exists (2 ^ (a - b)). rewrite <- Z.pow_add_r by lia. f_equal. lia.
Qed.

Lemma allocate_new_external_buffer_ok c h ts old n :
  inv.valid_chunk c h (buffer_size ts) -> inv.fits NullTerminated ts n ->
  core_type ts <> Internal -> 0 <= old < 2 ^ 32 ->
  (core_type ts = Median -> old <= buffer_size ts - 8 - nt) ->
  exists h' ext area,
    allocate_new_external_buffer NullTerminated c h ts old = Ok (h', ext) /\
    shape h' ext (core_type ts) area (inv.stored_size (core_type ts) old) /\
    n <= len area - nt /\
    len area = buffer_size ts - match core_type ts with Short => 0 | _ => 8 end /\
    inv.owner ext = Some (chunk_addr c) /\
    (forall k, k <> chunk_addr c -> h' !! k = h !! k).
Proof.
  intros V Fi Ni Ho Hm. pose proof V as (Vn & Vp & Vq & Va).
  assert (Hnt : 0 <= nt <= 1) by (unfold nt_bytes; destruct NullTerminated; lia).
  unfold allocate_new_external_buffer. rewrite (malloc_ok _ _ _ V).
  destruct ts as [bs t]. cbn [core_type buffer_size] in *.
  unfold inv.fits in Fi. cbn [core_type buffer_size] in Fi.
  set (p := chunk_addr c) in *.
  set (h0 := <[p := fresh_block c bs]> h).
  assert (E0 : h0 !! p = Some (fresh_block c bs)) by apply lookup_insert_eq.
  destruct t; [congruence | | |]; mred.
  - (* Short *)
    destruct Fi as (Hb & Hm8 & Hn).
    rewrite Hm8. mred.
    exists h0, (external_cap_size p (u8 (bs / 8 - 1)) (u16 old) kIsShort),
      (fresh_block c bs).
    pose proof (length_fresh_block c bs ltac:(lia)) as Lf.
    pose proof (Z.div_mod bs 8 ltac:(lia)) as Hdm.
    split; [reflexivity|].
    assert (Ep : c_str_ptr (external_cap_size p (u8 (bs / 8 - 1)) (u16 old) kIsShort) = p)
      by (apply ptr_external_cap_size; lia).
    split; [|split; [lia|split; [lia|split]]].
    + split; [autorewrite with fields; reflexivity|].
      split; [cbn [inv.stored_size]; apply Z.mod_pos_bound; lia|].
      cbv beta iota delta [inv.layout]. rewrite Ep. autorewrite with fields.
      split; [exact E0|]. split.
      * unfold u16, inv.stored_size. apply mod_mod_pow. lia.
      * rewrite Lf. wrap_small; lia.
    + unfold inv.owner. autorewrite with fields. rewrite Ep. reflexivity.
    + intros k Nk. apply lookup_insert_ne. congruence.
  - (* Median *)
    destruct Fi as (Hb & Hn). specialize (Hm eq_refl).
    pose proof (store_header h0 p _ bs old E0
                  ltac:(rewrite length_fresh_block; lia)) as Sh.
    cbv beta iota delta [mbind result_bind] in Sh.
    destruct (store32 h0 p 0 bs) as [h1| |]; try discriminate.
    rewrite Sh. mred.
    unfold calculate_median_long_real_idle_capacity, sizeof_capacity_and_size.
    set (area := drop 8 (fresh_block c bs)).
    assert (La : len area = bs - 8).
    { subst area. rewrite length_drop.
      pose proof (length_fresh_block c bs ltac:(lia)). lia. }
    set (idle := u32 (bs - 8 - nt - old)).
    assert (Ei : (if NullTerminated
                  then Assert (8 + 1 + old <=? bs);; Ok (u32 (bs - 8 - 1 - old))
                  else Assert (8 + old <=? bs);; Ok (u32 (bs - 8 - old)))
                 = Ok idle).
    { subst idle. unfold nt_bytes in *.
      destruct NullTerminated; zbool; mred; do 2 f_equal; lia. }
    rewrite Ei. mred.
    set (ext := external_idle (p + 8) (u16 idle) kIsMedian).
    assert (Ep : c_str_ptr ext = p + 8) by (apply ptr_external_idle; lia).
    exists (<[p := inv.hdr_block bs old area]> h0), ext, area.
    split; [reflexivity|]. split; [|split; [lia|split; [lia|split]]].
    + split; [subst ext; autorewrite with fields; reflexivity|].
      split; [cbn [inv.stored_size]; lia|].
      cbv beta iota delta [inv.layout inv.stored_size]. rewrite Ep, La.
      replace (p + 8 - 8) with p by lia. replace (bs - 8 + 8) with bs by lia.
      split; [apply lookup_insert_eq|]. split; [lia|].
      subst ext idle. autorewrite with fields.
      unfold u16. rewrite mod_mod_pow by lia. unfold u32.
      rewrite (Z.mod_small (bs - 8 - nt - old) (2 ^ 32)) by lia. f_equal; lia.
    + unfold inv.owner. rewrite Ep. subst ext. autorewrite with fields.
      cbn. f_equal; lia.
    + intros k Nk. subst h0. rewrite !lookup_insert_ne by congruence. reflexivity.
  - (* Long *)
    destruct Fi as (Hb & Hn).
    pose proof (store_header h0 p _ bs old E0
                  ltac:(rewrite length_fresh_block; lia)) as Sh.
    cbv beta iota delta [mbind result_bind] in Sh.
    destruct (store32 h0 p 0 bs) as [h1| |]; try discriminate.
    rewrite Sh. mred. unfold sizeof_capacity_and_size.
    set (area := drop 8 (fresh_block c bs)).
    assert (La : len area = bs - 8).
    { subst area. rewrite length_drop.
      pose proof (length_fresh_block c bs ltac:(lia)). lia. }
    set (ext := external_idle (p + 8) 0 kIsLong).
    assert (Ep : c_str_ptr ext = p + 8) by (apply ptr_external_idle; lia).
    exists (<[p := inv.hdr_block bs old area]> h0), ext, area.
    split; [reflexivity|]. split; [|split; [lia|split; [lia|split]]].
    + split; [subst ext; autorewrite with fields; reflexivity|].
      split; [cbn [inv.stored_size]; lia|].
      cbv beta iota delta [inv.layout inv.stored_size]. rewrite Ep, La.
      replace (p + 8 - 8) with p by lia. replace (bs - 8 + 8) with bs by lia.
      split; [apply lookup_insert_eq|]. lia.
    + unfold inv.owner. rewrite Ep. subst ext. autorewrite with fields.
      cbn. f_equal; lia.
    + intros k Nk. subst h0. rewrite !lookup_insert_ne by congruence. reflexivity.
Qed.

Lemma allocate_new_external_buffer_inv c h ts old n h' ext :
  allocate_new_external_buffer NullTerminated c h ts old = Ok (h', ext) ->
  inv.fits NullTerminated ts n \/ (core_type ts = Long /\ buffer_size ts = 0) ->
  0 <= old < 2 ^ 32 ->
  inv.valid_chunk c h (buffer_size ts) /\ inv.fits NullTerminated ts n /\
  core_type ts <> Internal /\
  (core_type ts = Median -> old <= buffer_size ts - 8 - nt).
Proof.
  intros A Fi Ho. unfold allocate_new_external_buffer in A.
  destruct ts as [bs t]. cbn [core_type buffer_size] in *.
  destruct t; [discriminate | | |].
  - destruct Fi as [Fi|[? _]]; [|discriminate].
    pose proof Fi as (_ & Hm8 & _). cbn [core_type buffer_size] in Hm8.
    rewrite Hm8 in A. mred_in A.
    destruct (malloc c h bs) as [[p h0]| |] eqn:M; try discriminate.
    apply malloc_inv in M as (V & _ & _).
    split; [exact V|]. split; [exact Fi|]. split; discriminate.
  - destruct Fi as [Fi|[? _]]; [|discriminate]. mred_in A.
    destruct (malloc c h bs) as [[p h0]| |] eqn:M; try discriminate.
    apply malloc_inv in M as (V & -> & ->).
    destruct (store32 _ _ 0 bs) as [h1| |] eqn:S1; try discriminate.
    destruct (store32 h1 _ 4 old) as [h2| |] eqn:S2; try discriminate.
    unfold calculate_median_long_real_idle_capacity, sizeof_capacity_and_size in A.
    split; [exact V|]. split; [exact Fi|]. split; [discriminate|]. intros _.
    unfold nt_bytes. destruct NullTerminated; mred_in A.
    + destruct (Z.leb_spec (8 + 1 + old) bs); [lia | discriminate].
    + destruct (Z.leb_spec (8 + old) bs); [lia | discriminate].
  - mred_in A.
    destruct (malloc c h bs) as [[p h0]| |] eqn:M; try discriminate.
    apply malloc_inv in M as (V & -> & ->).
    destruct (store32 _ _ 0 bs) as [h1| |] eqn:S1; try discriminate.
    destruct (store32 h1 _ 4 old) as [h2| |] eqn:S2; try discriminate.
    pose proof (store_header_inv _ _ _ _ _ _ _ (lookup_insert_eq _ _ _) S1 S2) as L8.
    destruct Fi as [Fi|[_ Hz]].
    + split; [exact V|]. split; [exact Fi|]. split; discriminate.
    + subst bs. rewrite length_fresh_block in L8 by lia. lia.
Qed.

(** What a successful allocation gives its caller. *)
Lemma allocate_new_external_buffer_post c h ts old n h' ext :
  allocate_new_external_buffer NullTerminated c h ts old = Ok (h', ext) ->
  inv.fits NullTerminated ts n \/ (core_type ts = Long /\ buffer_size ts = 0) ->
  0 <= old < 2 ^ 32 ->
  exists area,
    shape h' ext (core_type ts) area (inv.stored_size (core_type ts) old) /\
    n <= len area - nt /\
    (core_type ts = Median -> old <= len area - nt) /\
    core_type ts <> Internal /\
    inv.owner ext = Some (chunk_addr c) /\
    h !! chunk_addr c = None /\
    (forall k, k <> chunk_addr c -> h' !! k = h !! k) /\
    len area = buffer_size ts - match core_type ts with Short => 0 | _ => 8 end.
Proof.
  intros A Fi Ho.
  destruct (allocate_new_external_buffer_inv _ _ _ _ _ _ _ A Fi Ho) as (V & F & Ni & Hm).
  destruct (allocate_new_external_buffer_ok c h ts old n V F Ni Ho Hm)
    as (h1 & ext1 & area & A1 & S & L & La & O & K).
  rewrite A in A1. injection A1 as <- <-.
  exists area. split; [exact S|]. split; [exact L|].
  split; [|split; [exact Ni|split; [exact O|split; [apply V|split; [exact K|exact La]]]]].
  intros Et. specialize (Hm Et). rewrite Et in La. lia.
Qed.

End NullTerminated.
End alloc_specs.

Lemma bind_ok {A B} (a : A) (f : A -> result B) : (Ok a ≫= f) = f a.
Proof. reflexivity. Qed.

Ltac mnext :=
  cbv beta iota delta [Assert capacity_ size_ buffer_size core_type];
  repeat (rewrite bind_ok; cbv beta iota delta [Assert capacity_ size_ buffer_size core_type]).

Module buffer_specs.
Import malloc_core core_facts core_specs core_access core_resize small_string_buffer
  selector alloc_specs.
Section NullTerminated.
Context (NullTerminated : bool).

Abbreviation nt := (nt_bytes NullTerminated).
Abbreviation repr := (inv.repr NullTerminated).
Abbreviation shape := (inv.shape NullTerminated).

Lemma ptr_add_0 p : ptr_add p 0 = p.
Proof. destruct p; cbn [ptr_add]; rewrite Z.add_0_r; reflexivity. Qed.

Lemma ptr_add_add p a b : ptr_add (ptr_add p a) b = ptr_add p (a + b).
Proof. destruct p; cbn [ptr_add]; rewrite Z.add_assoc; reflexivity. Qed.

Lemma shape_external h body t area sz :
  shape h body t area sz -> is_external body = negb (CoreType_to_Z t =? 0).
Proof. intros (F & _). unfold is_external. rewrite F. reflexivity. Qed.

Lemma free_if_external_shape h h3 body t area sz :
  shape h body t area sz ->
  (forall k, inv.owner body = Some k -> is_Some (h3 !! k)) ->
  free_if_external h3 body = Ok (inv.release h3 body).
Proof.
  intros S K. unfold free_if_external, inv.release, get_buffer_ptr.
  rewrite (shape_external _ _ _ _ _ S).
  pose proof (shape_owner _ _ _ _ _ _ S) as O. rewrite O in *.
  destruct S as (F & _). rewrite F.
  destruct t; cbn [CoreType_to_Z]; zbool; cbn [negb]; mred; try reflexivity;
    unfold free, sizeof_capacity_and_size;
    (destruct (K _ eq_refl) as [blk ->]); reflexivity.
Qed.

Lemma stored_size_small t sz : 0 <= sz < 2 ^ 9 -> inv.stored_size t sz = sz.
Proof. intros. unfold inv.stored_size. destruct t; try reflexivity. apply Z.mod_small. lia. Qed.

Lemma tier_le_of_capacity h body t area sz ts n :
  repr h body t area sz -> len area - nt < n ->
  0 <= n < 2 ^ 64 ->
  calculate_new_buffer_size NullTerminated n = Ok ts ->
  CoreType_to_Z t <= CoreType_to_Z (core_type ts).
Proof.
  intros R Hn Hr C. pose proof (repr_len_area _ R) as La.
  pose proof (calculate_new_buffer_size_tier _ _ _ Hr C) as Ht.
  pose proof (nt_range NullTerminated).
  destruct t, (core_type ts); cbn [CoreType_to_Z]; lia.
Qed.

(** [buffer_reserve] when it has to grow. *)
Lemma buffer_reserve_grow Term NeedCopy c h body t area sz new_cap ts :
  repr h body t area sz -> len area - nt < new_cap -> 0 <= new_cap < 2 ^ 32 ->
  calculate_new_buffer_size NullTerminated new_cap = Ok ts ->
  inv.fits NullTerminated ts new_cap ->
  inv.valid_chunk c h (buffer_size ts) ->
  exists h' body' area',
    buffer_reserve NullTerminated Term NeedCopy c h body new_cap = Ok (h', body') /\
    repr h' body' (core_type ts) area' sz /\
    new_cap <= len area' - nt /\
    (NeedCopy = true -> slice area' 0 sz = slice area 0 sz) /\
    (NullTerminated && Term && NeedCopy = true -> area' !! Z.to_nat sz = Some zero) /\
    inv.owner body' = Some (chunk_addr c) /\
    (forall k, k <> chunk_addr c -> inv.owner body <> Some k -> h' !! k = h !! k) /\
    (forall k, inv.owner body = Some k -> h' !! k = None) /\
    len area' = buffer_size ts - match core_type ts with Short => 0 | _ => 8 end.
Proof.
  intros R Hn Hr C Fi V.
  pose proof (repr_bounds _ R) as [B L]. pose proof (nt_range NullTerminated) as Hnt.
  pose proof (tier_le_of_capacity _ _ _ _ _ _ _ R Hn ltac:(lia) C) as Tle.
  assert (Ni : core_type ts <> Internal).
  { pose proof (calculate_new_buffer_size_tier _ new_cap ts ltac:(lia) C) as Ht.
    pose proof (repr_len_area _ R) as La.
    intros E. rewrite E in Ht. destruct t; cbv beta iota in La, Ht; lia. }
  assert (Hm : core_type ts = Median -> sz <= buffer_size ts - 8 - nt).
  { intros E. unfold inv.fits in Fi. rewrite E in Fi. lia. }
  destruct (allocate_new_external_buffer_ok _ c h ts sz new_cap V Fi Ni ltac:(lia) Hm)
    as (h1 & ext & area1 & A & S1 & L1 & La1 & O1 & K1).
  assert (Hs : inv.stored_size (core_type ts) sz = sz).
  { unfold inv.stored_size. destruct (core_type ts) eqn:E; try reflexivity.
    unfold inv.fits in Fi. rewrite E in Fi. apply Z.mod_small. lia. }
  rewrite Hs in S1.
  assert (R1 : repr h1 ext (core_type ts) area1 sz) by (apply shape_repr; [exact S1 | lia]).
  (* the old string is still there *)
  assert (Nold : forall k, inv.owner body = Some k -> k <> chunk_addr c).
  { intros k Ok Ek. destruct (repr_owned _ _ _ _ _ _ _ R Ok) as [x Hx].
    destruct V as (Vn & _). congruence. }
  assert (Rold : repr h1 body t area sz).
  { eapply repr_frame; [exact R|]. intros k Ok. apply K1. apply (Nold k Ok). }
  unfold buffer_reserve, get_capacity_and_size.
  rewrite (get_capacity_and_size_repr _ R). mnext. zbool. rewrite C. mnext.
  rewrite A. mnext. unfold get_buffer.
  (* copy *)
  assert (Ecopy : exists h2 ext2 area2,
    (if NeedCopy
     then old_data ← read_chars h1 body (begin_ptr body) sz;
          write_chars h1 ext (chars ext) old_data
     else Ok (h1, ext)) = Ok (h2, ext2) /\
    repr h2 ext2 (core_type ts) area2 sz /\ inv.stable h1 ext h2 ext2 /\
    length area2 = length area1 /\
    (NeedCopy = true -> slice area2 0 sz = slice area 0 sz)).
  { destruct NeedCopy.
    - pose proof (read_chars_repr _ _ _ _ _ _ 0 sz Rold) as Rd.
      rewrite ptr_add_0 in Rd. rewrite Rd by lia. mnext.
      assert (Ls : len (slice area 0 sz) = sz) by (apply length_slice; lia).
      destruct (write_chars_repr _ _ _ _ _ _ 0 (slice area 0 sz) R1)
        as (h2 & ext2 & W & R2 & St); [lia | lia |].
      rewrite ptr_add_0 in W.
      rewrite chars_begin_ptr in W by (destruct R1 as (-> & _); destruct (core_type ts); cbn; congruence).
      exists h2, ext2, (splice area1 0 (slice area 0 sz)).
      split; [exact W|]. split; [exact R2|]. split; [exact St|].
      split; [apply length_splice; lia|]. intros _.
      rewrite <- Ls at 2. apply slice_splice_same; lia.
    - exists h1, ext, area1. split; [reflexivity|]. split; [exact R1|].
      split; [apply stable_refl|]. split; [reflexivity | discriminate]. }
  destruct Ecopy as (h2 & ext2 & area2 & -> & R2 & St2 & La2 & Hc2). mnext.
  (* terminator *)
  assert (Eterm : exists h3 ext3 area3,
    (if NullTerminated && Term && NeedCopy
     then write_chars h2 ext2 (ptr_add (chars ext2) sz) [zero]
     else Ok (h2, ext2)) = Ok (h3, ext3) /\
    repr h3 ext3 (core_type ts) area3 sz /\ inv.stable h2 ext2 h3 ext3 /\
    length area3 = length area2 /\
    (NeedCopy = true -> slice area3 0 sz = slice area 0 sz) /\
    (NullTerminated && Term && NeedCopy = true -> area3 !! Z.to_nat sz = Some zero)).
  { destruct (NullTerminated && Term && NeedCopy) eqn:Eb.
    - assert (NullTerminated = true) as Ent by (destruct NullTerminated; [reflexivity | discriminate]).
      assert (Hnt1 : nt = 1) by (unfold nt_bytes; rewrite Ent; reflexivity).
      destruct (write_chars_repr _ _ _ _ _ _ sz [zero] R2)
        as (h3 & ext3 & W & R3 & St); [lia | cbn [length]; lia |].
      rewrite chars_begin_ptr in W by (destruct R2 as (-> & _); destruct (core_type ts); cbn; congruence).
      exists h3, ext3, (splice area2 sz [zero]).
      split; [exact W|]. split; [exact R3|]. split; [exact St|].
      split; [apply length_splice; cbn [length]; lia|]. split.
      + intros En. rewrite slice_splice_before by (cbn [length]; lia). auto.
      + intros _. rewrite lookup_splice by (cbn [length]; lia).
        rewrite Z2Nat.id by lia. cbn [length]. zbool. cbn [andb].
        rewrite Nat.sub_diag. reflexivity.
    - exists h2, ext2, area2. split; [reflexivity|]. split; [exact R2|].
      split; [apply stable_refl|]. split; [reflexivity|]. split; [exact Hc2 | discriminate]. }
  destruct Eterm as (h3 & ext3 & area3 & -> & R3 & St3 & La3 & Hc3 & Ht3). mnext.
  pose proof (stable_trans _ _ _ _ _ _ St2 St3) as St.
  destruct St as (Sb & Kst).
  assert (O3 : inv.owner ext3 = Some (chunk_addr c)).
  { rewrite (same_buffer_owner _ _ Sb). exact O1. }
  assert (K3 : forall k, k <> chunk_addr c -> h3 !! k = h !! k).
  { intros k Nk. rewrite Kst by (rewrite O1; congruence). apply K1, Nk. }
  rewrite (free_if_external_shape h h3 body t area sz (repr_shape _ _ _ _ _ _ R)).
  2:{ intros k Ok. rewrite K3 by (apply (Nold k Ok)).
      apply (repr_owned _ _ _ _ _ _ _ R Ok). }
  mnext. unfold malloc_core.get_core_type.
  destruct R3 as (F3 & B3 & T3). rewrite F3.
  destruct R as (F & _). rewrite F. zbool. mnext.
  exists (inv.release h3 body), ext3, area3.
  split; [reflexivity|].
  assert (Krel : forall k, inv.owner body <> Some k -> inv.release h3 body !! k = h3 !! k).
  { intros k Nk. unfold inv.release. destruct (inv.owner body) as [p|]; [|reflexivity].
    apply lookup_delete_ne. congruence. }
  split.
  { apply (repr_frame _ h3); [split; [exact F3|split; [exact B3|exact T3]]|].
    intros k Ok. apply Krel. rewrite O3 in Ok. injection Ok as <-.
    intros E. apply (Nold _ E). reflexivity. }
  split; [lia|]. split; [exact Hc3|]. split; [exact Ht3|]. split; [exact O3|].
  split; [|split].
  - intros k Nk No. rewrite Krel by exact No. apply K3, Nk.
  - intros k Ok. unfold inv.release. rewrite Ok. apply lookup_delete_eq.
  - rewrite La3, La2. exact La1.
Qed.

Lemma buffer_reserve_noop Term NeedCopy c h body t area sz new_cap :
  repr h body t area sz -> new_cap <= len area - nt ->
  buffer_reserve NullTerminated Term NeedCopy c h body new_cap = Ok (h, body).
Proof.
  intros R Hn. unfold buffer_reserve, get_capacity_and_size.
  rewrite (get_capacity_and_size_repr _ R). mnext. zbool. mnext.
  zbool. mnext. reflexivity.
Qed.

Lemma buffer_reserve_inv Term NeedCopy c h body t area sz new_cap h' body' :
  repr h body t area sz -> 0 <= new_cap < 2 ^ 32 ->
  buffer_reserve NullTerminated Term NeedCopy c h body new_cap = Ok (h', body') ->
  new_cap <= len area - nt \/
  (len area - nt < new_cap /\
   exists ts, calculate_new_buffer_size NullTerminated new_cap = Ok ts /\
              inv.fits NullTerminated ts new_cap /\
              inv.valid_chunk c h (buffer_size ts)).
Proof.
  intros R Hr H. pose proof (repr_bounds _ R) as [B _].
  destruct (Z_le_gt_dec new_cap (len area - nt)) as [|Hn]; [left; assumption|].
  right. split; [lia|].
  unfold buffer_reserve, get_capacity_and_size in H.
  rewrite (get_capacity_and_size_repr _ R) in H. mred_in H.
  replace (len area - nt <? new_cap) with true in H by (symmetry; apply Z.ltb_lt; lia).
  destruct (calculate_new_buffer_size NullTerminated new_cap) as [ts| |] eqn:C;
    try discriminate.
  destruct (allocate_new_external_buffer NullTerminated c h ts sz) as [[h1 ext]| |] eqn:A;
    try discriminate.
  pose proof (calculate_new_buffer_size_fits _ new_cap ts ltac:(lia) C) as Fi.
  destruct (allocate_new_external_buffer_inv _ c h ts sz new_cap h1 ext A) as (V & F & _);
    [destruct Fi as [|(?&?&_)]; auto | lia |].
  exists ts. auto.
Qed.

(** What a successful [buffer_reserve] gives its caller. *)
Lemma buffer_reserve_post Term NeedCopy c h body t area sz new_cap h' body' :
  repr h body t area sz -> 0 <= new_cap < 2 ^ 32 ->
  buffer_reserve NullTerminated Term NeedCopy c h body new_cap = Ok (h', body') ->
  exists t' area',
    repr h' body' t' area' sz /\
    new_cap <= len area' - nt /\ len area <= len area' /\
    (NeedCopy = true -> slice area' 0 sz = slice area 0 sz) /\
    (NullTerminated && Term && NeedCopy = true ->
     inv.terminated NullTerminated area sz -> inv.terminated NullTerminated area' sz) /\
    inv.evolves h body h' body' /\
    CoreType_to_Z t <= CoreType_to_Z t' /\
    (new_cap <= len area - nt -> h' = h /\ body' = body /\ t' = t /\ area' = area) /\
    (len area - nt < new_cap ->
     exists ts,
       calculate_new_buffer_size NullTerminated new_cap = Ok ts /\
       t' = core_type ts /\
       len area' = buffer_size ts - match core_type ts with Short => 0 | _ => 8 end).
Proof.
  intros R Hr H.
  destruct (buffer_reserve_inv _ _ _ _ _ _ _ _ _ _ _ R Hr H) as [Hn|(Hn & ts & C & Fi & V)].
  - rewrite (buffer_reserve_noop _ _ _ _ _ _ _ _ _ R Hn) in H. injection H as <- <-.
    exists t, area. split; [exact R|]. split; [exact Hn|]. split; [lia|].
    split; [reflexivity|]. split; [auto|].
    split; [apply stable_evolves, stable_refl|]. split; [lia|]. split; [auto|].
    intros. lia.
  - destruct (buffer_reserve_grow Term NeedCopy c h body t area sz new_cap ts R Hn Hr C Fi V)
      as (h1 & b1 & area1 & E & R1 & L1 & Hc & Ht & O1 & K1 & K2 & Lts).
    rewrite H in E. injection E as <- <-.
    exists (core_type ts), area1. split; [exact R1|]. split; [exact L1|].
    split; [lia|]. split; [exact Hc|]. split.
    { intros Eb _ _. apply Ht, Eb. }
    split.
    { split.
      - intros k Ik No. apply K1; [|exact No]. intros ->.
        destruct V as (Vn & _). rewrite Vn in Ik. destruct Ik; discriminate.
      - intros p Op. right. rewrite O1 in Op. injection Op as <-. apply V. }
    split; [eapply tier_le_of_capacity; [exact R | exact Hn | lia | exact C]|].
    split; [intros; lia|]. intros _. exists ts. auto.
Qed.

End NullTerminated.
End buffer_specs.

Module grow_specs.
Import malloc_core core_facts core_specs core_access core_resize small_string_buffer
  selector alloc_specs buffer_specs.
Section NullTerminated.
Context (NullTerminated : bool).

Abbreviation nt := (nt_bytes NullTerminated).
Abbreviation repr := (inv.repr NullTerminated).
Abbreviation shape := (inv.shape NullTerminated).

Lemma write_chars_shape_inv h body t area sz off bs h' body' :
  shape h body t area sz -> 0 <= off ->
  write_chars h body (ptr_add (begin_ptr body) off) bs = Ok (h', body') ->
  off + len bs <= len area.
Proof.
  intros S Ho. rewrite (shape_begin_ptr _ _ _ _ _ _ S).
  destruct S as (F & B & T).
  destruct t; cbv beta iota delta [inv.layout] in T; cbn [ptr_add write_chars]; intros W.
  - destruct T as (_ & D).
    destruct (block_write (internal_data body) (0 + off) bs) as [d| |] eqn:Wb;
      try discriminate.
    apply block_write_inv in Wb as (_ & L & _). rewrite D in L. lia.
  - destruct T as (E & _).
    destruct (store_bytes h (c_str_ptr body) (0 + off) bs) as [h1| |] eqn:Ws;
      try discriminate.
    apply (store_bytes_inv _ _ _ _ _ _ E) in Ws as (_ & L & _). lia.
  - destruct T as (E & _).
    destruct (store_bytes h (c_str_ptr body - 8) (8 + off) bs) as [h1| |] eqn:Ws;
      try discriminate.
    apply (store_bytes_inv _ _ _ _ _ _ E) in Ws as (_ & L & _).
    rewrite length_hdr_block in L. lia.
  - destruct T as (E & _).
    destruct (store_bytes h (c_str_ptr body - 8) (8 + off) bs) as [h1| |] eqn:Ws;
      try discriminate.
    apply (store_bytes_inv _ _ _ _ _ _ E) in Ws as (_ & L & _).
    rewrite length_hdr_block in L. lia.
Qed.

Lemma read_chars_shape_inv h body t area sz off n bs :
  shape h body t area sz -> 0 <= off ->
  read_chars h body (ptr_add (begin_ptr body) off) n = Ok bs ->
  0 <= n /\ off + n <= len area.
Proof.
  intros S Ho. rewrite (shape_begin_ptr _ _ _ _ _ _ S).
  destruct S as (F & B & T).
  destruct t; cbv beta iota delta [inv.layout] in T; cbn [ptr_add read_chars]; intros W.
  - destruct T as (_ & D).
    apply block_read_inv in W as (_ & ? & L & _). rewrite D in L. lia.
  - destruct T as (E & _).
    apply (load_bytes_inv _ _ _ _ _ _ E) in W as (_ & ? & L & _). lia.
  - destruct T as (E & _).
    apply (load_bytes_inv _ _ _ _ _ _ E) in W as (_ & ? & L & _).
    rewrite length_hdr_block in L. lia.
  - destruct T as (E & _).
    apply (load_bytes_inv _ _ _ _ _ _ E) in W as (_ & ? & L & _).
    rewrite length_hdr_block in L. lia.
Qed.

Lemma size_shape h body t area sz :
  shape h body t area sz -> sz < 2 ^ 32 -> malloc_core.size h body = Ok sz.
Proof.
  intros (F & B & T) Hs. unfold malloc_core.size, size_from_buffer_header. rewrite F.
  destruct t; cbv beta iota delta [inv.layout] in T; cbn [CoreType_to_Z]; cbv iota.
  - f_equal. tauto.
  - f_equal. tauto.
  - destruct T as (E & _). zbool. mnext.
    rewrite (load32_hdr_size _ _ _ _ _ E), Z.mod_small by lia. reflexivity.
  - destruct T as (E & _). zbool. mnext.
    rewrite (load32_hdr_size _ _ _ _ _ E), Z.mod_small by lia. reflexivity.
Qed.

Lemma end_ptr_shape h body t area sz :
  shape h body t area sz -> sz < 2 ^ 32 ->
  end_ptr h body = Ok (ptr_add (begin_ptr body) sz).
Proof.
  intros S Hs. rewrite (shape_begin_ptr _ _ _ _ _ _ S).
  pose proof S as (F & B & T). unfold end_ptr, size_from_buffer_header, chars. rewrite F.
  destruct t; cbv beta iota delta [inv.layout] in T; cbn [CoreType_to_Z ptr_add]; cbv iota.
  - destruct T as (-> & _). reflexivity.
  - destruct T as (_ & -> & _). reflexivity.
  - destruct T as (E & _). zbool. mnext.
    rewrite (load32_hdr_size _ _ _ _ _ E), Z.mod_small by lia. reflexivity.
  - destruct T as (E & _). zbool. mnext.
    rewrite (load32_hdr_size _ _ _ _ _ E), Z.mod_small by lia. reflexivity.
Qed.

(** What a successful [allocate_more<Need0::No>] gives its caller: nothing
    changed, or a new buffer with the old characters. *)
Lemma allocate_more_post c h body t area sz n h' body' :
  repr h body t area sz -> 0 <= n < 2 ^ 32 ->
  allocate_more NullTerminated false c h body n = Ok (h', body') ->
  (n <= inv.idle_of NullTerminated t area sz /\ h' = h /\ body' = body) \/
  (inv.idle_of NullTerminated t area sz < n /\
   exists t' area',
     shape h' body' t' area' sz /\ sz <= len area' /\ len area' < 2 ^ 32 /\
     slice area' 0 sz = slice area 0 sz /\
     (sz + n < 2 ^ 32 -> sz + n <= len area' - nt) /\
     (exists ts,
        calculate_new_buffer_size_growth NullTerminated (u32 (sz + n)) = Ok ts /\
        t' = core_type ts /\
        len area' = buffer_size ts - match core_type ts with Short => 0 | _ => 8 end) /\
     t' <> Internal /\
     inv.owner body' = Some (chunk_addr c) /\
     h !! chunk_addr c = None /\
     (forall k, k <> chunk_addr c -> inv.owner body <> Some k -> h' !! k = h !! k) /\
     (forall k, inv.owner body = Some k -> h' !! k = None)).
Proof.
  intros R Hr H. pose proof (repr_bounds _ R) as [B L].
  pose proof (nt_range NullTerminated) as Hnt.
  unfold allocate_more in H. rewrite (idle_capacity_repr _ R) in H.
  rewrite bind_ok in H. cbv beta in H.
  destruct (Z.leb_spec n (inv.idle_of NullTerminated t area sz)) as [Hi|Hi].
  { left. injection H as <- <-. auto. }
  right. split; [exact Hi|].
  unfold small_string_buffer.size in H. rewrite (size_repr _ R) in H.
  rewrite bind_ok in H. cbv beta in H.
  unfold calculate_new_buffer_size_growth in H.
  set (total := u32 (sz + n)) in *.
  assert (Ht : 0 <= total < 2 ^ 32) by (apply Z.mod_pos_bound; lia).
  pose proof (mul_growth_lower total ltac:(lia)) as Hg.
  destruct (calculate_new_buffer_size NullTerminated (mul_growth total)) as [ts| |] eqn:C;
    try discriminate.
  rewrite bind_ok in H. cbv beta in H.
  destruct (allocate_new_external_buffer NullTerminated c h ts sz) as [[h1 ext]| |] eqn:A;
    try discriminate.
  rewrite bind_ok in H. cbv beta iota in H.
  assert (Hmg : 0 <= mul_growth total < 2 ^ 64).
  { split; [lia|]. unfold mul_growth.
    destruct (Z_lt_le_dec (round_to_float (3 * round_to_float total) / 2) (2 ^ 64)); [assumption|].
    exfalso. unfold calculate_new_buffer_size in C.
    rewrite internal_buffer_size_eq, max_short_buffer_size_eq, max_median_buffer_size_eq,
      max_long_buffer_size_eq in C. unfold mul_growth in C.
    revert C. zbool. mred. discriminate. }
  pose proof (calculate_new_buffer_size_fits _ _ ts Hmg C) as Fi.
  destruct (allocate_new_external_buffer_post _ c h ts sz (mul_growth total) h1 ext A)
    as (area1 & S1 & L1 & Lm & Ni & O1 & Vn & K1 & Lts);
    [destruct Fi as [|(?&?&_)]; auto | lia |].
  (* the old string is still there *)
  assert (Nold : forall k, inv.owner body = Some k -> k <> chunk_addr c).
  { intros k Ok Ek. destruct (repr_owned _ _ _ _ _ _ _ R Ok) as [x Hx]. congruence. }
  assert (Rold : repr h1 body t area sz).
  { eapply repr_frame; [exact R|]. intros k Ok. apply K1. apply (Nold k Ok). }
  unfold get_buffer in H.
  pose proof (read_chars_repr _ _ _ _ _ _ 0 sz Rold) as Rd.
  rewrite ptr_add_0 in Rd. rewrite Rd in H by lia.
  rewrite bind_ok in H. cbv beta in H.
  assert (Ls : len (slice area 0 sz) = sz) by (apply length_slice; lia).
  assert (Ne : flag ext <> 0).
  { destruct S1 as (-> & _). destruct (core_type ts); cbn; congruence. }
  rewrite <- (chars_begin_ptr ext Ne), <- (ptr_add_0 (begin_ptr ext)) in H.
  destruct (write_chars h1 ext (ptr_add (begin_ptr ext) 0) (slice area 0 sz))
    as [[h2 ext2]| |] eqn:W; try discriminate.
  pose proof (write_chars_shape_inv _ _ _ _ _ 0 _ _ _ S1 ltac:(lia) W) as Lw.
  rewrite Ls in Lw.
  pose proof (shape_len_area _ _ _ _ _ _ S1) as La1.
  assert (Hs : inv.stored_size (core_type ts) sz = sz).
  { unfold inv.stored_size. destruct (core_type ts); try reflexivity.
    apply Z.mod_small. lia. }
  rewrite Hs in S1.
  destruct (write_chars_shape _ _ _ _ _ _ 0 (slice area 0 sz) S1) as (h2' & ext2' & W' & S2 & St);
    [lia | lia |].
  rewrite W in W'. injection W' as <- <-.
  rewrite bind_ok in H. cbv beta iota in H.
  rewrite andb_false_r in H. rewrite bind_ok in H. cbv beta iota in H.
  destruct St as (Sb & Kst).
  assert (O2 : inv.owner ext2 = Some (chunk_addr c)).
  { rewrite (same_buffer_owner _ _ Sb). exact O1. }
  assert (K2 : forall k, k <> chunk_addr c -> h2 !! k = h !! k).
  { intros k Nk. rewrite Kst by (rewrite O1; congruence). apply K1, Nk. }
  rewrite (free_if_external_shape _ h h2 body t area sz (repr_shape _ _ _ _ _ _ R)) in H.
  2:{ intros k Ok. rewrite K2 by (apply (Nold k Ok)).
      apply (repr_owned _ _ _ _ _ _ _ R Ok). }
  rewrite bind_ok in H. cbv beta in H. injection H as <- <-.
  assert (Krel : forall k, inv.owner body <> Some k -> inv.release h2 body !! k = h2 !! k).
  { intros k Nk. unfold inv.release. destruct (inv.owner body) as [p|]; [|reflexivity].
    apply lookup_delete_ne. congruence. }
  exists (core_type ts), (splice area1 0 (slice area 0 sz)).
  rewrite length_splice by lia.
  split.
  { apply (shape_frame _ h2); [exact S2|].
    intros k Ok. apply Krel. rewrite O2 in Ok. injection Ok as <-.
    intros E. apply (Nold _ E). reflexivity. }
  split; [lia|]. split; [destruct (core_type ts); lia|]. split.
  { rewrite <- Ls at 2. apply slice_splice_same; lia. }
  split.
  { intros Hw. subst total. unfold u32 in *. rewrite Z.mod_small in * by lia. lia. }
  split; [exists ts; split; [exact C|split; [reflexivity|exact Lts]]|].
  split; [exact Ni|]. split; [exact O2|]. split; [exact Vn|]. split.
  - intros k Nk No. rewrite Krel by exact No. apply K2, Nk.
  - intros k Ok. unfold inv.release. rewrite Ok. apply lookup_delete_eq.
Qed.

End NullTerminated.
End grow_specs.

Module init_specs.
Import malloc_core core_facts core_specs core_access core_resize small_string_buffer
  selector alloc_specs buffer_specs grow_specs.
Section NullTerminated.
Context (NullTerminated : bool).

Abbreviation nt := (nt_bytes NullTerminated).
Abbreviation repr := (inv.repr NullTerminated).
Abbreviation shape := (inv.shape NullTerminated).
Abbreviation term_at := (inv.term_at NullTerminated).

(** Storing the terminator of a new block, as [initial_allocate] does. *)
Lemma store_terminator (h : heap) p blk off :
  h !! p = Some blk -> 0 <= off -> off + nt <= len blk ->
  (if NullTerminated then store_bytes h p off [zero] else Ok h)
  = Ok (<[p := if NullTerminated then splice blk off [zero] else blk]> h).
Proof.
  intros E Ho Hl. unfold nt_bytes in Hl. destruct NullTerminated.
  - apply (store_bytes_ok _ _ _ _ _ E); cbn [length]; lia.
  - rewrite insert_id by exact E. reflexivity.
Qed.

Lemma initial_allocate_with_ok c h core ts size :
  inv.fits NullTerminated ts size -> 0 <= size < 2 ^ 32 ->
  (core_type ts <> Internal -> inv.valid_chunk c h (buffer_size ts)) ->
  exists h' body' area,
    initial_allocate_with NullTerminated c h core ts size = Ok (h', body') /\
    repr h' body' (core_type ts) area size /\
    inv.terminated NullTerminated area size /\
    (forall k, k <> chunk_addr c -> h' !! k = h !! k) /\
    (core_type ts = Internal -> h' = h) /\
    (core_type ts <> Internal -> inv.owner body' = Some (chunk_addr c)) /\
    len area = match core_type ts with
               | Internal => 7
               | Short => buffer_size ts
               | _ => buffer_size ts - 8
               end.
Proof.
  intros Fi Hs V.
  assert (Hnt : 0 <= nt <= 1) by apply nt_range.
  unfold initial_allocate_with.
  destruct ts as [bs t]. cbn [core_type buffer_size] in *.
  unfold inv.fits in Fi. cbn [core_type buffer_size] in Fi.
  destruct t.
  - (* Internal *)
    destruct Fi as (_ & Hn). rewrite internal_buffer_size_eq in Hn.
    set (b1 := set_internal_size (u8 size) (set_flag kIsInternal core)).
    assert (R1 : repr h b1 Internal (internal_data b1) size).
    { split; [subst b1; autorewrite with fields; reflexivity|].
      split; [rewrite length_internal_data; lia|].
      split; [|reflexivity]. subst b1. autorewrite with fields. wrap_small; lia. }
    destruct (write_terminator _ _ _ _ _ _ R1) as (h' & body' & W & R' & S').
    rewrite (repr_begin_ptr _ _ _ _ _ _ R1) in W. cbn [ptr_add] in W.
    rewrite Z.add_0_l in W.
    exists h', body', (term_at (internal_data b1) size).
    split; [exact W|]. split; [exact R'|].
    split; [apply terminated_term_at; rewrite length_internal_data; lia|].
    assert (Eh : h' = h).
    { apply map_eq. intros k. destruct S' as (_ & K). apply K.
      rewrite (repr_owner _ _ _ _ _ _ R1). discriminate. }
    split; [intros; rewrite Eh; reflexivity|]. split; [auto |]. split; [congruence|].
    fold nt. rewrite length_term_at by (rewrite length_internal_data; lia).
    rewrite length_internal_data. reflexivity.
  - (* Short *)
    destruct Fi as (Hb & Hm8 & Hn). specialize (V ltac:(discriminate)).
    pose proof V as (Vn & Vp & Vq & Va).
    rewrite Hm8. mnext. rewrite (malloc_ok _ _ _ V). mnext.
    set (p := chunk_addr c) in *.
    set (h0 := <[p := fresh_block c bs]> h).
    pose proof (length_fresh_block c bs ltac:(lia)) as Lf.
    rewrite (store_terminator h0 p (fresh_block c bs) size
               ltac:(apply lookup_insert_eq) ltac:(lia) ltac:(lia)).
    mnext. subst h0. rewrite insert_insert_eq.
    fold (term_at (fresh_block c bs) size).
    set (area := term_at (fresh_block c bs) size).
    assert (La : len area = bs).
    { subst area. rewrite length_term_at by lia. exact Lf. }
    set (ext := external_cap_size p (u8 (bs / 8 - 1)) (u16 size) kIsShort).
    assert (Ep : c_str_ptr ext = p) by (apply ptr_external_cap_size; lia).
    pose proof (Z.div_mod bs 8 ltac:(lia)) as Hdm.
    exists (<[p := area]> h), ext, area.
    split; [reflexivity|]. split; [|split; [|split; [|split; [|split; [|exact La]]]]].
    + split; [subst ext; autorewrite with fields; reflexivity|]. split; [lia|].
      cbv beta iota delta [inv.layout]. rewrite Ep.
      split; [apply lookup_insert_eq|].
      subst ext. autorewrite with fields. split; wrap_small; lia.
    + apply terminated_term_at. lia.
    + intros k Nk. apply lookup_insert_ne. congruence.
    + discriminate.
    + intros _. unfold inv.owner. rewrite Ep. subst ext. autorewrite with fields.
      reflexivity.
  - (* Median *)
    destruct Fi as (Hb & Hn). specialize (V ltac:(discriminate)).
    pose proof V as (Vn & Vp & Vq & Va).
    rewrite (malloc_ok _ _ _ V). mnext.
    set (p := chunk_addr c) in *.
    set (h0 := <[p := fresh_block c bs]> h).
    pose proof (length_fresh_block c bs ltac:(lia)) as Lf.
    pose proof (store_header h0 p _ bs size ltac:(apply lookup_insert_eq)
                  ltac:(rewrite length_fresh_block; lia)) as Sh.
    cbv beta iota delta [mbind result_bind] in Sh.
    destruct (store32 h0 p 0 bs) as [h1| |]; try discriminate.
    mnext. rewrite Sh. mnext.
    set (area0 := drop 8 (fresh_block c bs)).
    assert (La0 : len area0 = bs - 8) by (subst area0; rewrite length_drop; lia).
    unfold sizeof_capacity_and_size.
    assert (St : (if NullTerminated
                  then store_bytes (<[p:=inv.hdr_block bs size area0]> h0) p (size + 8) [zero]
                  else Ok (<[p:=inv.hdr_block bs size area0]> h0))
                 = Ok (<[p := inv.hdr_block bs size (term_at area0 size)]> h)).
    { unfold inv.term_at, nt_bytes in *. subst h0. rewrite insert_insert_eq.
      destruct NullTerminated; [|reflexivity].
      rewrite (Z.add_comm size 8).
      rewrite (store_bytes_hdr _ p bs size area0 (lookup_insert_eq _ _ _))
        by (cbn [length]; lia).
      rewrite insert_insert_eq. reflexivity. }
    rewrite St. mnext.
    set (area := term_at area0 size).
    assert (La : len area = bs - 8).
    { subst area. rewrite length_term_at by lia. exact La0. }
    unfold calculate_median_long_real_idle_capacity, sizeof_capacity_and_size.
    set (idle := u32 (bs - 8 - nt - size)).
    assert (Ei : (if NullTerminated
                  then Assert (8 + 1 + size <=? bs);; Ok (u32 (bs - 8 - 1 - size))
                  else Assert (8 + size <=? bs);; Ok (u32 (bs - 8 - size)))
                 = Ok idle).
    { subst idle. unfold nt_bytes in *.
      destruct NullTerminated; zbool; mred; do 2 f_equal; lia. }
    rewrite Ei. mnext.
    set (ext := external_idle (p + 8) (u16 idle) kIsMedian).
    assert (Ep : c_str_ptr ext = p + 8) by (apply ptr_external_idle; lia).
    exists (<[p := inv.hdr_block bs size area]> h), ext, area.
    split; [reflexivity|]. split; [|split; [|split; [|split; [|split; [|exact La]]]]].
    + split; [subst ext; autorewrite with fields; reflexivity|]. split; [lia|].
      cbv beta iota delta [inv.layout]. rewrite Ep, La.
      replace (p + 8 - 8) with p by lia. replace (bs - 8 + 8) with bs by lia.
      split; [apply lookup_insert_eq|]. split; [lia|].
      subst ext idle. autorewrite with fields.
      unfold u16. rewrite mod_mod_pow by lia. unfold u32.
      rewrite (Z.mod_small (bs - 8 - nt - size) (2 ^ 32)) by lia. f_equal; lia.
    + apply terminated_term_at. lia.
    + intros k Nk. apply lookup_insert_ne. congruence.
    + discriminate.
    + intros _. unfold inv.owner. rewrite Ep. subst ext. autorewrite with fields.
      cbn. f_equal; lia.
  - (* Long *)
    destruct Fi as (Hb & Hn). specialize (V ltac:(discriminate)).
    pose proof V as (Vn & Vp & Vq & Va).
    rewrite (malloc_ok _ _ _ V). mnext.
    set (p := chunk_addr c) in *.
    set (h0 := <[p := fresh_block c bs]> h).
    pose proof (length_fresh_block c bs ltac:(lia)) as Lf.
    pose proof (store_header h0 p _ bs size ltac:(apply lookup_insert_eq)
                  ltac:(rewrite length_fresh_block; lia)) as Sh.
    cbv beta iota delta [mbind result_bind] in Sh.
    destruct (store32 h0 p 0 bs) as [h1| |]; try discriminate.
    mnext. rewrite Sh. mnext.
    set (area0 := drop 8 (fresh_block c bs)).
    assert (La0 : len area0 = bs - 8) by (subst area0; rewrite length_drop; lia).
    unfold sizeof_capacity_and_size.
    assert (St : (if NullTerminated
                  then store_bytes (<[p:=inv.hdr_block bs size area0]> h0) p (size + 8) [zero]
                  else Ok (<[p:=inv.hdr_block bs size area0]> h0))
                 = Ok (<[p := inv.hdr_block bs size (term_at area0 size)]> h)).
    { unfold inv.term_at, nt_bytes in *. subst h0. rewrite insert_insert_eq.
      destruct NullTerminated; [|reflexivity].
      rewrite (Z.add_comm size 8).
      rewrite (store_bytes_hdr _ p bs size area0 (lookup_insert_eq _ _ _))
        by (cbn [length]; lia).
      rewrite insert_insert_eq. reflexivity. }
    rewrite St. mnext.
    set (area := term_at area0 size).
    assert (La : len area = bs - 8).
    { subst area. rewrite length_term_at by lia. exact La0. }
    set (ext := external_idle (p + 8) 0 kIsLong).
    assert (Ep : c_str_ptr ext = p + 8) by (apply ptr_external_idle; lia).
    exists (<[p := inv.hdr_block bs size area]> h), ext, area.
    split; [reflexivity|]. split; [|split; [|split; [|split; [|split; [|exact La]]]]].
    + split; [subst ext; autorewrite with fields; reflexivity|]. split; [lia|].
      cbv beta iota delta [inv.layout]. rewrite Ep, La.
      replace (p + 8 - 8) with p by lia. replace (bs - 8 + 8) with bs by lia.
      split; [apply lookup_insert_eq|]. lia.
    + apply terminated_term_at. lia.
    + intros k Nk. apply lookup_insert_ne. congruence.
    + discriminate.
    + intros _. unfold inv.owner. rewrite Ep. subst ext. autorewrite with fields.
      cbn. f_equal; lia.
Qed.

Lemma initial_allocate_with_inv c h core ts size h' body' :
  initial_allocate_with NullTerminated c h core ts size = Ok (h', body') ->
  inv.fits NullTerminated ts size \/ (core_type ts = Long /\ buffer_size ts = 0) ->
  inv.fits NullTerminated ts size /\
  (core_type ts <> Internal -> inv.valid_chunk c h (buffer_size ts)).
Proof.
  intros A Fi. unfold initial_allocate_with in A.
  destruct ts as [bs t]. cbn [core_type buffer_size] in *.
  destruct t.
  - destruct Fi as [Fi|[? _]]; [|discriminate]. split; [exact Fi|congruence].
  - destruct Fi as [Fi|[? _]]; [|discriminate].
    pose proof Fi as (_ & Hm8 & _). cbn [core_type buffer_size] in Hm8.
    rewrite Hm8 in A. mred_in A.
    destruct (malloc c h bs) as [[p h0]| |] eqn:M; try discriminate.
    apply malloc_inv in M as (V & _ & _). split; [exact Fi|intros _; exact V].
  - destruct Fi as [Fi|[? _]]; [|discriminate]. mred_in A.
    destruct (malloc c h bs) as [[p h0]| |] eqn:M; try discriminate.
    apply malloc_inv in M as (V & _ & _). split; [exact Fi|intros _; exact V].
  - mred_in A.
    destruct (malloc c h bs) as [[p h0]| |] eqn:M; try discriminate.
    apply malloc_inv in M as (V & -> & ->).
    destruct (store32 _ _ 0 bs) as [h1| |] eqn:S1; try discriminate.
    destruct (store32 h1 _ 4 size) as [h2| |] eqn:S2; try discriminate.
    pose proof (store_header_inv _ _ _ _ _ _ _ (lookup_insert_eq _ _ _) S1 S2) as L8.
    destruct Fi as [Fi|[_ Hz]].
    + split; [exact Fi|intros _; exact V].
    + subst bs. rewrite length_fresh_block in L8 by lia. lia.
Qed.

(** What a successful [initial_allocate] gives the constructor. *)
Lemma initial_allocate_with_post c h core ts size h' body' :
  initial_allocate_with NullTerminated c h core ts size = Ok (h', body') ->
  inv.fits NullTerminated ts size \/ (core_type ts = Long /\ buffer_size ts = 0) ->
  0 <= size < 2 ^ 32 ->
  exists area,
    repr h' body' (core_type ts) area size /\
    inv.terminated NullTerminated area size /\
    (forall k, k <> chunk_addr c -> h' !! k = h !! k) /\
    (core_type ts = Internal -> h' = h) /\
    (core_type ts <> Internal ->
     inv.owner body' = Some (chunk_addr c) /\ h !! chunk_addr c = None) /\
    len area = match core_type ts with
               | Internal => 7
               | Short => buffer_size ts
               | _ => buffer_size ts - 8
               end /\
    inv.fits NullTerminated ts size.
Proof.
  intros A Fi Hs.
  destruct (initial_allocate_with_inv _ _ _ _ _ _ _ A Fi) as (F & V).
  destruct (initial_allocate_with_ok c h core ts size F Hs V)
    as (h1 & b1 & area & A1 & R & T & K & Ki & O & L).
  rewrite A in A1. injection A1 as <- <-.
  exists area. repeat (split; [assumption|]).
  split; [|split; assumption]. intros Ni. split; [apply O, Ni | apply V, Ni].
Qed.

Lemma ctor_initialized_later_post c h n h' body' :
  basic_small_string.ctor_initialized_later NullTerminated c h n = Ok (h', body') ->
  0 <= n < 2 ^ 64 ->
  exists t area,
    repr h' body' t area (u32 n) /\
    inv.terminated NullTerminated area (u32 n) /\
    (forall k, k <> chunk_addr c -> h' !! k = h !! k) /\
    (t = Internal -> h' = h) /\
    (t <> Internal -> inv.owner body' = Some (chunk_addr c) /\ h !! chunk_addr c = None).
Proof.
  intros A Hn. unfold basic_small_string.ctor_initialized_later in A.
  assert (Hu : 0 <= u32 n < 2 ^ 32) by (apply Z.mod_pos_bound; lia).
  destruct (Assert _) in A; try discriminate. rewrite bind_ok in A.
  unfold initial_allocate in A.
  destruct (Assert _) in A; try discriminate. rewrite bind_ok in A.
  destruct (calculate_new_buffer_size NullTerminated (u32 n)) as [ts| |] eqn:C;
    try discriminate.
  rewrite bind_ok in A.
  assert (Euu : u32 (u32 n) = u32 n) by (unfold u32; apply Z.mod_mod; lia).
  rewrite Euu in A.
  pose proof (calculate_new_buffer_size_fits NullTerminated (u32 n) ts ltac:(lia) C) as Fi.
  destruct (initial_allocate_with_post _ _ _ _ _ _ _ A) as (area & R & T & K & Ki & O & _);
    [destruct Fi as [|(?&?&_)]; auto | lia |].
  exists (core_type ts), area. auto.
Qed.

End NullTerminated.
End init_specs.

(** Inversion of one monadic step. *)
Ltac bind_inv H x E :=
  cbv zeta in H;
  repeat (rewrite bind_ok in H; cbv beta iota in H);
  lazymatch type of H with
  | mbind _ (Assert ?c) = Ok _ =>
      destruct c eqn:E; [|discriminate H];
      change (Assert true) with (@Ok unit tt) in H; rewrite bind_ok in H; cbv beta iota in H
  | mbind _ ?m = Ok _ =>
      destruct m as [x| |] eqn:E; [|discriminate H|discriminate H];
      rewrite bind_ok in H; cbv beta iota in H
  end.

Module size_specs.
Import malloc_core core_facts core_specs core_access core_resize small_string_buffer.
Section NullTerminated.
Context (NullTerminated : bool).

Abbreviation nt := (nt_bytes NullTerminated).
Abbreviation repr := (inv.repr NullTerminated).
Abbreviation term_at := (inv.term_at NullTerminated).

Lemma set_size_inv h body t area sz n r :
  repr h body t area sz ->
  set_size_and_idle_and_set_term NullTerminated h body n = Ok r ->
  n <= len area - nt.
Proof.
  intros R H. pose proof (repr_len_area _ R) as La. pose proof R as (F & B & T).
  unfold set_size_and_idle_and_set_term in H. rewrite F in H.
  destruct t; cbv beta iota delta [inv.layout] in T; cbn [CoreType_to_Z] in H;
    cbv iota in H.
  - bind_inv H x E. apply Z.leb_le in E.
    unfold internal_buffer_size, nt_bytes, sizeof_internal_core in *.
    destruct NullTerminated; lia.
  - bind_inv H x E. apply Z.leb_le in E. destruct T as (_ & _ & L). lia.
  - pose proof (repr_hdr_ok _ R (or_introl eq_refl)) as Hd.
    unfold set_size_to_buffer_header in H.
    rewrite (capacity_from_buffer_header_ok _ Hd),
      (max_real_cap_from_buffer_header_ok _ Hd) in H.
    bind_inv H h1 E. bind_inv E x E1. bind_inv E x E2. bind_inv E x E3.
    apply Z.leb_le in E3. exact E3.
  - pose proof (repr_hdr_ok _ R (or_intror eq_refl)) as Hd.
    unfold set_size_to_buffer_header in H.
    rewrite (capacity_from_buffer_header_ok _ Hd),
      (max_real_cap_from_buffer_header_ok _ Hd) in H.
    bind_inv H h1 E. bind_inv E x E1. bind_inv E x E2. bind_inv E x E3.
    apply Z.leb_le in E3. exact E3.
Qed.

Lemma get_core_type_stable h body h' body' :
  inv.stable h body h' body' ->
  (malloc_core.get_core_type body =? malloc_core.get_core_type body') = true.
Proof. intros ((F & _) & _). unfold malloc_core.get_core_type. rewrite F. apply Z.eqb_refl. Qed.

Lemma set_size_ok h body t area sz n :
  repr h body t area sz -> 0 <= n <= len area - nt ->
  exists h' body',
    set_size NullTerminated h body n = Ok (h', body') /\
    repr h' body' t (term_at area n) n /\
    inv.stable h body h' body'.
Proof.
  intros R Hn. destruct (set_size_repr _ _ _ _ _ _ _ R Hn) as (h' & body' & E & R' & S).
  exists h', body'. split; [|auto]. unfold set_size. rewrite E. rewrite bind_ok.
  cbv beta iota zeta. rewrite (get_core_type_stable _ _ _ _ S). reflexivity.
Qed.

Lemma set_size_post h body t area sz n h' body' :
  repr h body t area sz -> 0 <= n ->
  set_size NullTerminated h body n = Ok (h', body') ->
  n <= len area - nt /\
  repr h' body' t (term_at area n) n /\
  inv.stable h body h' body'.
Proof.
  intros R Hn H.
  assert (L : n <= len area - nt).
  { unfold set_size in H. bind_inv H x E. apply (set_size_inv _ _ _ _ _ _ _ R E). }
  split; [exact L|].
  destruct (set_size_ok _ _ _ _ _ n R ltac:(lia)) as (h1 & b1 & E & R' & S).
  rewrite H in E. injection E as <- <-. auto.
Qed.

Lemma increase_size_inv h body t area sz d r :
  repr h body t area sz -> t <> Internal ->
  increase_size_and_idle_and_set_term NullTerminated h body d = Ok r ->
  d <= inv.idle_of NullTerminated t area sz.
Proof.
  intros R Nt H. pose proof R as (F & B & T).
  unfold increase_size_and_idle_and_set_term in H. rewrite F in H.
  rewrite (idle_capacity_repr _ R) in H.
  destruct t; [congruence| | |]; cbn [CoreType_to_Z] in H; cbv iota in H;
    rewrite bind_ok in H; cbv beta in H; bind_inv H x E; apply Z.leb_le in E; exact E.
Qed.

Lemma increase_size_ok h body t area sz d :
  repr h body t area sz -> 0 <= d <= inv.idle_of NullTerminated t area sz ->
  exists h' body',
    increase_size NullTerminated h body d = Ok (h', body') /\
    repr h' body' t (term_at area (sz + d)) (sz + d) /\
    inv.stable h body h' body'.
Proof.
  intros R Hn. destruct (increase_size_repr _ _ _ _ _ _ _ R Hn) as (h' & body' & E & R' & S).
  exists h', body'. split; [|auto]. unfold increase_size. rewrite E. rewrite bind_ok.
  cbv beta iota zeta. rewrite (get_core_type_stable _ _ _ _ S). reflexivity.
Qed.

Lemma increase_size_post h body t area sz d h' body' :
  repr h body t area sz -> 0 <= d ->
  (t = Internal -> d <= inv.idle_of NullTerminated t area sz) ->
  increase_size NullTerminated h body d = Ok (h', body') ->
  d <= inv.idle_of NullTerminated t area sz /\
  repr h' body' t (term_at area (sz + d)) (sz + d) /\
  inv.stable h body h' body'.
Proof.
  intros R Hn Hi H.
  assert (L : d <= inv.idle_of NullTerminated t area sz).
  { assert (Dt : t = Internal \/ t <> Internal) by (destruct t; auto; right; discriminate).
    destruct Dt as [Et|Et]; [auto|].
    unfold increase_size in H. bind_inv H x E.
    apply (increase_size_inv _ _ _ _ _ _ _ R Et E). }
  split; [exact L|].
  destruct (increase_size_ok _ _ _ _ _ d R ltac:(lia)) as (h1 & b1 & E & R' & S).
  rewrite H in E. injection E as <- <-. auto.
Qed.

Lemma decrease_size_inv h body t area sz d r :
  repr h body t area sz ->
  decrease_size_and_idle_and_set_term NullTerminated h body d = Ok r ->
  d <= sz.
Proof.
  intros R H. pose proof R as (F & B & T).
  unfold decrease_size_and_idle_and_set_term in H. rewrite F in H.
  destruct t; cbv beta iota delta [inv.layout] in T; cbn [CoreType_to_Z] in H;
    cbv iota in H.
  - bind_inv H x E. apply Z.leb_le in E. destruct T as (<- & _). exact E.
  - bind_inv H x E. apply Z.leb_le in E. destruct T as (_ & <- & _). exact E.
  - pose proof (repr_hdr_ok _ R (or_introl eq_refl)) as Hd.
    rewrite (size_from_buffer_header_ok _ Hd) in H.
    bind_inv H x E. apply Z.leb_le in E. exact E.
  - pose proof (repr_hdr_ok _ R (or_intror eq_refl)) as Hd.
    rewrite (size_from_buffer_header_ok _ Hd) in H.
    bind_inv H x E. apply Z.leb_le in E. exact E.
Qed.

Lemma decrease_size_ok h body t area sz d :
  repr h body t area sz -> 0 <= d <= sz ->
  exists h' body',
    decrease_size NullTerminated h body d = Ok (h', body') /\
    repr h' body' t (term_at area (sz - d)) (sz - d) /\
    inv.stable h body h' body'.
Proof.
  intros R Hn. destruct (decrease_size_repr _ _ _ _ _ _ _ R Hn) as (h' & body' & E & R' & S).
  exists h', body'. split; [|auto]. unfold decrease_size. rewrite E. rewrite bind_ok.
  cbv beta iota zeta. rewrite (get_core_type_stable _ _ _ _ S). reflexivity.
Qed.

Lemma decrease_size_post h body t area sz d h' body' :
  repr h body t area sz -> 0 <= d ->
  decrease_size NullTerminated h body d = Ok (h', body') ->
  d <= sz /\
  repr h' body' t (term_at area (sz - d)) (sz - d) /\
  inv.stable h body h' body'.
Proof.
  intros R Hn H.
  assert (L : d <= sz).
  { unfold decrease_size in H. bind_inv H x E. apply (decrease_size_inv _ _ _ _ _ _ _ R E). }
  split; [exact L|].
  destruct (decrease_size_ok _ _ _ _ _ d R ltac:(lia)) as (h1 & b1 & E & R' & S).
  rewrite H in E. injection E as <- <-. auto.
Qed.

End NullTerminated.
End size_specs.

(** ** The operations of [basic_small_string] *)

Module string_specs.
Import malloc_core core_facts core_specs core_access core_resize small_string_buffer
  selector alloc_specs buffer_specs grow_specs init_specs size_specs.
Section NullTerminated.
Context (NullTerminated : bool).

Abbreviation nt := (nt_bytes NullTerminated).
Abbreviation repr := (inv.repr NullTerminated).
Abbreviation shape := (inv.shape NullTerminated).
Abbreviation term_at := (inv.term_at NullTerminated).
Abbreviation terminated := (inv.terminated NullTerminated).

Lemma evolves_refl h body : inv.evolves h body h body.
Proof. apply stable_evolves, stable_refl. Qed.

Lemma evolves_stable h b h1 b1 h2 b2 :
  inv.evolves h b h1 b1 -> inv.stable h1 b1 h2 b2 -> inv.evolves h b h2 b2.
Proof.
  intros (K & O) (Sb & Ks). split.
  - intros k Ik Nk. rewrite Ks; [apply K; assumption|].
    intros Ok. destruct (O k Ok) as [E|E]; [congruence|].
    rewrite E in Ik. destruct Ik; discriminate.
  - intros p Op. apply O. rewrite <- (same_buffer_owner _ _ Sb). exact Op.
Qed.

Lemma terminated_splice area sz off bs :
  terminated area sz -> 0 <= off -> off + len bs <= sz -> sz <= len area - nt ->
  terminated (splice area off bs) sz.
Proof.
  intros T Ho Hl Hs N. unfold nt_bytes in Hs. rewrite N in Hs.
  rewrite lookup_splice by lia.
  rewrite Z2Nat.id by lia.
  rewrite (proj2 (Z.ltb_ge sz (off + len bs))) by lia.
  rewrite andb_false_r. apply T, N.
Qed.

Lemma wf_default h : repr h 0 Internal (internal_data 0) 0 /\ terminated (internal_data 0) 0.
Proof.
  split; [|intros _; reflexivity].
  split; [reflexivity|]. split; [|split; reflexivity].
  pose proof (nt_range NullTerminated). rewrite length_internal_data. lia.
Qed.

Lemma string_size_repr h body t area sz :
  repr h body t area sz -> basic_small_string.size h body = Ok sz.
Proof. intros R. apply (size_repr _ R). Qed.

Lemma string_capacity_repr h body t area sz :
  repr h body t area sz ->
  basic_small_string.capacity NullTerminated h body = Ok (len area - nt).
Proof. intros R. apply (capacity_repr _ R). Qed.

(** [clear()] *)
Lemma clear_post h body t area sz h' body' :
  repr h body t area sz ->
  basic_small_string.clear NullTerminated h body = Ok (h', body') ->
  repr h' body' t (term_at area 0) 0 /\ terminated (term_at area 0) 0 /\
  inv.stable h body h' body'.
Proof.
  intros R H. unfold basic_small_string.clear in H.
  destruct (set_size_post _ _ _ _ _ _ _ _ _ R (Z.le_refl 0) H) as (L & R' & S).
  split; [exact R'|]. split; [apply terminated_term_at; lia | exact S].
Qed.

(** [pop_back()] *)
Lemma pop_back_post h body t area sz h' body' :
  repr h body t area sz ->
  basic_small_string.pop_back NullTerminated h body = Ok (h', body') ->
  1 <= sz /\
  repr h' body' t (term_at area (sz - 1)) (sz - 1) /\
  terminated (term_at area (sz - 1)) (sz - 1) /\
  inv.stable h body h' body'.
Proof.
  intros R H. unfold basic_small_string.pop_back in H.
  pose proof (repr_bounds _ R) as [B _].
  destruct (decrease_size_post _ _ _ _ _ _ 1 _ _ R ltac:(lia) H) as (L & R' & S).
  split; [exact L|]. split; [exact R'|].
  split; [apply terminated_term_at; lia | exact S].
Qed.

(** [erase(index, count)] *)
Lemma erase_post h body t area sz index count h' body' :
  repr h body t area sz -> 0 <= index < 2 ^ 32 -> 0 <= count < 2 ^ 32 ->
  basic_small_string.erase NullTerminated h body index count = Ok (h', body') ->
  index <= sz /\
  exists area',
    repr h' body' t area' (sz - Z.min count (sz - index)) /\
    (terminated area sz -> terminated area' (sz - Z.min count (sz - index))) /\
    len area' = len area /\
    slice area' 0 index = slice area 0 index /\
    inv.stable h body h' body'.
Proof.
  intros R Hi Hc H. pose proof (repr_bounds _ R) as [B Lb].
  pose proof (nt_range NullTerminated) as Hnt.
  unfold basic_small_string.erase in H.
  rewrite (string_size_repr _ _ _ _ _ R) in H. rewrite bind_ok in H. cbv beta in H.
  destruct (Z.ltb_spec sz index) as [Lt|Ge]; [discriminate|].
  split; [exact Ge|].
  assert (Eu : u32 (sz - index) = sz - index) by (unfold u32; apply Z.mod_small; lia).
  rewrite Eu in H. set (rc := Z.min count (sz - index)) in *.
  destruct (Z.eqb_spec rc 0) as [Ez|Nz].
  { injection H as <- <-. rewrite Ez, Z.sub_0_r. exists area.
    split; [exact R|]. split; [auto|]. split; [reflexivity|].
    split; [reflexivity | apply stable_refl]. }
  assert (Hrc : 0 < rc <= sz - index) by lia.
  assert (E1 : u64 (sz - rc) = sz - rc) by (unfold u64; apply Z.mod_small; lia).
  assert (E2 : u64 (u64 (sz - index) - rc) = sz - index - rc).
  { unfold u64. rewrite (Z.mod_small (sz - index)) by lia. apply Z.mod_small. lia. }
  rewrite E1, E2 in H.
  assert (E3 : u32 (sz - rc) = sz - rc) by (unfold u32; apply Z.mod_small; lia).
  assert (E4 : u32 (sz - index - rc) = sz - index - rc)
    by (unfold u32; apply Z.mod_small; lia).
  rewrite E3, E4 in H.
  bind_inv H x Ea. clear Ea. unfold get_buffer in H. rewrite !ptr_add_add in H.
  destruct (Z.ltb_spec 0 (sz - index - rc)) as [Hr|Hr].
  - rewrite (read_chars_repr _ _ _ _ _ _ (index + rc) (sz - index - rc) R) in H by lia.
    rewrite bind_ok in H. cbv beta in H.
    set (moved := slice area (index + rc) (sz - index - rc)) in *.
    assert (Lm : len moved = sz - index - rc) by (apply length_slice; lia).
    destruct (write_chars_repr _ _ _ _ _ _ index moved R) as (h1 & b1 & W & R1 & S1);
      [lia | lia |].
    rewrite W in H. rewrite bind_ok in H. cbv beta iota in H.
    assert (La1 : len (splice area index moved) = len area)
      by (rewrite length_splice by lia; reflexivity).
    destruct (set_size_post _ _ _ _ _ _ (sz - rc) _ _ R1 ltac:(lia) H) as (L & R' & S').
    exists (term_at (splice area index moved) (sz - rc)).
    split; [exact R'|]. split; [intros _; apply terminated_term_at; lia|].
    split; [rewrite length_term_at by lia; exact La1|]. split.
    + rewrite slice_term_at by lia. apply slice_splice_before; lia.
    + eapply stable_trans; eassumption.
  - rewrite bind_ok in H. cbv beta iota in H.
    destruct (set_size_post _ _ _ _ _ _ (sz - rc) _ _ R ltac:(lia) H) as (L & R' & S').
    exists (term_at area (sz - rc)).
    split; [exact R'|]. split; [intros _; apply terminated_term_at; lia|].
    split; [rewrite length_term_at by lia; reflexivity|]. split.
    + apply slice_term_at; lia.
    + exact S'.
Qed.

(** [reserve(new_cap)] *)
Lemma reserve_post c h body t area sz new_cap h' body' :
  repr h body t area sz -> 0 <= new_cap < 2 ^ 32 ->
  basic_small_string.reserve NullTerminated c h body new_cap = Ok (h', body') ->
  exists t' area',
    repr h' body' t' area' sz /\
    new_cap <= len area' - nt /\
    inv.content area' sz = inv.content area sz /\
    (terminated area sz -> terminated area' sz) /\
    inv.evolves h body h' body' /\
    (new_cap <= len area - nt -> h' = h /\ body' = body) /\
    (len area - nt < new_cap ->
     exists ts,
       calculate_new_buffer_size NullTerminated new_cap = Ok ts /\
       t' = core_type ts /\
       len area' = buffer_size ts - match core_type ts with Short => 0 | _ => 8 end).
Proof.
  intros R Hn H. unfold basic_small_string.reserve in H.
  destruct (buffer_reserve_post _ _ _ _ _ _ _ _ _ _ _ _ R Hn H)
    as (t' & area' & R' & L & _ & C & T & E & _ & N & G).
  exists t', area'. split; [exact R'|]. split; [exact L|].
  split; [apply C; reflexivity|]. split.
  - intros Tm. destruct NullTerminated eqn:En.
    + apply T; [reflexivity | exact Tm].
    + intros Ab. discriminate.
  - split; [exact E|]. split; [|exact G].
    intros Hc. destruct (N Hc) as (-> & -> & _). auto.
Qed.

Lemma len_replicate (n : Z) (ch : byte) : 0 <= n -> len (replicate (Z.to_nat n) ch) = n.
Proof. intros. rewrite length_replicate. lia. Qed.

(** Reserve, write [src] at the start, set the size: [assign]. *)
Lemma assign_chars_post c h body t area sz src h' body' :
  repr h body t area sz -> len src < 2 ^ 32 ->
  ('(h, _core) ← buffer_reserve NullTerminated false false c h body (len src);
   '(h, _core) ← write_chars h _core (get_buffer _core) src;
   set_size NullTerminated h _core (len src)) = Ok (h', body') ->
  exists t' area',
    repr h' body' t' area' (len src) /\ terminated area' (len src) /\
    inv.content area' (len src) = src /\
    inv.evolves h body h' body'.
Proof.
  intros R Hc H. pose proof (nt_range NullTerminated) as Hnt.
  bind_inv H x Er. destruct x as [h1 b1]. cbv beta iota in H.
  destruct (buffer_reserve_post _ _ _ _ _ _ _ _ _ (len src) _ _ R ltac:(lia) Er)
    as (t1 & area1 & R1 & L1 & _ & _ & _ & E1 & _).
  unfold get_buffer in H. rewrite <- (ptr_add_0 (begin_ptr b1)) in H.
  destruct (write_chars_repr _ _ _ _ _ _ 0 src R1) as (h2 & b2 & W & R2 & S2);
    [lia | lia |].
  rewrite W in H. rewrite bind_ok in H. cbv beta iota in H.
  assert (La2 : len (splice area1 0 src) = len area1)
    by (rewrite length_splice by lia; reflexivity).
  destruct (set_size_post _ _ _ _ _ _ (len src) _ _ R2 ltac:(lia) H) as (L & R' & S').
  exists t1, (term_at (splice area1 0 src) (len src)).
  split; [exact R'|]. split; [apply terminated_term_at; lia|]. split.
  - unfold inv.content. rewrite slice_term_at by lia. apply slice_splice_same; lia.
  - eapply evolves_stable; [|exact S']. eapply evolves_stable; eassumption.
Qed.

(** [assign(s, count)] *)
Lemma assign_post c h body t area sz s count h' body' :
  repr h body t area sz -> 0 <= count < 2 ^ 32 ->
  basic_small_string.assign NullTerminated c h body s count = Ok (h', body') ->
  count <= len s /\
  exists t' area',
    repr h' body' t' area' count /\ terminated area' count /\
    inv.content area' count = slice s 0 count /\
    inv.evolves h body h' body'.
Proof.
  intros R Hc H. unfold basic_small_string.assign in H.
  bind_inv H x Er. destruct x as [h1 b1]. cbv beta iota in H.
  bind_inv H src Eb. apply block_read_inv in Eb as (_ & _ & Ls & ->).
  split; [lia|].
  assert (Lsrc : len (slice s 0 count) = count) by (apply length_slice; lia).
  destruct (assign_chars_post c h body t area sz (slice s 0 count) h' body' R)
    as (t' & area' & R' & T' & C' & E'); [lia | |].
  { rewrite Lsrc, Er. rewrite bind_ok. cbv beta iota. exact H. }
  rewrite Lsrc in *. exists t', area'. auto.
Qed.

(** [assign(count, ch)] *)
Lemma assign_fill_post c h body t area sz count ch h' body' :
  repr h body t area sz -> 0 <= count < 2 ^ 32 ->
  basic_small_string.assign_fill NullTerminated c h body count ch = Ok (h', body') ->
  exists t' area',
    repr h' body' t' area' count /\ terminated area' count /\
    inv.content area' count = replicate (Z.to_nat count) ch /\
    inv.evolves h body h' body'.
Proof.
  intros R Hc H. unfold basic_small_string.assign_fill in H.
  pose proof (len_replicate count ch ltac:(lia)) as Lsrc.
  destruct (assign_chars_post c h body t area sz (replicate (Z.to_nat count) ch)
              h' body' R) as (t' & area' & R' & T' & C' & E'); [lia | |].
  { rewrite Lsrc. exact H. }
  rewrite Lsrc in *. exists t', area'. auto.
Qed.

(** [resize(count, ch)] *)
Lemma resize_post c h body t area sz count ch h' body' :
  repr h body t area sz -> 0 <= count < 2 ^ 32 ->
  basic_small_string.resize NullTerminated c h body count ch = Ok (h', body') ->
  exists t' area',
    repr h' body' t' area' count /\ terminated area' count /\
    slice area' 0 (Z.min sz count) = slice area 0 (Z.min sz count) /\
    inv.evolves h body h' body'.
Proof.
  intros R Hc H. pose proof (nt_range NullTerminated) as Hnt.
  pose proof (repr_bounds _ R) as [B Lb].
  unfold basic_small_string.resize in H. bind_inv H x Ea. clear Ea.
  unfold small_string_buffer.get_capacity_and_size in H.
  rewrite (get_capacity_and_size_repr _ R) in H. rewrite bind_ok in H.
  cbv beta iota delta [capacity_ size_] in H.
  destruct (Z.leb_spec count sz) as [Le|Gt].
  - destruct (set_size_post _ _ _ _ _ _ count _ _ R ltac:(lia) H) as (L & R' & S').
    exists t, (term_at area count).
    split; [exact R'|]. split; [apply terminated_term_at; lia|]. split.
    + rewrite Z.min_r by lia. apply slice_term_at; lia.
    + apply stable_evolves, S'.
  - bind_inv H x Er. destruct x as [h1 b1]. cbv beta iota in H.
    assert (G : exists t1 area1,
               repr h1 b1 t1 area1 sz /\ count <= len area1 - nt /\
               slice area1 0 sz = slice area 0 sz /\ inv.evolves h body h1 b1).
    { destruct (Z.ltb_spec (len area - nt) count) as [Lt|Ge].
      - destruct (buffer_reserve_post _ _ _ _ _ _ _ _ _ count _ _ R ltac:(lia) Er)
          as (t1 & area1 & R1 & L1 & _ & C1 & _ & E1 & _).
        exists t1, area1. auto.
      - injection Er as <- <-. exists t, area.
        split; [exact R|]. split; [lia|]. split; [reflexivity | apply evolves_refl]. }
    destruct G as (t1 & area1 & R1 & L1 & C1 & E1).
    set (fill := replicate (Z.to_nat (count - sz)) ch) in *.
    assert (Lf : len fill = count - sz) by (apply len_replicate; lia).
    unfold basic_small_string.data, get_buffer in H.
    destruct (write_chars_repr _ _ _ _ _ _ sz fill R1) as (h2 & b2 & W & R2 & S2);
      [lia | lia |].
    rewrite W in H. rewrite bind_ok in H. cbv beta iota in H.
    assert (La2 : len (splice area1 sz fill) = len area1)
      by (rewrite length_splice by lia; reflexivity).
    destruct (set_size_post _ _ _ _ _ _ count _ _ R2 ltac:(lia) H) as (L & R' & S').
    exists t1, (term_at (splice area1 sz fill) count).
    split; [exact R'|]. split; [apply terminated_term_at; lia|]. split.
    + rewrite Z.min_l by lia. rewrite slice_term_at by lia.
      rewrite slice_splice_before by lia. exact C1.
    + eapply evolves_stable; [|exact S']. eapply evolves_stable; eassumption.
Qed.

End NullTerminated.
End string_specs.

Module append_specs.
Import malloc_core core_facts core_specs core_access core_resize small_string_buffer
  selector alloc_specs buffer_specs grow_specs init_specs size_specs string_specs.
Section NullTerminated.
Context (NullTerminated : bool).

Abbreviation nt := (nt_bytes NullTerminated).
Abbreviation repr := (inv.repr NullTerminated).
Abbreviation shape := (inv.shape NullTerminated).
Abbreviation term_at := (inv.term_at NullTerminated).
Abbreviation terminated := (inv.terminated NullTerminated).
Abbreviation idle_of := (inv.idle_of NullTerminated).

(** After [allocate_more(n)]: the buffer to write into.  When the addition
    [size + n] wrapped the buffer may be too small; the writes that follow
    decide. *)
Lemma allocate_more_ready c h body t area sz n h' body' :
  repr h body t area sz -> 0 <= n < 2 ^ 32 ->
  allocate_more NullTerminated false c h body n = Ok (h', body') ->
  exists t' area',
    shape h' body' t' area' sz /\ sz <= len area' /\ len area' < 2 ^ 32 /\
    slice area' 0 sz = slice area 0 sz /\
    (sz + n <= len area' ->
     repr h' body' t' area' sz /\ sz + n <= len area' - nt /\
     (t' = Internal -> n <= idle_of t' area' sz)) /\
    inv.evolves h body h' body' /\
    (n <= idle_of t area sz -> h' = h /\ body' = body /\ t' = t /\ area' = area) /\
    (idle_of t area sz < n ->
     exists ts,
       calculate_new_buffer_size_growth NullTerminated (u32 (sz + n)) = Ok ts /\
       t' = core_type ts /\
       len area' = buffer_size ts - match core_type ts with Short => 0 | _ => 8 end).
Proof.
  intros R Hn H. pose proof (repr_bounds _ R) as [B Lb].
  pose proof (nt_range NullTerminated) as Hnt.
  pose proof (idle_of_le _ t area sz B) as Hi.
  destruct (allocate_more_post _ _ _ _ _ _ _ _ _ _ R Hn H)
    as [(Le & -> & ->)|(Gt & t' & area' & S & L & L32 & C & Hw & Gts & Ni & O & Vn & K & Kf)].
  - exists t, area. split; [apply repr_shape, R|]. split; [lia|]. split; [lia|].
    split; [reflexivity|]. split; [|split; [apply evolves_refl | split; [auto|intros; lia]]].
    intros _. split; [exact R|]. split; [lia|]. intros _. exact Le.
  - exists t', area'. split; [exact S|]. split; [exact L|]. split; [exact L32|].
    split; [exact C|]. split; [|split].
    + intros Hl. specialize (Hw ltac:(lia)).
      split; [apply shape_repr; [exact S | lia]|]. split; [exact Hw|]. congruence.
    + split.
      * intros k Ik Nk. apply K; [|exact Nk]. intros ->. rewrite Vn in Ik.
        destruct Ik; discriminate.
      * intros p Op. right. rewrite O in Op. injection Op as <-. exact Vn.
    + split; [intros Le; lia | intros _; exact Gts].
Qed.

Lemma slice_splice_app (blk bs : list byte) off :
  0 <= off -> off + len bs <= len blk ->
  slice (splice blk off bs) 0 (off + len bs) = slice blk 0 off ++ bs.
Proof.
  intros Ho Hl. unfold slice, splice. cbn [Z.to_nat drop].
  rewrite app_assoc. replace (Z.to_nat (off + len bs)) with (length (take (Z.to_nat off) blk ++ bs)).
  - apply take_app_length.
  - rewrite length_app, length_take. lia.
Qed.

(** The size update that ends [append], [insert] and [push_back]. *)
Lemma finish_grow h2 b2 t1 area1 area2 sz n h' body' :
  repr h2 b2 t1 area2 sz -> len area2 = len area1 -> 0 <= n ->
  (t1 = Internal -> n <= idle_of t1 area1 sz) ->
  increase_size NullTerminated h2 b2 n = Ok (h', body') ->
  repr h' body' t1 (term_at area2 (sz + n)) (sz + n) /\
  terminated (term_at area2 (sz + n)) (sz + n) /\
  slice (term_at area2 (sz + n)) 0 (sz + n) = slice area2 0 (sz + n) /\
  inv.stable h2 b2 h' body'.
Proof.
  intros R2 La Hn Hi I.
  assert (Ei : idle_of t1 area2 sz = idle_of t1 area1 sz).
  { unfold inv.idle_of. rewrite La. reflexivity. }
  destruct (increase_size_post _ _ _ _ _ _ n _ _ R2 Hn
              ltac:(rewrite Ei; exact Hi) I) as (Li & R' & S').
  pose proof (repr_bounds _ R2) as [B _].
  pose proof (idle_of_le _ t1 area2 sz B) as Hl.
  split; [exact R'|]. split; [apply terminated_term_at; lia|].
  split; [apply slice_term_at; lia | exact S'].
Qed.

(** Reading through a pointer gives as many characters as asked for. *)
Lemma read_chars_length h body p n bs :
  read_chars h body p n = Ok bs -> 0 <= n /\ len bs = n.
Proof.
  assert (B : forall blk off, block_read blk off n = Ok bs -> 0 <= n /\ len bs = n).
  { intros blk off E. apply block_read_inv in E as (Ho & Hn & L & ->).
    split; [exact Hn | apply length_slice; lia]. }
  destruct p as [off|base off]; cbn [read_chars]; [apply B|].
  unfold load_bytes. destruct (h !! base) as [blk|]; [apply B | discriminate].
Qed.

Lemma read_from_length h body s n bs :
  basic_small_string.read_from h body s n = Ok bs -> 0 <= n /\ len bs = n.
Proof.
  destruct s as [a|p]; cbn [basic_small_string.read_from].
  - intros E. apply block_read_inv in E as (Ho & Hn & L & ->).
    split; [exact Hn | apply length_slice; lia].
  - apply read_chars_length.
Qed.

(** The copy from a [char_ptr]: what it read, and the store of it. *)
Lemma memcpy_from_inv h body dest s count h' body' :
  basic_small_string.memcpy_from h body dest s count = Ok (h', body') ->
  exists src,
    basic_small_string.overlaps dest s count = false /\
    basic_small_string.read_from h body s count = Ok src /\
    len src = count /\
    write_chars h body dest src = Ok (h', body').
Proof.
  unfold basic_small_string.memcpy_from. intros H.
  destruct (basic_small_string.overlaps dest s count); [discriminate|].
  bind_inv H src E. exists src. split; [reflexivity|]. split; [reflexivity|].
  split; [apply (proj2 (read_from_length h body s count src E)) | exact H].
Qed.

Lemma read_from_array h body a n bs :
  basic_small_string.read_from h body (basic_small_string.array a) n = Ok bs ->
  0 <= n <= len a /\ bs = slice a 0 n.
Proof.
  cbn [basic_small_string.read_from]. intros E.
  apply block_read_inv in E as (_ & Hn & L & ->). split; [lia | reflexivity].
Qed.

(** [append(s, count)]: [src] is what the copy read behind [s], after
    [allocate_more]. *)
Lemma append_post c h body t area sz s count h' body' :
  repr h body t area sz -> 0 <= count < 2 ^ 32 ->
  basic_small_string.append NullTerminated c h body s count = Ok (h', body') ->
  exists src,
    len src = count /\
    (count <> 0 ->
     exists h1 b1,
       allocate_more NullTerminated false c h body count = Ok (h1, b1) /\
       basic_small_string.read_from h1 b1 s count = Ok src) /\
  exists t' area',
    repr h' body' t' area' (sz + count) /\
    (terminated area sz -> terminated area' (sz + count)) /\
    inv.content area' (sz + count) = inv.content area sz ++ src /\
    inv.evolves h body h' body' /\
    (count <= idle_of t area sz ->
     inv.stable h body h' body' /\ t' = t /\ len area' = len area) /\
    (idle_of t area sz < count ->
     exists ts,
       calculate_new_buffer_size_growth NullTerminated (u32 (sz + count)) = Ok ts /\
       t' = core_type ts /\
       len area' = buffer_size ts - match core_type ts with Short => 0 | _ => 8 end).
Proof.
  intros R Hc H. pose proof (repr_bounds _ R) as [B Lb].
  pose proof (nt_range NullTerminated) as Hnt.
  unfold basic_small_string.append in H.
  destruct (Z.eqb_spec count 0) as [Ez|Nz].
  { injection H as <- <-. subst count. exists []. split; [reflexivity|].
    split; [intros N; contradiction|]. exists t, area.
    rewrite Z.add_0_r. split; [exact R|]. split; [auto|].
    split; [rewrite app_nil_r; reflexivity|].
    split; [apply evolves_refl|]. pose proof (idle_of_le _ t area sz B).
    split; [intros _; split; [apply stable_refl | auto] | intros; lia]. }
  bind_inv H x A. destruct x as [h1 b1]. cbv beta iota in H.
  destruct (allocate_more_ready _ _ _ _ _ _ _ _ _ R Hc A)
    as (t1 & area1 & S1 & L1 & L32 & C1 & Rdy & E1 & Noop & Grow).
  unfold end_ in H. rewrite (end_ptr_shape _ _ _ _ _ _ S1 ltac:(lia)) in H.
  rewrite bind_ok in H. cbv beta in H.
  bind_inv H x M. destruct x as [h2 b2]. cbv beta iota in H.
  apply memcpy_from_inv in M as (src & _ & Eb & Lsrc & W).
  exists src. split; [exact Lsrc|].
  split; [intros _; exists h1, b1; split; [reflexivity | exact Eb]|].
  pose proof (write_chars_shape_inv _ _ _ _ _ _ sz _ _ _ S1 ltac:(lia) W) as Fit.
  rewrite Lsrc in Fit. destruct (Rdy Fit) as (R1 & Hl & Hi).
  destruct (write_chars_repr _ _ _ _ _ _ sz src R1) as (h2' & b2' & W' & R2 & S2);
    [lia | lia |].
  rewrite W in W'. injection W' as <- <-.
  assert (La2 : len (splice area1 sz src) = len area1)
    by (rewrite length_splice by lia; reflexivity).
  destruct (finish_grow _ _ _ _ _ _ count _ _ R2 La2 ltac:(lia) Hi H)
    as (R' & T' & C' & S').
  exists t1, (term_at (splice area1 sz src) (sz + count)).
  split; [exact R'|]. split; [intros _; exact T'|]. split.
  { unfold inv.content. rewrite C'. replace (sz + count) with (sz + len src) by lia.
    rewrite slice_splice_app by lia. rewrite C1. reflexivity. }
  split.
  { eapply evolves_stable; [|exact S']. eapply evolves_stable; eassumption. }
  split.
  - intros Le. destruct (Noop Le) as (-> & -> & -> & ->).
    split; [eapply stable_trans; eassumption|]. split; [reflexivity|].
    rewrite length_term_at by lia. exact La2.
  - intros Gt. destruct (Grow Gt) as (ts & Cts & Et & Lts). exists ts.
    split; [exact Cts|]. split; [exact Et|].
    rewrite length_term_at by lia. rewrite La2. exact Lts.
Qed.

(** [push_back(ch)] *)
Lemma push_back_post c h body t area sz ch h' body' :
  repr h body t area sz ->
  basic_small_string.push_back NullTerminated c h body ch = Ok (h', body') ->
  exists t' area',
    repr h' body' t' area' (sz + 1) /\ terminated area' (sz + 1) /\
    inv.content area' (sz + 1) = inv.content area sz ++ [ch] /\
    inv.evolves h body h' body'.
Proof.
  intros R H. pose proof (repr_bounds _ R) as [B Lb].
  pose proof (nt_range NullTerminated) as Hnt.
  unfold basic_small_string.push_back in H.
  bind_inv H x A. destruct x as [h1 b1]. cbv beta iota in H.
  destruct (allocate_more_ready _ _ _ _ _ _ 1 _ _ R ltac:(lia) A)
    as (t1 & area1 & S1 & L1 & L32 & C1 & Rdy & E1 & Noop & Grow).
  unfold basic_small_string.size, small_string_buffer.size in H.
  rewrite (size_shape _ _ _ _ _ _ S1 ltac:(lia)) in H.
  rewrite bind_ok in H. cbv beta in H.
  unfold basic_small_string.data, get_buffer in H.
  bind_inv H x W. destruct x as [h2 b2]. cbv beta iota in H.
  pose proof (write_chars_shape_inv _ _ _ _ _ _ sz _ _ _ S1 ltac:(lia) W) as Fit.
  cbn [length] in Fit. destruct (Rdy ltac:(lia)) as (R1 & Hl & Hi).
  destruct (write_chars_repr _ _ _ _ _ _ sz [ch] R1) as (h2' & b2' & W' & R2 & S2);
    [lia | cbn [length]; lia |].
  rewrite W in W'. injection W' as <- <-.
  assert (La2 : len (splice area1 sz [ch]) = len area1)
    by (rewrite length_splice by (cbn [length]; lia); reflexivity).
  destruct (finish_grow _ _ _ _ _ _ 1 _ _ R2 La2 ltac:(lia) Hi H)
    as (R' & T' & C' & S').
  exists t1, (term_at (splice area1 sz [ch]) (sz + 1)).
  split; [exact R'|]. split; [exact T'|]. split.
  { unfold inv.content. rewrite C'.
    change (sz + 1) with (sz + len [ch]).
    rewrite slice_splice_app by (cbn [length]; lia). rewrite C1. reflexivity. }
  eapply evolves_stable; [|exact S']. eapply evolves_stable; eassumption.
Qed.

(** [insert(index, str, count)] *)
Lemma insert_post c h body t area sz index str count h' body' :
  repr h body t area sz -> 0 <= index < 2 ^ 32 -> 0 <= count < 2 ^ 32 ->
  basic_small_string.insert NullTerminated c h body index str count = Ok (h', body') ->
  exists t' area',
    repr h' body' t' area' (sz + count) /\
    (terminated area sz -> terminated area' (sz + count)) /\
    inv.evolves h body h' body'.
Proof.
  intros R Hi Hc H. pose proof (repr_bounds _ R) as [B Lb].
  pose proof (nt_range NullTerminated) as Hnt.
  unfold basic_small_string.insert in H.
  destruct (Z.eqb_spec count 0) as [Ez|Nz].
  { injection H as <- <-. subst count. exists t, area.
    rewrite Z.add_0_r. split; [exact R|]. split; [auto | apply evolves_refl]. }
  rewrite (string_size_repr _ _ _ _ _ _ R) in H. rewrite bind_ok in H. cbv beta in H.
  destruct (Z.ltb_spec sz index) as [Lt|Ge]; [discriminate|].
  bind_inv H x A. destruct x as [h1 b1]. cbv beta iota in H.
  destruct (allocate_more_ready _ _ _ _ _ _ _ _ _ R Hc A)
    as (t1 & area1 & S1 & L1 & L32 & C1 & Rdy & E1 & Noop & Grow).
  unfold get_buffer in H. rewrite !ptr_add_add in H.
  assert (G : exists h2 b2 area2,
             repr h2 b2 t1 area2 sz /\ len area2 = len area1 /\
             sz + count <= len area1 - nt /\
             (t1 = Internal -> count <= idle_of t1 area1 sz) /\
             inv.stable h1 b1 h2 b2 /\
             increase_size NullTerminated h2 b2 count = Ok (h', body')).
  { bind_inv H x M. destruct x as [h2 b2]. cbv beta iota in H.
    bind_inv H x W. destruct x as [h3 b3]. cbv beta iota in H.
    apply memcpy_from_inv in W as (src & _ & Eb & Lsrc & W).
    destruct (Z.ltb_spec index sz) as [Lt|Eq].
    - bind_inv M moved Rd.
      rewrite (read_chars_shape _ _ _ _ _ _ index (sz - index) S1) in Rd by lia.
      injection Rd as <-.
      set (moved := slice area1 index (sz - index)) in *.
      assert (Lm : len moved = sz - index) by (apply length_slice; lia).
      pose proof (write_chars_shape_inv _ _ _ _ _ _ (index + count) _ _ _ S1
                    ltac:(lia) M) as Fit.
      rewrite Lm in Fit. destruct (Rdy ltac:(lia)) as (R1 & Hl & Hid).
      destruct (write_chars_repr _ _ _ _ _ _ (index + count) moved R1)
        as (h2' & b2' & W' & R2 & S2); [lia | lia |].
      rewrite M in W'. injection W' as <- <-.
      rewrite <- (same_buffer_begin_ptr _ _ (proj1 S2)) in W.
      assert (La2 : len (splice area1 (index + count) moved) = len area1)
        by (rewrite length_splice by lia; reflexivity).
      destruct (write_chars_repr _ _ _ _ _ _ index src R2)
        as (h3' & b3' & W' & R3 & S3); [lia | lia |].
      rewrite W in W'. injection W' as <- <-.
      exists h3, b3, (splice (splice area1 (index + count) moved) index src).
      split; [exact R3|]. split; [rewrite length_splice by lia; exact La2|].
      split; [exact Hl|]. split; [exact Hid|].
      split; [eapply stable_trans; eassumption | exact H].
    - injection M as <- <-.
      pose proof (write_chars_shape_inv _ _ _ _ _ _ index _ _ _ S1 ltac:(lia) W) as Fit.
      rewrite Lsrc in Fit. destruct (Rdy ltac:(lia)) as (R1 & Hl & Hid).
      destruct (write_chars_repr _ _ _ _ _ _ index src R1)
        as (h3' & b3' & W' & R3 & S3); [lia | lia |].
      rewrite W in W'. injection W' as <- <-.
      exists h3, b3, (splice area1 index src).
      split; [exact R3|]. split; [rewrite length_splice by lia; reflexivity|].
      split; [exact Hl|]. split; [exact Hid|]. split; [exact S3 | exact H]. }
  destruct G as (h2 & b2 & area2 & R2 & La2 & Hl & Hid & S2 & I).
  destruct (finish_grow _ _ _ _ _ _ count _ _ R2 La2 ltac:(lia) Hid I)
    as (R' & T' & C' & S').
  exists t1, (term_at area2 (sz + count)).
  split; [exact R'|]. split; [intros _; exact T'|].
  eapply evolves_stable; [|exact S']. eapply evolves_stable; eassumption.
Qed.

End NullTerminated.
End append_specs.

Module ctor_specs.
Import malloc_core core_facts core_specs core_access core_resize small_string_buffer
  selector alloc_specs buffer_specs grow_specs init_specs size_specs string_specs.
Section NullTerminated.
Context (NullTerminated : bool).

Abbreviation nt := (nt_bytes NullTerminated).
Abbreviation repr := (inv.repr NullTerminated).
Abbreviation shape := (inv.shape NullTerminated).
Abbreviation term_at := (inv.term_at NullTerminated).
Abbreviation terminated := (inv.terminated NullTerminated).

Lemma calculate_new_buffer_size_total size :
  0 <= size <= 2 ^ 32 - 9 - nt ->
  exists ts, calculate_new_buffer_size NullTerminated size = Ok ts.
Proof.
  intros Hs. pose proof (nt_range NullTerminated).
  rewrite calculate_new_buffer_size_eq by lia.
  destruct (size <=? 7 - nt); [eauto|].
  destruct (size <=? 256 - nt); [eauto|].
  destruct (size <=? 16383); [eauto|].
  rewrite (proj2 (Z.leb_le size (2 ^ 32 - 9 - nt))) by lia. eauto.
Qed.

Lemma valid_chunk_le c h n m :
  inv.valid_chunk c h n -> m <= n -> inv.valid_chunk c h m.
Proof. intros (A & B & C & D) L. repeat split; try assumption. lia. Qed.

(** A new string owns nothing that was allocated before. *)
Lemma ctor_evolves (c : chunk) (h h' : heap) body' t area sz :
  repr h' body' t area sz ->
  (forall k, k <> chunk_addr c -> h' !! k = h !! k) ->
  (t = Internal -> h' = h) ->
  (t <> Internal -> inv.owner body' = Some (chunk_addr c) /\ h !! chunk_addr c = None) ->
  inv.evolves h 0 h' body'.
Proof.
  intros R K Ki O.
  assert (Dt : t = Internal \/ t <> Internal) by (destruct t; auto; right; discriminate).
  split.
  - intros k Ik _. destruct Dt as [Et|Nt]; [rewrite (Ki Et); reflexivity|].
    apply K. intros ->. destruct (O Nt) as [_ E]. rewrite E in Ik.
    destruct Ik; discriminate.
  - intros p Op. right. destruct Dt as [Et|Nt].
    + rewrite (repr_owner _ _ _ _ _ _ R), Et in Op. discriminate.
    + destruct (O Nt) as [E1 E2]. congruence.
Qed.

(** [basic_small_string(initialized_later, n)] returns. *)
Lemma ctor_initialized_later_ok c h n :
  0 <= n <= 2 ^ 32 - 16 - nt -> inv.valid_chunk c h (2 ^ 32) ->
  exists h' body' t area,
    basic_small_string.ctor_initialized_later NullTerminated c h n = Ok (h', body') /\
    repr h' body' t area n /\ terminated area n.
Proof.
  intros Hn V. pose proof (nt_range NullTerminated) as Hnt.
  unfold basic_small_string.ctor_initialized_later.
  assert (Eu : u32 n = n) by (unfold u32; apply Z.mod_small; lia).
  rewrite Eu. rewrite header_size_eq.
  assert (Hu : 0 <= u32 (n + (8 + nt)) < 2 ^ 32) by (apply Z.mod_pos_bound; lia).
  rewrite Assert_true by (apply Z.leb_le; lia). rewrite bind_ok.
  unfold initial_allocate. rewrite max_long_buffer_size_eq.
  rewrite Assert_true by (apply Z.ltb_lt; lia). rewrite bind_ok.
  destruct (calculate_new_buffer_size_total n ltac:(lia)) as (ts & C).
  rewrite C. rewrite bind_ok. rewrite Eu.
  destruct (calculate_new_buffer_size_fits NullTerminated n ts ltac:(lia) C) as [Fi|(_ & _ & W)];
    [|lia].
  assert (Hb : buffer_size ts <= 2 ^ 32).
  { unfold inv.fits in Fi. rewrite internal_buffer_size_eq in Fi.
    destruct (core_type ts); lia. }
  destruct (initial_allocate_with_ok _ c h ctor ts n Fi ltac:(lia)
              (fun _ => valid_chunk_le _ _ _ _ V Hb))
    as (h' & body' & area & E & R & T & _).
  exists h', body', (core_type ts), area. auto.
Qed.

(** [basic_small_string(count, ch)] *)
Lemma ctor_fill_post c h count ch h' body' :
  0 <= count < 2 ^ 64 ->
  basic_small_string.ctor_fill NullTerminated c h count ch = Ok (h', body') ->
  exists t area,
    repr h' body' t area count /\ terminated area count /\
    inv.content area count = replicate (Z.to_nat count) ch /\
    inv.evolves h 0 h' body'.
Proof.
  intros Hc H. pose proof (nt_range NullTerminated) as Hnt.
  unfold basic_small_string.ctor_fill in H.
  bind_inv H x A. destruct x as [h1 b1]. cbv beta iota in H.
  destruct (ctor_initialized_later_post _ _ _ _ _ _ A Hc)
    as (t & area & R & T & K & Ki & O).
  pose proof (repr_bounds _ R) as [B Lb].
  pose proof (ctor_evolves _ _ _ _ _ _ _ R K Ki O) as E.
  set (fill := replicate (Z.to_nat count) ch) in *.
  assert (Lf : len fill = count) by (apply len_replicate; lia).
  unfold basic_small_string.data, get_buffer in H.
  rewrite <- (ptr_add_0 (begin_ptr b1)) in H.
  pose proof (write_chars_shape_inv _ _ _ _ _ _ 0 _ _ _ (repr_shape _ _ _ _ _ _ R)
                ltac:(lia) H) as Fit.
  rewrite Lf in Fit.
  assert (Eu : u32 count = count) by (unfold u32; apply Z.mod_small; lia).
  rewrite Eu in *.
  destruct (write_chars_repr _ _ _ _ _ _ 0 fill R) as (h2 & b2 & W & R2 & S2);
    [lia | lia |].
  rewrite H in W. injection W as <- <-.
  exists t, (splice area 0 fill).
  split; [exact R2|]. split; [apply terminated_splice; [exact T|lia..]|]. split.
  - pose proof (slice_splice_same area fill 0 ltac:(lia) ltac:(lia)) as X.
    rewrite Lf in X. exact X.
  - eapply evolves_stable; eassumption.
Qed.

(** [basic_small_string(s, count)] *)
Lemma ctor_chars_post c h s count h' body' :
  0 <= count < 2 ^ 64 ->
  basic_small_string.ctor_chars NullTerminated c h s count = Ok (h', body') ->
  count <= len s /\
  exists t area,
    repr h' body' t area count /\ terminated area count /\
    inv.content area count = slice s 0 count /\
    inv.evolves h 0 h' body'.
Proof.
  intros Hc H. pose proof (nt_range NullTerminated) as Hnt.
  unfold basic_small_string.ctor_chars in H.
  bind_inv H x A. destruct x as [h1 b1]. cbv beta iota in H.
  destruct (ctor_initialized_later_post _ _ _ _ _ _ A Hc)
    as (t & area & R & T & K & Ki & O).
  pose proof (repr_bounds _ R) as [B Lb].
  pose proof (ctor_evolves _ _ _ _ _ _ _ R K Ki O) as E.
  bind_inv H src Eb. apply block_read_inv in Eb as (_ & _ & Ls & ->).
  split; [lia|].
  set (src := slice s 0 count) in *.
  assert (Lf : len src = count) by (apply length_slice; lia).
  unfold basic_small_string.data, get_buffer in H.
  rewrite <- (ptr_add_0 (begin_ptr b1)) in H.
  pose proof (write_chars_shape_inv _ _ _ _ _ _ 0 _ _ _ (repr_shape _ _ _ _ _ _ R)
                ltac:(lia) H) as Fit.
  rewrite Lf in Fit.
  assert (Eu : u32 count = count) by (unfold u32; apply Z.mod_small; lia).
  rewrite Eu in *.
  destruct (write_chars_repr _ _ _ _ _ _ 0 src R) as (h2 & b2 & W & R2 & S2);
    [lia | lia |].
  rewrite H in W. injection W as <- <-.
  exists t, (splice area 0 src).
  split; [exact R2|]. split; [apply terminated_splice; [exact T|lia..]|]. split.
  - pose proof (slice_splice_same area src 0 ltac:(lia) ltac:(lia)) as X.
    rewrite Lf in X. exact X.
  - eapply evolves_stable; eassumption.
Qed.

(** The constructor from an array returns, and the string holds the array. *)
Lemma ctor_chars_ok c h s :
  len s <= 2 ^ 32 - 16 - nt -> inv.valid_chunk c h (2 ^ 32) ->
  exists h' body' t area,
    basic_small_string.ctor_chars NullTerminated c h s (len s) = Ok (h', body') /\
    repr h' body' t area (len s) /\ terminated area (len s) /\
    inv.content area (len s) = s.
Proof.
  intros Hl V. pose proof (nt_range NullTerminated) as Hnt.
  destruct (ctor_initialized_later_ok c h (len s) ltac:(lia) V)
    as (h1 & b1 & t & area & A & R & T).
  pose proof (repr_bounds _ R) as [B Lb].
  destruct (write_chars_repr _ _ _ _ _ _ 0 s R) as (h2 & b2 & W & R2 & S2);
    [lia | lia |].
  exists h2, b2, t, (splice area 0 s).
  split.
  { unfold basic_small_string.ctor_chars. rewrite A. rewrite bind_ok. cbv beta iota.
    rewrite block_read_ok by lia. rewrite bind_ok. rewrite slice_all.
    unfold basic_small_string.data, get_buffer.
    rewrite <- (ptr_add_0 (begin_ptr b1)). exact W. }
  split; [exact R2|]. split; [apply terminated_splice; [exact T|lia..]|].
  unfold inv.content. apply slice_splice_same; lia.
Qed.

(** [basic_small_string(const basic_small_string& other)] *)
Lemma ctor_copy_post c h other to ao so h' body' :
  repr h other to ao so ->
  basic_small_string.ctor_copy NullTerminated c h other = Ok (h', body') ->
  exists t area,
    repr h' body' t area so /\ terminated area so /\
    inv.content area so = inv.content ao so /\
    inv.evolves h 0 h' body'.
Proof.
  intros Ro H. pose proof (nt_range NullTerminated) as Hnt.
  pose proof (repr_bounds _ Ro) as [Bo Lo].
  unfold basic_small_string.ctor_copy in H.
  rewrite (string_size_repr _ _ _ _ _ _ Ro) in H. rewrite bind_ok in H. cbv beta in H.
  bind_inv H x A. destruct x as [h1 b1]. cbv beta iota in H.
  destruct (ctor_initialized_later_post _ _ _ _ _ _ A ltac:(lia))
    as (t & area & R & T & K & Ki & O).
  assert (Eu : u32 so = so) by (unfold u32; apply Z.mod_small; lia).
  rewrite Eu in *.
  pose proof (repr_bounds _ R) as [B Lb].
  pose proof (ctor_evolves _ _ _ _ _ _ _ R K Ki O) as E.
  assert (Ro1 : repr h1 other to ao so).
  { eapply repr_frame; [exact Ro|]. intros k Ok. apply E; [|discriminate].
    apply (repr_owned _ _ _ _ _ _ _ Ro Ok). }
  rewrite (string_size_repr _ _ _ _ _ _ Ro1) in H. rewrite bind_ok in H. cbv beta in H.
  unfold basic_small_string.data, get_buffer in H.
  rewrite <- (ptr_add_0 (begin_ptr other)) in H.
  rewrite (read_chars_repr _ _ _ _ _ _ 0 so Ro1) in H by lia.
  rewrite bind_ok in H. cbv beta in H.
  set (src := slice ao 0 so) in *.
  assert (Lf : len src = so) by (apply length_slice; lia).
  rewrite <- (ptr_add_0 (begin_ptr b1)) in H.
  destruct (write_chars_repr _ _ _ _ _ _ 0 src R) as (h2 & b2 & W & R2 & S2);
    [lia | lia |].
  rewrite H in W. injection W as <- <-.
  exists t, (splice area 0 src).
  split; [exact R2|]. split; [apply terminated_splice; [exact T|lia..]|]. split.
  - pose proof (slice_splice_same area src 0 ltac:(lia) ltac:(lia)) as X.
    rewrite Lf in X. exact X.
  - eapply evolves_stable; eassumption.
Qed.

(** [~basic_small_string()] *)
Lemma dtor_ok h body t area sz :
  repr h body t area sz ->
  basic_small_string.dtor h body = Ok (inv.release h body).
Proof.
  intros R. unfold basic_small_string.dtor, dtor.
  apply (free_if_external_shape _ h h body t area sz (repr_shape _ _ _ _ _ _ R)).
  intros k Ok. apply (repr_owned _ _ _ _ _ _ _ R Ok).
Qed.

End NullTerminated.
End ctor_specs.

Module shrink_specs.
Import malloc_core core_facts core_specs core_access core_resize small_string_buffer
  selector alloc_specs buffer_specs grow_specs init_specs size_specs string_specs
  ctor_specs.
Section NullTerminated.
Context (NullTerminated : bool).

Abbreviation nt := (nt_bytes NullTerminated).
Abbreviation repr := (inv.repr NullTerminated).
Abbreviation terminated := (inv.terminated NullTerminated).

(** [shrink_to_fit()] *)
Lemma shrink_to_fit_post c h body t area sz h' body' :
  repr h body t area sz ->
  basic_small_string.shrink_to_fit NullTerminated c h body = Ok (h', body') ->
  exists t' area',
    repr h' body' t' area' sz /\
    (terminated area sz -> terminated area' sz) /\
    len area' <= len area /\
    inv.content area' sz = inv.content area sz /\
    CoreType_to_Z t' <= CoreType_to_Z t /\
    inv.evolves h body h' body'.
Proof.
  intros R H. pose proof (nt_range NullTerminated) as Hnt.
  pose proof (repr_bounds _ R) as [B Lb].
  unfold basic_small_string.shrink_to_fit in H.
  unfold small_string_buffer.get_capacity_and_size in H.
  rewrite (get_capacity_and_size_repr _ R) in H. rewrite bind_ok in H.
  cbv beta iota zeta delta [capacity_ size_] in H.
  bind_inv H x Ea. clear Ea. bind_inv H ts C.
  pose proof (calculate_new_buffer_size_fits NullTerminated sz ts ltac:(lia) C) as Fi.
  destruct (Z.ltb_spec (buffer_size ts) (len area - nt)) as [Lt|Ge].
  - bind_inv H x A. destruct x as [h3 b3]. cbv beta iota in H.
    bind_inv H x At. apply Z.leb_le in At. injection H as <- <-.
    bind_inv A x Ia. destruct x as [h1 new]. cbv beta iota in A.
    unfold basic_small_string.ctor_initialized_later_with in Ia.
    assert (Eu : u32 sz = sz) by (unfold u32; apply Z.mod_small; lia).
    rewrite Eu in Ia.
    destruct (initial_allocate_with_post _ _ _ _ _ _ _ _ Ia
                ltac:(destruct Fi as [|(?&?&_)]; auto) ltac:(lia))
      as (area1 & R1 & T1 & K & Ki & O & La1 & F1).
    pose proof (repr_bounds _ R1) as [B1 Lb1].
    pose proof (ctor_evolves _ _ _ _ _ _ _ _ R1 K Ki O) as E1.
    assert (Ro1 : repr h1 body t area sz).
    { eapply repr_frame; [exact R|]. intros k Ok. apply E1; [|discriminate].
      apply (repr_owned _ _ _ _ _ _ _ R Ok). }
    unfold basic_small_string.data, get_buffer in A.
    rewrite <- (ptr_add_0 (begin_ptr body)) in A.
    rewrite (read_chars_repr _ _ _ _ _ _ 0 sz Ro1) in A by lia.
    rewrite bind_ok in A. cbv beta in A.
    set (src := slice area 0 sz) in *.
    assert (Lf : len src = sz) by (apply length_slice; lia).
    rewrite <- (ptr_add_0 (begin_ptr new)) in A.
    destruct (write_chars_repr _ _ _ _ _ _ 0 src R1) as (h2 & b2 & W & R2 & S2);
      [lia | lia |].
    rewrite W in A. rewrite bind_ok in A. cbv beta iota in A.
    unfold basic_small_string.swap, swap, malloc_core.swap in A.
    cbv beta iota zeta in A.
    (* the old allocation is still there, and is not the new one *)
    assert (Nold : forall k, inv.owner body = Some k -> inv.owner new <> Some k).
    { intros k Ok On. destruct E1 as (_ & E1). destruct (E1 k On) as [X|X];
        [discriminate|].
      destruct (repr_owned _ _ _ _ _ _ _ R Ok) as [y Y]. congruence. }
    assert (Kold : forall k, inv.owner body = Some k -> h2 !! k = h !! k).
    { intros k Ok. destruct S2 as (_ & Ks). rewrite Ks by (apply Nold, Ok).
      apply E1; [|discriminate]. apply (repr_owned _ _ _ _ _ _ _ R Ok). }
    rewrite (dtor_ok _ h2 body t area sz) in A
      by (eapply repr_frame; [exact R | exact Kold]).
    rewrite bind_ok in A. injection A as <- <-.
    assert (Krel : forall k, inv.owner body <> Some k -> inv.release h2 body !! k = h2 !! k).
    { intros k Nk. unfold inv.release. destruct (inv.owner body) as [p|]; [|reflexivity].
      apply lookup_delete_ne. congruence. }
    pose proof (same_buffer_owner _ _ (proj1 S2)) as O2.
    exists (core_type ts), (splice area1 0 src).
    assert (La2 : len (splice area1 0 src) = len area1)
      by (rewrite length_splice by lia; reflexivity).
    split.
    { apply (repr_frame _ h2); [exact R2|]. intros k Ok. apply Krel.
      intros Ob. apply (Nold k Ob). rewrite <- O2. exact Ok. }
    split; [intros _; apply terminated_splice; [exact T1|lia..]|].
    split.
    { rewrite La2, La1. unfold inv.fits in F1. rewrite internal_buffer_size_eq in F1.
      destruct (core_type ts); lia. }
    split.
    { pose proof (slice_splice_same area1 src 0 ltac:(lia) ltac:(lia)) as X.
      rewrite Lf in X. exact X. }
    split.
    { unfold basic_small_string.get_core_type, small_string_buffer.get_core_type,
        malloc_core.get_core_type in At.
      destruct R2 as (F2 & _). destruct R as (F & _). lia. }
    split.
    + intros k Ik Nk. rewrite Krel by exact Nk.
      destruct S2 as (_ & Ks). rewrite Ks; [apply E1; [exact Ik|discriminate]|].
      intros On. destruct E1 as (_ & E1). destruct (E1 k On) as [X|X]; [discriminate|].
      rewrite X in Ik. destruct Ik; discriminate.
    + intros p Op. right. rewrite O2 in Op. destruct E1 as (_ & E1).
      destruct (E1 p Op) as [X|X]; [discriminate | exact X].
  - rewrite bind_ok in H. cbv beta iota in H. bind_inv H x At. injection H as <- <-.
    exists t, area. split; [exact R|]. split; [auto|]. split; [lia|].
    split; [reflexivity|]. split; [lia | apply evolves_refl].
Qed.

End NullTerminated.
End shrink_specs.

Module primitive_specs.
Import malloc_core core_facts core_specs core_access core_resize small_string_buffer
  selector size_specs string_specs.
Section NullTerminated.
Context (NullTerminated : bool).

Abbreviation nt := (nt_bytes NullTerminated).
Abbreviation repr := (inv.repr NullTerminated).
Abbreviation term_at := (inv.term_at NullTerminated).
Abbreviation terminated := (inv.terminated NullTerminated).

(** On an Internal string the addition of [increase_size] is checked after
    it wrapped to 32 bits; a wrapped sum that passes the check is a smaller
    size. *)
Lemma increase_size_internal_wrap h body area sz d h' body' :
  repr h body Internal area sz -> 0 <= d < 2 ^ 32 -> 2 ^ 32 <= sz + d ->
  increase_size_and_idle_and_set_term NullTerminated h body d = Ok (h', body') ->
  0 <= sz + d - 2 ^ 32 <= len area - nt /\
  repr h' body' Internal (term_at area (sz + d - 2 ^ 32)) (sz + d - 2 ^ 32) /\
  inv.stable h body h' body'.
Proof.
  intros R Hd Hw H. pose proof (repr_bounds _ R) as [B L].
  pose proof (repr_len_area _ R) as La. pose proof (nt_range NullTerminated) as Hnt.
  cbv beta iota in La.
  unfold increase_size_and_idle_and_set_term in H.
  pose proof R as (F & _ & T). rewrite F in H.
  cbv beta iota delta [inv.layout] in T. cbn [CoreType_to_Z] in H. cbv iota in H.
  destruct T as (S & D). rewrite S in H.
  bind_inv H x Ea. apply Z.leb_le in Ea. rewrite internal_buffer_size_eq in Ea.
  set (n := sz + d - 2 ^ 32) in *.
  assert (En : u32 (sz + d) = n).
  { unfold u32. replace (sz + d) with (n + 1 * 2 ^ 32) by (subst n; lia).
    rewrite Z.mod_add by lia. apply Z.mod_small. lia. }
  rewrite En in Ea. split; [lia|].
  set (body1 := set_internal_size (sz + d) body) in *.
  assert (E6 : (sz + d) mod 2 ^ 6 = n).
  { replace (sz + d) with (n + 2 ^ 26 * 2 ^ 6) by (subst n; lia).
    rewrite Z.mod_add by lia. apply Z.mod_small. lia. }
  assert (R1 : repr h body1 Internal area n).
  { subst body1. split; [autorewrite with fields; exact F|]. split; [lia|].
    cbv beta iota delta [inv.layout]. autorewrite with fields. split; [|exact D].
    exact E6. }
  assert (S1 : inv.stable h body h body1).
  { split; [|auto]. split; [subst body1; autorewrite with fields; reflexivity|].
    rewrite F. cbn [CoreType_to_Z]. lia. }
  destruct (write_terminator _ _ _ _ _ _ R1) as (h1 & b1 & W & R' & S').
  rewrite (repr_begin_ptr _ _ _ _ _ _ R1) in W. cbn [ptr_add] in W.
  rewrite Z.add_0_l in W.
  assert (Ei : internal_size body1 = n) by (destruct R1 as (_ & _ & X & _); exact X).
  rewrite Ei in H. rewrite H in W. injection W as <- <-.
  split; [exact R' | eapply stable_trans; eassumption].
Qed.

(** [increase_size(d)] on a well-formed string leaves a well-formed string. *)
Lemma increase_size_any h body t area sz d h' body' :
  repr h body t area sz -> 0 <= d < 2 ^ 32 ->
  increase_size NullTerminated h body d = Ok (h', body') ->
  exists sz',
    repr h' body' t (term_at area sz') sz' /\ terminated (term_at area sz') sz' /\
    inv.stable h body h' body'.
Proof.
  intros R Hd H. pose proof (repr_bounds _ R) as [B L].
  pose proof (nt_range NullTerminated) as Hnt.
  pose proof (idle_of_le _ t area sz B) as Hi.
  assert (Dt : (t = Internal /\ 2 ^ 32 <= sz + d) \/
               (t = Internal -> sz + d < 2 ^ 32)).
  { destruct (Z_lt_le_dec (sz + d) (2 ^ 32)); [right; auto|].
    destruct t; try (right; discriminate). left. auto. }
  destruct Dt as [(-> & Hw)|Hs].
  - unfold increase_size in H. bind_inv H x E. destruct x as [h1 b1].
    cbv beta iota in H. bind_inv H x Ea. injection H as <- <-.
    destruct (increase_size_internal_wrap _ _ _ _ _ _ _ R Hd Hw E) as (Hn & R' & S').
    exists (sz + d - 2 ^ 32). split; [exact R'|].
    split; [apply terminated_term_at; lia | exact S'].
  - assert (Hid : t = Internal -> d <= inv.idle_of NullTerminated t area sz).
    { intros ->. specialize (Hs eq_refl).
      unfold increase_size in H. bind_inv H x E.
      unfold increase_size_and_idle_and_set_term in E.
      pose proof R as (F & _ & T). rewrite F in E.
      cbv beta iota delta [inv.layout] in T. cbn [CoreType_to_Z] in E. cbv iota in E.
      destruct T as (S & D). rewrite S in E.
      bind_inv E y Ea. apply Z.leb_le in Ea. rewrite internal_buffer_size_eq in Ea.
      unfold u32 in Ea. rewrite Z.mod_small in Ea by lia.
      pose proof (repr_len_area _ R) as La. cbv beta iota in La.
      unfold inv.idle_of. lia. }
    destruct (increase_size_post _ _ _ _ _ _ d _ _ R ltac:(lia) Hid H) as (Li & R' & S').
    exists (sz + d). split; [exact R'|].
    split; [apply terminated_term_at; lia | exact S'].
Qed.

Lemma set_size_any h body t area sz n h' body' :
  repr h body t area sz -> 0 <= n ->
  set_size NullTerminated h body n = Ok (h', body') ->
  repr h' body' t (term_at area n) n /\ terminated (term_at area n) n /\
  inv.stable h body h' body'.
Proof.
  intros R Hn H.
  destruct (set_size_post _ _ _ _ _ _ n _ _ R Hn H) as (L & R' & S').
  split; [exact R'|]. split; [apply terminated_term_at; lia | exact S'].
Qed.

Lemma decrease_size_any h body t area sz d h' body' :
  repr h body t area sz -> 0 <= d ->
  decrease_size NullTerminated h body d = Ok (h', body') ->
  repr h' body' t (term_at area (sz - d)) (sz - d) /\
  terminated (term_at area (sz - d)) (sz - d) /\
  inv.stable h body h' body'.
Proof.
  intros R Hn H. pose proof (repr_bounds _ R) as [B L].
  destruct (decrease_size_post _ _ _ _ _ _ d _ _ R Hn H) as (Ld & R' & S').
  split; [exact R'|]. split; [apply terminated_term_at; lia | exact S'].
Qed.

End NullTerminated.
End primitive_specs.

(** ** The invariant of programs *)

Module program_specs.
Import malloc_core core_specs core_access small_string_buffer buffer_specs
  size_specs string_specs append_specs ctor_specs shrink_specs primitive_specs program.
Section NullTerminated.
Context (NullTerminated : bool).

Abbreviation repr := (inv.repr NullTerminated).
Abbreviation wf_string := (inv.wf_string NullTerminated).
Abbreviation wf_state := (program.wf_state NullTerminated).
Abbreviation exec := (program.exec NullTerminated).
Abbreviation reachable := (program.reachable NullTerminated).

Lemma owner_default : inv.owner 0 = None.
Proof. reflexivity. Qed.

Lemma wf_string_default h : wf_string h 0.
Proof.
  exists Internal, (internal_data 0), 0. apply wf_default.
Qed.

Lemma wf_string_owned h body p :
  wf_string h body -> inv.owner body = Some p -> is_Some (h !! p).
Proof. intros (t & area & sz & R & _) O. apply (repr_owned _ _ _ _ _ _ _ R O). Qed.

Lemma wf_string_frame h h' body :
  wf_string h body ->
  (forall k, inv.owner body = Some k -> h' !! k = h !! k) ->
  wf_string h' body.
Proof.
  intros (t & area & sz & R & T) K. exists t, area, sz.
  split; [eapply repr_frame; eassumption | exact T].
Qed.

(** Giving the name [i] a string that shares nothing with the others. *)
Lemma wf_put_gen w i h' body' :
  wf_state w -> wf_string h' body' ->
  (forall k bk p, k <> i -> strings w !! k = Some bk -> inv.owner bk = Some p ->
     h' !! p = heap_of w !! p /\ inv.owner body' <> Some p) ->
  wf_state (put w i h' body').
Proof.
  intros (Wf & Dj) W' K. split; cbn [heap_of strings put].
  - intros k bk Ek. destruct (decide (i = k)) as [<-|Nk].
    + rewrite lookup_insert_eq in Ek. injection Ek as <-. exact W'.
    + rewrite lookup_insert_ne in Ek by exact Nk.
      apply (wf_string_frame (heap_of w)); [apply (Wf k bk Ek)|].
      intros p Op. apply (K k bk p ltac:(congruence) Ek Op).
  - intros k l ck cl p Nkl Ek El Ok Ol.
    destruct (decide (i = k)) as [<-|Nk]; destruct (decide (i = l)) as [<-|Nl];
      try congruence.
    + rewrite lookup_insert_eq in Ek. rewrite lookup_insert_ne in El by exact Nl.
      injection Ek as <-.
      apply (proj2 (K l cl p ltac:(congruence) El Ol)), Ok.
    + rewrite lookup_insert_eq in El. rewrite lookup_insert_ne in Ek by exact Nk.
      injection El as <-.
      apply (proj2 (K k ck p ltac:(congruence) Ek Ok)), Ol.
    + rewrite lookup_insert_ne in Ek by exact Nk.
      rewrite lookup_insert_ne in El by exact Nl.
      apply (Dj k l ck cl p Nkl Ek El Ok Ol).
Qed.

(** A step on one string, or the construction of one, in a program. *)
Lemma wf_put w i h' body' :
  wf_state w -> wf_string h' body' ->
  inv.evolves (heap_of w) (default 0 (strings w !! i)) h' body' ->
  wf_state (put w i h' body').
Proof.
  intros W W' (K & O). apply wf_put_gen; [exact W | exact W' |].
  destruct W as (Wf & Dj).
  intros k bk p Nk Ek Op.
  pose proof (wf_string_owned _ _ _ (Wf k bk Ek) Op) as Ip.
  assert (Np : inv.owner (default 0 (strings w !! i)) <> Some p).
  { destruct (strings w !! i) as [b|] eqn:Ei; cbn [default].
    - intros Ob. apply (Dj k i bk b p Nk Ek Ei Op Ob).
    - rewrite owner_default. discriminate. }
  split; [apply K; assumption|].
  intros Ob. destruct (O p Ob) as [X|X]; [contradiction|].
  rewrite X in Ip. destruct Ip; discriminate.
Qed.

Lemma on_string_wf w i f w' :
  wf_state w ->
  (forall h body h' body', strings w !! i = Some body -> h = heap_of w ->
     wf_string h body -> f h body = Ok (h', body') ->
     wf_string h' body' /\ inv.evolves h body h' body') ->
  on_string w i f = Ok w' -> wf_state w'.
Proof.
  intros W F H. unfold on_string in H.
  destruct (strings w !! i) as [body|] eqn:Ei; [|discriminate].
  bind_inv H x E. destruct x as [h' body']. cbv beta iota in H. injection H as <-.
  destruct (F _ _ _ _ eq_refl eq_refl (proj1 W i body Ei) E) as (W' & Ev).
  apply wf_put; [exact W | exact W' | rewrite Ei; exact Ev].
Qed.

Lemma construct_wf w i f w' :
  wf_state w ->
  (forall h' body', f (heap_of w) = Ok (h', body') ->
     wf_string h' body' /\ inv.evolves (heap_of w) 0 h' body') ->
  construct w i f = Ok w' -> wf_state w'.
Proof.
  intros W F H. unfold construct in H.
  destruct (strings w !! i) as [body|] eqn:Ei; [discriminate|].
  bind_inv H x E. destruct x as [h' body']. cbv beta iota in H. injection H as <-.
  destruct (F _ _ eq_refl) as (W' & Ev).
  apply wf_put; [exact W | exact W' | rewrite Ei; exact Ev].
Qed.

Lemma release_other h body p : inv.owner body <> Some p -> inv.release h body !! p = h !! p.
Proof.
  intros N. unfold inv.release. destruct (inv.owner body) as [q|]; [|reflexivity].
  apply lookup_delete_ne. congruence.
Qed.

(** Leaving a string empty, as a move does. *)
Lemma wf_vacate w j :
  wf_state w ->
  wf_state (put w j (heap_of w) 0).
Proof.
  intros W. apply wf_put_gen; [exact W | apply wf_string_default |].
  intros k bk p _ _ _. rewrite owner_default. split; [reflexivity | discriminate].
Qed.

Lemma move_wf w i j w' :
  wf_state w -> exec w (Move i j) = Ok w' -> wf_state w'.
Proof.
  intros W H. cbn [program.exec] in H.
  destruct (strings w !! i) as [bi|] eqn:Ei; [discriminate|].
  destruct (strings w !! j) as [bj|] eqn:Ej; [|discriminate].
  cbv beta iota zeta delta [basic_small_string.ctor_move small_string_buffer.move_ctor
                              malloc_core.move_ctor] in H.
  injection H as <-.
  assert (Nij : i <> j) by congruence.
  apply wf_put_gen; [apply wf_vacate, W | apply (proj1 W j bj Ej) |].
  cbn [heap_of strings put]. intros k bk p Nk Ek Op. split; [reflexivity|].
  destruct (decide (j = k)) as [<-|Njk].
  - rewrite lookup_insert_eq in Ek. injection Ek as <-.
    rewrite owner_default in Op. discriminate.
  - rewrite lookup_insert_ne in Ek by exact Njk.
    apply (proj2 W k j bk bj p ltac:(congruence) Ek Ej Op).
Qed.

Lemma swap_wf w i j w' :
  wf_state w -> exec w (Swap i j) = Ok w' -> wf_state w'.
Proof.
  intros W H. cbn [program.exec] in H.
  destruct (strings w !! i) as [bi|] eqn:Ei; [|discriminate].
  destruct (strings w !! j) as [bj|] eqn:Ej; [|discriminate].
  cbv beta iota zeta delta [basic_small_string.swap small_string_buffer.swap
                              malloc_core.swap] in H.
  injection H as <-.
  destruct (decide (i = j)) as [<-|Nij].
  { assert (bj = bi) by congruence. subst bj.
    replace (put (put w i (heap_of w) bi) i (heap_of w) bi) with w; [exact W|].
    unfold put. cbn [heap_of strings]. rewrite insert_insert_eq.
    rewrite insert_id by exact Ei. destruct w; reflexivity. }
  replace (put (put w j (heap_of w) bi) i (heap_of w) bj)
    with (put (put (put w j (heap_of w) 0) i (heap_of w) bj) j (heap_of w) bi).
  2:{ unfold put. cbn [heap_of strings]. f_equal.
      rewrite (insert_insert_ne _ j i) by congruence.
      rewrite insert_insert_eq. reflexivity. }
  apply wf_put_gen; [apply wf_put_gen; [apply wf_vacate, W | apply (proj1 W j bj Ej) |] |
                     apply (proj1 W i bi Ei) |].
  - cbn [heap_of strings put]. intros k bk p Nk Ek Op. split; [reflexivity|].
    destruct (decide (j = k)) as [<-|Njk].
    + rewrite lookup_insert_eq in Ek. injection Ek as <-.
      rewrite owner_default in Op. discriminate.
    + rewrite lookup_insert_ne in Ek by exact Njk.
      apply (proj2 W k j bk bj p ltac:(congruence) Ek Ej Op).
  - cbn [heap_of strings put]. intros k bk p Nk Ek Op. split; [reflexivity|].
    destruct (decide (i = k)) as [<-|Nik].
    + rewrite lookup_insert_eq in Ek. injection Ek as <-.
      intros Ob. apply (proj2 W i j bi bj p Nij Ei Ej Ob Op).
    + rewrite lookup_insert_ne in Ek by exact Nik.
      rewrite lookup_insert_ne in Ek by congruence.
      apply (proj2 W k i bk bi p ltac:(congruence) Ek Ei Op).
Qed.

Lemma dtor_wf w i w' :
  wf_state w -> exec w (Dtor i) = Ok w' -> wf_state w'.
Proof.
  intros W H. cbn [program.exec] in H.
  destruct (strings w !! i) as [bi|] eqn:Ei; [|discriminate].
  destruct (proj1 W i bi Ei) as (t & area & sz & R & T).
  rewrite (dtor_ok _ _ _ _ _ _ R) in H. rewrite bind_ok in H. injection H as <-.
  destruct W as (Wf & Dj). split; cbn [heap_of strings].
  - intros k bk Ek. apply lookup_delete_Some in Ek as (Nk & Ek).
    apply (wf_string_frame (heap_of w)); [apply (Wf k bk Ek)|].
    intros p Op. apply release_other. intros Ob.
    apply (Dj k i bk bi p ltac:(congruence) Ek Ei Op Ob).
  - intros k l ck cl p Nkl Ek El.
    apply lookup_delete_Some in Ek as (_ & Ek).
    apply lookup_delete_Some in El as (_ & El).
    apply (Dj k l ck cl p Nkl Ek El).
Qed.

Lemma move_assign_wf w i j w' :
  wf_state w -> exec w (MoveAssign i j) = Ok w' -> wf_state w'.
Proof.
  intros W H. cbn [program.exec] in H.
  destruct (strings w !! i) as [bi|] eqn:Ei; [|discriminate].
  destruct (strings w !! j) as [bj|] eqn:Ej; [|discriminate].
  destruct (bool_decide_reflect (i = j)) as [Eij|Nij];
    [injection H as <-; exact W|].
  destruct (proj1 W i bi Ei) as (t & area & sz & R & T).
  unfold basic_small_string.move_assign in H.
  rewrite (dtor_ok _ _ _ _ _ _ R) in H. rewrite bind_ok in H.
  cbv beta iota zeta delta [basic_small_string.ctor_move small_string_buffer.move_ctor
                              malloc_core.move_ctor] in H.
  rewrite bind_ok in H. cbv beta iota in H. injection H as <-.
  assert (Nown : forall p, inv.owner bj = Some p -> inv.owner bi <> Some p).
  { intros p Op Ob. apply (proj2 W i j bi bj p Nij Ei Ej Ob Op). }
  set (h' := inv.release (heap_of w) bi).
  replace (put (put w j h' 0) i h' bj)
    with (put (put (put w i h' 0) j h' 0) i h' bj).
  2:{ unfold put. cbn [heap_of strings]. f_equal.
      rewrite (insert_insert_ne _ j i) by congruence.
      rewrite insert_insert_eq. reflexivity. }
  assert (W1 : wf_state (put w i h' 0)).
  { apply wf_put_gen; [exact W | apply wf_string_default |].
    intros k bk p Nk Ek Op. rewrite owner_default. split; [|discriminate].
    apply release_other. intros Ob. apply (proj2 W k i bk bi p Nk Ek Ei Op Ob). }
  apply wf_put_gen; [apply (wf_vacate _ j W1) | |].
  - apply (wf_string_frame (heap_of w)); [apply (proj1 W j bj Ej)|].
    intros p Op. apply release_other, Nown, Op.
  - cbn [heap_of strings put]. intros k bk p Nk Ek Op. split; [reflexivity|].
    destruct (decide (j = k)) as [<-|Njk].
    + rewrite lookup_insert_eq in Ek. injection Ek as <-.
      rewrite owner_default in Op. discriminate.
    + rewrite lookup_insert_ne in Ek by exact Njk.
      rewrite lookup_insert_ne in Ek by congruence.
      apply (proj2 W k j bk bj p ltac:(congruence) Ek Ej Op).
Qed.

(** Every step of a program keeps the invariant. *)
Lemma exec_wf w o w' :
  wf_state w -> typed NullTerminated o -> exec w o = Ok w' -> wf_state w'.
Proof.
  intros W Ty H. destruct o; cbn [program.exec typed] in H, Ty.
  - (* Default *)
    apply (construct_wf _ _ _ _ W) in H; [exact H|].
    intros h' body' [= <- <-]. split; [apply wf_string_default | apply evolves_refl].
  - (* Fill *)
    apply (construct_wf _ _ _ _ W) in H; [exact H|]. intros h' body' E.
    destruct (ctor_fill_post _ _ _ _ _ _ _ Ty E) as (t & area & R & T & _ & Ev).
    split; [exists t, area, count; auto | exact Ev].
  - (* Chars *)
    apply (construct_wf _ _ _ _ W) in H; [exact H|]. intros h' body' E.
    destruct (ctor_chars_post _ _ _ _ _ _ _ Ty E) as (_ & t & area & R & T & _ & Ev).
    split; [exists t, area, count; auto | exact Ev].
  - (* Copy *)
    destruct (strings w !! j) as [other|] eqn:Ej; [|discriminate].
    destruct (proj1 W j other Ej) as (to & ao & so & Ro & To).
    apply (construct_wf _ _ _ _ W) in H; [exact H|]. intros h' body' E.
    destruct (ctor_copy_post _ _ _ _ _ _ _ _ _ Ro E) as (t & area & R & T & _ & Ev).
    split; [exists t, area, so; auto | exact Ev].
  - apply (move_wf _ _ _ _ W H).
  - apply (dtor_wf _ _ _ W H).
  - apply (move_assign_wf _ _ _ _ W H).
  - (* Assign *)
    apply (on_string_wf _ _ _ _ W) in H; [exact H|].
    intros h body h' body' _ _ (t & area & sz & R & T) E.
    destruct (assign_post _ _ _ _ _ _ _ _ _ _ _ R Ty E) as (_ & t' & area' & R' & T' & _ & Ev).
    split; [exists t', area', count; auto | exact Ev].
  - (* AssignFill *)
    apply (on_string_wf _ _ _ _ W) in H; [exact H|].
    intros h body h' body' _ _ (t & area & sz & R & T) E.
    destruct (assign_fill_post _ _ _ _ _ _ _ _ _ _ _ R Ty E) as (t' & area' & R' & T' & _ & Ev).
    split; [exists t', area', count; auto | exact Ev].
  - (* Reserve *)
    apply (on_string_wf _ _ _ _ W) in H; [exact H|].
    intros h body h' body' _ _ (t & area & sz & R & T) E.
    destruct (reserve_post _ _ _ _ _ _ _ _ _ _ R Ty E)
      as (t' & area' & R' & _ & _ & T' & Ev & _).
    split; [exists t', area', sz; auto | exact Ev].
  - (* ShrinkToFit *)
    apply (on_string_wf _ _ _ _ W) in H; [exact H|].
    intros h body h' body' _ _ (t & area & sz & R & T) E.
    destruct (shrink_to_fit_post _ _ _ _ _ _ _ _ _ R E)
      as (t' & area' & R' & T' & _ & _ & _ & Ev).
    split; [exists t', area', sz; auto | exact Ev].
  - (* Clear *)
    apply (on_string_wf _ _ _ _ W) in H; [exact H|].
    intros h body h' body' _ _ (t & area & sz & R & T) E.
    destruct (clear_post _ _ _ _ _ _ _ _ R E) as (R' & T' & S').
    split; [eexists _, _, _; eauto | apply stable_evolves, S'].
  - (* Insert *)
    apply (on_string_wf _ _ _ _ W) in H; [exact H|].
    intros h body h' body' _ _ (t & area & sz & R & T) E.
    destruct (insert_post _ _ _ _ _ _ _ _ _ _ _ _ R (proj1 Ty) (proj2 Ty) E)
      as (t' & area' & R' & T' & Ev).
    split; [eexists _, _, _; eauto | exact Ev].
  - (* Erase *)
    apply (on_string_wf _ _ _ _ W) in H; [exact H|].
    intros h body h' body' _ _ (t & area & sz & R & T) E.
    destruct (erase_post _ _ _ _ _ _ _ _ _ _ R (proj1 Ty) (proj2 Ty) E)
      as (_ & area' & R' & T' & _ & _ & S').
    split; [eexists _, _, _; eauto | apply stable_evolves, S'].
  - (* PushBack *)
    apply (on_string_wf _ _ _ _ W) in H; [exact H|].
    intros h body h' body' _ _ (t & area & sz & R & T) E.
    destruct (push_back_post _ _ _ _ _ _ _ _ _ _ R E) as (t' & area' & R' & T' & _ & Ev).
    split; [eexists _, _, _; eauto | exact Ev].
  - (* PopBack *)
    apply (on_string_wf _ _ _ _ W) in H; [exact H|].
    intros h body h' body' _ _ (t & area & sz & R & T) E.
    destruct (pop_back_post _ _ _ _ _ _ _ _ R E) as (_ & R' & T' & S').
    split; [eexists _, _, _; eauto | apply stable_evolves, S'].
  - (* Append *)
    apply (on_string_wf _ _ _ _ W) in H; [exact H|].
    intros h body h' body' _ _ (t & area & sz & R & T) E.
    destruct (append_post _ _ _ _ _ _ _ _ _ _ _ R Ty E)
      as (src & _ & _ & t' & area' & R' & T' & _ & Ev & _).
    split; [eexists _, _, _; eauto | exact Ev].
  - (* Resize *)
    apply (on_string_wf _ _ _ _ W) in H; [exact H|].
    intros h body h' body' _ _ (t & area & sz & R & T) E.
    destruct (resize_post _ _ _ _ _ _ _ _ _ _ _ R Ty E) as (t' & area' & R' & T' & _ & Ev).
    split; [eexists _, _, _; eauto | exact Ev].
  - apply (swap_wf _ _ _ _ W H).
  - (* SetSize *)
    apply (on_string_wf _ _ _ _ W) in H; [exact H|].
    intros h body h' body' _ _ (t & area & sz & R & T) E.
    destruct (set_size_any _ _ _ _ _ _ _ _ _ R (proj1 Ty) E) as (R' & T' & S').
    split; [eexists _, _, _; eauto | apply stable_evolves, S'].
  - (* IncreaseSize *)
    apply (on_string_wf _ _ _ _ W) in H; [exact H|].
    intros h body h' body' _ _ (t & area & sz & R & T) E.
    destruct (increase_size_any _ _ _ _ _ _ _ _ _ R Ty E) as (sz' & R' & T' & S').
    split; [eexists _, _, _; eauto | apply stable_evolves, S'].
  - (* DecreaseSize *)
    apply (on_string_wf _ _ _ _ W) in H; [exact H|].
    intros h body h' body' _ _ (t & area & sz & R & T) E.
    destruct (decrease_size_any _ _ _ _ _ _ _ _ _ R (proj1 Ty) E) as (R' & T' & S').
    split; [eexists _, _, _; eauto | apply stable_evolves, S'].
  - (* InitializedLater *)
    apply (construct_wf _ _ _ _ W) in H; [exact H|]. intros h' body' E.
    destruct (init_specs.ctor_initialized_later_post _ _ _ _ _ _ E Ty)
      as (t & area & R & T & K & Ki & O).
    split; [eexists _, _, _; eauto|].
    apply (ctor_evolves _ c _ _ _ _ _ _ R K Ki O).
  - (* InitializedLaterWith *)
    apply (construct_wf _ _ _ _ W) in H; [exact H|]. intros h' body' E.
    destruct Ty as (Tn & Fi). unfold size_t in Tn.
    assert (Hn : 0 <= new_string_size < 2 ^ 32).
    { pose proof (nt_range NullTerminated). unfold inv.fits in Fi.
      rewrite selector.internal_buffer_size_eq in Fi.
      destruct (core_type type_and_size); lia. }
    unfold basic_small_string.ctor_initialized_later_with in E.
    unfold u32 in E. rewrite Z.mod_small in E by exact Hn.
    destruct (init_specs.initial_allocate_with_post _ _ _ _ _ _ _ _ E (or_introl Fi) Hn)
      as (area & R & T & K & Ki & O & _).
    split; [eexists _, _, _; eauto|].
    apply (ctor_evolves _ c _ _ _ _ _ _ R K Ki O).
Qed.

Lemma init_wf : wf_state program.init.
Proof.
  split; cbn [heap_of strings program.init].
  - intros i b E. rewrite lookup_empty in E. discriminate.
  - intros i j ci cj p _ E. rewrite lookup_empty in E. discriminate.
Qed.

Lemma reachable_wf w : reachable w -> wf_state w.
Proof.
  induction 1 as [|w o w' _ IH Ty E]; [apply init_wf | apply (exec_wf w o w' IH Ty E)].
Qed.

End NullTerminated.
End program_specs.

(** * The claims of the specification *)

Section Observations.
Context (NullTerminated : bool).

Import malloc_core core_specs core_access small_string_buffer selector
  string_specs program program_specs.

Lemma reachable_string w i _core :
  program.reachable NullTerminated w -> strings w !! i = Some _core ->
  inv.wf_string NullTerminated (heap_of w) _core.
Proof. intros Rw E. apply (proj1 (reachable_wf _ w Rw) i _core E). Qed.

Lemma run_reachable w os w' :
  program.reachable NullTerminated w -> Forall (typed NullTerminated) os ->
  program.run NullTerminated w os = Ok w' -> program.reachable NullTerminated w'.
Proof.
  intros Rw Ty. revert w Rw. induction Ty as [|o os To _ IH]; intros w Rw H.
  - injection H as <-. exact Rw.
  - cbn [program.run] in H. bind_inv H w1 E.
    apply (IH w1); [|exact H]. apply (reachable_step _ w o w1 Rw To E).
Qed.

Lemma on_string_inv w i f w' :
  on_string w i f = Ok w' ->
  exists _core h' core',
    strings w !! i = Some _core /\ f (heap_of w) _core = Ok (h', core') /\
    w' = put w i h' core'.
Proof.
  unfold on_string. intros H. destruct (strings w !! i) as [b|]; [|discriminate].
  bind_inv H x E. destruct x as [h' b']. cbv beta iota in H. injection H as <-.
  exists b, h', b'. auto.
Qed.

Lemma slice_one (area : list byte) pos b :
  0 <= pos -> area !! Z.to_nat pos = Some b -> slice area pos 1 = [b].
Proof.
  intros Hp E. unfold slice.
  assert (D : drop (Z.to_nat pos) area !! 0%nat = Some b)
    by (rewrite lookup_drop, Nat.add_0_r; exact E).
  destruct (drop (Z.to_nat pos) area) as [|x l]; [discriminate|].
  injection D as ->. reflexivity.
Qed.

(** Reading through the reference to the element [pos]. *)
Lemma deref_repr h body t area sz pos b :
  inv.repr NullTerminated h body t area sz -> 0 <= pos ->
  area !! Z.to_nat pos = Some b ->
  basic_small_string.deref h body (ptr_add (basic_small_string.data body) pos) = Ok b.
Proof.
  intros R Hp E. pose proof (lookup_lt_Some _ _ _ E) as L.
  unfold basic_small_string.deref, basic_small_string.data, get_buffer.
  rewrite (read_chars_repr _ _ _ _ _ _ pos 1 R) by lia.
  rewrite bind_ok. rewrite (slice_one area pos b Hp E). reflexivity.
Qed.

(** Reading the content through [(data(), size())]. *)
Lemma read_content h body t area sz :
  inv.repr NullTerminated h body t area sz ->
  read_chars h body (basic_small_string.data body) sz = Ok (inv.content area sz).
Proof.
  intros R. pose proof (repr_bounds _ R) as [B _].
  pose proof (nt_range NullTerminated).
  unfold basic_small_string.data, get_buffer.
  rewrite <- (buffer_specs.ptr_add_0 (begin_ptr body)).
  apply (read_chars_repr _ _ _ _ _ _ 0 sz R); lia.
Qed.

End Observations.

Section Claims.
Context (NullTerminated : bool).

Import malloc_core core_specs core_access small_string_buffer selector
  string_specs ctor_specs shrink_specs program program_specs.

Abbreviation nt := (nt_bytes NullTerminated).
Abbreviation reachable := (program.reachable NullTerminated).
Abbreviation exec := (program.exec NullTerminated).

(** C6: [shrink_to_fit()] on a string of a reachable state never increases
    [capacity()], never changes [size()], never changes the bytes read
    through [(data(), size())], and leaves the string in its tier or a
    lower one. *)
Theorem shrink_to_fit_frame w i c w' :
  reachable w -> exec w (ShrinkToFit i c) = Ok w' ->
  exists _core core' n cap cap' bs,
    strings w !! i = Some _core /\ strings w' !! i = Some core' /\
    basic_small_string.capacity NullTerminated (heap_of w) _core = Ok cap /\
    basic_small_string.capacity NullTerminated (heap_of w') core' = Ok cap' /\
    cap' <= cap /\
    basic_small_string.size (heap_of w) _core = Ok n /\
    basic_small_string.size (heap_of w') core' = Ok n /\
    read_chars (heap_of w) _core (basic_small_string.data _core) n = Ok bs /\
    read_chars (heap_of w') core' (basic_small_string.data core') n = Ok bs /\
    basic_small_string.get_core_type core' <= basic_small_string.get_core_type _core.
Proof.
  intros Rw H. cbn [program.exec] in H.
  destruct (on_string_inv _ _ _ _ H) as (b & h' & b' & E & S & ->).
  destruct (reachable_string _ w i b Rw E) as (t & area & sz & R & _).
  destruct (shrink_to_fit_post _ _ _ _ _ _ _ _ _ R S)
    as (t' & area' & R' & _ & L & C & Ht & _).
  exists b, b', sz, (len area - nt), (len area' - nt), (inv.content area sz).
  cbn [heap_of strings put].
  split; [exact E|]. split; [apply lookup_insert_eq|].
  split; [apply (string_capacity_repr _ _ _ _ _ _ R)|].
  split; [apply (string_capacity_repr _ _ _ _ _ _ R')|]. split; [lia|].
  split; [apply (string_size_repr _ _ _ _ _ _ R)|].
  split; [apply (string_size_repr _ _ _ _ _ _ R')|].
  split; [apply (read_content _ _ _ _ _ _ R)|].
  split; [rewrite <- C; apply (read_content _ _ _ _ _ _ R')|].
  unfold basic_small_string.get_core_type, small_string_buffer.get_core_type,
    malloc_core.get_core_type.
  destruct R as (-> & _). destruct R' as (-> & _). exact Ht.
Qed.

(** C10: with [Safe = true], [at(pos)] and [operator[](pos)], const or not,
    throw [std::out_of_range] exactly when [pos >= size()], at
    [pos == size()] too; otherwise they return the reference to the
    element [pos] of the content.  They are functions of the string: they
    return no new state. *)
Theorem accessors_out_of_range w i _core pos :
  reachable w -> strings w !! i = Some _core -> size_type pos ->
  exists n bs,
    basic_small_string.size (heap_of w) _core = Ok n /\
    read_chars (heap_of w) _core (basic_small_string.data _core) n = Ok bs /\
    (n <= pos ->
     basic_small_string.at_ (heap_of w) _core pos = Throw out_of_range /\
     basic_small_string.at_const (heap_of w) _core pos = Throw out_of_range /\
     basic_small_string.subscript (heap_of w) _core pos = Throw out_of_range /\
     basic_small_string.subscript_const (heap_of w) _core pos = Throw out_of_range) /\
    (pos < n ->
     exists b,
       bs !! Z.to_nat pos = Some b /\
       basic_small_string.deref (heap_of w) _core
         (ptr_add (basic_small_string.data _core) pos) = Ok b /\
       basic_small_string.at_ (heap_of w) _core pos
       = Ok (ptr_add (basic_small_string.data _core) pos) /\
       basic_small_string.at_const (heap_of w) _core pos
       = Ok (ptr_add (basic_small_string.data _core) pos) /\
       basic_small_string.subscript (heap_of w) _core pos
       = Ok (ptr_add (basic_small_string.data _core) pos) /\
       basic_small_string.subscript_const (heap_of w) _core pos
       = Ok (ptr_add (basic_small_string.data _core) pos)).
Proof.
  intros Rw E Hp. unfold size_type in Hp.
  destruct (reachable_string _ w i _core Rw E) as (t & area & sz & R & _).
  pose proof (repr_bounds _ R) as [B _]. pose proof (nt_range NullTerminated) as Hnt.
  exists sz, (inv.content area sz).
  split; [apply (string_size_repr _ _ _ _ _ _ R)|].
  split; [apply (read_content _ _ _ _ _ _ R)|].
  unfold basic_small_string.at_, basic_small_string.at_const,
    basic_small_string.subscript, basic_small_string.subscript_const.
  rewrite (string_size_repr _ _ _ _ _ _ R). rewrite !bind_ok.
  split.
  - intros Ge. rewrite (proj2 (Z.leb_le sz pos)) by exact Ge. auto.
  - intros Lt. rewrite (proj2 (Z.leb_gt sz pos)) by exact Lt.
    destruct (lookup_lt_is_Some_2 area (Z.to_nat pos) ltac:(lia)) as [b Eb].
    exists b. split.
    { unfold inv.content. rewrite lookup_slice by lia.
      rewrite Z2Nat.id by lia. rewrite (proj2 (Z.ltb_lt pos sz)) by exact Lt.
      exact Eb. }
    split; [apply (deref_repr _ _ _ _ _ _ _ _ R (proj1 Hp) Eb)|].
    unfold basic_small_string.data. auto.
Qed.


(** C7: for a sequence of [L] bytes, [L] one of 0, 1, 6, 7, 8, 255, 256,
    257, 16383, 16384 and 1000000, the constructor from the sequence
    returns when the allocator has a block for it, and then [size()] is
    [L] and the bytes read through [(data(), size())] are the sequence. *)
Theorem ctor_round_trip c h s :
  In (len s) [0; 1; 6; 7; 8; 255; 256; 257; 16383; 16384; 1000000] ->
  inv.valid_chunk c h (2 ^ 32) ->
  exists h' _core,
    basic_small_string.ctor_chars NullTerminated c h s (len s) = Ok (h', _core) /\
    basic_small_string.size h' _core = Ok (len s) /\
    read_chars h' _core (basic_small_string.data _core) (len s) = Ok s.
Proof.
  intros HL V. pose proof (nt_range NullTerminated) as Hnt.
  assert (Hl : len s <= 2 ^ 32 - 16 - nt).
  { cbn [In] in HL. lia. }
  destruct (ctor_chars_ok _ c h s Hl V) as (h' & b' & t & area & E & R & _ & C).
  exists h', b'. split; [exact E|].
  split; [apply (string_size_repr _ _ _ _ _ _ R)|].
  rewrite <- C at 2. apply (read_content _ _ _ _ _ _ R).
Qed.

(** C4: for a length [L] of at most [2 ^ 32 - 16] (one less with the
    terminator) the selector selects Internal when [L] is at most 6 with
    the terminator and 7 without; else Short when [L] is at most 255 with
    the terminator and 256 without, the size [L] plus the terminator byte
    rounded up to a multiple of 8; else Median when [L] is at most 16383,
    the size [L] plus the 8 bytes of the header plus the terminator byte
    rounded up to a multiple of 8; else Long, the size the same sum
    rounded up.  Every size of a tier other than Internal is a multiple
    of 8.  The Long tier has a bound: for [L] above [max_long_buffer_size]
    the selector stops at its assertion and selects nothing. *)
Theorem selector_thresholds L :
  (0 <= L <= 2 ^ 32 - 16 - nt ->
   exists ts,
     calculate_new_buffer_size NullTerminated L = Ok ts /\
     core_type ts
     = (if L <=? (if NullTerminated then 6 else 7) then Internal
        else if L <=? (if NullTerminated then 255 else 256) then Short
        else if L <=? 16383 then Median
        else Long) /\
     buffer_size ts
     = match core_type ts with
       | Internal => if NullTerminated then 6 else 7
       | Short => round_up_8 (L + nt)
       | Median | Long => round_up_8 (L + 8 + nt)
       end /\
     (core_type ts <> Internal -> buffer_size ts mod 8 = 0)) /\
  (max_long_buffer_size NullTerminated < L ->
   calculate_new_buffer_size NullTerminated L = Abort).
Proof.
  pose proof (nt_range NullTerminated) as Hnt. split.
  - intros HL.
    rewrite calculate_new_buffer_size_eq by lia.
    pose proof (round_up_8_bounds (L + nt)) as [_ M1].
    pose proof (round_up_8_bounds (L + 8 + nt)) as [B2 M2].
    assert (E7 : (if NullTerminated then 6 else 7) = 7 - nt)
      by (unfold nt_bytes; destruct NullTerminated; reflexivity).
    assert (E256 : (if NullTerminated then 255 else 256) = 256 - nt)
      by (unfold nt_bytes; destruct NullTerminated; reflexivity).
    rewrite E7, E256.
    assert (E32 : round_up_8 (L + 8 + nt) mod 2 ^ 32 = round_up_8 (L + 8 + nt)).
    { apply Z.mod_small. split; [lia|].
      unfold round_up_8 in *.
      assert ((L + 8 + nt + 7) / 8 < 2 ^ 29)
        by (apply Z.div_lt_upper_bound; lia).
      lia. }
    rewrite E32.
    destruct (Z.leb_spec L (7 - nt)) as [H1|H1];
      [|destruct (Z.leb_spec L (256 - nt)) as [H2|H2];
        [|destruct (Z.leb_spec L 16383) as [H3|H3];
          [|rewrite (proj2 (Z.leb_le L (2 ^ 32 - 9 - nt))) by lia]]];
      eexists; (split; [reflexivity|]); cbn [core_type buffer_size];
      (split; [reflexivity|]); (split; [reflexivity|]);
      intros N; try assumption; congruence.
  - intros HL. rewrite max_long_buffer_size_eq in HL.
    unfold calculate_new_buffer_size.
    rewrite header_size_eq, internal_buffer_size_eq, max_short_buffer_size_eq,
      max_long_buffer_size_eq, max_median_buffer_size_eq.
    rewrite (proj2 (Z.leb_gt L (7 - nt))) by lia.
    rewrite (proj2 (Z.leb_gt L (256 - nt))) by lia.
    rewrite (proj2 (Z.leb_gt L 16383)) by lia.
    rewrite (proj2 (Z.leb_gt L (2 ^ 32 - 9 - nt))) by lia.
    reflexivity.
Qed.

End Claims.


Module policy_specs.
Import malloc_core core_facts core_specs core_access core_resize small_string_buffer
  selector alloc_specs buffer_specs grow_specs init_specs size_specs string_specs
  append_specs.
Section NullTerminated.
Context (NullTerminated : bool).

Abbreviation nt := (nt_bytes NullTerminated).
Abbreviation repr := (inv.repr NullTerminated).
Abbreviation idle_of := (inv.idle_of NullTerminated).

(** [append] returns when the idle capacity holds the new characters. *)
Lemma append_within_idle c h body t area sz s count :
  repr h body t area sz -> 0 <= count <= len s -> count <= idle_of t area sz ->
  exists h' body',
    basic_small_string.append NullTerminated c h body (basic_small_string.array s) count
    = Ok (h', body').
Proof.
  intros R Hc Hi. pose proof (repr_bounds _ R) as [B Lb].
  pose proof (nt_range NullTerminated) as Hnt.
  pose proof (idle_of_le _ t area sz B) as Hl.
  unfold basic_small_string.append.
  destruct (Z.eqb_spec count 0) as [Ez|Nz]; [eauto|].
  unfold allocate_more. rewrite (idle_capacity_repr _ R). rewrite bind_ok.
  rewrite (proj2 (Z.leb_le count _)) by exact Hi. rewrite bind_ok. cbv beta iota.
  unfold end_. rewrite (end_ptr_shape _ _ _ _ _ _ (repr_shape _ _ _ _ _ _ R) ltac:(lia)).
  rewrite bind_ok. unfold basic_small_string.memcpy_from.
  cbn [basic_small_string.overlaps basic_small_string.read_from].
  rewrite block_read_ok by lia. rewrite bind_ok.
  set (src := slice s 0 count).
  assert (Lsrc : len src = count) by (apply length_slice; lia).
  destruct (write_chars_repr _ _ _ _ _ _ sz src R) as (h2 & b2 & W & R2 & S2);
    [lia | lia |].
  rewrite W. rewrite bind_ok. cbv beta iota.
  assert (La2 : len (splice area sz src) = len area)
    by (rewrite length_splice by lia; reflexivity).
  destruct (increase_size_ok _ _ _ _ _ _ count R2) as (h3 & b3 & E & _).
  { unfold inv.idle_of in *. rewrite La2. lia. }
  rewrite E. eauto.
Qed.

Lemma content_prefix (area area' bs : list byte) sz n :
  0 <= sz <= len area -> 0 <= n ->
  inv.content area' (sz + n) = inv.content area sz ++ bs ->
  inv.content area' sz = inv.content area sz.
Proof.
  unfold inv.content, slice. change (Z.to_nat 0) with 0%nat. rewrite !drop_0.
  intros Hs Hn E.
  assert (T : take (Z.to_nat sz) (take (Z.to_nat (sz + n)) area')
              = take (Z.to_nat sz) area').
  { rewrite take_take. f_equal. lia. }
  rewrite <- T, E. apply take_app_length'. rewrite length_take. lia.
Qed.

End NullTerminated.
End policy_specs.

Section GrowthPolicy.
Context (NullTerminated : bool).

Import malloc_core core_specs core_access small_string_buffer selector
  string_specs append_specs policy_specs program program_specs.

Abbreviation nt := (nt_bytes NullTerminated).
Abbreviation reachable := (program.reachable NullTerminated).
Abbreviation exec := (program.exec NullTerminated).

(** The bytes of the header of an allocation of a tier. *)
Abbreviation header_of ts := (match core_type ts with Short => 0 | _ => 8 end).

(** C5: [append(s, count)] on a string of a reachable state whose
    [idle_capacity()] is at least [count] returns, and the string keeps
    its buffer pointer, its tier and its capacity, and nothing is
    allocated or freed.  When the idle capacity is smaller and the append
    returns, the buffer of the result is the one the selector gives for
    [(size() + count) * 1.5F], the sum kept to 32 bits and the product
    computed in single precision and truncated (when
    [3 * (size() + count) < 2 ^ 24] it is [3 * (size() + count) / 2]);
    the selector runs once, on that value, and the old content is the
    start of the new one.  When [reserve(new_cap)] beyond the capacity
    returns, the buffer is the one the selector gives for [new_cap]
    itself. *)
Theorem append_growth_policy w i _core c (s : list byte) count idle n cap :
  reachable w -> strings w !! i = Some _core -> size_type count -> count <= len s ->
  basic_small_string.size (heap_of w) _core = Ok n ->
  basic_small_string.capacity NullTerminated (heap_of w) _core = Ok cap ->
  small_string_buffer.idle_capacity NullTerminated (heap_of w) _core = Ok idle ->
  (count <= idle ->
   exists w' core',
     exec w (Append i c (basic_small_string.array s) count) = Ok w' /\
     strings w' !! i = Some core' /\
     basic_small_string.data core' = basic_small_string.data _core /\
     basic_small_string.get_core_type core' = basic_small_string.get_core_type _core /\
     basic_small_string.capacity NullTerminated (heap_of w') core' = Ok cap /\
     dom (heap_of w') = dom (heap_of w)) /\
  (idle < count ->
   forall w', exec w (Append i c (basic_small_string.array s) count) = Ok w' ->
   exists core' ts bs,
     strings w' !! i = Some core' /\
     calculate_new_buffer_size NullTerminated (mul_growth (u32 (n + count))) = Ok ts /\
     (3 * (n + count) < 2 ^ 24 -> mul_growth (u32 (n + count)) = 3 * (n + count) / 2) /\
     basic_small_string.get_core_type core' = CoreType_to_Z (core_type ts) /\
     basic_small_string.capacity NullTerminated (heap_of w') core'
     = Ok (buffer_size ts - header_of ts - nt) /\
     read_chars (heap_of w) _core (basic_small_string.data _core) n = Ok bs /\
     read_chars (heap_of w') core' (basic_small_string.data core') n = Ok bs) /\
  (forall new_cap w',
     size_type new_cap -> cap < new_cap ->
     exec w (Reserve i c new_cap) = Ok w' ->
     exists core' ts,
       strings w' !! i = Some core' /\
       calculate_new_buffer_size NullTerminated new_cap = Ok ts /\
       basic_small_string.get_core_type core' = CoreType_to_Z (core_type ts) /\
       basic_small_string.capacity NullTerminated (heap_of w') core'
       = Ok (buffer_size ts - header_of ts - nt)).
Proof.
  intros Rw E Tc Hs Hn Hcap Hidle. unfold size_type in Tc.
  destruct (reachable_string _ w i _core Rw E) as (t & area & sz & R & _).
  pose proof (repr_bounds _ R) as [B Lb]. pose proof (nt_range NullTerminated) as Hnt.
  rewrite (string_size_repr _ _ _ _ _ _ R) in Hn. injection Hn as <-.
  rewrite (string_capacity_repr _ _ _ _ _ _ R) in Hcap. injection Hcap as <-.
  unfold small_string_buffer.idle_capacity in Hidle.
  rewrite (idle_capacity_repr _ R) in Hidle. injection Hidle as <-.
  split; [|split].
  - intros Le.
    destruct (append_within_idle _ c _ _ _ _ _ s count R ltac:(lia) Le) as (h' & b' & A).
    destruct (append_post _ _ _ _ _ _ _ _ _ _ _ R Tc A)
      as (src & _ & _ & t' & area' & R' & _ & _ & _ & Noop & _).
    destruct (Noop Le) as (((F & P) & K) & -> & La).
    exists (put w i h' b'), b'. cbn [heap_of strings put].
    split.
    { cbn [program.exec]. unfold on_string. rewrite E, A. reflexivity. }
    split; [apply lookup_insert_eq|].
    split.
    { unfold basic_small_string.data, get_buffer.
      apply same_buffer_begin_ptr. split; assumption. }
    split; [exact F|].
    split; [rewrite <- La; apply (string_capacity_repr _ _ _ _ _ _ R')|].
    apply set_eq. intros k. rewrite !elem_of_dom.
    destruct (decide (inv.owner _core = Some k)) as [Ok|Nk].
    + split; intros _.
      * apply (repr_owned _ _ _ _ _ _ _ R Ok).
      * apply (repr_owned _ _ _ _ _ _ _ R').
        rewrite (same_buffer_owner _core b' (conj F P)). exact Ok.
    + rewrite (K k Nk). reflexivity.
  - intros Gt w' H. cbn [program.exec] in H.
    destruct (on_string_inv _ _ _ _ H) as (b & h' & b' & Eb & A & ->).
    rewrite E in Eb. injection Eb as <-.
    destruct (append_post _ _ _ _ _ _ _ _ _ _ _ R Tc A)
      as (src & Lsrc & _ & t' & area' & R' & _ & C & _ & _ & Grow).
    destruct (Grow Gt) as (ts & Cts & -> & Lts).
    exists b', ts, (inv.content area sz). cbn [heap_of strings put].
    split; [apply lookup_insert_eq|]. split; [exact Cts|].
    split.
    { intros Hsm. unfold u32. rewrite Z.mod_small by lia.
      apply mul_growth_small; lia. }
    split; [destruct R' as (F' & _); exact F'|].
    split.
    { rewrite (string_capacity_repr _ _ _ _ _ _ R'), Lts. reflexivity. }
    split; [apply (read_content _ _ _ _ _ _ R)|].
    rewrite <- (content_prefix area area' _ sz count ltac:(lia) ltac:(lia) C).
    pose proof (repr_bounds _ R') as [B' _].
    unfold basic_small_string.data, get_buffer.
    rewrite <- (buffer_specs.ptr_add_0 (begin_ptr b')).
    apply (read_chars_repr _ _ _ _ _ _ 0 sz R'); lia.
  - intros new_cap w' Tn Gt H. cbn [program.exec] in H.
    destruct (on_string_inv _ _ _ _ H) as (b & h' & b' & Eb & A & ->).
    rewrite E in Eb. injection Eb as <-.
    destruct (reserve_post _ _ _ _ _ _ _ _ _ _ R Tn A)
      as (t' & area' & R' & _ & _ & _ & _ & _ & Grow).
    destruct (Grow Gt) as (ts & Cts & -> & Lts).
    exists b', ts. cbn [heap_of strings put].
    split; [apply lookup_insert_eq|]. split; [exact Cts|].
    split; [destruct R' as (F' & _); exact F'|].
    rewrite (string_capacity_repr _ _ _ _ _ _ R'), Lts. reflexivity.
Qed.

End GrowthPolicy.

(** ** The faults *)

Section Faults.
Import malloc_core core_facts core_specs small_string_buffer selector string_specs program.

(** For the seven largest lengths the selector admits, the sum of the
    length, the header and the terminator byte rounds up to [2 ^ 32]: the
    buffer size, 32 bits wide, is 0. *)
Lemma wrapped_selection NullTerminated n :
  max_long_buffer_size NullTerminated - 6 <= n <= max_long_buffer_size NullTerminated ->
  calculate_new_buffer_size NullTerminated n
  = Ok {| buffer_size := 0; core_type := Long |}.
Proof.
  intros Hn. pose proof (nt_range NullTerminated) as Hnt.
  rewrite max_long_buffer_size_eq in Hn.
  set (nt := nt_bytes NullTerminated) in *.
  rewrite calculate_new_buffer_size_eq by lia. fold nt.
  rewrite (proj2 (Z.leb_gt n (7 - nt))) by lia.
  rewrite (proj2 (Z.leb_gt n (256 - nt))) by lia.
  rewrite (proj2 (Z.leb_gt n 16383)) by lia.
  rewrite (proj2 (Z.leb_le n (2 ^ 32 - 9 - nt))) by lia.
  assert (E0 : round_up_8 (n + 8 + nt) = 2 ^ 32).
  { unfold round_up_8. replace ((n + 8 + nt + 7) / 8) with (2 ^ 29); [reflexivity|].
    apply (Z.div_unique _ 8 (2 ^ 29) (n + 8 + nt + 7 - 2 ^ 32)); lia. }
  rewrite E0. reflexivity.
Qed.

(** C3: for each of the seven largest [n] of the Long tier, from
    [max_long_buffer_size - 6] to [max_long_buffer_size], and every string
    of a reachable state whose capacity is below [n]: the selector admits
    [n] and selects a Long buffer of 0 bytes; the block [reserve(n)] gets
    from [malloc(0)] has no byte, and the store of the header, which
    comes next, is a store outside of the allocation, so that [reserve(n)]
    takes no step.  Where such a store goes unnoticed, the header holds
    the buffer size 0, of which [capacity()] makes [2 ^ 32 - 8] (one less
    with the terminator), a number that is at least [n], with no byte of
    buffer behind it. *)
Theorem reserve_writes_outside_its_allocation NullTerminated w i _core c n cap :
  program.reachable NullTerminated w -> strings w !! i = Some _core ->
  max_long_buffer_size NullTerminated - 6 <= n <= max_long_buffer_size NullTerminated ->
  basic_small_string.capacity NullTerminated (heap_of w) _core = Ok cap -> cap < n ->
  calculate_new_buffer_size NullTerminated n
  = Ok {| buffer_size := 0; core_type := Long |} /\
  (forall p h1,
     malloc c (heap_of w) 0 = Ok (p, h1) ->
     h1 !! p = Some [] /\ store32 h1 p 0 0 = Abort) /\
  program.exec NullTerminated w (Reserve i c n) = Abort /\
  (forall h' core',
     malloc_core.get_core_type core' = kIsLong ->
     capacity_from_buffer_header h' core' = Ok 0 ->
     basic_small_string.capacity NullTerminated h' core'
     = Ok (2 ^ 32 - 8 - nt_bytes NullTerminated) /\
     n <= 2 ^ 32 - 8 - nt_bytes NullTerminated).
Proof.
  intros Rw E Hn Hcap Lt. pose proof (nt_range NullTerminated) as Hnt.
  pose proof (wrapped_selection NullTerminated n Hn) as Sel.
  destruct (program_specs.reachable_wf _ w Rw) as (Wf & _).
  destruct (Wf i _core E) as (t & area & sz & R & _).
  rewrite (string_capacity_repr _ _ _ _ _ _ R) in Hcap. injection Hcap as <-.
  assert (St : forall p h1, malloc c (heap_of w) 0 = Ok (p, h1) ->
                 h1 !! p = Some [] /\ store32 h1 p 0 0 = Abort).
  { intros p h1 M. apply malloc_inv in M as (_ & -> & ->).
    rewrite lookup_insert_eq. split; [reflexivity|].
    unfold store32, store_bytes. rewrite lookup_insert_eq. reflexivity. }
  split; [exact Sel|]. split; [exact St|]. split.
  - cbn [program.exec]. unfold on_string. rewrite E.
    unfold basic_small_string.reserve, buffer_reserve, get_capacity_and_size.
    rewrite (get_capacity_and_size_repr _ R). rewrite bind_ok.
    cbv beta iota zeta delta [capacity_ size_].
    rewrite (proj2 (Z.ltb_lt _ _) Lt). rewrite Sel. rewrite bind_ok.
    unfold allocate_new_external_buffer.
    cbv beta iota zeta delta [core_type buffer_size].
    destruct (malloc c (heap_of w) 0) as [[p h1]|e|] eqn:M;
      [| exfalso; unfold malloc in M; destruct (_ && _) in M; discriminate
       | reflexivity].
    rewrite bind_ok. cbv beta iota.
    rewrite (proj2 (St p h1 eq_refl)). reflexivity.
  - intros h' core' F C. split.
    + unfold basic_small_string.capacity, small_string_buffer.capacity, malloc_core.capacity.
      unfold malloc_core.get_core_type in F. rewrite F. cbn [kIsLong CoreType_to_Z].
      cbv iota. rewrite C. rewrite bind_ok. unfold nt_bytes.
      destruct NullTerminated; reflexivity.
    + rewrite max_long_buffer_size_eq in Hn. lia.
Qed.

(** C8: without the terminator, [reserve(16380)] on an empty string
    reaches a Median string whose buffer has 16384 idle bytes by its
    header, and whose cached idle capacity, a field of 14 bits, is 0. *)
Theorem median_idle_cache_diverges :
  exists w _core,
    program.reachable false w /\ strings w !! 0%nat = Some _core /\
    basic_small_string.get_core_type _core = kIsMedian /\
    get_idle_capacity_from_buffer_header false (heap_of w) _core = Ok 16384 /\
    idle_or_ignore _core = 0 /\
    small_string_buffer.idle_capacity false (heap_of w) _core = Ok 0.
Proof.
  assert (E : exists w, program.run false program.init example.byte_reserved = Ok w /\
              exists _core, strings w !! 0%nat = Some _core /\
              basic_small_string.get_core_type _core = kIsMedian /\
              get_idle_capacity_from_buffer_header false (heap_of w) _core = Ok 16384 /\
              idle_or_ignore _core = 0 /\
              small_string_buffer.idle_capacity false (heap_of w) _core = Ok 0).
  { eexists. split; [vm_compute; reflexivity|].
    eexists. split; [vm_compute; reflexivity|].
    split; [vm_compute; reflexivity|]. split; [vm_compute; reflexivity|].
    split; vm_compute; reflexivity. }
  destruct E as (w & E & core & P). exists w, core. split; [|exact P].
  apply (run_reachable false program.init example.byte_reserved w
           (program.reachable_init false)); [|exact E].
  repeat constructor; unfold size_type; lia.
Qed.

(** C5, as it is worded: for 10 characters appended to an empty string
    the selection, scaled by 1.5 and selected again, is a Short buffer of
    32 bytes; [append] leaves a string of capacity 15, in a buffer of 16. *)
Lemma growth_is_not_a_second_selection :
  spec.select_with_growth true 0 10 = Ok {| buffer_size := 32; core_type := Short |} /\
  exists w _core,
    program.run true program.init example.appended = Ok w /\
    strings w !! 0%nat = Some _core /\
    basic_small_string.capacity true (heap_of w) _core = Ok 15.
Proof.
  split; [vm_compute; reflexivity|].
  eexists. eexists. split; [vm_compute; reflexivity|].
  split; [vm_compute; reflexivity|]. vm_compute. reflexivity.
Qed.

(** C1, as it is worded: the constructor that takes a buffer layout is a
    public operation, and it stores the size it is given beside the layout
    it is given: [small_byte_string s(initialized_later{}, {8, Short}, 100)]
    returns with [size() == 100] and [capacity() == 8]. *)
Lemma explicit_layout_breaks_size_le_capacity :
  exists w _core,
    extended.exec false program.init
      (extended.Basic
         (InitializedLaterWith 0 (chunk_at 16) {| buffer_size := 8; core_type := Short |}
            100))
    = Ok w /\
    strings w !! 0%nat = Some _core /\
    basic_small_string.size (heap_of w) _core = Ok 100 /\
    basic_small_string.capacity false (heap_of w) _core = Ok 8.
Proof.
  eexists. eexists. split; [vm_compute; reflexivity|].
  split; [vm_compute; reflexivity|]. split; vm_compute; reflexivity.
Qed.

(** C4, as it is worded (every length, the Long tier taking what is
    left): the length [2 ^ 32 - 1] is above [max_long_buffer_size], and
    the selector stops at its assertion; for the largest length it
    admits, the size it selects is 0, not the sum rounded up, [2 ^ 32]. *)
Lemma selector_is_bounded :
  calculate_new_buffer_size true 4294967295 = Abort /\
  calculate_new_buffer_size true 4294967286
  = Ok {| buffer_size := 0; core_type := Long |} /\
  round_up_8 (4294967286 + 8 + 1) = 2 ^ 32.
Proof. split; [|split]; vm_compute; reflexivity. Qed.

End Faults.

(** ** The theorems on example programs *)

Section Examples.
Import malloc_core small_string_buffer program example.

Lemma built_run : program.run true program.init built = Ok built_state.
Proof. vm_compute. reflexivity. Qed.

Lemma typed_built : Forall (typed true) built.
Proof. repeat constructor; unfold size_t; lia. Qed.

Lemma built_reachable : program.reachable true built_state.
Proof.
  apply (run_reachable true program.init built built_state
           (program.reachable_init true) typed_built built_run).
Qed.

Lemma built_lookup : strings built_state !! 0%nat = Some built_core.
Proof. vm_compute. reflexivity. Qed.

Lemma reserved_reachable : program.reachable true reserved_state.
Proof.
  apply (run_reachable true program.init reserved reserved_state
           (program.reachable_init true)).
  - repeat constructor; unfold size_type; lia.
  - vm_compute. reflexivity.
Qed.

Lemma valid_chunk_empty a n :
  0 < a -> a + n < 2 ^ 47 -> a mod 16 = 0 -> inv.valid_chunk (chunk_at a) ∅ n.
Proof. intros. split; [apply lookup_empty|]. auto. Qed.


Lemma selector_thresholds_witness :
  (exists ts,
     calculate_new_buffer_size true 100 = Ok ts /\
     core_type ts = Short /\ buffer_size ts = 104) /\
  calculate_new_buffer_size true 4294967295 = Abort.
Proof.
  split.
  - destruct (selector_thresholds true 100) as (S & _).
    destruct S as (ts & E & T & B & _); [vm_compute; split; discriminate|].
    exists ts. split; [exact E|]. split; [exact T|]. rewrite B, T. reflexivity.
  - destruct (selector_thresholds true 4294967295) as (_ & A).
    apply A. vm_compute. reflexivity.
Defined.

Lemma append_growth_policy_witness :
  (exists w' core',
     program.exec true built_state
       (Append 0 (chunk_at 32) (basic_small_string.array hello) 3) = Ok w' /\
     strings w' !! 0%nat = Some core' /\
     basic_small_string.data core' = basic_small_string.data built_core /\
     basic_small_string.capacity true (heap_of w') core' = Ok 15) /\
  (exists w' core',
     program.exec true built_state
       (Append 0 (chunk_at 32) (basic_small_string.array hello) 10) = Ok w' /\
     strings w' !! 0%nat = Some core' /\
     calculate_new_buffer_size true (mul_growth (u32 (10 + 10)))
     = Ok {| buffer_size := 32; core_type := Short |} /\
     basic_small_string.get_core_type core' = kIsShort /\
     basic_small_string.capacity true (heap_of w') core' = Ok 31 /\
     read_chars (heap_of w') core' (basic_small_string.data core') 10 = Ok hello) /\
  (exists w' core',
     program.exec true built_state (Reserve 0 (chunk_at 32) 100) = Ok w' /\
     strings w' !! 0%nat = Some core' /\
     basic_small_string.get_core_type core' = kIsShort /\
     basic_small_string.capacity true (heap_of w') core' = Ok 103).
Proof.
  assert (Hs : basic_small_string.size (heap_of built_state) built_core = Ok 10)
    by (vm_compute; reflexivity).
  assert (Hc : basic_small_string.capacity true (heap_of built_state) built_core = Ok 15)
    by (vm_compute; reflexivity).
  assert (Hi : small_string_buffer.idle_capacity true (heap_of built_state) built_core
               = Ok 5) by (vm_compute; reflexivity).
  assert (Hl : 10 <= len hello) by (vm_compute; discriminate).
  split; [|split].
  - destruct (append_growth_policy true built_state 0%nat built_core (chunk_at 32) hello
                3 5 10 15 built_reachable built_lookup) as (A & _);
      [unfold size_type; lia | lia | exact Hs | exact Hc | exact Hi |].
    destruct A as (w' & core' & E & L & D & _ & C & _); [lia|].
    exists w', core'. auto.
  - assert (E : exists w', program.exec true built_state
                  (Append 0 (chunk_at 32) (basic_small_string.array hello) 10) = Ok w')
      by (vm_compute; eexists; reflexivity).
    destruct E as (w' & E).
    destruct (append_growth_policy true built_state 0%nat built_core (chunk_at 32) hello
                10 5 10 15 built_reachable built_lookup) as (_ & G & _);
      [unfold size_type; lia | exact Hl | exact Hs | exact Hc | exact Hi |].
    destruct (G ltac:(lia) w' E) as (core' & ts & bs & L & Cts & _ & T & C & Rd & Rd').
    assert (Ets : calculate_new_buffer_size true (mul_growth (u32 (10 + 10)))
                  = Ok {| buffer_size := 32; core_type := Short |})
      by (vm_compute; reflexivity).
    rewrite Ets in Cts. injection Cts as <-.
    assert (Eh : read_chars (heap_of built_state) built_core
                   (basic_small_string.data built_core) 10 = Ok hello)
      by (vm_compute; reflexivity).
    rewrite Eh in Rd. injection Rd as <-.
    exists w', core'. split; [exact E|]. split; [exact L|]. split; [exact Ets|].
    split; [exact T|]. split; [exact C | exact Rd'].
  - assert (E : exists w', program.exec true built_state (Reserve 0 (chunk_at 32) 100)
                           = Ok w')
      by (vm_compute; eexists; reflexivity).
    destruct E as (w' & E).
    destruct (append_growth_policy true built_state 0%nat built_core (chunk_at 32) hello
                3 5 10 15 built_reachable built_lookup) as (_ & _ & G);
      [unfold size_type; lia | lia | exact Hs | exact Hc | exact Hi |].
    destruct (G 100 w' ltac:(unfold size_type; lia) ltac:(lia) E)
      as (core' & ts & L & Cts & T & C).
    assert (Ets : calculate_new_buffer_size true 100
                  = Ok {| buffer_size := 104; core_type := Short |})
      by (vm_compute; reflexivity).
    rewrite Ets in Cts. injection Cts as <-.
    exists w', core'. split; [exact E|]. split; [exact L|]. split; [exact T | exact C].
Defined.

Lemma empty_reachable : program.reachable true empty_state.
Proof.
  apply (run_reachable true program.init empty empty_state (program.reachable_init true)).
  - repeat constructor.
  - vm_compute. reflexivity.
Qed.

Lemma reserve_writes_outside_its_allocation_witness :
  calculate_new_buffer_size true 4294967286
  = Ok {| buffer_size := 0; core_type := Long |} /\
  (forall p h1,
     malloc (chunk_at 16) (heap_of empty_state) 0 = Ok (p, h1) ->
     h1 !! p = Some [] /\ store32 h1 p 0 0 = Abort) /\
  program.exec true empty_state (Reserve 0 (chunk_at 16) 4294967286) = Abort.
Proof.
  destruct (reserve_writes_outside_its_allocation true empty_state 0%nat 0 (chunk_at 16)
              4294967286 6 empty_reachable) as (S & W & A & _).
  - vm_compute. reflexivity.
  - vm_compute. split; discriminate.
  - vm_compute. reflexivity.
  - lia.
  - split; [exact S|]. split; [exact W | exact A].
Defined.

Lemma shrink_to_fit_frame_witness :
  exists _core core' n cap cap',
    strings reserved_state !! 0%nat = Some _core /\
    strings shrunk_state !! 0%nat = Some core' /\
    basic_small_string.capacity true (heap_of reserved_state) _core = Ok cap /\
    basic_small_string.capacity true (heap_of shrunk_state) core' = Ok cap' /\
    cap' <= cap /\
    basic_small_string.size (heap_of reserved_state) _core = Ok n /\
    basic_small_string.size (heap_of shrunk_state) core' = Ok n.
Proof.
  destruct (shrink_to_fit_frame true reserved_state 0%nat (chunk_at 32) shrunk_state
              reserved_reachable)
    as (b & b' & n & cap & cap' & bs & E & E' & C & C' & L & S & S' & _).
  - vm_compute. reflexivity.
  - exists b, b', n, cap, cap'. auto 10.
Defined.

Lemma ctor_round_trip_witness :
  exists h' _core,
    basic_small_string.ctor_chars true (chunk_at 16) ∅ (take 8 hello) 8 = Ok (h', _core) /\
    basic_small_string.size h' _core = Ok 8 /\
    read_chars h' _core (basic_small_string.data _core) 8 = Ok (take 8 hello).
Proof.
  apply (ctor_round_trip true (chunk_at 16) ∅ (take 8 hello)).
  - cbn. tauto.
  - apply valid_chunk_empty; [lia | lia | reflexivity].
Defined.


Lemma accessors_out_of_range_witness :
  basic_small_string.at_ (heap_of built_state) built_core 3
  = Ok (ptr_add (basic_small_string.data built_core) 3) /\
  basic_small_string.at_ (heap_of built_state) built_core 10 = Throw out_of_range.
Proof.
  destruct (accessors_out_of_range true built_state 0%nat built_core 3
              built_reachable built_lookup) as (n & bs & S & _ & _ & In3);
    [unfold size_type; lia|].
  destruct (accessors_out_of_range true built_state 0%nat built_core 10
              built_reachable built_lookup) as (n' & bs' & S' & _ & Out & _);
    [unfold size_type; lia|].
  assert (En : basic_small_string.size (heap_of built_state) built_core = Ok 10)
    by (vm_compute; reflexivity).
  rewrite En in S, S'. injection S as <-. injection S' as <-.
  destruct (In3 ltac:(lia)) as (b & _ & _ & A & _).
  destruct (Out ltac:(lia)) as (T & _). auto.
Defined.

End Examples.

(** * More of the header: what the operations do to the content *)

Module observe_specs.
Import malloc_core core_specs core_access small_string_buffer string_specs
  program program_specs observe.
Section NullTerminated.
Context (NullTerminated : bool).

Abbreviation nt := (nt_bytes NullTerminated).
Abbreviation repr := (inv.repr NullTerminated).

Lemma len_content area sz : 0 <= sz <= len area -> len (inv.content area sz) = sz.
Proof. intros. unfold inv.content. apply length_slice; lia. Qed.

Lemma holds_repr h body t area sz :
  repr h body t area sz -> holds h body (inv.content area sz).
Proof.
  intros R. pose proof (repr_bounds _ R) as [B _]. pose proof (nt_range NullTerminated).
  unfold holds. rewrite len_content by lia.
  split; [apply (string_size_repr _ _ _ _ _ _ R) | apply (read_content _ _ _ _ _ _ R)].
Qed.

Lemma holds_inv h body t area sz bs :
  repr h body t area sz -> holds h body bs -> bs = inv.content area sz /\ len bs = sz.
Proof.
  intros R (S & Rd). rewrite (string_size_repr _ _ _ _ _ _ R) in S. injection S as S.
  rewrite <- S in Rd. rewrite (read_content _ _ _ _ _ _ R) in Rd. injection Rd as Rd.
  auto.
Qed.

Lemma holds_fun h body bs bs' : holds h body bs -> holds h body bs' -> bs = bs'.
Proof.
  intros (S & Rd) (S' & Rd'). rewrite S in S'. injection S' as E.
  rewrite E in Rd. rewrite Rd in Rd'. injection Rd' as Rd'. exact Rd'.
Qed.

Lemma reachable_holds w i _core :
  program.reachable NullTerminated w -> strings w !! i = Some _core ->
  exists bs, holds (heap_of w) _core bs.
Proof.
  intros Rw E. destruct (reachable_string _ w i _core Rw E) as (t & area & sz & R & _).
  exists (inv.content area sz). apply (holds_repr _ _ _ _ _ R).
Qed.

(** Slices of a list of bytes as [take] and [drop]. *)
Lemma slice_take_drop (l : list byte) off n :
  slice l off n = take (Z.to_nat n) (drop (Z.to_nat off) l).
Proof. reflexivity. Qed.

Lemma content_take (l : list byte) n : inv.content l n = take (Z.to_nat n) l.
Proof. unfold inv.content, slice. change (Z.to_nat 0) with 0%nat. rewrite drop_0. reflexivity. Qed.

Lemma slice_app_split (l : list byte) a b :
  0 <= a -> 0 <= b -> slice l 0 (a + b) = slice l 0 a ++ slice l a b.
Proof.
  intros Ha Hb. unfold slice. change (Z.to_nat 0) with 0%nat. rewrite drop_0.
  rewrite Z2Nat.inj_add by lia. symmetry. apply take_take_drop.
Qed.

Lemma slice_splice_after (blk bs : list byte) off off' n :
  0 <= off -> off + len bs <= off' -> off + len bs <= len blk ->
  slice (splice blk off bs) off' n = slice blk off' n.
Proof.
  intros Ho Hl Hb. unfold slice, splice. f_equal.
  rewrite app_assoc.
  assert (L : length (take (Z.to_nat off) blk ++ bs) = (Z.to_nat off + length bs)%nat).
  { rewrite length_app, length_take. lia. }
  replace (Z.to_nat off')
    with ((Z.to_nat off + length bs) + (Z.to_nat off' - (Z.to_nat off + length bs)))%nat
    at 1 by lia.
  rewrite (drop_app_add' _ _ _ _ (eq_sym L)). rewrite drop_drop. f_equal. lia.
Qed.

Lemma slice_prefix_eq (a b : list byte) n off k :
  slice a 0 n = slice b 0 n -> 0 <= off -> 0 <= k -> off + k <= n ->
  slice a off k = slice b off k.
Proof.
  intros E Ho Hk Hn. unfold slice in *. change (Z.to_nat 0) with 0%nat in E.
  rewrite !drop_0 in E.
  assert (X : forall l : list byte, take (Z.to_nat k) (drop (Z.to_nat off) l)
              = take (Z.to_nat k) (drop (Z.to_nat off) (take (Z.to_nat n) l))).
  { intros l. rewrite skipn_firstn_comm, take_take. f_equal. lia. }
  rewrite (X a), (X b), E. reflexivity.
Qed.

End NullTerminated.
End observe_specs.

Module content_specs.
Import malloc_core core_facts core_specs core_access core_resize small_string_buffer
  selector alloc_specs buffer_specs grow_specs init_specs size_specs string_specs
  append_specs ctor_specs observe_specs.
Section NullTerminated.
Context (NullTerminated : bool).

Abbreviation nt := (nt_bytes NullTerminated).
Abbreviation repr := (inv.repr NullTerminated).
Abbreviation term_at := (inv.term_at NullTerminated).
Abbreviation terminated := (inv.terminated NullTerminated).
Abbreviation idle_of := (inv.idle_of NullTerminated).

(** [erase(index, count)] with [index > size()] throws. *)
Lemma erase_throws h body t area sz index count :
  repr h body t area sz -> sz < index ->
  basic_small_string.erase NullTerminated h body index count = Throw out_of_range.
Proof.
  intros R Hi. unfold basic_small_string.erase.
  rewrite (string_size_repr _ _ _ _ _ _ R). rewrite bind_ok.
  rewrite (proj2 (Z.ltb_lt sz index)) by exact Hi. reflexivity.
Qed.

(** [erase(index, count)] returns, and what it leaves. *)
Lemma erase_spec h body t area sz index count :
  repr h body t area sz -> 0 <= index <= sz -> 0 <= count < 2 ^ 32 ->
  exists h' body' area',
    basic_small_string.erase NullTerminated h body index count = Ok (h', body') /\
    repr h' body' t area' (sz - Z.min count (sz - index)) /\
    (terminated area sz -> terminated area' (sz - Z.min count (sz - index))) /\
    len area' = len area /\
    inv.content area' (sz - Z.min count (sz - index))
    = slice area 0 index
      ++ slice area (index + Z.min count (sz - index))
           (sz - index - Z.min count (sz - index)) /\
    inv.stable h body h' body'.
Proof.
  intros R Hi Hc. pose proof (repr_bounds _ R) as [B Lb].
  pose proof (nt_range NullTerminated) as Hnt.
  unfold basic_small_string.erase.
  rewrite (string_size_repr _ _ _ _ _ _ R). rewrite bind_ok.
  rewrite (proj2 (Z.ltb_ge sz index)) by lia.
  assert (Eu : u32 (sz - index) = sz - index) by (unfold u32; apply Z.mod_small; lia).
  rewrite Eu. set (rc := Z.min count (sz - index)) in *.
  destruct (Z.eqb_spec rc 0) as [Ez|Nz].
  { exists h, body, area. rewrite Ez, Z.sub_0_r, Z.add_0_r.
    split; [reflexivity|]. split; [exact R|]. split; [auto|]. split; [reflexivity|].
    split; [|apply stable_refl]. unfold inv.content. rewrite Z.sub_0_r.
    replace sz with (index + (sz - index)) at 1 by lia.
    apply slice_app_split; lia. }
  assert (Hrc : 0 < rc <= sz - index) by lia.
  assert (E1 : u64 (sz - rc) = sz - rc) by (unfold u64; apply Z.mod_small; lia).
  assert (E2 : u64 (u64 (sz - index) - rc) = sz - index - rc).
  { unfold u64. rewrite (Z.mod_small (sz - index)) by lia. apply Z.mod_small. lia. }
  rewrite E1, E2.
  assert (E3 : u32 (sz - rc) = sz - rc) by (unfold u32; apply Z.mod_small; lia).
  assert (E4 : u32 (sz - index - rc) = sz - index - rc)
    by (unfold u32; apply Z.mod_small; lia).
  assert (E5 : u32 (index + rc) = index + rc) by (unfold u32; apply Z.mod_small; lia).
  rewrite E3, E4, E5.
  rewrite Assert_true by (apply Z.leb_le; lia). rewrite bind_ok.
  unfold get_buffer. rewrite !ptr_add_add.
  destruct (Z.ltb_spec 0 (sz - index - rc)) as [Hr|Hr].
  - rewrite (read_chars_repr _ _ _ _ _ _ (index + rc) (sz - index - rc) R) by lia.
    rewrite bind_ok.
    set (moved := slice area (index + rc) (sz - index - rc)).
    assert (Lm : len moved = sz - index - rc) by (apply length_slice; lia).
    destruct (write_chars_repr _ _ _ _ _ _ index moved R) as (h1 & b1 & W & R1 & S1);
      [lia | lia |].
    rewrite W. rewrite bind_ok. cbv beta iota.
    assert (La1 : len (splice area index moved) = len area)
      by (rewrite length_splice by lia; reflexivity).
    destruct (set_size_ok _ _ _ _ _ _ (sz - rc) R1 ltac:(lia)) as (h2 & b2 & E & R' & S').
    rewrite E. exists h2, b2, (term_at (splice area index moved) (sz - rc)).
    split; [reflexivity|]. split; [exact R'|].
    split; [intros _; apply terminated_term_at; lia|].
    split; [rewrite length_term_at by lia; exact La1|]. split.
    + unfold inv.content. rewrite slice_term_at by lia.
      replace (sz - rc) with (index + len moved) by lia.
      rewrite slice_splice_app by lia. reflexivity.
    + eapply stable_trans; eassumption.
  - rewrite bind_ok. cbv beta iota.
    destruct (set_size_ok _ _ _ _ _ _ (sz - rc) R ltac:(lia)) as (h2 & b2 & E & R' & S').
    rewrite E. exists h2, b2, (term_at area (sz - rc)).
    split; [reflexivity|]. split; [exact R'|].
    split; [intros _; apply terminated_term_at; lia|].
    split; [rewrite length_term_at by lia; reflexivity|]. split.
    + unfold inv.content. rewrite slice_term_at by lia.
      replace (sz - index - rc) with 0 by lia.
      replace (sz - rc) with index by lia.
      unfold slice at 3. cbn [Z.to_nat take]. rewrite app_nil_r. reflexivity.
    + exact S'.
Qed.

Lemma slice_split (l : list byte) off a b :
  0 <= off -> 0 <= a -> 0 <= b ->
  slice l off (a + b) = slice l off a ++ slice l (off + a) b.
Proof.
  intros Ho Ha Hb. unfold slice.
  rewrite !Z2Nat.inj_add by lia. rewrite <- drop_drop. symmetry. apply take_take_drop.
Qed.

(** [insert(index, str, count)]: the edge cases. *)
Lemma insert_nothing c h body index str :
  basic_small_string.insert NullTerminated c h body index str 0 = Ok (h, body).
Proof. reflexivity. Qed.

Lemma insert_throws c h body t area sz index str count :
  repr h body t area sz -> count <> 0 -> sz < index ->
  basic_small_string.insert NullTerminated c h body index str count = Throw out_of_range.
Proof.
  intros R Nz Hi. unfold basic_small_string.insert.
  rewrite (proj2 (Z.eqb_neq count 0)) by exact Nz.
  rewrite (string_size_repr _ _ _ _ _ _ R). rewrite bind_ok.
  rewrite (proj2 (Z.ltb_lt sz index)) by exact Hi. reflexivity.
Qed.

(** [insert(index, str, count)]: the content.  [src] is what the copy read
    behind [str], in the state [(h2, b2)] the move of the tail left. *)
Lemma insert_content c h body t area sz index str count h' body' :
  repr h body t area sz -> 0 <= index < 2 ^ 32 -> 0 < count < 2 ^ 32 ->
  basic_small_string.insert NullTerminated c h body index str count = Ok (h', body') ->
  index <= sz /\
  exists src h2 b2 t2 area2,
    len src = count /\
    repr h2 b2 t2 area2 sz /\
    basic_small_string.read_from h2 b2 str count = Ok src /\
    basic_small_string.overlaps (ptr_add (begin_ptr b2) index) str count = false /\
    (count <= idle_of t area sz ->
     begin_ptr b2 = begin_ptr body /\
     area2 = if index <? sz
             then splice area (index + count) (slice area index (sz - index))
             else area) /\
    (idle_of t area sz < count ->
     forall k, inv.owner body = Some k -> h2 !! k = None) /\
    exists t' area',
      repr h' body' t' area' (sz + count) /\
      inv.content area' (sz + count)
      = slice area 0 index ++ src ++ slice area index (sz - index).
Proof.
  intros R Hi Hc H. pose proof (repr_bounds _ R) as [B Lb].
  pose proof (nt_range NullTerminated) as Hnt.
  unfold basic_small_string.insert in H.
  rewrite (proj2 (Z.eqb_neq count 0)) in H by lia.
  rewrite (string_size_repr _ _ _ _ _ _ R) in H. rewrite bind_ok in H. cbv beta in H.
  destruct (Z.ltb_spec sz index) as [Lt|Ge]; [discriminate|].
  split; [exact Ge|].
  bind_inv H x A. destruct x as [h1 b1]. cbv beta iota in H.
  destruct (allocate_more_ready _ _ _ _ _ _ _ count _ _ R ltac:(lia) A)
    as (t1 & area1 & S1 & L1 & L32 & C1 & Rdy & E1 & Noop & Grow).
  unfold get_buffer in H. rewrite !ptr_add_add in H.
  bind_inv H x M. destruct x as [h2 b2]. cbv beta iota in H.
  bind_inv H x W. destruct x as [h3 b3]. cbv beta iota in H.
  apply memcpy_from_inv in W as (src & Ov & Eb & Lsrc & W).
  exists src, h2, b2, t1.
  assert (G : exists area_m area2,
             repr h2 b2 t1 area_m sz /\ inv.stable h1 b1 h2 b2 /\
             area_m = (if index <? sz
                       then splice area1 (index + count) (slice area1 index (sz - index))
                       else area1) /\
             repr h3 b3 t1 area2 sz /\ len area2 = len area1 /\
             sz + count <= len area1 - nt /\
             (t1 = Internal -> count <= idle_of t1 area1 sz) /\
             slice area2 0 (sz + count)
             = slice area 0 index ++ src ++ slice area index (sz - index)).
  { destruct (Z.ltb_spec index sz) as [Lt|Eq].
    - bind_inv M moved Rd.
      rewrite (read_chars_shape _ _ _ _ _ _ index (sz - index) S1) in Rd by lia.
      injection Rd as <-.
      set (moved := slice area1 index (sz - index)) in *.
      assert (Lm : len moved = sz - index) by (apply length_slice; lia).
      pose proof (write_chars_shape_inv _ _ _ _ _ _ (index + count) _ _ _ S1
                    ltac:(lia) M) as Fit.
      rewrite Lm in Fit. destruct (Rdy ltac:(lia)) as (R1 & Hl & Hid).
      destruct (write_chars_repr _ _ _ _ _ _ (index + count) moved R1)
        as (h2' & b2' & W' & R2 & S2); [lia | lia |].
      rewrite M in W'. injection W' as <- <-.
      rewrite <- (same_buffer_begin_ptr _ _ (proj1 S2)) in W.
      set (X := splice area1 (index + count) moved) in *.
      assert (La2 : len X = len area1)
        by (subst X; rewrite length_splice by lia; reflexivity).
      destruct (write_chars_repr _ _ _ _ _ _ index src R2)
        as (h3' & b3' & W' & R3 & S3); [lia | lia |].
      rewrite W in W'. injection W' as <- <-.
      exists X, (splice X index src).
      split; [exact R2|]. split; [exact S2|]. split; [reflexivity|].
      split; [exact R3|]. split; [rewrite length_splice by lia; exact La2|].
      split; [exact Hl|]. split; [exact Hid|].
      replace (sz + count) with (index + (count + (sz - index))) by lia.
      rewrite (slice_split _ 0 index) by lia. rewrite Z.add_0_l.
      rewrite (slice_split _ index count) by lia.
      rewrite (slice_splice_before X src index 0 index) by lia.
      pose proof (slice_splice_same X src index ltac:(lia) ltac:(lia)) as Es.
      rewrite Lsrc in Es. rewrite Es.
      rewrite (slice_splice_after X src index (index + count)) by lia.
      subst X. rewrite (slice_splice_before area1 moved (index + count) 0 index) by lia.
      pose proof (slice_splice_same area1 moved (index + count) ltac:(lia) ltac:(lia)) as Em.
      rewrite Lm in Em. rewrite Em.
      rewrite (slice_prefix_eq area1 area sz 0 index C1) by lia.
      subst moved. rewrite (slice_prefix_eq area1 area sz index (sz - index) C1) by lia.
      reflexivity.
    - injection M as <- <-.
      pose proof (write_chars_shape_inv _ _ _ _ _ _ index _ _ _ S1 ltac:(lia) W) as Fit.
      rewrite Lsrc in Fit. destruct (Rdy ltac:(lia)) as (R1 & Hl & Hid).
      destruct (write_chars_repr _ _ _ _ _ _ index src R1)
        as (h3' & b3' & W' & R3 & S3); [lia | lia |].
      rewrite W in W'. injection W' as <- <-.
      exists area1, (splice area1 index src).
      split; [exact R1|]. split; [apply stable_refl|]. split; [reflexivity|].
      split; [exact R3|]. split; [rewrite length_splice by lia; reflexivity|].
      split; [exact Hl|]. split; [exact Hid|].
      replace (sz + count) with (index + len src) by lia.
      rewrite slice_splice_app by lia.
      rewrite (slice_prefix_eq area1 area sz 0 index C1) by lia.
      replace (sz - index) with 0 by lia.
      unfold slice at 3. cbn [Z.to_nat take]. rewrite app_nil_r. reflexivity. }
  destruct G as (area_m & area2 & R2 & S2 & Em & R3 & La2 & Hl & Hid & C2).
  exists area_m. split; [exact Lsrc|]. split; [exact R2|]. split; [exact Eb|].
  pose proof (same_buffer_begin_ptr _ _ (proj1 S2)) as Eptr.
  split; [rewrite Eptr; exact Ov|].
  split.
  { intros Le. destruct (Noop Le) as (-> & -> & -> & ->).
    split; [exact Eptr | exact Em]. }
  split.
  { intros Gt k Ok. assert (Hc' : 0 <= count < 2 ^ 32) by lia.
    destruct (allocate_more_post _ _ _ _ _ _ _ _ _ _ R Hc' A)
      as [(Le & _)|(_ & t1' & area1' & _ & _ & _ & _ & _ & _ & _ & O1 & Vn & _ & Kf)];
      [lia|].
    destruct S2 as (Sb & Kst). rewrite Kst; [apply (Kf k Ok)|].
    rewrite O1. intros [= <-].
    destruct (repr_owned _ _ _ _ _ _ _ R Ok) as [x Hx]. congruence. }
  destruct (finish_grow _ _ _ _ _ _ _ count _ _ R3 La2 ltac:(lia) Hid H)
    as (R' & T' & C' & S').
  exists t1, (term_at area2 (sz + count)).
  split; [exact R'|]. unfold inv.content. rewrite C'. exact C2.
Qed.

(** [insert(index, str, count)] from an array that is no part of the
    string. *)
Lemma insert_array c h body t area sz index a count h' body' :
  repr h body t area sz -> 0 <= index < 2 ^ 32 -> 0 < count < 2 ^ 32 ->
  basic_small_string.insert NullTerminated c h body index (basic_small_string.array a) count
  = Ok (h', body') ->
  index <= sz /\ count <= len a /\
  exists t' area',
    repr h' body' t' area' (sz + count) /\
    inv.content area' (sz + count)
    = slice area 0 index ++ slice a 0 count ++ slice area index (sz - index).
Proof.
  intros R Hi Hc H.
  destruct (insert_content _ _ _ _ _ _ _ _ _ _ _ R Hi Hc H)
    as (Le & src & h2 & b2 & t2 & area2 & _ & _ & Eb & _ & _ & _ & t' & area' & R' & C').
  apply read_from_array in Eb as (La & ->).
  split; [exact Le|]. split; [lia|]. exists t', area'. auto.
Qed.

Lemma slice_splice_inside (blk bs : list byte) off a n :
  0 <= off -> off + len bs <= len blk -> off <= a -> 0 <= n -> a + n <= off + len bs ->
  slice (splice blk off bs) a n = slice bs (a - off) n.
Proof.
  intros Ho Hl Ha Hn Hb. apply list_eq; intros k.
  rewrite !lookup_slice by lia.
  destruct (Z.ltb_spec (Z.of_nat k) n); [|reflexivity].
  rewrite lookup_splice by lia.
  replace ((off <=? Z.of_nat (Z.to_nat a + k)) && (Z.of_nat (Z.to_nat a + k) <? off + len bs))
    with true by (symmetry; apply andb_true_intro; split;
                  [apply Z.leb_le | apply Z.ltb_lt]; lia).
  f_equal. lia.
Qed.

Lemma slice_slice (l : list byte) off m a n :
  0 <= off -> 0 <= a -> 0 <= n -> a + n <= m ->
  slice (slice l off m) a n = slice l (off + a) n.
Proof.
  intros Ho Ha Hn Hm. apply list_eq; intros k.
  rewrite !lookup_slice by lia.
  destruct (Z.ltb_spec (Z.of_nat k) n); [|reflexivity].
  rewrite (proj2 (Z.ltb_lt (Z.of_nat (Z.to_nat a + k)) m)) by lia.
  f_equal. lia.
Qed.

(** Two ranges of [count] characters behind one pointer. *)
Lemma overlaps_ptr_add p index from count :
  basic_small_string.overlaps (ptr_add p index)
    (basic_small_string.inside (ptr_add p from)) count
  = (from <? index + count) && (index <? from + count).
Proof.
  destruct p as [a|x a]; cbn [ptr_add basic_small_string.overlaps].
  - destruct (Z.ltb_spec (a + from) (a + index + count)),
      (Z.ltb_spec from (index + count)); try lia;
    destruct (Z.ltb_spec (a + index) (a + from + count)),
      (Z.ltb_spec index (from + count)); try lia; reflexivity.
  - rewrite Z.eqb_refl.
    destruct (Z.ltb_spec (a + from) (a + index + count)),
      (Z.ltb_spec from (index + count)); try lia;
    destruct (Z.ltb_spec (a + index) (a + from + count)),
      (Z.ltb_spec index (from + count)); try lia; reflexivity.
Qed.

(** The characters of an external string are in the allocation it owns. *)
Lemma begin_ptr_owner body :
  flag body <> 0 ->
  exists k o, inv.owner body = Some k /\ begin_ptr body = in_block k o.
Proof.
  intros N. unfold inv.owner, begin_ptr, is_external, chars.
  rewrite (proj2 (Z.eqb_neq (flag body) 0)) by exact N. cbn [negb].
  destruct (flag body =? 1); eauto.
Qed.

(** Nothing is read through a pointer into the buffer the string had,
    once the buffer is freed. *)
Lemma read_freed h h2 body b2 t area sz from count src :
  repr h body t area sz ->
  (forall k, inv.owner body = Some k -> h2 !! k = None) ->
  basic_small_string.read_from h2 b2
    (basic_small_string.inside (ptr_add (begin_ptr body) from)) count = Ok src ->
  t = Internal.
Proof.
  intros R Kf Eb. destruct t; [reflexivity|exfalso..];
    (destruct (begin_ptr_owner body) as (k & o & Ok & Ep);
     [destruct R as (-> & _); discriminate|];
     rewrite Ep in Eb; cbn [ptr_add basic_small_string.read_from read_chars] in Eb;
     unfold load_bytes in Eb; rewrite (Kf k Ok) in Eb; discriminate).
Qed.

(** [insert(index, data() + from, count)]: the characters are read after
    the tail was moved. *)
Lemma insert_inside c h body t area sz index from count h' body' :
  repr h body t area sz -> 0 <= index < 2 ^ 32 -> 0 < count < 2 ^ 32 ->
  0 <= from -> from + count <= sz ->
  basic_small_string.insert NullTerminated c h body index
    (basic_small_string.inside (ptr_add (begin_ptr body) from)) count = Ok (h', body') ->
  index <= sz /\
  (count <= idle_of t area sz ->
   (from + count <= index \/ index + count <= from) /\
   exists t' area',
     repr h' body' t' area' (sz + count) /\
     inv.content area' (sz + count)
     = slice area 0 index
       ++ slice area (if from <? index then from else from - count) count
       ++ slice area index (sz - index)) /\
  (idle_of t area sz < count -> t = Internal).
Proof.
  intros R Hi Hc Hf Hfs H. pose proof (repr_bounds _ R) as [B Lb].
  pose proof (nt_range NullTerminated) as Hnt.
  pose proof (idle_of_le _ t area sz B) as Hid.
  destruct (insert_content _ _ _ _ _ _ _ _ _ _ _ R Hi Hc H)
    as (Le & src & h2 & b2 & t2 & area2 & Lsrc & R2 & Eb & Ov & Noop & Grow
        & t' & area' & R' & C').
  split; [exact Le|]. split.
  - intros Lc. destruct (Noop Lc) as (Eptr & Ea).
    rewrite Eptr, overlaps_ptr_add in Ov.
    assert (Ho : from + count <= index \/ index + count <= from).
    { destruct (Z.ltb_spec from (index + count)), (Z.ltb_spec index (from + count));
        try discriminate; lia. }
    split; [exact Ho|]. exists t', area'. split; [exact R'|]. rewrite C'.
    f_equal. f_equal.
    cbn [basic_small_string.read_from] in Eb. rewrite <- Eptr in Eb.
    assert (La2 : len area2 = len area).
    { rewrite Ea. destruct (index <? sz); [|reflexivity].
      rewrite length_splice; [reflexivity | lia |].
      rewrite length_slice by lia. lia. }
    rewrite (read_chars_repr _ _ _ _ _ _ from count R2) in Eb by lia.
    injection Eb as <-. rewrite Ea.
    destruct Ho as [Hb|Ha].
    + rewrite (proj2 (Z.ltb_lt from index)) by lia.
      destruct (index <? sz); [|reflexivity].
      apply slice_splice_before; try lia. rewrite length_slice by lia. lia.
    + rewrite (proj2 (Z.ltb_ge from index)) by lia.
      rewrite (proj2 (Z.ltb_lt index sz)) by lia.
      rewrite slice_splice_inside; try lia;
        [|rewrite length_slice by lia; lia..].
      rewrite slice_slice by lia. f_equal. lia.
  - intros Gt. apply (read_freed _ _ _ _ _ _ _ _ _ _ R (Grow Gt) Eb).
Qed.

(** [append(data() + from, count)] *)
Lemma append_inside c h body t area sz from count h' body' :
  repr h body t area sz -> 0 < count < 2 ^ 32 -> 0 <= from -> from + count <= sz ->
  basic_small_string.append NullTerminated c h body
    (basic_small_string.inside (ptr_add (begin_ptr body) from)) count = Ok (h', body') ->
  (count <= idle_of t area sz ->
   exists t' area',
     repr h' body' t' area' (sz + count) /\
     inv.content area' (sz + count) = inv.content area sz ++ slice area from count) /\
  (idle_of t area sz < count -> t = Internal).
Proof.
  intros R Hc Hf Hfs H. pose proof (repr_bounds _ R) as [B Lb].
  pose proof (nt_range NullTerminated) as Hnt.
  assert (Hc' : 0 <= count < 2 ^ 32) by lia.
  destruct (append_post _ _ _ _ _ _ _ _ _ _ _ R Hc' H)
    as (src & Lsrc & Rd & t' & area' & R' & _ & C' & _).
  destruct (Rd ltac:(lia)) as (h1 & b1 & A & Eb).
  destruct (allocate_more_post _ _ _ _ _ _ _ _ _ _ R Hc' A)
    as [(Le & -> & ->)|(Gt & t1 & area1 & _ & _ & _ & _ & _ & _ & _ & _ & _ & _ & Kf)].
  - split; [|intros; lia]. intros _. exists t', area'. split; [exact R'|].
    rewrite C'. f_equal. cbn [basic_small_string.read_from] in Eb.
    rewrite (read_chars_repr _ _ _ _ _ _ from count R) in Eb by lia.
    injection Eb as <-. reflexivity.
  - split; [intros; lia|]. intros _.
    apply (read_freed _ _ _ _ _ _ _ _ _ _ R Kf Eb).
Qed.

(** [resize(count, ch)]: the content. *)
Lemma resize_content c h body t area sz count ch h' body' :
  repr h body t area sz -> 0 <= count < 2 ^ 32 ->
  basic_small_string.resize NullTerminated c h body count ch = Ok (h', body') ->
  exists t' area',
    repr h' body' t' area' count /\
    inv.content area' count
    = slice area 0 (Z.min sz count) ++ replicate (Z.to_nat (count - sz)) ch.
Proof.
  intros R Hc H. pose proof (nt_range NullTerminated) as Hnt.
  pose proof (repr_bounds _ R) as [B Lb].
  unfold basic_small_string.resize in H. bind_inv H x Ea. clear Ea.
  unfold small_string_buffer.get_capacity_and_size in H.
  rewrite (get_capacity_and_size_repr _ R) in H. rewrite bind_ok in H.
  cbv beta iota delta [capacity_ size_] in H.
  destruct (Z.leb_spec count sz) as [Le|Gt].
  - destruct (set_size_post _ _ _ _ _ _ count _ _ R ltac:(lia) H) as (L & R' & S').
    exists t, (term_at area count). split; [exact R'|].
    unfold inv.content. rewrite slice_term_at by lia.
    rewrite Z.min_r by lia. replace (Z.to_nat (count - sz)) with 0%nat by lia.
    cbn [replicate]. rewrite app_nil_r. reflexivity.
  - bind_inv H x Er. destruct x as [h1 b1]. cbv beta iota in H.
    assert (G : exists t1 area1,
               repr h1 b1 t1 area1 sz /\ count <= len area1 - nt /\
               slice area1 0 sz = slice area 0 sz).
    { destruct (Z.ltb_spec (len area - nt) count) as [Lt|Ge].
      - destruct (buffer_reserve_post _ _ _ _ _ _ _ _ _ count _ _ R ltac:(lia) Er)
          as (t1 & area1 & R1 & L1 & _ & C1 & _).
        exists t1, area1. auto.
      - injection Er as <- <-. exists t, area.
        split; [exact R|]. split; [lia | reflexivity]. }
    destruct G as (t1 & area1 & R1 & L1 & C1).
    set (fill := replicate (Z.to_nat (count - sz)) ch) in *.
    assert (Lf : len fill = count - sz) by (apply len_replicate; lia).
    unfold basic_small_string.data, get_buffer in H.
    destruct (write_chars_repr _ _ _ _ _ _ sz fill R1) as (h2 & b2 & W & R2 & S2);
      [lia | lia |].
    rewrite W in H. rewrite bind_ok in H. cbv beta iota in H.
    assert (La2 : len (splice area1 sz fill) = len area1)
      by (rewrite length_splice by lia; reflexivity).
    destruct (set_size_post _ _ _ _ _ _ count _ _ R2 ltac:(lia) H) as (L & R' & S').
    exists t1, (term_at (splice area1 sz fill) count). split; [exact R'|].
    unfold inv.content. rewrite slice_term_at by lia.
    replace count with (sz + len fill) at 1 by lia.
    rewrite slice_splice_app by lia. rewrite C1, Z.min_l by lia. reflexivity.
Qed.

(** [pop_back()] on an empty string stops; otherwise it drops the last
    character. *)
Lemma pop_back_spec h body t area sz :
  repr h body t area sz ->
  (sz = 0 -> basic_small_string.pop_back NullTerminated h body = Abort) /\
  (0 < sz ->
   exists h' body',
     basic_small_string.pop_back NullTerminated h body = Ok (h', body') /\
     repr h' body' t (term_at area (sz - 1)) (sz - 1) /\
     inv.content (term_at area (sz - 1)) (sz - 1) = slice area 0 (sz - 1) /\
     inv.stable h body h' body').
Proof.
  intros R. pose proof (repr_bounds _ R) as [B Lb].
  pose proof (nt_range NullTerminated) as Hnt. split.
  - intros ->. destruct (basic_small_string.pop_back NullTerminated h body)
      as [[h' b']|e|] eqn:E; [| |reflexivity].
    + destruct (pop_back_post _ _ _ _ _ _ _ _ R E) as (L & _). lia.
    + exfalso. unfold basic_small_string.pop_back, decrease_size,
        decrease_size_and_idle_and_set_term in E.
      pose proof R as (F & _ & T). rewrite F in E.
      destruct t; cbv beta iota delta [inv.layout] in T; cbn [CoreType_to_Z] in E;
        cbv beta iota zeta in E.
      * destruct T as (S0 & _). rewrite S0 in E. discriminate.
      * destruct T as (_ & S0 & _). rewrite S0 in E. discriminate.
      * rewrite (size_from_buffer_header_ok _ (repr_hdr_ok _ R (or_introl eq_refl))) in E.
        discriminate.
      * rewrite (size_from_buffer_header_ok _ (repr_hdr_ok _ R (or_intror eq_refl))) in E.
        discriminate.
  - intros Hs. unfold basic_small_string.pop_back.
    destruct (decrease_size_ok _ _ _ _ _ _ 1 R ltac:(lia)) as (h' & b' & E & R' & S').
    exists h', b'. split; [exact E|]. split; [exact R'|]. split; [|exact S'].
    unfold inv.content. apply slice_term_at; lia.
Qed.

(** [clear()] returns and keeps the buffer. *)
Lemma clear_spec h body t area sz :
  repr h body t area sz ->
  exists h' body',
    basic_small_string.clear NullTerminated h body = Ok (h', body') /\
    repr h' body' t (term_at area 0) 0 /\
    len (term_at area 0) = len area /\
    inv.stable h body h' body'.
Proof.
  intros R. pose proof (repr_bounds _ R) as [B Lb].
  unfold basic_small_string.clear.
  destruct (set_size_ok _ _ _ _ _ _ 0 R ltac:(lia)) as (h' & b' & E & R' & S').
  exists h', b'. split; [exact E|]. split; [exact R'|]. split; [|exact S'].
  rewrite length_term_at by lia. reflexivity.
Qed.

End NullTerminated.
End content_specs.

Section Operations.
Context (NullTerminated : bool).

Import malloc_core core_specs core_access small_string_buffer selector
  string_specs append_specs ctor_specs program program_specs observe observe_specs
  content_specs.

Abbreviation nt := (nt_bytes NullTerminated).
Abbreviation reachable := (program.reachable NullTerminated).
Abbreviation exec := (program.exec NullTerminated).

(** A string of a reachable state, with what it reads as. *)
Lemma reachable_repr w i _core bs :
  reachable w -> strings w !! i = Some _core -> holds (heap_of w) _core bs ->
  exists t area,
    inv.repr NullTerminated (heap_of w) _core t area (len bs) /\
    inv.terminated NullTerminated area (len bs) /\
    bs = inv.content area (len bs).
Proof.
  intros Rw E Hb. destruct (reachable_string _ w i _core Rw E) as (t & area & sz & R & T).
  destruct (holds_inv _ _ _ _ _ _ _ R Hb) as (-> & L). rewrite L.
  exists t, area. auto.
Qed.

Lemma take_content area sz k :
  0 <= k <= sz -> take (Z.to_nat k) (inv.content area sz) = slice area 0 k.
Proof.
  intros Hk. rewrite content_take. unfold slice. change (Z.to_nat 0) with 0%nat.
  rewrite drop_0, take_take. f_equal. lia.
Qed.

Lemma drop_content area sz k :
  0 <= k <= sz -> drop (Z.to_nat k) (inv.content area sz) = slice area k (sz - k).
Proof.
  intros Hk. rewrite content_take. unfold slice.
  rewrite skipn_firstn_comm. f_equal. lia.
Qed.

Lemma exec_on_string w i _core f h' core' :
  strings w !! i = Some _core -> f (heap_of w) _core = Ok (h', core') ->
  on_string w i f = Ok (put w i h' core').
Proof. intros E F. unfold on_string. rewrite E, F. reflexivity. Qed.

Lemma exec_on_string_throw w i _core f e :
  strings w !! i = Some _core -> f (heap_of w) _core = Throw e ->
  on_string w i f = Throw e.
Proof. intros E F. unfold on_string. rewrite E, F. reflexivity. Qed.

Lemma exec_on_string_abort w i _core f :
  strings w !! i = Some _core -> f (heap_of w) _core = Abort ->
  on_string w i f = Abort.
Proof. intros E F. unfold on_string. rewrite E, F. reflexivity. Qed.

(** X1: [erase(index, count)] throws [std::out_of_range] when [index > size()];
    otherwise it returns, removes the [min(count, size() - index)]
    characters from [index] on, and keeps the capacity. *)
Theorem erase_removes w i _core bs index count :
  reachable w -> strings w !! i = Some _core -> holds (heap_of w) _core bs ->
  size_type index -> size_type count ->
  (len bs < index -> exec w (Erase i index count) = Throw out_of_range) /\
  (index <= len bs ->
   exists w' core',
     exec w (Erase i index count) = Ok w' /\ strings w' !! i = Some core' /\
     holds (heap_of w') core'
       (take (Z.to_nat index) bs
        ++ drop (Z.to_nat (index + Z.min count (len bs - index))) bs) /\
     basic_small_string.capacity NullTerminated (heap_of w') core'
     = basic_small_string.capacity NullTerminated (heap_of w) _core).
Proof.
  intros Rw E Hb Ti Tc. unfold size_type in *.
  destruct (reachable_repr w i _core bs Rw E Hb) as (t & area & R & T & C).
  set (sz := len bs) in *. split.
  - intros Hi. cbn [program.exec].
    apply (exec_on_string_throw w i _core _ _ E).
    apply (erase_throws _ _ _ _ _ _ _ _ R Hi).
  - intros Hi.
    destruct (erase_spec _ _ _ _ _ _ index count R ltac:(lia) Tc)
      as (h' & b' & area' & Ee & R' & _ & La & C' & _).
    exists (put w i h' b'), b'. cbn [heap_of strings put].
    split; [cbn [program.exec]; apply (exec_on_string w i _core _ _ _ E Ee)|].
    split; [apply lookup_insert_eq|]. split.
    + pose proof (holds_repr _ _ _ _ _ _ R') as Hh. rewrite C' in Hh.
      rewrite C. rewrite take_content, drop_content by lia.
      replace (sz - (index + Z.min count (sz - index)))
        with (sz - index - Z.min count (sz - index)) by lia.
      exact Hh.
    + rewrite (string_capacity_repr _ _ _ _ _ _ R), (string_capacity_repr _ _ _ _ _ _ R').
      rewrite La. reflexivity.
Qed.

(** X2: [insert(index, str, count)] with [count == 0] returns at once,
    whatever [index] is; with [count > 0] it throws [std::out_of_range]
    when [index > size()].  When it returns and [str] is an array that is
    no part of the string, the content is the old one with the [count]
    characters of [str] at [index].  When [str] points into the string
    itself, [str == data() + from] with [from + count <= size()], the
    characters are read after the tail was moved: when the idle capacity
    held [count], a call that returns has read a range apart from the gap
    at [index], and it has inserted the characters from [from] when they
    stood before [index], and the characters from [from - count] when
    they stood after the gap; when the buffer had to be replaced, the old
    one is freed before [str] is read, and only a call on an Internal
    string returns. *)
Theorem insert_inserts w i _core bs c index str count :
  reachable w -> strings w !! i = Some _core -> holds (heap_of w) _core bs ->
  size_type index -> size_type count ->
  (count = 0 ->
   exists w', exec w (Insert i c index str count) = Ok w' /\
              heap_of w' = heap_of w /\ strings w' !! i = Some _core) /\
  (0 < count -> len bs < index ->
   exec w (Insert i c index str count) = Throw out_of_range) /\
  (0 < count ->
   forall a w', str = basic_small_string.array a ->
   exec w (Insert i c index str count) = Ok w' ->
   index <= len bs /\ count <= len a /\
   exists core',
     strings w' !! i = Some core' /\
     holds (heap_of w') core'
       (take (Z.to_nat index) bs ++ take (Z.to_nat count) a
        ++ drop (Z.to_nat index) bs)) /\
  (0 < count ->
   forall from idle w',
   str = basic_small_string.inside (ptr_add (basic_small_string.data _core) from) ->
   0 <= from -> from + count <= len bs ->
   small_string_buffer.idle_capacity NullTerminated (heap_of w) _core = Ok idle ->
   exec w (Insert i c index str count) = Ok w' ->
   (count <= idle ->
    (from + count <= index \/ index + count <= from) /\
    exists core',
      strings w' !! i = Some core' /\
      holds (heap_of w') core'
        (take (Z.to_nat index) bs
         ++ slice bs (if from <? index then from else from - count) count
         ++ drop (Z.to_nat index) bs)) /\
   (idle < count -> is_external _core = false)).
Proof.
  intros Rw E Hb Ti Tc. unfold size_type in *.
  destruct (reachable_repr w i _core bs Rw E Hb) as (t & area & R & T & C).
  pose proof (repr_bounds _ R) as [B _].
  set (sz := len bs) in *. split; [|split; [|split]].
  - intros ->. exists (put w i (heap_of w) _core). cbn [heap_of strings put].
    split; [cbn [program.exec]; apply (exec_on_string w i _core _ _ _ E); reflexivity|].
    split; [reflexivity | apply lookup_insert_eq].
  - intros Hc Hi. cbn [program.exec].
    apply (exec_on_string_throw w i _core _ _ E).
    apply (insert_throws _ c _ _ _ _ _ index str count R ltac:(lia) Hi).
  - intros Hc a w' -> H. cbn [program.exec] in H.
    destruct (on_string_inv _ _ _ _ H) as (b & h' & b' & Eb & A & ->).
    rewrite E in Eb. injection Eb as <-.
    destruct (insert_array _ c _ _ _ _ _ index a count _ _ R Ti ltac:(lia) A)
      as (Hi & Hs & t' & area' & R' & C').
    split; [exact Hi|]. split; [exact Hs|].
    exists b'. cbn [heap_of strings put]. split; [apply lookup_insert_eq|].
    pose proof (holds_repr _ _ _ _ _ _ R') as Hh. rewrite C' in Hh.
    rewrite C. rewrite take_content, drop_content by lia. exact Hh.
  - intros Hc from idle w' -> Hf Hfs Hidle H. cbn [program.exec] in H.
    destruct (on_string_inv _ _ _ _ H) as (b & h' & b' & Eb & A & ->).
    rewrite E in Eb. injection Eb as <-.
    unfold small_string_buffer.idle_capacity in Hidle.
    rewrite (idle_capacity_repr _ R) in Hidle. injection Hidle as <-.
    unfold basic_small_string.data, get_buffer in A.
    destruct (insert_inside _ c _ _ _ _ _ index from count _ _ R Ti ltac:(lia) Hf Hfs A)
      as (Hin & Noop & Grow).
    split.
    + intros Le. destruct (Noop Le) as (Ho & t' & area' & R' & C').
      split; [exact Ho|].
      exists b'. cbn [heap_of strings put]. split; [apply lookup_insert_eq|].
      pose proof (holds_repr _ _ _ _ _ _ R') as Hh. rewrite C' in Hh.
      assert (Es : slice bs (if from <? index then from else from - count) count
                   = slice area (if from <? index then from else from - count) count).
      { rewrite C. unfold inv.content.
        rewrite slice_slice by (destruct (Z.ltb_spec from index); lia).
        reflexivity. }
      assert (Et : take (Z.to_nat index) bs = slice area 0 index)
        by (rewrite C; apply take_content; lia).
      assert (Ed : drop (Z.to_nat index) bs = slice area index (sz - index))
        by (rewrite C; apply drop_content; lia).
      rewrite Es, Et, Ed. exact Hh.
    + intros Gt. rewrite (Grow Gt) in R. destruct R as (F & _).
      unfold is_external. rewrite F. reflexivity.
Qed.


(** X4: When [resize(count, ch)] returns, the string has [count]
    characters: the first [count] of the old ones, then [ch] for the
    rest. *)
Theorem resize_pads w i _core bs c count ch w' :
  reachable w -> strings w !! i = Some _core -> holds (heap_of w) _core bs ->
  size_type count -> exec w (Resize i c count ch) = Ok w' ->
  exists core',
    strings w' !! i = Some core' /\
    holds (heap_of w') core'
      (take (Z.to_nat count) bs ++ replicate (Z.to_nat (count - len bs)) ch).
Proof.
  intros Rw E Hb Tc H. unfold size_type in Tc.
  destruct (reachable_repr w i _core bs Rw E Hb) as (t & area & R & T & C).
  set (sz := len bs) in *. cbn [program.exec] in H.
  destruct (on_string_inv _ _ _ _ H) as (b & h' & b' & Eb & A & ->).
  rewrite E in Eb. injection Eb as <-.
  destruct (resize_content _ _ _ _ _ _ _ _ _ _ _ R Tc A) as (t' & area' & R' & C').
  exists b'. cbn [heap_of strings put]. split; [apply lookup_insert_eq|].
  pose proof (holds_repr _ _ _ _ _ _ R') as Hh. rewrite C' in Hh.
  pose proof (repr_bounds _ R) as [B _].
  assert (Et : take (Z.to_nat count) bs = slice area 0 (Z.min sz count)).
  { rewrite C. rewrite content_take, take_take. unfold slice.
    change (Z.to_nat 0) with 0%nat. rewrite drop_0. f_equal. lia. }
  rewrite Et. exact Hh.
Qed.

(** X5: When [append(s, count)] returns and [s] is an array that is no
    part of the string, the first [count] characters of [s] stand after
    the old content, in every tier and whether or not the buffer was
    replaced.  When [s] points into the string itself, [s == data() + from]
    with [from + count <= size()], the same holds of the characters from
    [from] when the idle capacity held [count]; when the buffer had to be
    replaced, the old one is freed before [s] is read, and only a call on
    an Internal string returns. *)
Theorem append_appends w i _core bs c s count w' :
  reachable w -> strings w !! i = Some _core -> holds (heap_of w) _core bs ->
  size_type count -> exec w (Append i c s count) = Ok w' ->
  (forall a, s = basic_small_string.array a ->
   count <= len a /\
   exists core',
     strings w' !! i = Some core' /\
     holds (heap_of w') core' (bs ++ take (Z.to_nat count) a)) /\
  (forall from idle,
   s = basic_small_string.inside (ptr_add (basic_small_string.data _core) from) ->
   0 < count -> 0 <= from -> from + count <= len bs ->
   small_string_buffer.idle_capacity NullTerminated (heap_of w) _core = Ok idle ->
   (count <= idle ->
    exists core',
      strings w' !! i = Some core' /\
      holds (heap_of w') core' (bs ++ slice bs from count)) /\
   (idle < count -> is_external _core = false)).
Proof.
  intros Rw E Hb Tc H. unfold size_type in Tc.
  destruct (reachable_repr w i _core bs Rw E Hb) as (t & area & R & T & C).
  pose proof (repr_bounds _ R) as [B _].
  set (sz := len bs) in *. cbn [program.exec] in H.
  destruct (on_string_inv _ _ _ _ H) as (b & h' & b' & Eb & A & ->).
  rewrite E in Eb. injection Eb as <-. split.
  - intros a ->.
    destruct (append_post _ _ _ _ _ _ _ _ _ _ _ R Tc A)
      as (src & Lsrc & Rd & t' & area' & R' & _ & C' & _).
    assert (Hs : count <= len a /\ src = take (Z.to_nat count) a).
    { destruct (Z.eq_dec count 0) as [->|Nz].
      - split; [lia|]. destruct src; [reflexivity | discriminate].
      - destruct (Rd Nz) as (h1 & b1 & _ & Er).
        apply read_from_array in Er as (La & ->). split; [lia|].
        unfold slice. rewrite drop_0. reflexivity. }
    destruct Hs as (Hs & ->).
    split; [exact Hs|]. exists b'. cbn [heap_of strings put].
    split; [apply lookup_insert_eq|].
    pose proof (holds_repr _ _ _ _ _ _ R') as Hh. rewrite C', <- C in Hh. exact Hh.
  - intros from idle -> Hc Hf Hfs Hidle.
    unfold small_string_buffer.idle_capacity in Hidle.
    rewrite (idle_capacity_repr _ R) in Hidle. injection Hidle as <-.
    unfold basic_small_string.data, get_buffer in A.
    destruct (append_inside _ c _ _ _ _ _ from count _ _ R ltac:(lia) Hf Hfs A)
      as (Noop & Grow).
    split.
    + intros Le. destruct (Noop Le) as (t' & area' & R' & C').
      exists b'. cbn [heap_of strings put]. split; [apply lookup_insert_eq|].
      pose proof (holds_repr _ _ _ _ _ _ R') as Hh. rewrite C', <- C in Hh.
      assert (Es : slice bs from count = slice area from count).
      { rewrite C. unfold inv.content. rewrite slice_slice by lia. reflexivity. }
      rewrite Es. exact Hh.
    + intros Gt. rewrite (Grow Gt) in R. destruct R as (F & _).
      unfold is_external. rewrite F. reflexivity.
Qed.

(** X6: When [push_back(ch)] returns, [ch] stands at the end, and
    [pop_back()] after it returns and gives back the string as it read
    before; [pop_back()] on an empty string stops at the assertion of
    [decrease_size]. *)
Theorem push_back_pop_back w i _core bs c ch :
  reachable w -> strings w !! i = Some _core -> holds (heap_of w) _core bs ->
  (forall w1, exec w (PushBack i c ch) = Ok w1 ->
   exists core1 w2 core2,
     strings w1 !! i = Some core1 /\ holds (heap_of w1) core1 (bs ++ [ch]) /\
     exec w1 (PopBack i) = Ok w2 /\
     strings w2 !! i = Some core2 /\ holds (heap_of w2) core2 bs) /\
  (bs = [] -> exec w (PopBack i) = Abort).
Proof.
  intros Rw E Hb.
  destruct (reachable_repr w i _core bs Rw E Hb) as (t & area & R & T & C).
  set (sz := len bs) in *. split.
  - intros w1 H. cbn [program.exec] in H.
    destruct (on_string_inv _ _ _ _ H) as (b & h1 & b1 & Eb & A & ->).
    rewrite E in Eb. injection Eb as <-.
    destruct (push_back_post _ _ _ _ _ _ _ _ _ _ R A) as (t1 & area1 & R1 & _ & C1 & _).
    pose proof (repr_bounds _ R) as [B _].
    destruct (pop_back_spec _ _ _ _ _ _ R1) as (_ & Pop).
    destruct (Pop ltac:(lia)) as (h2 & b2 & Ep & R2 & C2 & _).
    exists b1, (put (put w i h1 b1) i h2 b2), b2. cbn [heap_of strings put].
    split; [apply lookup_insert_eq|]. split.
    { pose proof (holds_repr _ _ _ _ _ _ R1) as Hh. rewrite C1, <- C in Hh. exact Hh. }
    split.
    { cbn [program.exec]. apply (exec_on_string (put w i h1 b1) i b1);
        [apply lookup_insert_eq | exact Ep]. }
    split; [apply lookup_insert_eq|].
    pose proof (holds_repr _ _ _ _ _ _ R2) as Hh. rewrite C2 in Hh.
    replace (sz + 1 - 1) with sz in Hh by lia.
    assert (Ec : slice area1 0 sz = bs).
    { rewrite <- (take_content area1 (sz + 1) sz) by lia. rewrite C1, <- C.
      rewrite take_app_length'; [reflexivity|]. unfold sz. lia. }
    rewrite Ec in Hh. exact Hh.
  - intros ->. cbn [program.exec]. apply (exec_on_string_abort w i _core _ E).
    apply (pop_back_spec _ _ _ _ _ _ R). reflexivity.
Qed.

(** X7: [clear()] returns and leaves an empty string in the same buffer: the
    data pointer, the tier and the capacity are what they were. *)
Theorem clear_keeps_buffer w i _core :
  reachable w -> strings w !! i = Some _core ->
  exists w' core',
    exec w (Clear i) = Ok w' /\ strings w' !! i = Some core' /\
    holds (heap_of w') core' [] /\
    basic_small_string.data core' = basic_small_string.data _core /\
    basic_small_string.get_core_type core' = basic_small_string.get_core_type _core /\
    basic_small_string.capacity NullTerminated (heap_of w') core'
    = basic_small_string.capacity NullTerminated (heap_of w) _core.
Proof.
  intros Rw E. destruct (reachable_string _ w i _core Rw E) as (t & area & sz & R & _).
  destruct (clear_spec _ _ _ _ _ _ R) as (h' & b' & Ec & R' & La & ((F & P) & _)).
  exists (put w i h' b'), b'. cbn [heap_of strings put].
  split; [cbn [program.exec]; apply (exec_on_string w i _core _ _ _ E Ec)|].
  split; [apply lookup_insert_eq|]. split; [apply (holds_repr _ _ _ _ _ _ R')|].
  split.
  { unfold basic_small_string.data, get_buffer. apply same_buffer_begin_ptr.
    split; assumption. }
  split; [exact F|].
  rewrite (string_capacity_repr _ _ _ _ _ _ R), (string_capacity_repr _ _ _ _ _ _ R').
  rewrite La. reflexivity.
Qed.

(** X8: When the copy constructor returns, the new string reads as the
    source and shares no allocation with it; the source reads as
    before. *)
Theorem copy_is_deep w i c j other bs w' :
  reachable w -> strings w !! j = Some other -> holds (heap_of w) other bs ->
  exec w (Copy i c j) = Ok w' ->
  i <> j /\
  exists core',
    strings w' !! i = Some core' /\ holds (heap_of w') core' bs /\
    strings w' !! j = Some other /\ holds (heap_of w') other bs /\
    (forall p, inv.owner core' = Some p -> inv.owner other <> Some p).
Proof.
  intros Rw Ej Hb H.
  pose proof (reachable_step _ w (Copy i c j) w' Rw I H) as Rw'.
  destruct (reachable_repr w j other bs Rw Ej Hb) as (t & area & R & T & C).
  cbn [program.exec] in H. rewrite Ej in H. unfold construct in H.
  destruct (strings w !! i) as [x|] eqn:Ei; [discriminate|].
  assert (Nij : i <> j) by congruence. split; [exact Nij|].
  bind_inv H x A. destruct x as [h' b']. cbv beta iota in H. injection H as <-.
  destruct (ctor_copy_post _ _ _ _ _ _ _ _ _ R A) as (t' & area' & R' & _ & C' & Ev).
  exists b'. cbn [heap_of strings put] in *.
  split; [apply lookup_insert_eq|]. split.
  { pose proof (holds_repr _ _ _ _ _ _ R') as Hh. rewrite C', <- C in Hh. exact Hh. }
  split; [rewrite lookup_insert_ne by exact Nij; exact Ej|]. split.
  { assert (Ro : inv.repr NullTerminated h' other t area (len bs)).
    { eapply repr_frame; [exact R|]. intros k Ok. apply Ev; [|discriminate].
      apply (repr_owned _ _ _ _ _ _ _ R Ok). }
    pose proof (holds_repr _ _ _ _ _ _ Ro) as Hh. rewrite <- C in Hh. exact Hh. }
  intros p Op. apply (proj2 (reachable_wf _ _ Rw') i j b' other p Nij).
  - cbn [strings put]. apply lookup_insert_eq.
  - cbn [strings put]. rewrite lookup_insert_ne by exact Nij. exact Ej.
  - exact Op.
Qed.

(** X9: The destructor of a string of a reachable state returns: it frees
    the allocation the string owns, if it owns one, and every other
    string reads as before. *)
Theorem destructor_frees_its_own w i _core :
  reachable w -> strings w !! i = Some _core ->
  exists w',
    exec w (Dtor i) = Ok w' /\ strings w' !! i = None /\
    (forall p, inv.owner _core = Some p -> heap_of w' !! p = None) /\
    (forall j cj bs, j <> i -> strings w !! j = Some cj -> holds (heap_of w) cj bs ->
       strings w' !! j = Some cj /\ holds (heap_of w') cj bs).
Proof.
  intros Rw E. destruct (reachable_string _ w i _core Rw E) as (t & area & sz & R & _).
  exists {| heap_of := inv.release (heap_of w) _core; strings := delete i (strings w) |}.
  cbn [heap_of strings].
  split.
  { cbn [program.exec]. rewrite E. rewrite (dtor_ok _ _ _ _ _ _ R). reflexivity. }
  split; [apply lookup_delete_eq|]. split.
  { intros p Op. unfold inv.release. rewrite Op. apply lookup_delete_eq. }
  intros j cj bs Nj Ej Hb.
  split; [rewrite lookup_delete_ne by congruence; exact Ej|].
  destruct (reachable_repr w j cj bs Rw Ej Hb) as (tj & aj & Rj & _ & Cj).
  assert (Rj' : inv.repr NullTerminated (inv.release (heap_of w) _core) cj tj aj (len bs)).
  { eapply repr_frame; [exact Rj|]. intros k Ok. apply release_other. intros Ob.
    apply (proj2 (reachable_wf _ w Rw) j i cj _core k Nj Ej E Ok Ob). }
  pose proof (holds_repr _ _ _ _ _ _ Rj') as Hh. rewrite <- Cj in Hh. exact Hh.
Qed.

(** X10: When [basic_small_string(count, ch)] returns, the string reads
    as [count] times [ch]; it returns for no [count] of [2 ^ 32] or
    more. *)
Theorem fill_constructor w i c count ch w' :
  reachable w -> size_t count -> exec w (Fill i c count ch) = Ok w' ->
  count < 2 ^ 32 /\
  exists core',
    strings w' !! i = Some core' /\
    holds (heap_of w') core' (replicate (Z.to_nat count) ch).
Proof.
  intros Rw Tc H. unfold size_t in Tc. cbn [program.exec] in H. unfold construct in H.
  destruct (strings w !! i) as [x|] eqn:Ei; [discriminate|].
  bind_inv H x A. destruct x as [h' b']. cbv beta iota in H. injection H as <-.
  destruct (ctor_fill_post _ _ _ _ _ _ _ Tc A) as (t & area & R & _ & C & _).
  pose proof (repr_bounds _ R) as [B Lb]. pose proof (nt_range NullTerminated).
  split; [lia|]. exists b'. cbn [heap_of strings put].
  split; [apply lookup_insert_eq|].
  pose proof (holds_repr _ _ _ _ _ _ R) as Hh. rewrite C in Hh. exact Hh.
Qed.

End Operations.

Module member_specs.
Import malloc_core core_facts core_specs core_access core_resize small_string_buffer
  selector alloc_specs buffer_specs grow_specs init_specs size_specs string_specs
  append_specs ctor_specs program_specs observe_specs content_specs.
Section NullTerminated.
Context (NullTerminated : bool).

Abbreviation nt := (nt_bytes NullTerminated).
Abbreviation repr := (inv.repr NullTerminated).
Abbreviation shape := (inv.shape NullTerminated).
Abbreviation term_at := (inv.term_at NullTerminated).
Abbreviation terminated := (inv.terminated NullTerminated).
Abbreviation idle_of := (inv.idle_of NullTerminated).

Lemma block_read_all (s : list byte) : block_read s 0 (len s) = Ok s.
Proof.
  rewrite block_read_ok by lia. f_equal. apply slice_all.
Qed.

Lemma u32_small x : 0 <= x < 2 ^ 32 -> u32 x = x.
Proof. intros. unfold u32. apply Z.mod_small. lia. Qed.

Lemma u64_small x : 0 <= x < 2 ^ 64 -> u64 x = x.
Proof. intros. unfold u64. apply Z.mod_small. lia. Qed.

(** [resize(count)] is [resize(count, 0)]. *)
Lemma resize_count_eq c h body count :
  0 <= count ->
  basic_small_string.resize_count NullTerminated c h body count
  = basic_small_string.resize NullTerminated c h body count zero.
Proof.
  intros Hc. unfold basic_small_string.resize_count, basic_small_string.resize.
  destruct (Z.ltb_spec count (2 ^ 32 - 1)) as [Lt|Ge]; [|reflexivity].
  rewrite (u32_small count) by lia. reflexivity.
Qed.

(** [append(count, ch)] is [append] of [count] times [ch]. *)
Lemma append_fill_eq c h body count ch :
  0 <= count ->
  basic_small_string.append_fill NullTerminated c h body count ch
  = basic_small_string.append NullTerminated c h body
      (basic_small_string.array (replicate (Z.to_nat count) ch)) count.
Proof.
  intros Hc. unfold basic_small_string.append_fill, basic_small_string.append,
    basic_small_string.memcpy_from.
  cbn [basic_small_string.overlaps basic_small_string.read_from].
  pose proof (block_read_all (replicate (Z.to_nat count) ch)) as E.
  rewrite len_replicate in E by lia. rewrite E. reflexivity.
Qed.

(** [insert(index, count, ch)] is [insert] of [count] times [ch]. *)
Lemma insert_fill_eq c h body t area sz index count ch :
  repr h body t area sz -> 0 <= count < 2 ^ 32 ->
  basic_small_string.insert_fill NullTerminated c h body index count ch
  = basic_small_string.insert NullTerminated c h body index
      (basic_small_string.array (replicate (Z.to_nat count) ch)) count.
Proof.
  intros R Hc. unfold basic_small_string.insert_fill, basic_small_string.insert,
    basic_small_string.memcpy_from.
  cbn [basic_small_string.overlaps basic_small_string.read_from].
  destruct (count =? 0); [reflexivity|].
  rewrite (string_size_repr _ _ _ _ _ _ R). rewrite !bind_ok.
  destruct (sz <? index); [reflexivity|].
  destruct (allocate_more NullTerminated false c h body count) as [[h1 b1]| |] eqn:A;
    [|reflexivity..].
  rewrite !bind_ok. cbv beta iota.
  destruct (allocate_more_ready _ _ _ _ _ _ _ _ _ _ R Hc A)
    as (t1 & area1 & S1 & L1 & L32 & _).
  unfold basic_small_string.size, small_string_buffer.size.
  rewrite (size_shape _ _ _ _ _ _ S1 ltac:(lia)). rewrite bind_ok.
  pose proof (block_read_all (replicate (Z.to_nat count) ch)) as E.
  rewrite len_replicate in E by lia. rewrite E. reflexivity.
Qed.

(** The other strings of the heap are as they were after a step on one
    string. *)
Lemma repr_evolves h body h' body' other to ao so :
  inv.evolves h body h' body' -> repr h other to ao so ->
  (forall p, inv.owner other = Some p -> inv.owner body <> Some p) ->
  repr h' other to ao so.
Proof.
  intros (K & _) Ro D. eapply repr_frame; [exact Ro|].
  intros p Op. apply K; [apply (repr_owned _ _ _ _ _ _ _ Ro Op) | apply D, Op].
Qed.

Lemma read_content_repr h body t area sz :
  repr h body t area sz ->
  read_chars h body (basic_small_string.data body) sz = Ok (inv.content area sz).
Proof.
  intros R. pose proof (repr_bounds _ R) as [B Lb]. pose proof (nt_range NullTerminated).
  unfold basic_small_string.data, get_buffer.
  rewrite <- (ptr_add_0 (begin_ptr body)).
  apply (read_chars_repr _ _ _ _ _ _ 0 sz R); lia.
Qed.

(** [operator=(other)] for another string is [assign] of what it holds. *)
Lemma copy_assign_eq c h body t area sz other to ao so :
  repr h body t area sz -> repr h other to ao so ->
  (forall p, inv.owner other = Some p -> inv.owner body <> Some p) ->
  basic_small_string.copy_assign NullTerminated c h body (basic_small_string.another other)
  = basic_small_string.assign NullTerminated c h body (inv.content ao so) so.
Proof.
  intros R Ro D. pose proof (repr_bounds _ Ro) as [Bo Lo].
  pose proof (nt_range NullTerminated).
  assert (So : 0 <= so < 2 ^ 32) by lia.
  unfold basic_small_string.copy_assign, basic_small_string.assign.
  rewrite (string_size_repr _ _ _ _ _ _ Ro). rewrite bind_ok.
  rewrite (u32_small so So).
  destruct (buffer_reserve NullTerminated false false c h body so) as [[h1 b1]| |] eqn:E;
    [|reflexivity..].
  rewrite !bind_ok. cbv beta iota.
  destruct (buffer_reserve_post _ _ _ _ _ _ _ _ _ so _ _ R So E)
    as (t1 & area1 & R1 & _ & _ & _ & _ & Ev & _).
  rewrite (read_content_repr _ _ _ _ _ (repr_evolves _ _ _ _ _ _ _ _ Ev Ro D)).
  pose proof (block_read_all (inv.content ao so)) as Eb.
  rewrite len_content in Eb by lia. rewrite Eb. reflexivity.
Qed.

Lemma empty_repr h body t area sz :
  repr h body t area sz -> basic_small_string.empty h body = Ok (sz =? 0).
Proof.
  intros R. unfold basic_small_string.empty.
  rewrite (string_size_repr _ _ _ _ _ _ R). reflexivity.
Qed.

(** [append(other)] for another string is [append] of what it holds. *)
Lemma append_string_eq c h body t area sz other to ao so :
  repr h body t area sz -> repr h other to ao so ->
  (forall p, inv.owner other = Some p -> inv.owner body <> Some p) ->
  basic_small_string.append_string NullTerminated c h body
    (basic_small_string.another other)
  = basic_small_string.append NullTerminated c h body
      (basic_small_string.array (inv.content ao so)) so.
Proof.
  intros R Ro D. pose proof (repr_bounds _ Ro) as [Bo Lo].
  pose proof (nt_range NullTerminated).
  assert (So : 0 <= so < 2 ^ 32) by lia.
  unfold basic_small_string.append_string, basic_small_string.append,
    basic_small_string.memcpy_from.
  cbn [basic_small_string.overlaps basic_small_string.read_from].
  cbn [basic_small_string.the].
  rewrite (empty_repr _ _ _ _ _ Ro). rewrite bind_ok.
  destruct (so =? 0); [reflexivity|].
  rewrite (string_size_repr _ _ _ _ _ _ Ro). rewrite bind_ok.
  rewrite (u32_small so So).
  destruct (allocate_more NullTerminated false c h body so) as [[h1 b1]| |] eqn:A;
    [|reflexivity..].
  rewrite !bind_ok. cbv beta iota.
  destruct (allocate_more_ready _ _ _ _ _ _ _ _ _ _ R So A)
    as (t1 & area1 & S1 & L1 & L32 & _ & _ & Ev & _).
  pose proof (repr_evolves _ _ _ _ _ _ _ _ Ev Ro D) as Ro1.
  rewrite (string_size_repr _ _ _ _ _ _ Ro1). rewrite bind_ok.
  rewrite (read_content_repr _ _ _ _ _ Ro1).
  rewrite (u32_small so So).
  pose proof (block_read_all (inv.content ao so)) as Eb.
  rewrite len_content in Eb by lia. rewrite Eb. reflexivity.
Qed.

(** [append(other)] for the string itself: it is read after its buffer was
    replaced, so this is [append] of what the string held. *)
Lemma append_itself_eq c h body t area sz :
  repr h body t area sz ->
  basic_small_string.append_string NullTerminated c h body basic_small_string.itself
  = basic_small_string.append NullTerminated c h body
      (basic_small_string.array (inv.content area sz)) sz.
Proof.
  intros R. pose proof (repr_bounds _ R) as [B Lb].
  pose proof (nt_range NullTerminated).
  assert (Sz : 0 <= sz < 2 ^ 32) by lia.
  unfold basic_small_string.append_string, basic_small_string.append,
    basic_small_string.memcpy_from.
  cbn [basic_small_string.overlaps basic_small_string.read_from].
  cbn [basic_small_string.the].
  rewrite (empty_repr _ _ _ _ _ R). rewrite bind_ok.
  destruct (sz =? 0); [reflexivity|].
  rewrite (string_size_repr _ _ _ _ _ _ R). rewrite bind_ok.
  rewrite (u32_small sz Sz).
  destruct (allocate_more NullTerminated false c h body sz) as [[h1 b1]| |] eqn:A;
    [|reflexivity..].
  rewrite !bind_ok. cbv beta iota.
  destruct (allocate_more_ready _ _ _ _ _ _ _ _ _ _ R Sz A)
    as (t1 & area1 & S1 & L1 & L32 & C1 & _).
  unfold basic_small_string.size, small_string_buffer.size.
  rewrite (size_shape _ _ _ _ _ _ S1 ltac:(lia)). rewrite bind_ok.
  unfold basic_small_string.data, get_buffer.
  rewrite <- (ptr_add_0 (begin_ptr b1)).
  rewrite (read_chars_shape _ _ _ _ _ _ 0 sz S1) by lia.
  rewrite C1. fold (inv.content area sz).
  rewrite (u32_small sz Sz).
  pose proof (block_read_all (inv.content area sz)) as Eb.
  rewrite len_content in Eb by lia. rewrite Eb. reflexivity.
Qed.

(** [replace(pos, count, count2, ch)] is [replace] by [count2] times
    [ch]. *)
Lemma replace_fill_eq c h body pos count count2 ch :
  0 <= count2 ->
  basic_small_string.replace_fill NullTerminated c h body pos count count2 ch
  = basic_small_string.replace NullTerminated c h body pos count
      (replicate (Z.to_nat count2) ch) count2.
Proof.
  intros Hc. unfold basic_small_string.replace_fill, basic_small_string.replace.
  pose proof (block_read_all (replicate (Z.to_nat count2) ch)) as E.
  rewrite len_replicate in E by lia. rewrite E. reflexivity.
Qed.

Lemma slice_0 (l : list byte) off : slice l off 0 = [].
Proof. reflexivity. Qed.

(** A block with a part replaced, read from its start. *)
Lemma slice_splice_through (blk bs : list byte) off n :
  0 <= off -> off + len bs <= n -> off + len bs <= len blk ->
  slice (splice blk off bs) 0 n
  = slice blk 0 off ++ bs ++ slice blk (off + len bs) (n - off - len bs).
Proof.
  intros Ho Hn Hb.
  replace n with ((off + len bs) + (n - off - len bs)) at 1 by lia.
  rewrite slice_app_split by lia. rewrite slice_splice_app by lia.
  rewrite slice_splice_after by lia. rewrite <- app_assoc. reflexivity.
Qed.

Lemma replace_throws c h body t area sz pos count str count2 :
  repr h body t area sz -> sz < pos ->
  basic_small_string.replace NullTerminated c h body pos count str count2
  = Throw out_of_range.
Proof.
  intros R Hp. unfold basic_small_string.replace, small_string_buffer.get_capacity_and_size.
  rewrite (get_capacity_and_size_repr _ R). rewrite bind_ok.
  cbv beta iota zeta delta [capacity_ size_].
  rewrite (proj2 (Z.ltb_lt sz pos)) by exact Hp. reflexivity.
Qed.

(** [replace(pos, count, str, count2)] *)
Lemma replace_post c h body t area sz pos count str count2 h' body' :
  repr h body t area sz -> terminated area sz ->
  0 <= pos <= sz -> 0 <= count < 2 ^ 32 -> 0 <= count2 < 2 ^ 32 ->
  basic_small_string.replace NullTerminated c h body pos count str count2 = Ok (h', body') ->
  count2 <= len str /\
  exists t' area',
    repr h' body' t' area' (sz - Z.min count (sz - pos) + count2) /\
    terminated area' (sz - Z.min count (sz - pos) + count2) /\
    inv.content area' (sz - Z.min count (sz - pos) + count2)
    = slice area 0 pos ++ slice str 0 count2
      ++ slice area (pos + Z.min count (sz - pos)) (sz - pos - Z.min count (sz - pos)) /\
    inv.evolves h body h' body'.
Proof.
  intros R T Hp Hc Hc2 H. pose proof (repr_bounds _ R) as [B Lb].
  pose proof (nt_range NullTerminated) as Hnt.
  unfold basic_small_string.replace, small_string_buffer.get_capacity_and_size in H.
  rewrite (get_capacity_and_size_repr _ R) in H. rewrite bind_ok in H.
  cbv beta iota zeta delta [capacity_ size_] in H.
  rewrite (proj2 (Z.ltb_ge sz pos)) in H by lia.
  rewrite (u32_small (sz - pos)) in H by lia.
  rewrite (u32_small (len area - nt - pos)) in H by lia.
  set (rc := Z.min count (sz - pos)) in *.
  destruct (Z.eqb_spec count2 0) as [Ez|Nz].
  { subst count2. split; [lia|].
    destruct (erase_spec _ h body t area sz pos count R ltac:(lia) Hc)
      as (h1 & b1 & area1 & E & R1 & T1 & _ & C1 & S1).
    rewrite H in E. injection E as <- <-. fold rc in R1, T1, C1.
    exists t, area1. rewrite Z.add_0_r. rewrite slice_0. cbn [app].
    split; [exact R1|]. split; [apply T1, T|]. split; [exact C1|].
    apply stable_evolves, S1. }
  destruct ((sz - pos <=? rc) && (count2 <=? len area - nt - pos)) eqn:B1.
  { (* the tail is overwritten in place *)
    apply andb_prop in B1 as [L1 L2]. apply Z.leb_le in L1, L2.
    assert (Er : rc = sz - pos) by lia.
    bind_inv H src Eb. apply block_read_inv in Eb as (_ & _ & Ls & ->).
    split; [lia|].
    set (src := slice str 0 count2) in *.
    assert (Lsrc : len src = count2) by (apply length_slice; lia).
    unfold get_buffer in H.
    destruct (write_chars_repr _ _ _ _ _ _ pos src R) as (h1 & b1 & W & R1 & S1);
      [lia | lia |].
    rewrite W in H. rewrite bind_ok in H. cbv beta iota in H.
    rewrite (u32_small (pos + count2)) in H by lia.
    assert (La1 : len (splice area pos src) = len area)
      by (rewrite length_splice by lia; reflexivity).
    destruct (set_size_post _ _ _ _ _ _ (pos + count2) _ _ R1 ltac:(lia) H) as (L & R' & S').
    exists t, (term_at (splice area pos src) (pos + count2)).
    replace (sz - rc + count2) with (pos + count2) by lia.
    split; [exact R'|]. split; [apply terminated_term_at; lia|]. split.
    - unfold inv.content. rewrite slice_term_at by lia.
      replace (pos + count2) with (pos + len src) by lia.
      rewrite slice_splice_app by lia.
      replace (sz - pos - rc) with 0 by lia. rewrite slice_0, app_nil_r. reflexivity.
    - apply stable_evolves. eapply stable_trans; eassumption. }
  destruct (Z.eqb_spec rc count2) as [Eq|Ne].
  { (* same length: written in place *)
    bind_inv H src Eb. apply block_read_inv in Eb as (_ & _ & Ls & ->).
    split; [lia|].
    set (src := slice str 0 count2) in *.
    assert (Lsrc : len src = count2) by (apply length_slice; lia).
    unfold get_buffer in H.
    destruct (write_chars_repr _ _ _ _ _ _ pos src R) as (h1 & b1 & W & R1 & S1);
      [lia | lia |].
    rewrite W in H. injection H as <- <-.
    exists t, (splice area pos src).
    replace (sz - rc + count2) with sz by lia.
    split; [exact R1|]. split; [apply terminated_splice; [exact T|lia..]|]. split.
    - unfold inv.content. rewrite slice_splice_through by lia.
      rewrite Lsrc, Eq. reflexivity.
    - apply stable_evolves, S1. }
  (* a new string is built and moved into this one *)
  assert (Hrc : 0 <= rc <= sz - pos) by lia.
  rewrite (u32_small (sz - rc)) in H by lia.
  set (n := sz - rc + count2) in *.
  bind_inv H x Ia. destruct x as [h1 ret]. cbv beta iota in H.
  destruct (ctor_initialized_later_post _ _ _ _ _ _ Ia)
    as (t1 & area1 & R1 & T1 & K & Ki & O);
    [pose proof (Z.mod_pos_bound n (2 ^ 32) ltac:(lia)); unfold u32; lia|].
  assert (Euu : u32 (u32 n) = u32 n) by (unfold u32; apply Z.mod_mod; lia).
  rewrite Euu in R1, T1.
  pose proof (repr_bounds _ R1) as [B1' Lb1].
  pose proof (ctor_evolves _ _ _ _ _ _ _ _ R1 K Ki O) as E1.
  assert (Ro1 : repr h1 body t area sz).
  { eapply repr_frame; [exact R|]. intros k Ok. apply E1; [|discriminate].
    apply (repr_owned _ _ _ _ _ _ _ R Ok). }
  unfold basic_small_string.data, get_buffer in H.
  rewrite <- (ptr_add_0 (begin_ptr body)) in H at 1.
  rewrite (read_chars_repr _ _ _ _ _ _ 0 pos Ro1) in H by lia.
  rewrite bind_ok in H. cbv beta in H.
  set (left := slice area 0 pos) in *.
  assert (Ll : len left = pos) by (apply length_slice; lia).
  (* the old allocation is not the new one *)
  assert (Nold : forall k, inv.owner body = Some k -> inv.owner ret <> Some k).
  { intros k Ok On. destruct E1 as (_ & E1). destruct (E1 k On) as [X|X];
      [discriminate|].
    destruct (repr_owned _ _ _ _ _ _ _ R Ok) as [y Y]. congruence. }
  (* the left part *)
  bind_inv H x W1. destruct x as [h2 b2]. cbv beta iota in H.
  rewrite <- (ptr_add_0 (begin_ptr ret)) in W1.
  pose proof (write_chars_shape_inv _ _ _ _ _ _ 0 _ _ _ (repr_shape _ _ _ _ _ _ R1)
                ltac:(lia) W1) as Fit1.
  destruct (write_chars_repr _ _ _ _ _ _ 0 left R1) as (h2' & b2' & W1' & R2 & S2);
    [lia | lia |].
  rewrite W1 in W1'. injection W1' as <- <-.
  set (area2 := splice area1 0 left) in *.
  assert (La2 : len area2 = len area1)
    by (unfold area2; rewrite length_splice by lia; reflexivity).
  (* the new part *)
  bind_inv H src Eb. apply block_read_inv in Eb as (_ & _ & Ls & ->).
  split; [lia|].
  set (src := slice str 0 count2) in *.
  assert (Lsrc : len src = count2) by (apply length_slice; lia).
  bind_inv H x W2. destruct x as [h3 b3]. cbv beta iota in H.
  pose proof (same_buffer_begin_ptr _ _ (proj1 S2)) as P2.
  rewrite <- P2 in W2.
  pose proof (write_chars_shape_inv _ _ _ _ _ _ pos _ _ _ (repr_shape _ _ _ _ _ _ R2)
                ltac:(lia) W2) as Fit2.
  destruct (write_chars_repr _ _ _ _ _ _ pos src R2) as (h3' & b3' & W2' & R3 & S3);
    [lia | lia |].
  rewrite W2 in W2'. injection W2' as <- <-.
  set (area3 := splice area2 pos src) in *.
  assert (La3 : len area3 = len area1)
    by (unfold area3; rewrite length_splice by lia; exact La2).
  (* the right part *)
  assert (Ro3 : repr h3 body t area sz).
  { eapply repr_frame; [exact Ro1|]. intros k Ok.
    destruct S3 as (_ & K3). destruct S2 as (Sb2 & K2).
    rewrite K3, K2; [reflexivity | apply Nold, Ok |].
    rewrite (same_buffer_owner _ _ Sb2). apply Nold, Ok. }
  unfold end_ in H.
  rewrite (end_ptr_shape _ _ _ _ _ _ (repr_shape _ _ _ _ _ _ Ro3) ltac:(lia)) in H.
  rewrite bind_ok in H. cbv beta in H.
  rewrite !ptr_add_add in H.
  assert (Ed : basic_small_string.ptr_diff (ptr_add (begin_ptr body) sz)
                 (ptr_add (begin_ptr body) (pos + rc)) = Ok (sz - pos - rc)).
  { unfold basic_small_string.ptr_diff, ptr_add. destruct (begin_ptr body).
    - f_equal. lia.
    - rewrite Z.eqb_refl. f_equal. lia. }
  rewrite Ed in H. rewrite bind_ok in H. cbv beta in H.
  rewrite (read_chars_repr _ _ _ _ _ _ (pos + rc) (sz - pos - rc) Ro3) in H by lia.
  rewrite bind_ok in H. cbv beta in H.
  set (right := slice area (pos + rc) (sz - pos - rc)) in *.
  assert (Lr : len right = sz - pos - rc) by (apply length_slice; lia).
  bind_inv H x W3. destruct x as [h4 b4]. cbv beta iota in H.
  pose proof (same_buffer_begin_ptr _ _ (proj1 S3)) as P3.
  rewrite <- P2, <- P3 in W3.
  pose proof (write_chars_shape_inv _ _ _ _ _ _ (pos + count2) _ _ _
                (repr_shape _ _ _ _ _ _ R3) ltac:(lia) W3) as Fit3.
  destruct (write_chars_repr _ _ _ _ _ _ (pos + count2) right R3)
    as (h4' & b4' & W3' & R4 & S4); [lia | lia |].
  rewrite W3 in W3'. injection W3' as <- <-.
  set (area4 := splice area3 (pos + count2) right) in *.
  assert (La4 : len area4 = len area1)
    by (unfold area4; rewrite length_splice by lia; exact La3).
  assert (En : u32 n = n) by (apply u32_small; unfold n; lia).
  rewrite En in *.
  (* this string is destroyed and takes the new one *)
  assert (O4 : inv.owner b4 = inv.owner ret).
  { rewrite (same_buffer_owner _ _ (proj1 S4)), (same_buffer_owner _ _ (proj1 S3)).
    apply (same_buffer_owner _ _ (proj1 S2)). }
  assert (Kold : forall k, inv.owner ret <> Some k -> h4 !! k = h1 !! k).
  { intros k Nk. destruct S4 as (Sb4 & K4). destruct S3 as (Sb3 & K3).
    destruct S2 as (Sb2 & K2).
    rewrite K4, K3, K2; [reflexivity | exact Nk | |].
    - rewrite (same_buffer_owner _ _ Sb2). exact Nk.
    - rewrite (same_buffer_owner _ _ Sb3), (same_buffer_owner _ _ Sb2). exact Nk. }
  assert (Ro4 : repr h4 body t area sz).
  { eapply repr_frame; [exact Ro1|]. intros k Ok. apply Kold, Nold, Ok. }
  unfold basic_small_string.move_assign in H.
  rewrite (dtor_ok _ _ _ _ _ _ Ro4) in H. rewrite bind_ok in H.
  cbv beta iota zeta delta [basic_small_string.ctor_move small_string_buffer.move_ctor
                              malloc_core.move_ctor] in H.
  rewrite bind_ok in H. cbv beta iota in H.
  rewrite (dtor_ok NullTerminated _ 0 Internal (internal_data 0) 0
             (proj1 (wf_default NullTerminated _))) in H.
  rewrite bind_ok in H. injection H as <- <-.
  change (inv.release (inv.release h4 body) 0) with (inv.release h4 body).
  exists t1, area4. split.
  { apply (repr_frame _ h4); [exact R4|]. intros k Ok. apply release_other.
    intros Ob. apply (Nold k Ob). rewrite <- O4. exact Ok. }
  split.
  { unfold area4. apply terminated_splice; [|lia..].
    unfold area3. apply terminated_splice; [|lia..].
    unfold area2. apply terminated_splice; [exact T1|lia..]. }
  split.
  { unfold inv.content, area4.
    replace n with ((pos + count2) + len right) by (unfold n; lia).
    rewrite slice_splice_app by lia.
    unfold area3. replace (pos + count2) with (pos + len src) by lia.
    rewrite slice_splice_app by lia.
    unfold area2. pose proof (slice_splice_same area1 left 0 ltac:(lia) ltac:(lia)) as X.
    rewrite Ll in X. rewrite X. rewrite <- app_assoc. reflexivity. }
  split.
  - intros k Ik Nk. rewrite release_other by exact Nk.
    rewrite Kold; [apply E1; [exact Ik|discriminate]|].
    intros On. destruct E1 as (_ & E1). destruct (E1 k On) as [X|X]; [discriminate|].
    rewrite X in Ik. destruct Ik; discriminate.
  - intros p Op. right. rewrite O4 in Op. destruct E1 as (_ & E1).
    destruct (E1 p Op) as [X|X]; [discriminate | exact X].
Qed.

Lemma evolves_trans h b h1 b1 h2 b2 :
  inv.evolves h b h1 b1 -> inv.evolves h1 b1 h2 b2 -> inv.evolves h b h2 b2.
Proof.
  intros (K & O) (K' & O'). split.
  - intros k Ik Nk. rewrite K'; [apply K; assumption | rewrite K; assumption |].
    intros Ok. destruct (O k Ok) as [E|E]; [congruence|].
    rewrite E in Ik. destruct Ik; discriminate.
  - intros p Op. destruct (O' p Op) as [E|E]; [apply O, E|].
    destruct (h !! p) as [blk|] eqn:Hp; [|right; reflexivity]. left.
    destruct (inv.owner b) as [q|] eqn:Ob.
    + destruct (decide (q = p)) as [->|Nq]; [reflexivity|].
      rewrite K in E; [congruence | rewrite Hp; eauto | congruence].
    + rewrite K in E; [congruence | rewrite Hp; eauto | discriminate].
Qed.

Lemma substr_throws c h body t area sz pos count :
  repr h body t area sz -> sz < pos ->
  basic_small_string.substr NullTerminated c h body pos count = Throw out_of_range.
Proof.
  intros R Hp. unfold basic_small_string.substr.
  rewrite (string_size_repr _ _ _ _ _ _ R). rewrite bind_ok.
  rewrite (proj2 (Z.ltb_lt sz pos)) by exact Hp. reflexivity.
Qed.

(** [substr(pos, count)] is the constructor from the characters at [pos]. *)
Lemma substr_eq c h body t area sz pos count :
  repr h body t area sz -> 0 <= pos <= sz -> 0 <= count < 2 ^ 32 ->
  basic_small_string.substr NullTerminated c h body pos count
  = basic_small_string.ctor_chars NullTerminated c h
      (slice area pos (Z.min count (sz - pos))) (Z.min count (sz - pos)).
Proof.
  intros R Hp Hc. pose proof (repr_bounds _ R) as [B Lb].
  pose proof (nt_range NullTerminated) as Hnt.
  unfold basic_small_string.substr, basic_small_string.ctor_chars.
  rewrite (string_size_repr _ _ _ _ _ _ R). rewrite bind_ok.
  rewrite (proj2 (Z.ltb_ge sz pos)) by lia.
  rewrite (u64_small (sz - pos)) by lia.
  set (n := Z.min count (sz - pos)).
  rewrite (u32_small n) by lia.
  destruct (basic_small_string.ctor_initialized_later NullTerminated c h n)
    as [[h1 ret]| |] eqn:A; [|reflexivity..].
  rewrite !bind_ok. cbv beta iota.
  destruct (ctor_initialized_later_post _ _ _ _ _ _ A ltac:(lia))
    as (t1 & area1 & R1 & T1 & K & Ki & O).
  pose proof (ctor_evolves _ _ _ _ _ _ _ _ R1 K Ki O) as E1.
  assert (Ro1 : repr h1 body t area sz).
  { eapply repr_frame; [exact R|]. intros k Ok. apply E1; [|discriminate].
    apply (repr_owned _ _ _ _ _ _ _ R Ok). }
  change (basic_small_string.data body) with (begin_ptr body).
  rewrite (read_chars_repr _ _ _ _ _ _ pos n Ro1) by lia. rewrite bind_ok.
  pose proof (block_read_all (slice area pos n)) as Eb.
  rewrite length_slice in Eb by lia. rewrite Eb. reflexivity.
Qed.

End NullTerminated.
End member_specs.

Module extended_specs.
Import malloc_core core_facts core_specs core_access core_resize small_string_buffer
  selector alloc_specs buffer_specs grow_specs init_specs size_specs string_specs
  append_specs ctor_specs program program_specs observe observe_specs content_specs
  member_specs.
Section NullTerminated.
Context (NullTerminated : bool).

Abbreviation nt := (nt_bytes NullTerminated).
Abbreviation repr := (inv.repr NullTerminated).
Abbreviation terminated := (inv.terminated NullTerminated).
Abbreviation wf_string := (inv.wf_string NullTerminated).
Abbreviation wf_state := (program.wf_state NullTerminated).

(** [operator=(other)], another string *)
Lemma copy_assign_post c h body t area sz other to ao so h' body' :
  repr h body t area sz -> repr h other to ao so ->
  (forall p, inv.owner other = Some p -> inv.owner body <> Some p) ->
  basic_small_string.copy_assign NullTerminated c h body (basic_small_string.another other)
  = Ok (h', body') ->
  exists t' area',
    repr h' body' t' area' so /\ terminated area' so /\
    inv.content area' so = inv.content ao so /\
    inv.evolves h body h' body'.
Proof.
  intros R Ro D H. pose proof (repr_bounds _ Ro) as [Bo Lo].
  pose proof (nt_range NullTerminated).
  rewrite (copy_assign_eq _ _ _ _ _ _ _ _ _ _ _ R Ro D) in H.
  destruct (assign_post _ _ _ _ _ _ _ _ so _ _ R ltac:(lia) H)
    as (_ & t' & area' & R' & T' & C' & E').
  exists t', area'. split; [exact R'|]. split; [exact T'|]. split; [|exact E'].
  rewrite C'. pose proof (slice_all (inv.content ao so)) as X.
  rewrite len_content in X by lia. exact X.
Qed.

(** [append(other)], another string or the string itself *)
Lemma append_string_post c h body t area sz other bs h' body' :
  repr h body t area sz -> terminated area sz ->
  match other with
  | basic_small_string.itself => bs = inv.content area sz
  | basic_small_string.another other =>
      exists to ao so,
        repr h other to ao so /\ bs = inv.content ao so /\
        (forall p, inv.owner other = Some p -> inv.owner body <> Some p)
  end ->
  basic_small_string.append_string NullTerminated c h body other = Ok (h', body') ->
  exists t' area',
    repr h' body' t' area' (sz + len bs) /\ terminated area' (sz + len bs) /\
    inv.content area' (sz + len bs) = inv.content area sz ++ bs /\
    inv.evolves h body h' body'.
Proof.
  intros R T Ho H. pose proof (repr_bounds _ R) as [B Lb].
  pose proof (nt_range NullTerminated).
  assert (X : exists n, 0 <= n < 2 ^ 32 /\ len bs = n /\
            basic_small_string.append NullTerminated c h body
              (basic_small_string.array bs) n = Ok (h', body')).
  { destruct other as [|other].
    - subst bs. exists sz. rewrite len_content by lia. split; [lia|]. split; [reflexivity|].
      rewrite <- H. symmetry. apply (append_itself_eq _ _ _ _ _ _ _ R).
    - destruct Ho as (to & ao & so & Ro & -> & D).
      pose proof (repr_bounds _ Ro) as [Bo Lo].
      exists so. rewrite len_content by lia. split; [lia|]. split; [reflexivity|].
      rewrite <- H. symmetry. apply (append_string_eq _ _ _ _ _ _ _ _ _ _ _ R Ro D). }
  destruct X as (n & Hn & Ln & A). rewrite Ln.
  destruct (append_post _ _ _ _ _ _ _ _ _ _ _ R Hn A)
    as (src & Lsrc & Rd & t' & area' & R' & T' & C' & E' & _).
  exists t', area'. split; [exact R'|]. split; [apply T', T|]. split; [|exact E'].
  rewrite C'. f_equal.
  destruct (Z.eq_dec n 0) as [->|Nz].
  { destruct src; [|discriminate]. destruct bs; [reflexivity | discriminate]. }
  destruct (Rd Nz) as (h1 & b1 & _ & Eb). apply read_from_array in Eb as (_ & ->).
  rewrite <- Ln. apply slice_all.
Qed.

(** [operator+(lhs, rhs)] *)
Lemma plus_post c1 c2 h lhs tl al sl rhs tr ar sr h' body' :
  repr h lhs tl al sl -> repr h rhs tr ar sr ->
  basic_small_string.plus NullTerminated c1 c2 h lhs rhs = Ok (h', body') ->
  exists t' area',
    repr h' body' t' area' (sl + sr) /\ terminated area' (sl + sr) /\
    inv.content area' (sl + sr) = inv.content al sl ++ inv.content ar sr /\
    inv.evolves h 0 h' body'.
Proof.
  intros Rl Rr H. pose proof (repr_bounds _ Rr) as [Br Lr].
  pose proof (nt_range NullTerminated).
  unfold basic_small_string.plus in H. bind_inv H x Ec. destruct x as [h1 b1].
  cbv beta iota in H.
  destruct (ctor_copy_post _ _ _ _ _ _ _ _ _ Rl Ec) as (t1 & area1 & R1 & T1 & C1 & E1).
  assert (D : forall p, inv.owner rhs = Some p -> inv.owner b1 <> Some p).
  { intros p Op Ob. destruct E1 as (_ & E1). destruct (E1 p Ob) as [X|X];
      [discriminate|].
    destruct (repr_owned _ _ _ _ _ _ _ Rr Op) as [y Y]. congruence. }
  assert (Rr1 : repr h1 rhs tr ar sr).
  { eapply repr_frame; [exact Rr|]. intros k Ok. apply E1; [|discriminate].
    apply (repr_owned _ _ _ _ _ _ _ Rr Ok). }
  destruct (append_string_post c2 h1 b1 t1 area1 sl (basic_small_string.another rhs)
              (inv.content ar sr) h' body' R1 T1
              ltac:(exists tr, ar, sr; auto) H)
    as (t' & area' & R' & T' & C' & E').
  rewrite len_content in R', T', C' by lia.
  exists t', area'. split; [exact R'|]. split; [exact T'|].
  split; [rewrite C', C1; reflexivity|].
  apply (evolves_trans _ _ _ _ _ _ E1 E').
Qed.

(** [substr(pos, count) const&] *)
Lemma substr_post c h body t area sz pos count h' ret :
  repr h body t area sz -> 0 <= pos <= sz -> 0 <= count < 2 ^ 32 ->
  basic_small_string.substr NullTerminated c h body pos count = Ok (h', ret) ->
  exists t' area',
    repr h' ret t' area' (Z.min count (sz - pos)) /\
    terminated area' (Z.min count (sz - pos)) /\
    inv.content area' (Z.min count (sz - pos)) = slice area pos (Z.min count (sz - pos)) /\
    inv.evolves h 0 h' ret.
Proof.
  intros R Hp Hc H. pose proof (repr_bounds _ R) as [B Lb].
  pose proof (nt_range NullTerminated).
  rewrite (substr_eq _ _ _ _ _ _ _ _ _ R Hp Hc) in H.
  destruct (ctor_chars_post _ _ _ _ (Z.min count (sz - pos)) _ _ ltac:(lia) H)
    as (_ & t' & area' & R' & T' & C' & E').
  exists t', area'. split; [exact R'|]. split; [exact T'|]. split; [|exact E'].
  rewrite C'. pose proof (slice_all (slice area pos (Z.min count (sz - pos)))) as X.
  rewrite length_slice in X by lia. exact X.
Qed.

Lemma take_slice (l : list byte) off n k :
  0 <= k <= n -> take (Z.to_nat k) (slice l off n) = slice l off k.
Proof.
  intros Hk. unfold slice. rewrite take_take. f_equal. lia.
Qed.

(** [substr(pos, count) &&] *)
Lemma substr_move_post c h body t area sz pos count h' ret body' :
  repr h body t area sz -> terminated area sz ->
  0 <= pos <= sz -> 0 <= count < 2 ^ 32 ->
  basic_small_string.substr_move NullTerminated c h body pos count = Ok (h', ret, body') ->
  body' = 0 /\
  exists t' area',
    repr h' ret t' area' (Z.min count (sz - pos)) /\
    terminated area' (Z.min count (sz - pos)) /\
    inv.content area' (Z.min count (sz - pos)) = slice area pos (Z.min count (sz - pos)) /\
    inv.evolves h body h' ret.
Proof.
  intros R T Hp Hc H. pose proof (repr_bounds _ R) as [B Lb].
  pose proof (nt_range NullTerminated) as Hnt.
  unfold basic_small_string.substr_move in H.
  rewrite (string_size_repr _ _ _ _ _ _ R) in H. rewrite bind_ok in H.
  rewrite (proj2 (Z.ltb_ge sz pos)) in H by lia.
  rewrite (u64_small (sz - pos)) in H by lia.
  destruct (erase_spec _ h body t area sz 0 pos R ltac:(lia) ltac:(lia))
    as (h1 & b1 & area1 & E & R1 & T1 & La1 & C1 & S1).
  rewrite E in H. rewrite bind_ok in H. cbv beta iota in H.
  rewrite Z.sub_0_r in R1, T1, C1.
  replace (Z.min pos sz) with pos in R1, T1, C1 by lia.
  rewrite slice_0 in C1. cbn [app] in C1. rewrite Z.add_0_l in C1.
  specialize (T1 T).
  destruct (Z.ltb_spec count (sz - pos)) as [Lt|Ge].
  - bind_inv H x Er. destruct x as [h2 b2]. cbv beta iota in H.
    cbv beta iota zeta delta [basic_small_string.ctor_move small_string_buffer.move_ctor
                                malloc_core.move_ctor] in H.
    injection H as <- <- <-. split; [reflexivity|].
    rewrite resize_count_eq in Er by lia.
    destruct (resize_post _ _ _ _ _ _ _ _ _ _ _ R1 Hc Er) as (t2 & area2 & R2 & T2 & C2 & E2).
    replace (Z.min count (sz - pos)) with count by lia.
    replace (Z.min (sz - pos) count) with count in C2 by lia.
    exists t2, area2. split; [exact R2|]. split; [exact T2|]. split.
    + unfold inv.content. rewrite C2.
      rewrite <- (take_content area1 (sz - pos) count) by lia. rewrite C1.
      apply take_slice. lia.
    + eapply evolves_trans; [apply stable_evolves, S1 | exact E2].
  - rewrite bind_ok in H. cbv beta iota in H.
    cbv beta iota zeta delta [basic_small_string.ctor_move small_string_buffer.move_ctor
                                malloc_core.move_ctor] in H.
    injection H as <- <- <-. split; [reflexivity|].
    replace (Z.min count (sz - pos)) with (sz - pos) by lia.
    exists t, area1. split; [exact R1|]. split; [exact T1|]. split; [exact C1|].
    apply stable_evolves, S1.
Qed.

Abbreviation exec := (extended.exec NullTerminated).
Abbreviation reachable := (extended.reachable NullTerminated).

(** The operand of a member of the string [i]: the string itself, or a
    string that shares nothing with it. *)
Lemma operand_of_wf w i j body other :
  wf_state w -> strings w !! i = Some body -> extended.operand_of w i j = Some other ->
  match other with
  | basic_small_string.itself => i = j
  | basic_small_string.another other =>
      i <> j /\ strings w !! j = Some other /\
      exists to ao so,
        repr (heap_of w) other to ao so /\ terminated ao so /\
        (forall p, inv.owner other = Some p -> inv.owner body <> Some p)
  end.
Proof.
  intros W Ei Ho. unfold extended.operand_of in Ho.
  destruct (bool_decide_reflect (i = j)) as [Eij|Nij].
  - injection Ho as <-. exact Eij.
  - destruct (strings w !! j) as [o|] eqn:Ej; [|discriminate]. injection Ho as <-.
    split; [exact Nij|]. split; [reflexivity|].
    destruct (proj1 W j o Ej) as (to & ao & so & Ro & To). exists to, ao, so.
    split; [exact Ro|]. split; [exact To|].
    intros p Op Ob. apply (proj2 W i j body o p Nij Ei Ej Ob Op).
Qed.

(** Every step of a program keeps every string well formed and no two
    strings in one allocation. *)
Lemma exec_wf_ext w o w' :
  wf_state w -> extended.typed NullTerminated o -> exec w o = Ok w' -> wf_state w'.
Proof.
  intros W Ty H. destruct o; cbn [extended.exec extended.typed] in H, Ty.
  - apply (exec_wf _ _ _ _ W Ty H).
  - (* CopyAssign *)
    destruct (extended.operand_of w i j) as [other|] eqn:Ho; [|discriminate].
    apply (on_string_wf _ _ _ _ _ W) in H; [exact H|].
    intros h body h' body' Ei -> (t & area & sz & R & T) E.
    pose proof (operand_of_wf _ _ _ _ _ W Ei Ho) as Hw. destruct other as [|other].
    + injection E as <- <-. split; [exists t, area, sz; auto | apply evolves_refl].
    + destruct Hw as (_ & _ & to & ao & so & Ro & _ & D).
      destruct (copy_assign_post _ _ _ _ _ _ _ _ _ _ _ _ R Ro D E)
        as (t' & area' & R' & T' & _ & Ev).
      split; [exists t', area', so; auto | exact Ev].
  - (* InsertFill *)
    apply (on_string_wf _ _ _ _ _ W) in H; [exact H|].
    intros h body h' body' _ _ (t & area & sz & R & T) E.
    rewrite (insert_fill_eq _ _ _ _ _ _ _ _ _ _ R (proj2 Ty)) in E.
    destruct (insert_post _ _ _ _ _ _ _ _ _ _ _ _ R (proj1 Ty) (proj2 Ty) E)
      as (t' & area' & R' & T' & Ev).
    split; [eexists _, _, _; eauto | exact Ev].
  - (* AppendFill *)
    apply (on_string_wf _ _ _ _ _ W) in H; [exact H|].
    intros h body h' body' _ _ (t & area & sz & R & T) E.
    rewrite append_fill_eq in E by apply Ty.
    destruct (append_post _ _ _ _ _ _ _ _ _ _ _ R Ty E)
      as (src & _ & _ & t' & area' & R' & T' & _ & Ev & _).
    split; [eexists _, _, _; eauto | exact Ev].
  - (* AppendString *)
    destruct (extended.operand_of w i j) as [other|] eqn:Ho; [|discriminate].
    apply (on_string_wf _ _ _ _ _ W) in H; [exact H|].
    intros h body h' body' Ei -> (t & area & sz & R & T) E.
    pose proof (operand_of_wf _ _ _ _ _ W Ei Ho) as Hw.
    assert (X : exists bs,
              match other with
              | basic_small_string.itself => bs = inv.content area sz
              | basic_small_string.another other =>
                  exists to ao so,
                    repr (heap_of w) other to ao so /\ bs = inv.content ao so /\
                    (forall p, inv.owner other = Some p -> inv.owner body <> Some p)
              end).
    { destruct other as [|other]; [eexists; reflexivity|].
      destruct Hw as (_ & _ & to & ao & so & Ro & _ & D).
      exists (inv.content ao so), to, ao, so. auto. }
    destruct X as (bs & Hb).
    destruct (append_string_post _ _ _ _ _ _ other bs _ _ R T Hb E)
      as (t' & area' & R' & T' & _ & Ev).
    split; [eexists _, _, _; eauto | exact Ev].
  - (* Replace *)
    apply (on_string_wf _ _ _ _ _ W) in H; [exact H|].
    intros h body h' body' _ _ (t & area & sz & R & T) E.
    destruct Ty as (Tp & Tc & Tc2).
    destruct (Z_lt_le_dec sz pos) as [Lt|Le].
    { rewrite (replace_throws _ _ _ _ _ _ _ _ _ _ _ R Lt) in E. discriminate. }
    assert (Hp : 0 <= pos <= sz) by (unfold size_type in Tp; lia).
    destruct (replace_post _ _ _ _ _ _ _ _ _ _ _ _ _ R T Hp Tc Tc2 E)
      as (_ & t' & area' & R' & T' & _ & Ev).
    split; [eexists _, _, _; eauto | exact Ev].
  - (* ReplaceFill *)
    apply (on_string_wf _ _ _ _ _ W) in H; [exact H|].
    intros h body h' body' _ _ (t & area & sz & R & T) E.
    destruct Ty as (Tp & Tc & Tc2).
    rewrite replace_fill_eq in E by apply Tc2.
    destruct (Z_lt_le_dec sz pos) as [Lt|Le].
    { rewrite (replace_throws _ _ _ _ _ _ _ _ _ _ _ R Lt) in E. discriminate. }
    assert (Hp : 0 <= pos <= sz) by (unfold size_type in Tp; lia).
    destruct (replace_post _ _ _ _ _ _ _ _ _ _ _ _ _ R T Hp Tc Tc2 E)
      as (_ & t' & area' & R' & T' & _ & Ev).
    split; [eexists _, _, _; eauto | exact Ev].
  - (* ResizeCount *)
    apply (on_string_wf _ _ _ _ _ W) in H; [exact H|].
    intros h body h' body' _ _ (t & area & sz & R & T) E.
    rewrite resize_count_eq in E by apply Ty.
    assert (Hc : 0 <= count < 2 ^ 32).
    { unfold basic_small_string.resize in E.
      destruct (Z.ltb_spec count (2 ^ 32 - 1)); [|discriminate].
      unfold size_t in Ty. lia. }
    destruct (resize_post _ _ _ _ _ _ _ _ _ _ _ R Hc E) as (t' & area' & R' & T' & _ & Ev).
    split; [eexists _, _, _; eauto | exact Ev].
  - (* Substr *)
    destruct (strings w !! j) as [other|] eqn:Ej; [|discriminate].
    destruct (proj1 W j other Ej) as (to & ao & so & Ro & To).
    apply (construct_wf _ _ _ _ _ W) in H; [exact H|]. intros h' body' E.
    destruct Ty as (Tp & Tc).
    destruct (Z_lt_le_dec so pos) as [Lt|Le].
    { rewrite (substr_throws _ _ _ _ _ _ _ _ _ Ro Lt) in E. discriminate. }
    assert (Hp : 0 <= pos <= so) by (unfold size_type in Tp; lia).
    destruct (substr_post _ _ _ _ _ _ _ _ _ _ Ro Hp Tc E)
      as (t' & area' & R' & T' & _ & Ev).
    split; [eexists _, _, _; eauto | exact Ev].
  - (* SubstrMove *)
    destruct (strings w !! i) as [bi|] eqn:Ei; [discriminate|].
    destruct (strings w !! j) as [other|] eqn:Ej; [|discriminate].
    destruct (proj1 W j other Ej) as (to & ao & so & Ro & To).
    bind_inv H x E. destruct x as [[h' ret] other']. cbv beta iota in H.
    injection H as <-. destruct Ty as (Tp & Tc).
    destruct (Z_lt_le_dec so pos) as [Lt|Le].
    { unfold basic_small_string.substr_move in E.
      rewrite (string_size_repr _ _ _ _ _ _ Ro) in E. rewrite bind_ok in E.
      rewrite (proj2 (Z.ltb_lt so pos)) in E by exact Lt. discriminate. }
    assert (Hp : 0 <= pos <= so) by (unfold size_type in Tp; lia).
    destruct (substr_move_post _ _ _ _ _ _ _ _ _ _ _ Ro To Hp Tc E)
      as (-> & t' & area' & R' & T' & _ & Ev).
    assert (Nij : i <> j) by congruence.
    assert (W1 : wf_state (put w j h' ret)).
    { apply wf_put; [exact W | eexists _, _, _; eauto | rewrite Ej; exact Ev]. }
    apply (move_wf NullTerminated (put w j h' ret) i j).
    { exact W1. }
    cbn [program.exec put strings heap_of].
    rewrite lookup_insert_ne by congruence. rewrite Ei. rewrite lookup_insert_eq.
    cbv beta iota zeta delta [basic_small_string.ctor_move small_string_buffer.move_ctor
                                malloc_core.move_ctor].
    unfold put. cbn [heap_of strings]. rewrite insert_insert_eq. reflexivity.
  - (* Plus *)
    destruct (strings w !! j) as [lhs|] eqn:Ej; [|discriminate].
    destruct (strings w !! k) as [rhs|] eqn:Ek; [|discriminate].
    destruct (proj1 W j lhs Ej) as (tl & al & sl & Rl & Tl).
    destruct (proj1 W k rhs Ek) as (tr & ar & sr & Rr & Tr).
    apply (construct_wf _ _ _ _ _ W) in H; [exact H|]. intros h' body' E.
    destruct (plus_post _ _ _ _ _ _ _ _ _ _ _ _ _ Rl Rr E)
      as (t' & area' & R' & T' & _ & Ev).
    split; [eexists _, _, _; eauto | exact Ev].
Qed.

Lemma reachable_wf_ext w : reachable w -> wf_state w.
Proof.
  induction 1 as [|w o w' _ IH Ty H]; [apply init_wf|].
  apply (exec_wf_ext _ _ _ IH Ty H).
Qed.

(** The states of the programs with the basic members are states of the
    programs with all members. *)
Lemma reachable_basic w : program.reachable NullTerminated w -> reachable w.
Proof.
  induction 1 as [|w o w' _ IH Ty H]; [apply extended.reachable_init|].
  apply (extended.reachable_step _ w (extended.Basic o) w' IH Ty H).
Qed.

(** A string of a reachable state, with what it reads as. *)
Lemma wf_repr w i _core bs :
  wf_state w -> strings w !! i = Some _core -> holds (heap_of w) _core bs ->
  exists t area,
    repr (heap_of w) _core t area (len bs) /\ terminated area (len bs) /\
    bs = inv.content area (len bs).
Proof.
  intros W E Hb. destruct (proj1 W i _core E) as (t & area & sz & R & T).
  destruct (holds_inv _ _ _ _ _ _ _ R Hb) as (-> & L). rewrite L.
  exists t, area. auto.
Qed.

End NullTerminated.
End extended_specs.

Module query_specs.
Import malloc_core core_facts core_specs core_access core_resize small_string_buffer
  buffer_specs grow_specs string_specs observe observe_specs member_specs
  extended_specs.

(** *** [char_traits] *)

Lemma eq_true a b : traits_type.eq a b = true <-> a = b.
Proof.
  unfold traits_type.eq. rewrite Z.eqb_eq. split; [apply byte.unsigned_inj | congruence].
Qed.

Lemma eq_refl_true a : traits_type.eq a a = true.
Proof. apply eq_true. reflexivity. Qed.

Lemma lex_lt_irrefl s : ~ lex_lt s s.
Proof.
  induction s as [|a s IH]; intros H; inversion H; subst; [lia | auto].
Qed.

Lemma lex_lt_asym s1 s2 : lex_lt s1 s2 -> ~ lex_lt s2 s1.
Proof.
  induction 1 as [b s2|a b s1 s2 Hab|a s1 s2 _ IH]; intros H; inversion H; subst;
    try lia; auto.
Qed.

(** [compare] on the common length, then the lengths: the sign is the
    lexicographic order. *)
Lemma compare_lex (s1 s2 : list byte) :
  let n := Nat.min (length s1) (length s2) in
  let r := traits_type.compare (take n s1) (take n s2) in
  (r < 0 \/ r = 0 /\ len s1 < len s2 <-> lex_lt s1 s2) /\
  (r > 0 \/ r = 0 /\ len s2 < len s1 <-> lex_lt s2 s1) /\
  (r = 0 /\ len s1 = len s2 <-> s1 = s2).
Proof.
  revert s2. induction s1 as [|a s1 IH]; intros [|b s2]; cbn zeta.
  1-3: cbn [length Nat.min take traits_type.compare];
    (split; [|split]); split; intros H; cbn [length] in *;
    first [ exfalso; lia | solve [inversion H] | solve [constructor]
          | discriminate | reflexivity
          | solve [right; split; [reflexivity | lia]]
          | solve [split; [reflexivity | lia]] ].
  - specialize (IH s2). cbn zeta in IH. destruct IH as (I1 & I2 & I3).
    cbn [length Nat.min take traits_type.compare]. unfold traits_type.lt.
    destruct (Z.ltb_spec (byte.unsigned a) (byte.unsigned b)) as [Lab|Gab].
    { split; [|split]; split.
      - intros _. constructor. exact Lab.
      - intros _. left. lia.
      - intros H. exfalso. lia.
      - intros H; inversion H; subst; exfalso; lia.
      - intros H. exfalso. lia.
      - intros [= -> _]. exfalso. lia. }
    destruct (Z.ltb_spec (byte.unsigned b) (byte.unsigned a)) as [Lba|Gba].
    { split; [|split]; split.
      - intros H. exfalso. lia.
      - intros H; inversion H; subst; exfalso; lia.
      - intros _. constructor. exact Lba.
      - intros _. left. lia.
      - intros H. exfalso. lia.
      - intros [= -> _]. exfalso. lia. }
    assert (a = b) as -> by (apply byte.unsigned_inj; lia).
    cbn [length] in *.
    split; [|split]; split.
    + intros H. apply lex_lt_tail. apply I1. lia.
    + intros H; inversion H as [|? ? ? ? Hlt|? ? ? Hl]; subst; [exfalso; lia|].
      apply I1 in Hl. lia.
    + intros H. apply lex_lt_tail. apply I2. lia.
    + intros H; inversion H as [|? ? ? ? Hlt|? ? ? Hl]; subst; [exfalso; lia|].
      apply I2 in Hl. lia.
    + intros H. f_equal. apply I3. lia.
    + intros [= ->]. assert (X : s2 = s2) by reflexivity. apply I3 in X. lia.
Qed.

Lemma compare_same_length (s1 s2 : list byte) :
  length s1 = length s2 -> (traits_type.compare s1 s2 = 0 <-> s1 = s2).
Proof.
  intros L. pose proof (compare_lex s1 s2) as (_ & _ & I). cbn zeta in I.
  rewrite <- L, Nat.min_id in I. rewrite L in I at 2.
  rewrite !firstn_all in I. rewrite <- I. split; [intros; split; [assumption|lia] | tauto].
Qed.

(** [find]: the first match among the [count] characters, and what
    happens when they are not all there. *)
Lemma traits_find_spec (p : list byte) count ch :
  (exists k, 0 <= k < count /\ p !! Z.to_nat k = Some ch /\
             (forall j, 0 <= j < k -> p !! Z.to_nat j <> Some ch) /\
             traits_type.find p count ch = Ok (Some k)) \/
  ((forall j, 0 <= j < count -> p !! Z.to_nat j <> Some ch) /\
   traits_type.find p count ch = if count <=? len p then Ok None else Abort).
Proof.
  revert count. induction p as [|a p IH]; intros count.
  - right. split; [intros j _; rewrite lookup_nil; discriminate|].
    cbn [traits_type.find length]. destruct (Z.leb_spec count 0);
      destruct (Z.leb_spec count (Z.of_nat 0)); try lia; reflexivity.
  - cbn [traits_type.find]. destruct (Z.leb_spec count 0) as [Le|Gt].
    { right. split; [intros; lia|].
      rewrite (proj2 (Z.leb_le count _)) by lia. reflexivity. }
    destruct (traits_type.eq a ch) eqn:Ea.
    { apply eq_true in Ea as ->. left. exists 0. split; [lia|].
      split; [reflexivity|]. split; [intros; lia | reflexivity]. }
    assert (Na : a <> ch) by (intros ->; rewrite eq_refl_true in Ea; discriminate).
    destruct (IH (count - 1)) as [(k & Hk & Pk & Mk & Fk)|(Mk & Fk)].
    + left. exists (Z.succ k). split; [lia|].
      split; [rewrite Z2Nat.inj_succ by lia; exact Pk|]. split.
      * intros j Hj. destruct (Z.eq_dec j 0) as [->|Nj]; [cbn; intros [= ?]; congruence|].
        replace j with (Z.succ (j - 1)) by lia. rewrite Z2Nat.inj_succ by lia.
        apply (Mk (j - 1)). lia.
      * rewrite Fk. reflexivity.
    + right. split.
      * intros j Hj. destruct (Z.eq_dec j 0) as [->|Nj]; [cbn; intros [= ?]; congruence|].
        replace j with (Z.succ (j - 1)) by lia. rewrite Z2Nat.inj_succ by lia.
        apply (Mk (j - 1)). lia.
      * rewrite Fk. cbn [length]. destruct (Z.leb_spec (count - 1) (len p));
          destruct (Z.leb_spec count (Z.of_nat (S (length p)))); try lia; reflexivity.
Qed.

Section NullTerminated.
Context (NullTerminated : bool).

Abbreviation nt := (nt_bytes NullTerminated).
Abbreviation repr := (inv.repr NullTerminated).
Abbreviation terminated := (inv.terminated NullTerminated).

(** The array from a pointer into the string on. *)
Lemma chars_from_repr h body t area sz off :
  repr h body t area sz -> 0 <= off <= len area ->
  basic_small_string.chars_from h body (ptr_add (begin_ptr body) off)
  = Ok (drop (Z.to_nat off) area).
Proof.
  intros R Ho. rewrite (repr_begin_ptr _ _ _ _ _ _ R).
  pose proof R as (F & _ & L).
  destruct t; cbv beta iota delta [inv.layout] in L;
    cbn [ptr_add basic_small_string.chars_from].
  - destruct L as (_ & <-).
    rewrite (proj2 (Z.leb_le 0 (0 + off))) by lia.
    rewrite (proj2 (Z.leb_le (0 + off) _)) by lia. reflexivity.
  - destruct L as (E & _). rewrite E.
    rewrite (proj2 (Z.leb_le 0 (0 + off))) by lia.
    rewrite (proj2 (Z.leb_le (0 + off) _)) by lia. reflexivity.
  - destruct L as (E & _). rewrite E.
    pose proof (length_hdr_block (len area + 8) sz area) as Lh.
    rewrite (proj2 (Z.leb_le 0 (8 + off))) by lia.
    rewrite (proj2 (Z.leb_le (8 + off) _)) by lia. cbn [andb]. f_equal.
    unfold inv.hdr_block. rewrite app_assoc.
    replace (Z.to_nat (8 + off)) with (8 + Z.to_nat off)%nat by lia.
    rewrite drop_app_add'; [reflexivity|].
    rewrite length_app, !length_le_split. reflexivity.
  - destruct L as (E & _). rewrite E.
    pose proof (length_hdr_block (len area + 8) sz area) as Lh.
    rewrite (proj2 (Z.leb_le 0 (8 + off))) by lia.
    rewrite (proj2 (Z.leb_le (8 + off) _)) by lia. cbn [andb]. f_equal.
    unfold inv.hdr_block. rewrite app_assoc.
    replace (Z.to_nat (8 + off)) with (8 + Z.to_nat off)%nat by lia.
    rewrite drop_app_add'; [reflexivity|].
    rewrite length_app, !length_le_split. reflexivity.
Qed.

Lemma read_chars_never_throws h body p n e : read_chars h body p n <> Throw e.
Proof.
  unfold read_chars, load_bytes, block_read. destruct p as [off|base off].
  - destruct (_ && _); discriminate.
  - destruct (h !! base); [destruct (_ && _)|]; discriminate.
Qed.

Lemma read_chars_outside h body t area sz off n :
  repr h body t area sz -> 0 <= off -> len area < off + n ->
  read_chars h body (ptr_add (begin_ptr body) off) n = Abort.
Proof.
  intros R Ho Hn.
  destruct (read_chars h body (ptr_add (begin_ptr body) off) n) as [bs|e|] eqn:E.
  - pose proof (read_chars_shape_inv _ _ _ _ _ _ _ _ _ (repr_shape _ _ _ _ _ _ R) Ho E).
    lia.
  - exfalso. apply (read_chars_never_throws _ _ _ _ _ E).
  - reflexivity.
Qed.

Lemma lookup_content (area : list byte) sz (i : Z) :
  0 <= i < sz -> inv.content area sz !! Z.to_nat i = area !! Z.to_nat i.
Proof.
  intros Hi. unfold inv.content. rewrite lookup_slice by lia.
  rewrite (proj2 (Z.ltb_lt _ _)) by lia. reflexivity.
Qed.

(** [find(ch, pos)] with [pos <= size()]. *)
Lemma find_char_spec h body t area sz ch pos :
  repr h body t area sz -> 0 <= pos <= sz ->
  (exists r, pos <= r < sz /\ area !! Z.to_nat r = Some ch /\
             (forall j, pos <= j < r -> area !! Z.to_nat j <> Some ch) /\
             basic_small_string.find_char h body ch pos = Ok r) \/
  ((forall j, pos <= j < sz -> area !! Z.to_nat j <> Some ch) /\
   basic_small_string.find_char h body ch pos = Ok basic_small_string.npos).
Proof.
  intros R Hp. pose proof (repr_bounds _ R) as [B Lb].
  pose proof (nt_range NullTerminated) as Hnt.
  unfold basic_small_string.find_char.
  rewrite (string_size_repr _ _ _ _ _ _ R). rewrite bind_ok.
  change (basic_small_string.data body) with (begin_ptr body).
  rewrite (chars_from_repr _ _ _ _ _ pos R) by lia. rewrite bind_ok.
  rewrite (u64_small (sz - pos)) by lia.
  assert (Ld : forall j, 0 <= j ->
            drop (Z.to_nat pos) area !! Z.to_nat j = area !! Z.to_nat (pos + j)).
  { intros j Hj. rewrite lookup_drop. f_equal. lia. }
  destruct (traits_find_spec (drop (Z.to_nat pos) area) (sz - pos) ch)
    as [(k & Hk & Pk & Mk & Fk)|(Mk & Fk)].
  - left. exists (pos + k). rewrite Fk. rewrite bind_ok. split; [lia|].
    split; [rewrite <- Ld by lia; exact Pk|]. split; [|reflexivity].
    intros j Hj. replace j with (pos + (j - pos)) by lia. rewrite <- Ld by lia.
    apply Mk. lia.
  - right. rewrite Fk. rewrite length_drop.
    rewrite (proj2 (Z.leb_le (sz - pos) _)) by lia. rewrite bind_ok.
    split; [|reflexivity].
    intros j Hj. replace j with (pos + (j - pos)) by lia. rewrite <- Ld by lia.
    apply Mk. lia.
Qed.

(** [find(ch, pos)] with [pos > size()]: the search is not in the string. *)
Lemma find_char_beyond h body t area sz ch pos r :
  repr h body t area sz -> sz < pos < 2 ^ 32 ->
  basic_small_string.find_char h body ch pos = Ok r ->
  sz < r < basic_small_string.npos.
Proof.
  intros R Hp H. pose proof (repr_bounds _ R) as [B Lb].
  pose proof (nt_range NullTerminated) as Hnt.
  unfold basic_small_string.find_char in H.
  rewrite (string_size_repr _ _ _ _ _ _ R) in H. rewrite bind_ok in H.
  change (basic_small_string.data body) with (begin_ptr body) in H.
  bind_inv H p Ep.
  assert (Hl : pos <= len area).
  { destruct (Z_le_gt_dec pos (len area)) as [|Gt]; [assumption|]. exfalso.
    rewrite (repr_begin_ptr _ _ _ _ _ _ R) in Ep. pose proof R as (F & _ & L).
    destruct t; cbv beta iota delta [inv.layout] in L;
      cbn [ptr_add basic_small_string.chars_from] in Ep.
    - destruct L as (_ & <-).
      rewrite (proj2 (Z.leb_gt (0 + pos) _)) in Ep by lia.
      rewrite andb_false_r in Ep. discriminate.
    - destruct L as (E & _). rewrite E in Ep.
      rewrite (proj2 (Z.leb_gt (0 + pos) _)) in Ep by lia.
      rewrite andb_false_r in Ep. discriminate.
    - destruct L as (E & _). rewrite E in Ep.
      pose proof (length_hdr_block (len area + 8) sz area) as Lh.
      rewrite (proj2 (Z.leb_gt (8 + pos) _)) in Ep by lia.
      rewrite andb_false_r in Ep. discriminate.
    - destruct L as (E & _). rewrite E in Ep.
      pose proof (length_hdr_block (len area + 8) sz area) as Lh.
      rewrite (proj2 (Z.leb_gt (8 + pos) _)) in Ep by lia.
      rewrite andb_false_r in Ep. discriminate. }
  rewrite (chars_from_repr _ _ _ _ _ pos R) in Ep by lia. injection Ep as <-.
  assert (Eu : u64 (sz - pos) = 2 ^ 64 + (sz - pos)).
  { unfold u64. rewrite <- (Z.mod_add (sz - pos) 1 (2 ^ 64)) by lia.
    rewrite Z.mod_small by lia. lia. }
  rewrite Eu in H.
  destruct (traits_find_spec (drop (Z.to_nat pos) area) (2 ^ 64 + (sz - pos)) ch)
    as [(k & Hk & Pk & Mk & Fk)|(Mk & Fk)]; rewrite Fk in H.
  - rewrite bind_ok in H. injection H as <-.
    pose proof (lookup_lt_Some _ _ _ Pk) as Lk. rewrite length_drop in Lk.
    unfold basic_small_string.npos. lia.
  - rewrite length_drop in H.
    rewrite (proj2 (Z.leb_gt _ _)) in H by lia. discriminate.
Qed.

(** A match of [str] starts with its first character. *)
Lemma slice_head (area str : list byte) elem0 rest i count :
  str = elem0 :: rest -> 0 <= i -> 0 < count ->
  slice area i count = slice str 0 count -> area !! Z.to_nat i = Some elem0.
Proof.
  intros -> Hi Hc E.
  assert (X : slice area i count !! 0%nat = Some elem0).
  { rewrite E. rewrite lookup_slice by lia.
    rewrite (proj2 (Z.ltb_lt _ _)) by lia. reflexivity. }
  rewrite lookup_slice in X by lia. rewrite (proj2 (Z.ltb_lt _ _)) in X by lia.
  rewrite Nat.add_0_r in X. exact X.
Qed.

(** The loop of [find(str, pos, count)]. *)
Lemma find_loop_spec h body t area sz str count elem0 rest :
  repr h body t area sz -> str = elem0 :: rest -> 0 < count <= len str ->
  forall rounds first,
    0 <= first <= sz -> (Z.to_nat (sz - first) < rounds)%nat ->
    (exists r, first <= r /\ r + count <= sz /\
               slice area r count = slice str 0 count /\
               (forall i, first <= i < r -> slice area i count <> slice str 0 count) /\
               basic_small_string.find_loop rounds h body str count elem0 sz first
                 (sz - first) = Ok r) \/
    ((forall i, first <= i -> i + count <= sz ->
        slice area i count <> slice str 0 count) /\
     basic_small_string.find_loop rounds h body str count elem0 sz first (sz - first)
     = Ok basic_small_string.npos).
Proof.
  intros R Es Hc. pose proof (repr_bounds _ R) as [B Lb].
  pose proof (nt_range NullTerminated) as Hnt.
  induction rounds as [|rounds IH]; intros first Hf Hr; [lia|].
  cbn [basic_small_string.find_loop].
  destruct (Z.ltb_spec (sz - first) count) as [Lt|Ge].
  { right. split; [intros; lia | reflexivity]. }
  unfold get_buffer.
  rewrite (chars_from_repr _ _ _ _ _ first R) by lia. rewrite bind_ok.
  rewrite (u32_small (sz - first - count)) by lia.
  rewrite (u32_small (sz - first - count + 1)) by lia.
  assert (Ld : forall j, 0 <= j ->
            drop (Z.to_nat first) area !! Z.to_nat j = area !! Z.to_nat (first + j)).
  { intros j Hj. rewrite lookup_drop. f_equal. lia. }
  destruct (traits_find_spec (drop (Z.to_nat first) area) (sz - first - count + 1) elem0)
    as [(k & Hk & Pk & Mk & Fk)|(Mk & Fk)]; rewrite Fk.
  - rewrite bind_ok. cbv beta iota zeta.
    assert (Before : forall i, first <= i < first + k ->
              slice area i count <> slice str 0 count).
    { intros i Hi E. apply (slice_head area str elem0 rest i count Es) in E; [|lia..].
      replace i with (first + (i - first)) in E by lia. rewrite <- Ld in E by lia.
      apply (Mk (i - first)); [lia | exact E]. }
    rewrite (read_chars_repr _ _ _ _ _ _ (first + k) count R) by lia. rewrite bind_ok.
    rewrite block_read_ok by lia. rewrite bind_ok.
    assert (Ll : length (slice area (first + k) count) = length (slice str 0 count)).
    { apply Nat2Z.inj. rewrite !length_slice by lia. reflexivity. }
    pose proof (compare_same_length _ _ Ll) as Cm.
    destruct (Z.eqb_spec (traits_type.compare (slice area (first + k) count)
                            (slice str 0 count)) 0) as [Ez|Nz].
    + left. exists (first + k). split; [lia|]. split; [lia|].
      split; [apply Cm, Ez|]. split; [exact Before | reflexivity].
    + rewrite (u32_small (sz - (first + k + 1))) by lia.
      destruct (IH (first + k + 1) ltac:(lia) ltac:(lia))
        as [(r & Hr1 & Hr2 & Er & Mr & Fr)|(Mr & Fr)]; rewrite Fr.
      * left. exists r. split; [lia|]. split; [lia|]. split; [exact Er|].
        split; [|reflexivity]. intros i Hi.
        destruct (Z_lt_le_dec i (first + k)) as [L1|L1]; [apply Before; lia|].
        destruct (Z.eq_dec i (first + k)) as [->|Ni]; [intros E; apply Nz, Cm, E|].
        apply Mr. lia.
      * right. split; [|reflexivity]. intros i Hi Hi2.
        destruct (Z_lt_le_dec i (first + k)) as [L1|L1]; [apply Before; lia|].
        destruct (Z.eq_dec i (first + k)) as [->|Ni]; [intros E; apply Nz, Cm, E|].
        apply Mr; lia.
  - rewrite length_drop. rewrite (proj2 (Z.leb_le _ _)) by lia. rewrite bind_ok.
    right. split; [|reflexivity]. intros i Hi Hi2 E.
    apply (slice_head area str elem0 rest i count Es) in E; [|lia..].
    replace i with (first + (i - first)) in E by lia. rewrite <- Ld in E by lia.
    apply (Mk (i - first)); [lia | exact E].
Qed.

(** [find(str, pos, count)] *)
Lemma find_spec h body t area sz str pos count :
  repr h body t area sz -> 0 <= pos < 2 ^ 32 -> 0 <= count <= len str ->
  (exists r, pos <= r /\ r + count <= sz /\
             slice area r count = slice str 0 count /\
             (forall i, pos <= i < r -> slice area i count <> slice str 0 count) /\
             basic_small_string.find h body str pos count = Ok r) \/
  ((forall i, pos <= i -> i + count <= sz -> slice area i count <> slice str 0 count) /\
   basic_small_string.find h body str pos count = Ok basic_small_string.npos).
Proof.
  intros R Hp Hc. pose proof (repr_bounds _ R) as [B Lb].
  pose proof (nt_range NullTerminated) as Hnt.
  unfold basic_small_string.find, small_string_buffer.size.
  rewrite (size_repr _ R). rewrite bind_ok.
  destruct (Z.eqb_spec count 0) as [->|Nz].
  { destruct (Z.leb_spec pos sz) as [Le|Gt].
    - left. exists pos. split; [lia|]. split; [lia|]. split; [reflexivity|].
      split; [intros; lia | reflexivity].
    - right. split; [intros; lia | reflexivity]. }
  destruct (Z.leb_spec sz pos) as [Le|Gt].
  { right. split; [intros; lia | reflexivity]. }
  destruct str as [|elem0 rest]; [cbn [length] in Hc; lia|].
  rewrite (u32_small (sz - pos)) by lia.
  apply (find_loop_spec h body t area sz (elem0 :: rest) count elem0 rest R eq_refl);
    lia.
Qed.

(** The loop of [rfind(ch, pos)]. *)
Lemma rfind_char_loop_spec h body t area sz ch (n : nat) :
  repr h body t area sz -> Z.of_nat n <= sz ->
  (exists r, 0 <= r < Z.of_nat n /\ area !! Z.to_nat r = Some ch /\
             (forall j, r < j < Z.of_nat n -> area !! Z.to_nat j <> Some ch) /\
             basic_small_string.rfind_char_loop h body ch n = Ok r) \/
  ((forall j, 0 <= j < Z.of_nat n -> area !! Z.to_nat j <> Some ch) /\
   basic_small_string.rfind_char_loop h body ch n = Ok basic_small_string.npos).
Proof.
  intros R. pose proof (repr_bounds _ R) as [B Lb].
  pose proof (nt_range NullTerminated) as Hnt.
  induction n as [|n IH]; intros Hn.
  { right. split; [intros; lia | reflexivity]. }
  cbn [basic_small_string.rfind_char_loop].
  destruct (lookup_lt_is_Some_2 area n ltac:(lia)) as [b Eb].
  change (get_buffer body) with (basic_small_string.data body).
  rewrite (deref_repr NullTerminated h body t area sz (Z.of_nat n) b R ltac:(lia))
    by (rewrite Nat2Z.id; exact Eb).
  rewrite bind_ok. destruct (traits_type.eq b ch) eqn:Ec.
  - apply eq_true in Ec as ->. left. exists (Z.of_nat n). split; [lia|].
    split; [rewrite Nat2Z.id; exact Eb|]. split; [intros; lia | reflexivity].
  - assert (Nb : b <> ch) by (intros ->; rewrite eq_refl_true in Ec; discriminate).
    assert (Last : forall j, j = Z.of_nat n -> area !! Z.to_nat j <> Some ch).
    { intros j ->. rewrite Nat2Z.id, Eb. intros [= ?]. congruence. }
    destruct (IH ltac:(lia)) as [(r & Hr & Er & Mr & Fr)|(Mr & Fr)]; rewrite Fr.
    + left. exists r. split; [lia|]. split; [exact Er|]. split; [|reflexivity].
      intros j Hj. destruct (Z.eq_dec j (Z.of_nat n)) as [E|N]; [apply Last, E|].
      apply Mr. lia.
    + right. split; [|reflexivity].
      intros j Hj. destruct (Z.eq_dec j (Z.of_nat n)) as [E|N]; [apply Last, E|].
      apply Mr. lia.
Qed.

(** [rfind(ch, pos)] *)
Lemma rfind_char_spec h body t area sz ch pos :
  repr h body t area sz -> 0 <= pos ->
  (exists r, 0 <= r < sz /\ r <= pos /\ area !! Z.to_nat r = Some ch /\
             (forall j, r < j < sz -> j <= pos -> area !! Z.to_nat j <> Some ch) /\
             basic_small_string.rfind_char h body ch pos = Ok r) \/
  ((forall j, 0 <= j < sz -> j <= pos -> area !! Z.to_nat j <> Some ch) /\
   basic_small_string.rfind_char h body ch pos = Ok basic_small_string.npos).
Proof.
  intros R Hp. pose proof (repr_bounds _ R) as [B Lb].
  unfold basic_small_string.rfind_char.
  rewrite (string_size_repr _ _ _ _ _ _ R). rewrite bind_ok.
  destruct (Z.ltb_spec 0 sz) as [Pos|Z0].
  2:{ right. split; [intros; lia | reflexivity]. }
  cbv zeta. set (m := if pos <? sz - 1 then pos else sz - 1).
  assert (Hm : m = Z.min pos (sz - 1)) by (unfold m; destruct (Z.ltb_spec pos (sz - 1)); lia).
  destruct (rfind_char_loop_spec h body t area sz ch (Z.to_nat (m + 1)) R ltac:(lia))
    as [(r & Hr & Er & Mr & Fr)|(Mr & Fr)]; rewrite Fr.
  - left. exists r. split; [lia|]. split; [lia|]. split; [exact Er|].
    split; [|reflexivity]. intros j Hj Hj2. apply Mr. lia.
  - right. split; [|reflexivity]. intros j Hj Hj2. apply Mr. lia.
Qed.

(** [compare(other)] *)
Lemma compare_spec h body t area sz other to ao so :
  repr h body t area sz -> repr h other to ao so ->
  exists r,
    basic_small_string.compare h body other = Ok r /\
    (r < 0 <-> lex_lt (inv.content area sz) (inv.content ao so)) /\
    (r > 0 <-> lex_lt (inv.content ao so) (inv.content area sz)) /\
    (r = 0 <-> inv.content area sz = inv.content ao so).
Proof.
  intros R Ro. pose proof (repr_bounds _ R) as [B Lb].
  pose proof (repr_bounds _ Ro) as [Bo Lo]. pose proof (nt_range NullTerminated) as Hnt.
  unfold basic_small_string.compare.
  rewrite (string_size_repr _ _ _ _ _ _ R), (string_size_repr _ _ _ _ _ _ Ro).
  rewrite !bind_ok.
  change (basic_small_string.data body) with (begin_ptr body).
  change (basic_small_string.data other) with (begin_ptr other).
  rewrite <- (ptr_add_0 (begin_ptr body)), <- (ptr_add_0 (begin_ptr other)).
  rewrite (read_chars_repr _ _ _ _ _ _ 0 (Z.min sz so) R) by lia.
  rewrite (read_chars_repr _ _ _ _ _ _ 0 (Z.min sz so) Ro) by lia.
  rewrite !bind_ok. eexists. split; [reflexivity|].
  pose proof (compare_lex (inv.content area sz) (inv.content ao so)) as X.
  cbn zeta in X.
  assert (L1 : len (inv.content area sz) = sz) by (apply len_content; lia).
  assert (L2 : len (inv.content ao so) = so) by (apply len_content; lia).
  rewrite L1, L2 in X.
  replace (Nat.min (length (inv.content area sz)) (length (inv.content ao so)))
    with (Z.to_nat (Z.min sz so)) in X by lia.
  rewrite !take_content in X by lia.
  set (r := traits_type.compare _ _) in *. destruct X as (X1 & X2 & X3).
  rewrite <- X1, <- X2, <- X3.
  destruct (Z.eqb_spec r 0) as [Ez|Nz]; cbn [negb].
  - destruct (Z.ltb_spec so sz); [lia|]. destruct (Z.ltb_spec sz so); lia.
  - lia.
Qed.

(** [compare(pos1, count1, str, count2)] *)
Lemma compare_chars_throws h body t area sz pos1 count1 str count2 :
  repr h body t area sz -> sz < pos1 ->
  basic_small_string.compare_chars h body pos1 count1 str count2 = Throw out_of_range.
Proof.
  intros R Hp. unfold basic_small_string.compare_chars.
  rewrite (string_size_repr _ _ _ _ _ _ R). rewrite bind_ok.
  rewrite (proj2 (Z.ltb_lt sz pos1)) by exact Hp. reflexivity.
Qed.

Lemma compare_chars_spec h body t area sz pos1 count1 str count2 :
  repr h body t area sz -> 0 <= pos1 <= sz -> 0 <= count1 -> 0 <= count2 <= len str ->
  exists r,
    basic_small_string.compare_chars h body pos1 count1 str count2 = Ok r /\
    let sub := slice area pos1 (Z.min count1 (sz - pos1)) in
    (r < 0 <-> lex_lt sub (slice str 0 count2)) /\
    (r > 0 <-> lex_lt (slice str 0 count2) sub) /\
    (r = 0 <-> sub = slice str 0 count2).
Proof.
  intros R Hp Hc1 Hc2. pose proof (repr_bounds _ R) as [B Lb].
  pose proof (nt_range NullTerminated) as Hnt.
  unfold basic_small_string.compare_chars.
  rewrite (string_size_repr _ _ _ _ _ _ R). rewrite bind_ok.
  rewrite (proj2 (Z.ltb_ge sz pos1)) by lia.
  rewrite (u32_small (sz - pos1)) by lia.
  set (rc := Z.min count1 (sz - pos1)).
  change (basic_small_string.data body) with (begin_ptr body).
  rewrite (read_chars_repr _ _ _ _ _ _ pos1 (Z.min rc count2) R) by lia.
  rewrite bind_ok. rewrite block_read_ok by lia. rewrite bind_ok.
  eexists. split; [reflexivity|]. cbv zeta.
  pose proof (compare_lex (slice area pos1 rc) (slice str 0 count2)) as X.
  cbn zeta in X.
  assert (L1 : len (slice area pos1 rc) = rc) by (apply length_slice; lia).
  assert (L2 : len (slice str 0 count2) = count2) by (apply length_slice; lia).
  rewrite L1, L2 in X.
  replace (Nat.min (length (slice area pos1 rc)) (length (slice str 0 count2)))
    with (Z.to_nat (Z.min rc count2)) in X by lia.
  rewrite !take_slice in X by lia.
  set (r := traits_type.compare _ _) in *. destruct X as (X1 & X2 & X3).
  rewrite <- X1, <- X2, <- X3.
  destruct (Z.eqb_spec r 0) as [Ez|Nz]; cbn [negb].
  - destruct (Z.ltb_spec count2 rc); [lia|]. destruct (Z.ltb_spec rc count2); lia.
  - lia.
Qed.

(** [starts_with(view)] *)
Lemma starts_with_spec h body t area sz (view : list byte) :
  repr h body t area sz ->
  exists b,
    basic_small_string.starts_with h body view = Ok b /\
    (b = true <-> view `prefix_of` inv.content area sz).
Proof.
  intros R. pose proof (repr_bounds _ R) as [B Lb].
  pose proof (nt_range NullTerminated) as Hnt.
  assert (Lc : len (inv.content area sz) = sz) by (apply len_content; lia).
  unfold basic_small_string.starts_with.
  rewrite (string_size_repr _ _ _ _ _ _ R). rewrite bind_ok.
  destruct (Z.leb_spec (len view) sz) as [Le|Gt].
  - rewrite (u32_small (len view)) by lia.
    destruct (compare_chars_spec h body t area sz 0 (len view) view (len view) R)
      as (r & E & _ & _ & X); [lia..|].
    rewrite E. rewrite bind_ok. eexists. split; [reflexivity|].
    rewrite Z.eqb_eq. rewrite X. rewrite slice_all.
    replace (Z.min (len view) (sz - 0)) with (len view) by lia.
    rewrite <- (take_content area sz (len view)) by lia. rewrite Nat2Z.id. split.
    + intros <-. apply prefix_take.
    + intros (k & ->). rewrite take_app_length. reflexivity.
  - eexists. split; [reflexivity|]. split; [discriminate|].
    intros P. apply prefix_length in P. lia.
Qed.

(** [ends_with(view)] *)
Lemma ends_with_spec h body t area sz (view : list byte) :
  repr h body t area sz ->
  exists b,
    basic_small_string.ends_with h body view = Ok b /\
    (b = true <-> view `suffix_of` inv.content area sz).
Proof.
  intros R. pose proof (repr_bounds _ R) as [B Lb].
  pose proof (nt_range NullTerminated) as Hnt.
  assert (Lc : len (inv.content area sz) = sz) by (apply len_content; lia).
  unfold basic_small_string.ends_with.
  rewrite (string_size_repr _ _ _ _ _ _ R). rewrite bind_ok.
  destruct (Z.leb_spec (len view) sz) as [Le|Gt].
  - rewrite (u32_small (len view)) by lia.
    rewrite (u32_small (sz - len view)) by lia.
    destruct (compare_chars_spec h body t area sz (sz - len view) (len view) view
                (len view) R) as (r & E & _ & _ & X); [lia..|].
    rewrite E. rewrite bind_ok. eexists. split; [reflexivity|].
    rewrite Z.eqb_eq. rewrite X. rewrite slice_all.
    replace (Z.min (len view) (sz - (sz - len view))) with (len view) by lia.
    assert (Ed : drop (Z.to_nat (sz - len view)) (inv.content area sz)
                 = slice area (sz - len view) (len view))
      by (rewrite drop_content by lia; f_equal; lia).
    rewrite <- Ed. split.
    + intros <-. apply suffix_drop.
    + intros (k & E'). rewrite E'. rewrite E' in Lc. rewrite length_app in Lc.
      replace (Z.to_nat (sz - len view)) with (length k) by lia.
      apply drop_app_length.
  - eexists. split; [reflexivity|]. split; [discriminate|].
    intros P. apply suffix_length in P. lia.
Qed.

Lemma std_equal_true (s1 s2 : list byte) : std_equal s1 s2 = true <-> s1 = s2.
Proof.
  revert s2. induction s1 as [|a s1 IH]; intros [|b s2]; cbn [std_equal];
    try (split; [discriminate | discriminate]); [tauto|].
  rewrite andb_true_iff, eq_true, IH. split; [intros [-> ->]; reflexivity|].
  intros [= -> ->]. auto.
Qed.

(** [operator==(lhs, rhs)] *)
Lemma equal_spec h lhs tl al sl rhs tr ar sr :
  repr h lhs tl al sl -> repr h rhs tr ar sr ->
  exists b,
    basic_small_string.equal h lhs rhs = Ok b /\
    (b = true <-> inv.content al sl = inv.content ar sr).
Proof.
  intros Rl Rr. pose proof (repr_bounds _ Rl) as [Bl Ll].
  pose proof (repr_bounds _ Rr) as [Br Lr]. pose proof (nt_range NullTerminated) as Hnt.
  unfold basic_small_string.equal.
  rewrite (string_size_repr _ _ _ _ _ _ Rl), (string_size_repr _ _ _ _ _ _ Rr).
  rewrite !bind_ok. destruct (Z.eqb_spec sl sr) as [->|Ne].
  - rewrite (read_content _ _ _ _ _ _ Rl), (read_content _ _ _ _ _ _ Rr).
    rewrite !bind_ok. eexists. split; [reflexivity|]. apply std_equal_true.
  - eexists. split; [reflexivity|]. split; [discriminate|].
    intros E. apply (f_equal (fun l => len l)) in E.
    rewrite !len_content in E by lia. contradiction.
Qed.

(** [front()] and [back()] *)
Lemma front_spec h body t area sz :
  repr h body t area sz ->
  basic_small_string.front h body
  = match area with b :: _ => Ok b | [] => Abort end.
Proof.
  intros R. unfold basic_small_string.front.
  pose proof (repr_len_area _ R) as La.
  destruct area as [|b area]; [destruct t; cbn [length] in La; lia|].
  rewrite <- (ptr_add_0 (basic_small_string.data body)).
  apply (deref_repr NullTerminated h body t (b :: area) sz 0 b R); [lia | reflexivity].
Qed.

Lemma back_spec h body t area sz :
  repr h body t area sz ->
  basic_small_string.back h body
  = if sz =? 0 then Abort
    else match area !! Z.to_nat (sz - 1) with Some b => Ok b | None => Abort end.
Proof.
  intros R. pose proof (repr_bounds _ R) as [B Lb].
  pose proof (nt_range NullTerminated) as Hnt.
  unfold basic_small_string.back, small_string_buffer.size.
  rewrite (size_repr _ R). rewrite bind_ok.
  change (get_buffer body) with (basic_small_string.data body).
  destruct (Z.eqb_spec sz 0) as [->|Nz].
  - change (u32 (0 - 1)) with (2 ^ 32 - 1).
    unfold basic_small_string.deref, basic_small_string.data, get_buffer.
    rewrite (read_chars_outside _ _ _ _ _ (2 ^ 32 - 1) 1 R) by lia. reflexivity.
  - rewrite (u32_small (sz - 1)) by lia.
    destruct (lookup_lt_is_Some_2 area (Z.to_nat (sz - 1)) ltac:(lia)) as [b Eb].
    rewrite Eb. apply (deref_repr NullTerminated h body t area sz (sz - 1) b R); [lia|exact Eb].
Qed.

(** [copy(dest, count, pos)] *)
Lemma copy_throws h body t area sz dest count pos :
  repr h body t area sz -> sz < pos ->
  basic_small_string.copy h body dest count pos = Throw out_of_range.
Proof.
  intros R Hp. unfold basic_small_string.copy.
  rewrite (string_size_repr _ _ _ _ _ _ R). rewrite bind_ok.
  rewrite (proj2 (Z.ltb_lt sz pos)) by exact Hp. reflexivity.
Qed.

Lemma copy_spec h body t area sz (dest : list byte) count pos :
  repr h body t area sz -> 0 <= pos <= sz -> 0 <= count < 2 ^ 32 ->
  count = basic_small_string.npos \/ pos + count < 2 ^ 32 ->
  basic_small_string.copy h body dest count pos
  = if Z.min count (sz - pos) <=? len dest
    then Ok (splice dest 0 (slice area pos (Z.min count (sz - pos))),
             Z.min count (sz - pos))
    else Abort.
Proof.
  intros R Hp Hc Hw. pose proof (repr_bounds _ R) as [B Lb].
  pose proof (nt_range NullTerminated) as Hnt.
  unfold basic_small_string.copy.
  rewrite (string_size_repr _ _ _ _ _ _ R). rewrite bind_ok.
  rewrite (proj2 (Z.ltb_ge sz pos)) by lia.
  rewrite (u64_small (sz - pos)) by lia. rewrite (u32_small (sz - pos)) by lia.
  set (n := Z.min count (sz - pos)).
  assert (En : (if (count =? basic_small_string.npos) || (sz <? u32 (pos + count))
                then sz - pos else count) = n).
  { destruct (Z.eqb_spec count basic_small_string.npos) as [E|N]; cbn [orb].
    - unfold basic_small_string.npos in E. lia.
    - destruct Hw as [|Hw]; [contradiction|]. rewrite (u32_small (pos + count)) by lia.
      destruct (Z.ltb_spec sz (pos + count)); lia. }
  rewrite En. change (basic_small_string.data body) with (begin_ptr body).
  rewrite (read_chars_repr _ _ _ _ _ _ pos n R) by lia. rewrite bind_ok.
  assert (Ls : len (slice area pos n) = n) by (apply length_slice; lia).
  unfold block_write. rewrite Ls. cbn [Z.leb andb]. rewrite Z.add_0_l.
  destruct (n <=? len dest); reflexivity.
Qed.

(** [copy]: when [pos + count] wraps around, [count] is not cut down to
    what the string holds, and the copy reads past the buffer. *)
Lemma copy_wraps h body t area sz (dest : list byte) count pos :
  repr h body t area sz -> 0 <= pos <= sz -> 0 <= count < 2 ^ 32 ->
  count <> basic_small_string.npos -> 2 ^ 32 <= pos + count ->
  basic_small_string.copy h body dest count pos = Abort.
Proof.
  intros R Hp Hc Nn Hw. pose proof (repr_bounds _ R) as [B Lb].
  pose proof (nt_range NullTerminated) as Hnt.
  unfold basic_small_string.copy.
  rewrite (string_size_repr _ _ _ _ _ _ R). rewrite bind_ok.
  rewrite (proj2 (Z.ltb_ge sz pos)) by lia.
  rewrite (proj2 (Z.eqb_neq count _)) by exact Nn. cbn [orb].
  assert (Eu : u32 (pos + count) = pos + count - 2 ^ 32).
  { unfold u32. rewrite <- (Z.mod_add (pos + count) (-1) (2 ^ 32)) by lia.
    rewrite Z.mod_small by lia. lia. }
  rewrite Eu. rewrite (proj2 (Z.ltb_ge sz _)) by lia.
  change (basic_small_string.data body) with (begin_ptr body).
  rewrite (read_chars_outside _ _ _ _ _ pos count R) by lia. reflexivity.
Qed.

End NullTerminated.
End query_specs.

Section Members.
Context (NullTerminated : bool).

Import malloc_core core_specs core_access small_string_buffer selector
  string_specs append_specs ctor_specs program program_specs observe observe_specs
  content_specs member_specs extended_specs query_specs.

Abbreviation nt := (nt_bytes NullTerminated).
Abbreviation reachable := (extended.reachable NullTerminated).
Abbreviation exec := (extended.exec NullTerminated).

Lemma holds_evolves h body h' body' other bs :
  inv.wf_string NullTerminated h other -> holds h other bs ->
  inv.evolves h body h' body' ->
  (forall p, inv.owner other = Some p -> inv.owner body <> Some p) ->
  holds h' other bs.
Proof.
  intros (to & ao & so & Ro & _) Hb Ev D.
  destruct (holds_inv _ _ _ _ _ _ _ Ro Hb) as (-> & _).
  apply (holds_repr _ _ _ _ _ _ (repr_evolves _ _ _ _ _ _ _ _ _ Ev Ro D)).
Qed.

Lemma take_slice_min (l : list byte) off n k :
  0 <= k -> 0 <= n -> take (Z.to_nat k) (slice l off n) = slice l off (Z.min k n).
Proof.
  intros Hk Hn. unfold slice. rewrite take_take. f_equal. lia.
Qed.

Lemma put_same (w : state) i _core :
  strings w !! i = Some _core -> put w i (heap_of w) _core = w.
Proof.
  intros E. destruct w as [h m]. unfold put. cbn [heap_of strings] in *.
  f_equal. apply insert_id, E.
Qed.

(** C1: in every reachable state of a program, that is after any sequence
    of public operations that return -- the constructions (default, fill,
    from characters, copy, move, the two uninitialized ones, the one that
    takes a buffer layout being given a layout that is valid for the
    size), destruction, copy and move assignment, [assign], [append],
    [insert], [erase], [replace], [push_back], [pop_back], [resize],
    [reserve], [shrink_to_fit], [clear], [swap], [substr] and
    [operator+] -- [size()] and [capacity()] of every string return, and
    [size() <= capacity()]. *)
Theorem size_le_capacity w i _core :
  reachable w -> strings w !! i = Some _core ->
  exists n cap,
    basic_small_string.size (heap_of w) _core = Ok n /\
    basic_small_string.capacity NullTerminated (heap_of w) _core = Ok cap /\
    n <= cap.
Proof.
  intros Rw E. destruct (reachable_wf_ext _ w Rw) as (Wf & _).
  destruct (Wf i _core E) as (t & area & sz & R & _).
  exists sz, (len area - nt).
  split; [apply (string_size_repr _ _ _ _ _ _ R)|].
  split; [apply (string_capacity_repr _ _ _ _ _ _ R)|].
  apply (repr_bounds _ R).
Qed.

(** X11: The further members keep what the basic ones keep: in every state of
    a program that also uses copy assignment, [append(other)],
    [append(count, ch)], [insert(index, count, ch)], the two [replace],
    [resize(count)], the two [substr] and [operator+], every string has
    [size() <= capacity()], its terminator when the policy asks for one,
    and a live allocation that no other string uses. *)
Theorem further_members_keep_invariants w i _core :
  reachable w -> strings w !! i = Some _core ->
  (exists n cap,
     basic_small_string.size (heap_of w) _core = Ok n /\
     basic_small_string.capacity NullTerminated (heap_of w) _core = Ok cap /\
     n <= cap /\
     (NullTerminated = true ->
      basic_small_string.deref (heap_of w) _core
        (ptr_add (basic_small_string.data _core) n) = Ok zero)) /\
  (forall p, inv.owner _core = Some p ->
     is_Some (heap_of w !! p) /\
     forall j cj, i <> j -> strings w !! j = Some cj -> inv.owner cj <> Some p).
Proof.
  intros Rw E. pose proof (reachable_wf_ext _ w Rw) as (Wf & Dj).
  destruct (Wf i _core E) as (t & area & sz & R & T).
  pose proof (repr_bounds _ R) as [B _]. split.
  - exists sz, (len area - nt).
    split; [apply (string_size_repr _ _ _ _ _ _ R)|].
    split; [apply (string_capacity_repr _ _ _ _ _ _ R)|]. split; [lia|].
    intros N. apply (deref_repr _ _ _ _ _ _ _ _ R (proj1 B)). apply T, N.
  - intros p Op. split; [apply (repr_owned _ _ _ _ _ _ _ R Op)|].
    intros j cj Nij Ej. apply (Dj i j _core cj p Nij E Ej Op).
Qed.

(** X12: When copy assignment [a = b] returns, [a] reads as [b] did, and
    [b] is as it was; [a = a] changes nothing. *)
Theorem copy_assignment w i j c _core other bs w' :
  reachable w -> strings w !! i = Some _core -> strings w !! j = Some other ->
  holds (heap_of w) other bs ->
  exec w (extended.CopyAssign i c j) = Ok w' ->
  (i = j -> w' = w) /\
  exists core',
    strings w' !! i = Some core' /\ holds (heap_of w') core' bs /\
    (i <> j -> strings w' !! j = Some other /\ holds (heap_of w') other bs).
Proof.
  intros Rw Ei Ej Hb H. pose proof (reachable_wf_ext _ w Rw) as W.
  cbn [extended.exec] in H.
  destruct (extended.operand_of w i j) as [o|] eqn:Ho; [|discriminate].
  pose proof (operand_of_wf _ _ _ _ _ _ W Ei Ho) as Hw.
  destruct (on_string_inv _ _ _ _ H) as (b & h' & b' & Eb & A & ->).
  rewrite Ei in Eb. injection Eb as <-. destruct o as [|o].
  - subst j. injection A as <- <-. rewrite Ej in Ei. injection Ei as ->.
    split; [intros _; apply put_same, Ej|]. exists _core. cbn [heap_of strings put].
    split; [apply lookup_insert_eq|]. split; [exact Hb | congruence].
  - destruct Hw as (Nij & Ej' & to & ao & so & Ro & _ & D).
    rewrite Ej in Ej'. injection Ej' as <-.
    destruct (W) as (Wf & _). destruct (Wf i _core Ei) as (t & area & sz & R & T).
    destruct (copy_assign_post _ _ _ _ _ _ _ _ _ _ _ _ _ R Ro D A)
      as (t' & area' & R' & _ & C' & Ev).
    destruct (holds_inv _ _ _ _ _ _ _ Ro Hb) as (-> & _).
    split; [intros; contradiction|]. exists b'. cbn [heap_of strings put].
    split; [apply lookup_insert_eq|]. split.
    { rewrite <- C'. apply (holds_repr _ _ _ _ _ _ R'). }
    intros _. split; [rewrite lookup_insert_ne by exact Nij; exact Ej|].
    apply (holds_repr _ _ _ _ _ _ (repr_evolves _ _ _ _ _ _ _ _ _ Ev Ro D)).
Qed.

(** X13: When [a.append(b)] returns, [a] reads as its old content
    followed by what [b] read as; [a.append(a)] doubles [a]: the argument
    is read after the buffer of [a] was replaced. *)
Theorem append_string_appends w i j c _core other bs bo w' :
  reachable w -> strings w !! i = Some _core -> holds (heap_of w) _core bs ->
  strings w !! j = Some other -> holds (heap_of w) other bo ->
  exec w (extended.AppendString i c j) = Ok w' ->
  exists core',
    strings w' !! i = Some core' /\ holds (heap_of w') core' (bs ++ bo).
Proof.
  intros Rw Ei Hb Ej Ho H. pose proof (reachable_wf_ext _ w Rw) as W.
  destruct (wf_repr _ w i _core bs W Ei Hb) as (t & area & R & T & C).
  cbn [extended.exec] in H.
  destruct (extended.operand_of w i j) as [o|] eqn:Eo; [|discriminate].
  pose proof (operand_of_wf _ _ _ _ _ _ W Ei Eo) as Hw.
  destruct (on_string_inv _ _ _ _ H) as (b & h' & b' & Eb & A & ->).
  rewrite Ei in Eb. injection Eb as <-.
  assert (X : match o with
              | basic_small_string.itself => bo = inv.content area (len bs)
              | basic_small_string.another o =>
                  exists to ao so,
                    inv.repr NullTerminated (heap_of w) o to ao so /\
                    bo = inv.content ao so /\
                    (forall p, inv.owner o = Some p -> inv.owner _core <> Some p)
              end).
  { destruct o as [|o].
    - subst j. rewrite Ej in Ei. injection Ei as ->. rewrite <- C.
      apply (holds_fun _ _ _ _ Ho Hb).
    - destruct Hw as (_ & Ej' & to & ao & so & Ro & _ & D).
      rewrite Ej in Ej'. injection Ej' as <-. exists to, ao, so.
      split; [exact Ro|]. split; [|exact D].
      apply (holds_inv _ _ _ _ _ _ _ Ro Ho). }
  destruct (append_string_post _ _ _ _ _ _ _ o bo _ _ R T X A)
    as (t' & area' & R' & _ & C' & _).
  exists b'. cbn [heap_of strings put]. split; [apply lookup_insert_eq|].
  pose proof (holds_repr _ _ _ _ _ _ R') as Hh. rewrite C', <- C in Hh. exact Hh.
Qed.

(** X14: When [append(count, ch)] returns, [count] times [ch] stand at
    the end; when [insert(index, count, ch)] returns, they stand before
    the character [index].  [insert(index, count, ch)] throws
    [std::out_of_range] when [index > size()], and with [count = 0]
    returns before it looks at [index]. *)
Theorem fill_members w i c _core bs index count ch :
  reachable w -> strings w !! i = Some _core -> holds (heap_of w) _core bs ->
  0 <= index < 2 ^ 32 -> 0 <= count < 2 ^ 32 ->
  (forall w', exec w (extended.AppendFill i c count ch) = Ok w' ->
     exists core',
       strings w' !! i = Some core' /\
       holds (heap_of w') core' (bs ++ replicate (Z.to_nat count) ch)) /\
  (forall w', 0 < count -> exec w (extended.InsertFill i c index count ch) = Ok w' ->
     index <= len bs /\
     exists core',
       strings w' !! i = Some core' /\
       holds (heap_of w') core'
         (take (Z.to_nat index) bs ++ replicate (Z.to_nat count) ch
          ++ drop (Z.to_nat index) bs)) /\
  (0 < count -> len bs < index ->
   exec w (extended.InsertFill i c index count ch) = Throw out_of_range) /\
  (count = 0 -> exec w (extended.InsertFill i c index count ch) = Ok w).
Proof.
  intros Rw Ei Hb Hi Hc. pose proof (reachable_wf_ext _ w Rw) as W.
  destruct (wf_repr _ w i _core bs W Ei Hb) as (t & area & R & T & C).
  pose proof (repr_bounds _ R) as [B _]. pose proof (nt_range NullTerminated) as Hnt.
  pose proof (block_read_all (replicate (Z.to_nat count) ch)) as Er.
  rewrite len_replicate in Er by lia.
  assert (Sr : slice (replicate (Z.to_nat count) ch) 0 count = replicate (Z.to_nat count) ch).
  { pose proof (slice_all (replicate (Z.to_nat count) ch)) as X.
    rewrite len_replicate in X by lia. exact X. }
  split; [|split; [|split]].
  - intros w' H. cbn [extended.exec] in H.
    destruct (on_string_inv _ _ _ _ H) as (b & h' & b' & Eb & A & ->).
    rewrite Ei in Eb. injection Eb as <-.
    rewrite append_fill_eq in A by lia.
    destruct (append_post _ _ _ _ _ _ _ _ _ _ _ R Hc A)
      as (src & Lsrc & Rd & t' & area' & R' & _ & C' & _).
    assert (Es : src = slice (replicate (Z.to_nat count) ch) 0 count).
    { destruct (Z.eq_dec count 0) as [->|Nz].
      - destruct src; [reflexivity | discriminate].
      - destruct (Rd Nz) as (h1 & b1 & _ & Eb).
        apply read_from_array in Eb as (_ & ->). reflexivity. }
    subst src.
    exists b'. cbn [heap_of strings put]. split; [apply lookup_insert_eq|].
    pose proof (holds_repr _ _ _ _ _ _ R') as Hh.
    rewrite C', <- C, Sr in Hh. exact Hh.
  - intros w' Pc H. cbn [extended.exec] in H.
    destruct (on_string_inv _ _ _ _ H) as (b & h' & b' & Eb & A & ->).
    rewrite Ei in Eb. injection Eb as <-.
    rewrite (insert_fill_eq _ _ _ _ _ _ _ _ _ _ R Hc) in A.
    destruct (insert_array _ c _ _ _ _ _ index _ count _ _ R Hi ltac:(lia) A)
      as (Le & _ & t' & area' & R' & C').
    split; [exact Le|]. exists b'. cbn [heap_of strings put].
    split; [apply lookup_insert_eq|].
    pose proof (holds_repr _ _ _ _ _ _ R') as Hh. rewrite C', Sr in Hh.
    rewrite C. rewrite take_content, drop_content by lia. exact Hh.
  - intros Pc Gt. cbn [extended.exec].
    apply (exec_on_string_throw w i _core _ _ Ei).
    rewrite (insert_fill_eq _ _ _ _ _ _ _ _ _ _ R Hc).
    apply (insert_throws _ c _ _ _ _ _ index _ count R); lia.
  - intros ->. cbn [extended.exec].
    rewrite (exec_on_string w i _core _ (heap_of w) _core Ei eq_refl).
    f_equal. apply put_same, Ei.
Qed.

(** X15: [replace(pos, count, str, count2)] throws [std::out_of_range] when
    [pos > size()]; when it returns, the [min(count, size() - pos)]
    characters from [pos] on have given way to the first [count2]
    characters of [str], whichever of its three ways the code took.
    [replace(pos, count, count2, ch)] is the same with [count2] times
    [ch]. *)
Theorem replace_splices w i c _core bs pos count str count2 :
  reachable w -> strings w !! i = Some _core -> holds (heap_of w) _core bs ->
  0 <= pos < 2 ^ 32 -> 0 <= count < 2 ^ 32 -> 0 <= count2 < 2 ^ 32 ->
  (len bs < pos ->
   exec w (extended.Replace i c pos count str count2) = Throw out_of_range) /\
  (forall w', exec w (extended.Replace i c pos count str count2) = Ok w' ->
     pos <= len bs /\ count2 <= len str /\
     exists core',
       strings w' !! i = Some core' /\
       holds (heap_of w') core'
         (take (Z.to_nat pos) bs ++ take (Z.to_nat count2) str
          ++ drop (Z.to_nat (pos + Z.min count (len bs - pos))) bs)) /\
  (forall ch,
     exec w (extended.ReplaceFill i c pos count count2 ch)
     = exec w (extended.Replace i c pos count (replicate (Z.to_nat count2) ch) count2)).
Proof.
  intros Rw Ei Hb Hp Hc Hc2. pose proof (reachable_wf_ext _ w Rw) as W.
  destruct (wf_repr _ w i _core bs W Ei Hb) as (t & area & R & T & C).
  pose proof (repr_bounds _ R) as [B _]. pose proof (nt_range NullTerminated) as Hnt.
  set (sz := len bs) in *.
  split; [|split].
  - intros Gt. cbn [extended.exec]. apply (exec_on_string_throw w i _core _ _ Ei).
    apply (replace_throws _ _ _ _ _ _ _ _ _ _ _ R Gt).
  - intros w' H. cbn [extended.exec] in H.
    destruct (on_string_inv _ _ _ _ H) as (b & h' & b' & Eb & A & ->).
    rewrite Ei in Eb. injection Eb as <-.
    destruct (Z_lt_le_dec sz pos) as [Lt|Le].
    { rewrite (replace_throws _ _ _ _ _ _ _ _ _ _ _ R Lt) in A. discriminate. }
    assert (Hps : 0 <= pos <= sz) by lia.
    destruct (replace_post _ _ _ _ _ _ _ _ _ _ _ _ _ R T Hps Hc Hc2 A)
      as (Ls & t' & area' & R' & _ & C' & _).
    split; [exact Le|]. split; [exact Ls|]. exists b'. cbn [heap_of strings put].
    split; [apply lookup_insert_eq|].
    pose proof (holds_repr _ _ _ _ _ _ R') as Hh. rewrite C' in Hh.
    rewrite C. rewrite take_content by lia. rewrite drop_content by lia.
    replace (sz - (pos + Z.min count (sz - pos))) with (sz - pos - Z.min count (sz - pos))
      by lia.
    exact Hh.
  - intros ch. cbn [extended.exec]. unfold on_string. rewrite Ei.
    rewrite replace_fill_eq by lia. reflexivity.
Qed.

(** X16: [substr(pos, count) const&] throws [std::out_of_range] when
    [pos > size()]; when it returns, the new string reads as the
    [min(count, size() - pos)] characters from [pos] on, and the string it
    was taken from is as before. *)
Theorem substr_copies w i j c other bs pos count :
  reachable w -> strings w !! j = Some other -> holds (heap_of w) other bs ->
  0 <= pos < 2 ^ 32 -> 0 <= count < 2 ^ 32 ->
  (len bs < pos -> strings w !! i = None ->
   exec w (extended.Substr i c j pos count) = Throw out_of_range) /\
  (forall w', exec w (extended.Substr i c j pos count) = Ok w' ->
     pos <= len bs /\
     exists core',
       strings w' !! i = Some core' /\
       holds (heap_of w') core' (take (Z.to_nat count) (drop (Z.to_nat pos) bs)) /\
       strings w' !! j = Some other /\ holds (heap_of w') other bs).
Proof.
  intros Rw Ej Hb Hp Hc. pose proof (reachable_wf_ext _ w Rw) as W.
  destruct (wf_repr _ w j other bs W Ej Hb) as (t & area & R & T & C).
  pose proof (repr_bounds _ R) as [B _]. pose proof (nt_range NullTerminated) as Hnt.
  set (sz := len bs) in *. split.
  - intros Gt Ei. cbn [extended.exec]. rewrite Ej. unfold construct. rewrite Ei.
    rewrite (substr_throws _ _ _ _ _ _ _ _ _ R Gt). reflexivity.
  - intros w' H. cbn [extended.exec] in H. rewrite Ej in H. unfold construct in H.
    destruct (strings w !! i) as [x|] eqn:Ei; [discriminate|].
    assert (Nij : i <> j) by congruence.
    bind_inv H x A. destruct x as [h' b']. cbv beta iota in H. injection H as <-.
    destruct (Z_lt_le_dec sz pos) as [Lt|Le].
    { rewrite (substr_throws _ _ _ _ _ _ _ _ _ R Lt) in A. discriminate. }
    assert (Hps : 0 <= pos <= sz) by lia.
    destruct (substr_post _ _ _ _ _ _ _ _ _ _ _ R Hps Hc A)
      as (t' & area' & R' & _ & C' & Ev).
    split; [exact Le|]. exists b'. cbn [heap_of strings put].
    split; [apply lookup_insert_eq|]. split.
    { pose proof (holds_repr _ _ _ _ _ _ R') as Hh. rewrite C' in Hh.
      rewrite C, drop_content by lia. rewrite take_slice_min by lia. exact Hh. }
    split; [rewrite lookup_insert_ne by exact Nij; exact Ej|].
    apply (holds_evolves _ _ _ _ _ _ (proj1 W j other Ej) Hb Ev).
    intros p _. rewrite owner_default. discriminate.
Qed.

(** X17: When [substr(pos, count) &&] returns, what it returns reads as
    the [min(count, size() - pos)] characters from [pos] on, the same
    characters as the [const&] form gives, and the string itself is left
    empty. *)
Theorem substr_move_takes w i j c other bs pos count w' :
  reachable w -> strings w !! j = Some other -> holds (heap_of w) other bs ->
  0 <= pos < 2 ^ 32 -> 0 <= count < 2 ^ 32 ->
  exec w (extended.SubstrMove i c j pos count) = Ok w' ->
  pos <= len bs /\
  exists core',
    strings w' !! i = Some core' /\
    holds (heap_of w') core' (take (Z.to_nat count) (drop (Z.to_nat pos) bs)) /\
    strings w' !! j = Some 0 /\ holds (heap_of w') 0 [].
Proof.
  intros Rw Ej Hb Hp Hc H. pose proof (reachable_wf_ext _ w Rw) as W.
  destruct (wf_repr _ w j other bs W Ej Hb) as (t & area & R & T & C).
  pose proof (repr_bounds _ R) as [B _]. pose proof (nt_range NullTerminated) as Hnt.
  set (sz := len bs) in *. cbn [extended.exec] in H. rewrite Ej in H.
  destruct (strings w !! i) as [x|] eqn:Ei; [discriminate|].
  assert (Nij : i <> j) by congruence.
  bind_inv H x A. destruct x as [[h' ret] o']. cbv beta iota in H. injection H as <-.
  destruct (Z_lt_le_dec sz pos) as [Lt|Le].
  { unfold basic_small_string.substr_move in A.
    rewrite (string_size_repr _ _ _ _ _ _ R) in A. rewrite bind_ok in A.
    rewrite (proj2 (Z.ltb_lt sz pos)) in A by exact Lt. discriminate. }
  assert (Hps : 0 <= pos <= sz) by lia.
  destruct (substr_move_post _ _ _ _ _ _ _ _ _ _ _ _ R T Hps Hc A)
    as (-> & t' & area' & R' & _ & C' & _).
  split; [exact Le|]. exists ret. cbn [heap_of strings put].
  split; [apply lookup_insert_eq|]. split.
  { pose proof (holds_repr _ _ _ _ _ _ R') as Hh. rewrite C' in Hh.
    rewrite C, drop_content by lia. rewrite take_slice_min by lia. exact Hh. }
  split; [rewrite lookup_insert_ne by exact Nij; apply lookup_insert_eq|].
  apply (holds_repr NullTerminated h' 0 Internal (internal_data 0) 0).
  apply wf_default.
Qed.

(** X18: When [lhs + rhs] returns, the new string reads as [lhs]
    followed by [rhs]; the two operands, which may be one string, are as
    before. *)
Theorem plus_concatenates w i j k c1 c2 lhs rhs bl br w' :
  reachable w -> strings w !! j = Some lhs -> strings w !! k = Some rhs ->
  holds (heap_of w) lhs bl -> holds (heap_of w) rhs br ->
  exec w (extended.Plus i c1 c2 j k) = Ok w' ->
  exists core',
    strings w' !! i = Some core' /\ holds (heap_of w') core' (bl ++ br) /\
    strings w' !! j = Some lhs /\ holds (heap_of w') lhs bl /\
    strings w' !! k = Some rhs /\ holds (heap_of w') rhs br.
Proof.
  intros Rw Ej Ek Hl Hr H. pose proof (reachable_wf_ext _ w Rw) as W.
  destruct (wf_repr _ w j lhs bl W Ej Hl) as (tl & al & Rl & _ & Cl).
  destruct (wf_repr _ w k rhs br W Ek Hr) as (tr & ar & Rr & _ & Cr).
  cbn [extended.exec] in H. rewrite Ej, Ek in H. unfold construct in H.
  destruct (strings w !! i) as [x|] eqn:Ei; [discriminate|].
  assert (Nij : i <> j) by congruence. assert (Nik : i <> k) by congruence.
  bind_inv H x A. destruct x as [h' b']. cbv beta iota in H. injection H as <-.
  destruct (plus_post _ _ _ _ _ _ _ _ _ _ _ _ _ _ Rl Rr A)
    as (t' & area' & R' & _ & C' & Ev).
  exists b'. cbn [heap_of strings put].
  split; [apply lookup_insert_eq|]. split.
  { pose proof (holds_repr _ _ _ _ _ _ R') as Hh. rewrite C', <- Cl, <- Cr in Hh.
    exact Hh. }
  split; [rewrite lookup_insert_ne by exact Nij; exact Ej|]. split.
  { apply (holds_evolves _ _ _ _ _ _ (proj1 W j lhs Ej) Hl Ev).
    intros p _. rewrite owner_default. discriminate. }
  split; [rewrite lookup_insert_ne by exact Nik; exact Ek|].
  apply (holds_evolves _ _ _ _ _ _ (proj1 W k rhs Ek) Hr Ev).
  intros p _. rewrite owner_default. discriminate.
Qed.

Lemma lookup_holds w i _core bs (k : Z) :
  reachable w -> strings w !! i = Some _core -> holds (heap_of w) _core bs ->
  exists t area,
    inv.repr NullTerminated (heap_of w) _core t area (len bs) /\
    inv.terminated NullTerminated area (len bs) /\
    bs = inv.content area (len bs) /\
    (forall k, 0 <= k < len bs -> area !! Z.to_nat k = bs !! Z.to_nat k) /\
    (forall off n, 0 <= off -> 0 <= n -> off + n <= len bs ->
       slice area off n = take (Z.to_nat n) (drop (Z.to_nat off) bs)).
Proof.
  intros Rw Ei Hb. pose proof (reachable_wf_ext _ w Rw) as W.
  destruct (wf_repr _ w i _core bs W Ei Hb) as (t & area & R & T & C).
  exists t, area. split; [exact R|]. split; [exact T|]. split; [exact C|]. split.
  - intros j Hj. rewrite C at 1. symmetry. apply lookup_content. exact Hj.
  - intros off n Ho Hn Hl. rewrite C at 1. rewrite drop_content by lia.
    rewrite take_slice by lia. reflexivity.
Qed.

(** X19: [copy(dest, count, pos)] throws [std::out_of_range] when
    [pos > size()]; otherwise it writes the [min(count, size() - pos)]
    characters from [pos] on at the start of [dest] and returns their
    number, provided [count] is [npos] or [pos + count] fits in 32 bits.
    When [pos + count] wraps around, [count] is not cut down and the copy
    reads past the buffer. *)
Theorem copy_copies_out w i _core bs (dest : list byte) count pos :
  reachable w -> strings w !! i = Some _core -> holds (heap_of w) _core bs ->
  0 <= pos < 2 ^ 32 -> 0 <= count < 2 ^ 32 ->
  (len bs < pos ->
   basic_small_string.copy (heap_of w) _core dest count pos = Throw out_of_range) /\
  (pos <= len bs -> count = basic_small_string.npos \/ pos + count < 2 ^ 32 ->
   basic_small_string.copy (heap_of w) _core dest count pos
   = if Z.min count (len bs - pos) <=? len dest
     then Ok (take (Z.to_nat count) (drop (Z.to_nat pos) bs)
              ++ drop (Z.to_nat (Z.min count (len bs - pos))) dest,
              Z.min count (len bs - pos))
     else Abort) /\
  (pos <= len bs -> count <> basic_small_string.npos -> 2 ^ 32 <= pos + count ->
   basic_small_string.copy (heap_of w) _core dest count pos = Abort).
Proof.
  intros Rw Ei Hb Hp Hc.
  destruct (lookup_holds w i _core bs 0 Rw Ei Hb) as (t & area & R & _ & C & _ & Sl).
  pose proof (repr_bounds _ R) as [B _]. pose proof (nt_range NullTerminated) as Hnt.
  set (sz := len bs) in *.
  split; [|split].
  - intros Gt. apply (copy_throws _ _ _ _ _ _ _ _ _ R Gt).
  - intros Le Hw. assert (Hps : 0 <= pos <= sz) by lia.
    rewrite (copy_spec _ _ _ _ _ _ dest count pos R Hps Hc Hw).
    assert (Ls : len (slice area pos (Z.min count (sz - pos))) = Z.min count (sz - pos))
      by (apply length_slice; lia).
    assert (Esp : splice dest 0 (slice area pos (Z.min count (sz - pos)))
                  = take (Z.to_nat count) (drop (Z.to_nat pos) bs)
                    ++ drop (Z.to_nat (Z.min count (sz - pos))) dest).
    { unfold splice. change (Z.to_nat 0) with 0%nat. cbn [take app Nat.add].
      replace (length (slice area pos (Z.min count (sz - pos))))
        with (Z.to_nat (Z.min count (sz - pos))) by lia.
      rewrite C at 1. rewrite drop_content by lia. rewrite take_slice_min by lia.
      reflexivity. }
    rewrite Esp. reflexivity.
  - intros Le Nn Hw. assert (Hps : 0 <= pos <= sz) by lia.
    apply (copy_wraps _ _ _ _ _ _ dest count pos R Hps Hc Nn Hw).
Qed.

(** X20: [find(ch, pos)] with [pos <= size()] returns the first position from
    [pos] on that holds [ch], or [npos] when there is none.  With
    [pos > size()] the search is outside the string: it never answers
    [npos], and a position it answers is past the end. *)
Theorem find_char_first w i _core bs ch pos :
  reachable w -> strings w !! i = Some _core -> holds (heap_of w) _core bs ->
  0 <= pos < 2 ^ 32 ->
  (pos <= len bs ->
   exists r,
     basic_small_string.find_char (heap_of w) _core ch pos = Ok r /\
     (forall j, pos <= j < Z.min r (len bs) -> bs !! Z.to_nat j <> Some ch) /\
     (r = basic_small_string.npos \/
      pos <= r < len bs /\ bs !! Z.to_nat r = Some ch)) /\
  (len bs < pos ->
   forall r, basic_small_string.find_char (heap_of w) _core ch pos = Ok r ->
             len bs < r < basic_small_string.npos).
Proof.
  intros Rw Ei Hb Hp.
  destruct (lookup_holds w i _core bs 0 Rw Ei Hb) as (t & area & R & _ & C & Lk & _).
  pose proof (repr_bounds _ R) as [B Lb]. pose proof (nt_range NullTerminated) as Hnt.
  set (sz := len bs) in *. split.
  - intros Le. assert (Hps : 0 <= pos <= sz) by lia.
    destruct (find_char_spec _ _ _ _ _ _ ch pos R Hps)
      as [(r & Hr & Er & Mr & Fr)|(Mr & Fr)].
    + exists r. split; [exact Fr|]. split.
      * intros j Hj. rewrite <- Lk by lia. apply Mr. lia.
      * right. split; [lia|]. rewrite <- Lk by lia. exact Er.
    + exists basic_small_string.npos. split; [exact Fr|]. split; [|left; reflexivity].
      intros j Hj. rewrite <- Lk by lia. apply Mr. lia.
  - intros Gt r Fr. apply (find_char_beyond _ _ _ _ _ _ ch pos r R); [lia | exact Fr].
Qed.

(** X21: [find(str, pos, count)] returns the first position from [pos] on
    where the first [count] characters of [str] occur in the string, or
    [npos] when they occur nowhere from [pos] on; the empty sequence
    occurs at every position up to [size()]. *)
Theorem find_first_match w i _core bs str pos count :
  reachable w -> strings w !! i = Some _core -> holds (heap_of w) _core bs ->
  0 <= pos < 2 ^ 32 -> 0 <= count <= len str ->
  exists r,
    basic_small_string.find (heap_of w) _core str pos count = Ok r /\
    (forall k, pos <= k -> k < r -> k + count <= len bs ->
       take (Z.to_nat count) (drop (Z.to_nat k) bs) <> take (Z.to_nat count) str) /\
    (r = basic_small_string.npos \/
     pos <= r /\ r + count <= len bs /\
     take (Z.to_nat count) (drop (Z.to_nat r) bs) = take (Z.to_nat count) str).
Proof.
  intros Rw Ei Hb Hp Hc.
  destruct (lookup_holds w i _core bs 0 Rw Ei Hb) as (t & area & R & _ & C & _ & Sl).
  pose proof (repr_bounds _ R) as [B Lb]. pose proof (nt_range NullTerminated) as Hnt.
  set (sz := len bs) in *.
  assert (Es : slice str 0 count = take (Z.to_nat count) str).
  { unfold slice. change (Z.to_nat 0) with 0%nat. rewrite drop_0. reflexivity. }
  destruct (find_spec _ _ _ _ _ _ str pos count R Hp Hc)
    as [(r & Hr1 & Hr2 & Er & Mr & Fr)|(Mr & Fr)].
  - exists r. split; [exact Fr|]. split.
    + intros k Hk1 Hk2 Hk3. rewrite <- Sl, <- Es by lia. apply Mr. lia.
    + right. split; [exact Hr1|]. split; [exact Hr2|].
      rewrite <- Sl, <- Es by lia. exact Er.
  - exists basic_small_string.npos. split; [exact Fr|]. split; [|left; reflexivity].
    intros k Hk1 Hk2 Hk3. rewrite <- Sl, <- Es by lia. apply Mr; lia.
Qed.

(** X22: [rfind(ch, pos)] returns the last position up to [pos] that holds
    [ch], or [npos] when there is none. *)
Theorem rfind_char_last w i _core bs ch pos :
  reachable w -> strings w !! i = Some _core -> holds (heap_of w) _core bs ->
  0 <= pos < 2 ^ 32 ->
  exists r,
    basic_small_string.rfind_char (heap_of w) _core ch pos = Ok r /\
    (r = basic_small_string.npos /\
     (forall j, 0 <= j < len bs -> j <= pos -> bs !! Z.to_nat j <> Some ch) \/
     0 <= r < len bs /\ r <= pos /\ bs !! Z.to_nat r = Some ch /\
     (forall j, r < j < len bs -> j <= pos -> bs !! Z.to_nat j <> Some ch)).
Proof.
  intros Rw Ei Hb Hp.
  destruct (lookup_holds w i _core bs 0 Rw Ei Hb) as (t & area & R & _ & C & Lk & _).
  set (sz := len bs) in *.
  destruct (rfind_char_spec _ _ _ _ _ _ ch pos R ltac:(lia))
    as [(r & Hr & Hr2 & Er & Mr & Fr)|(Mr & Fr)].
  - exists r. split; [exact Fr|]. right. split; [exact Hr|]. split; [exact Hr2|].
    split; [rewrite <- Lk by lia; exact Er|].
    intros j Hj Hj2. rewrite <- Lk by lia. apply Mr; lia.
  - exists basic_small_string.npos. split; [exact Fr|]. left. split; [reflexivity|].
    intros j Hj Hj2. rewrite <- Lk by lia. apply Mr; lia.
Qed.

(** X23: [a.compare(b)] returns, and its sign is the lexicographic order of
    what the two strings read as, characters compared as
    [unsigned char]: negative when [a] is less, positive when [b] is
    less, 0 exactly when they read the same; [a == b] is true exactly
    then. *)
Theorem compare_orders w i j _core other bs bo :
  reachable w -> strings w !! i = Some _core -> strings w !! j = Some other ->
  holds (heap_of w) _core bs -> holds (heap_of w) other bo ->
  exists r,
    basic_small_string.compare (heap_of w) _core other = Ok r /\
    (r < 0 <-> lex_lt bs bo) /\ (r > 0 <-> lex_lt bo bs) /\ (r = 0 <-> bs = bo) /\
    basic_small_string.equal (heap_of w) _core other = Ok (r =? 0).
Proof.
  intros Rw Ei Ej Hb Ho.
  destruct (lookup_holds w i _core bs 0 Rw Ei Hb) as (t & area & R & _ & C & _).
  destruct (lookup_holds w j other bo 0 Rw Ej Ho) as (to & ao & Ro & _ & Co & _).
  destruct (compare_spec _ _ _ _ _ _ _ _ _ _ R Ro) as (r & E & X1 & X2 & X3).
  rewrite <- C, <- Co in X1, X2, X3.
  exists r. split; [exact E|]. split; [exact X1|]. split; [exact X2|].
  split; [exact X3|].
  destruct (equal_spec _ _ _ _ _ _ _ _ _ _ R Ro) as (b & Eq & Xb).
  rewrite <- C, <- Co in Xb. rewrite Eq. f_equal.
  destruct (Z.eqb_spec r 0) as [Ez|Nz].
  - apply Xb, X3, Ez.
  - destruct b; [|reflexivity]. exfalso. apply Nz, X3, Xb. reflexivity.
Qed.

(** X24: [compare(pos1, count1, str, count2)] throws [std::out_of_range] when
    [pos1 > size()]; otherwise it compares the
    [min(count1, size() - pos1)] characters from [pos1] on with the first
    [count2] characters of [str], in lexicographic order. *)
Theorem compare_chars_orders w i _core bs pos1 count1 str count2 :
  reachable w -> strings w !! i = Some _core -> holds (heap_of w) _core bs ->
  0 <= pos1 < 2 ^ 32 -> 0 <= count1 < 2 ^ 32 -> 0 <= count2 <= len str ->
  (len bs < pos1 ->
   basic_small_string.compare_chars (heap_of w) _core pos1 count1 str count2
   = Throw out_of_range) /\
  (pos1 <= len bs ->
   exists r,
     basic_small_string.compare_chars (heap_of w) _core pos1 count1 str count2 = Ok r /\
     let sub := take (Z.to_nat count1) (drop (Z.to_nat pos1) bs) in
     let s := take (Z.to_nat count2) str in
     (r < 0 <-> lex_lt sub s) /\ (r > 0 <-> lex_lt s sub) /\ (r = 0 <-> sub = s)).
Proof.
  intros Rw Ei Hb Hp Hc1 Hc2.
  destruct (lookup_holds w i _core bs 0 Rw Ei Hb) as (t & area & R & _ & C & _ & Sl).
  pose proof (repr_bounds _ R) as [B Lb]. pose proof (nt_range NullTerminated) as Hnt.
  set (sz := len bs) in *. split.
  - intros Gt. apply (compare_chars_throws _ _ _ _ _ _ _ _ _ _ R Gt).
  - intros Le. assert (Hps : 0 <= pos1 <= sz) by lia.
    destruct (compare_chars_spec _ _ _ _ _ _ pos1 count1 str count2 R Hps
                ltac:(lia) Hc2) as (r & E & X).
    exists r. split; [exact E|]. cbv zeta in *.
    assert (E1 : slice area pos1 (Z.min count1 (sz - pos1))
                 = take (Z.to_nat count1) (drop (Z.to_nat pos1) bs)).
    { rewrite C, drop_content by lia. rewrite take_slice_min by lia. reflexivity. }
    assert (E2 : slice str 0 count2 = take (Z.to_nat count2) str).
    { unfold slice. change (Z.to_nat 0) with 0%nat. rewrite drop_0. reflexivity. }
    rewrite E1, E2 in X. exact X.
Qed.

(** X25: [starts_with(view)] is true exactly when the string reads as [view]
    followed by something, [ends_with(view)] exactly when it reads as
    something followed by [view]. *)
Theorem starts_and_ends_with w i _core bs (view : list byte) :
  reachable w -> strings w !! i = Some _core -> holds (heap_of w) _core bs ->
  exists b e,
    basic_small_string.starts_with (heap_of w) _core view = Ok b /\
    basic_small_string.ends_with (heap_of w) _core view = Ok e /\
    (b = true <-> exists rest, bs = view ++ rest) /\
    (e = true <-> exists rest, bs = rest ++ view).
Proof.
  intros Rw Ei Hb.
  destruct (lookup_holds w i _core bs 0 Rw Ei Hb) as (t & area & R & _ & C & _).
  destruct (starts_with_spec _ _ _ _ _ _ view R) as (b & Es & Xs).
  destruct (ends_with_spec _ _ _ _ _ _ view R) as (e & Ee & Xe).
  rewrite <- C in Xs, Xe. exists b, e. auto.
Qed.

(** X26: [front()] and [back()] of a string that is not empty return its
    first and its last character.  On an empty string [back()] reads
    outside the buffer, at index [2 ^ 32 - 1], and [front()] reads the
    terminator when the policy keeps one. *)
Theorem front_and_back w i _core bs :
  reachable w -> strings w !! i = Some _core -> holds (heap_of w) _core bs ->
  (forall b rest, bs = b :: rest ->
     basic_small_string.front (heap_of w) _core = Ok b) /\
  (forall b rest, bs = rest ++ [b] ->
     basic_small_string.back (heap_of w) _core = Ok b) /\
  (bs = [] ->
   basic_small_string.back (heap_of w) _core = Abort /\
   (NullTerminated = true -> basic_small_string.front (heap_of w) _core = Ok zero)).
Proof.
  intros Rw Ei Hb.
  destruct (lookup_holds w i _core bs 0 Rw Ei Hb) as (t & area & R & T & C & Lk & _).
  pose proof (repr_bounds _ R) as [B Lb]. pose proof (nt_range NullTerminated) as Hnt.
  rewrite (front_spec _ _ _ _ _ _ R), (back_spec _ _ _ _ _ _ R).
  split; [|split].
  - intros b rest ->. specialize (Lk 0 ltac:(cbn [length]; lia)).
    change (Z.to_nat 0) with 0%nat in Lk.
    destruct area as [|a area]; [discriminate|]. cbn [lookup list_lookup] in Lk.
    injection Lk as ->. reflexivity.
  - intros b rest ->. rewrite length_app in *. cbn [length] in *.
    rewrite (proj2 (Z.eqb_neq _ 0)) by lia.
    rewrite Lk by lia.
    replace (Z.to_nat (Z.of_nat (length rest + 1) - 1)) with (length rest + 0)%nat by lia.
    rewrite lookup_app_r, Nat.add_comm, Nat.add_sub by lia. reflexivity.
  - intros ->. cbn [length] in *. split; [reflexivity|]. intros N.
    specialize (T N). change (Z.to_nat (Z.of_nat 0)) with 0%nat in T.
    destruct area as [|a area]; [discriminate|]. cbn [lookup list_lookup] in T.
    injection T as ->. reflexivity.
Qed.

(** X27: [reserve(n)] with [n <= 2 ^ 32 - 16] (one less with the terminator)
    returns as soon as the allocator has an unused block to give; the
    string then reads as before and [capacity() >= n]. *)
Theorem reserve_in_range w i c _core bs n :
  reachable w -> strings w !! i = Some _core -> holds (heap_of w) _core bs ->
  0 <= n <= 2 ^ 32 - 16 - nt -> inv.valid_chunk c (heap_of w) (2 ^ 32) ->
  exists w' core' cap,
    exec w (extended.Basic (Reserve i c n)) = Ok w' /\
    strings w' !! i = Some core' /\ holds (heap_of w') core' bs /\
    basic_small_string.capacity NullTerminated (heap_of w') core' = Ok cap /\
    n <= cap.
Proof.
  intros Rw Ei Hb Hn V. pose proof (reachable_wf_ext _ w Rw) as W.
  destruct (wf_repr _ w i _core bs W Ei Hb) as (t & area & R & T & C).
  pose proof (repr_bounds _ R) as [B Lb]. pose proof (nt_range NullTerminated) as Hnt.
  set (sz := len bs) in *. cbn [extended.exec program.exec].
  unfold basic_small_string.reserve.
  destruct (Z_le_gt_dec n (len area - nt)) as [Le|Gt].
  - exists (put w i (heap_of w) _core), _core, (len area - nt).
    split.
    { apply (exec_on_string w i _core _ _ _ Ei).
      apply (buffer_specs.buffer_reserve_noop _ _ _ _ _ _ _ _ _ _ R Le). }
    cbn [heap_of strings put]. split; [apply lookup_insert_eq|]. split; [exact Hb|].
    split; [apply (string_capacity_repr _ _ _ _ _ _ R) | exact Le].
  - destruct (calculate_new_buffer_size_total NullTerminated n ltac:(lia)) as (ts & Cs).
    destruct (calculate_new_buffer_size_fits NullTerminated n ts ltac:(lia) Cs)
      as [Fi|(_ & _ & X)]; [|lia].
    assert (Hb2 : buffer_size ts <= 2 ^ 32).
    { unfold inv.fits in Fi. rewrite internal_buffer_size_eq in Fi.
      destruct (core_type ts); lia. }
    destruct (buffer_specs.buffer_reserve_grow NullTerminated true true c (heap_of w) _core
                t area sz n ts R ltac:(lia) ltac:(lia) Cs Fi
                (valid_chunk_le _ _ _ _ V Hb2))
      as (h' & b' & area' & E & R' & L' & C' & _).
    exists (put w i h' b'), b', (len area' - nt).
    split; [apply (exec_on_string w i _core _ _ _ Ei E)|].
    cbn [heap_of strings put]. split; [apply lookup_insert_eq|]. split.
    { pose proof (holds_repr _ _ _ _ _ _ R') as Hh. unfold inv.content in Hh.
      rewrite (C' eq_refl) in Hh. fold (inv.content area sz) in Hh.
      rewrite <- C in Hh. exact Hh. }
    split; [apply (string_capacity_repr _ _ _ _ _ _ R') | exact L'].
Qed.

(** X28: In the Median tier the 14-bit field of the core caches the idle
    capacity of the buffer header, modulo [2 ^ 14]: the two agree, and
    [idle_capacity()] is right, whenever the policy keeps a terminator or
    the string is not empty. *)
Theorem median_idle_cache_agrees w i _core :
  reachable w -> strings w !! i = Some _core ->
  basic_small_string.get_core_type _core = kIsMedian ->
  exists n idle,
    basic_small_string.size (heap_of w) _core = Ok n /\
    get_idle_capacity_from_buffer_header NullTerminated (heap_of w) _core = Ok idle /\
    idle_or_ignore _core = idle mod 2 ^ 14 /\
    (NullTerminated = true \/ 0 < n ->
     idle_or_ignore _core = idle /\
     malloc_core.idle_capacity NullTerminated (heap_of w) _core = Ok idle).
Proof.
  intros Rw Ei Ht. pose proof (reachable_wf_ext _ w Rw) as (Wf & _).
  destruct (Wf i _core Ei) as (t & area & sz & R & T).
  pose proof (repr_bounds _ R) as [B Lb]. pose proof (nt_range NullTerminated) as Hnt.
  pose proof R as (F & _ & L).
  unfold basic_small_string.get_core_type, small_string_buffer.get_core_type,
    malloc_core.get_core_type in Ht. rewrite F in Ht.
  destruct t; try discriminate. cbv beta iota delta [inv.layout] in L.
  destruct L as (E & La & Id).
  exists sz, (len area - nt - sz).
  split; [apply (string_size_repr _ _ _ _ _ _ R)|].
  split; [apply (get_idle_capacity_from_buffer_header_ok _
                   (repr_hdr_ok _ R (or_introl eq_refl)))|].
  split; [exact Id|]. intros Hs.
  assert (Es : (len area - nt - sz) mod 2 ^ 14 = len area - nt - sz).
  { apply Z.mod_small. unfold nt_bytes in *.
    destruct Hs as [->|Pn]; [lia|]. destruct NullTerminated; lia. }
  split; [rewrite Id; exact Es|].
  unfold malloc_core.idle_capacity. rewrite F. cbn [CoreType_to_Z]. cbv iota.
  rewrite Id, Es. reflexivity.
Qed.

End Members.

Section Samples.
Import malloc_core small_string_buffer program example sample observe.

Lemma built_holds : holds (heap_of built_state) built_core hello.
Proof. split; vm_compute; reflexivity. Qed.

Lemma built_extended : extended.reachable true built_state.
Proof. apply extended_specs.reachable_basic, built_reachable. Qed.

Lemma pair_reachable : program.reachable true pair_state.
Proof.
  apply (run_reachable true program.init pair pair_state (program.reachable_init true)).
  - repeat constructor; unfold size_t; lia.
  - vm_compute. reflexivity.
Qed.

Lemma pair_extended : extended.reachable true pair_state.
Proof. apply extended_specs.reachable_basic, pair_reachable. Qed.

Lemma pair_lookup_0 : strings pair_state !! 0%nat = Some built_core.
Proof. vm_compute. reflexivity. Qed.

Lemma pair_lookup_1 : strings pair_state !! 1%nat = Some short_core.
Proof. vm_compute. reflexivity. Qed.

Lemma pair_holds_0 : holds (heap_of pair_state) built_core hello.
Proof. split; vm_compute; reflexivity. Qed.

Lemma pair_holds_1 : holds (heap_of pair_state) short_core (take 3 hello).
Proof. split; vm_compute; reflexivity. Qed.

Lemma median_extended : extended.reachable true median_state.
Proof.
  apply extended_specs.reachable_basic.
  apply (run_reachable true program.init median median_state (program.reachable_init true)).
  - repeat constructor; unfold size_type; lia.
  - vm_compute. reflexivity.
Qed.

Ltac in_range := unfold size_type, size_t; lia.
Ltac runs := vm_compute; eexists; reflexivity.

Lemma erase_removes_witness :
  exists w' core',
    program.exec true built_state (Erase 0 2 3) = Ok w' /\
    strings w' !! 0%nat = Some core' /\
    holds (heap_of w') core' (take 2 hello ++ drop 5 hello).
Proof.
  destruct (erase_removes true built_state 0%nat built_core hello 2 3
              built_reachable built_lookup built_holds) as (_ & X);
    [in_range | in_range |].
  destruct X as (w' & core' & E & L & Hh & _); [cbn; lia|].
  exists w', core'. split; [exact E|]. split; [exact L | exact Hh].
Defined.

Lemma insert_inserts_witness :
  (exists w' core',
     program.exec true built_state
       (Insert 0 (chunk_at 32) 2 (basic_small_string.array hello) 3) = Ok w' /\
     strings w' !! 0%nat = Some core' /\
     holds (heap_of w') core' (take 2 hello ++ take 3 hello ++ drop 2 hello)) /\
  (exists w' core',
     program.exec true built_state
       (Insert 0 (chunk_at 32) 0
          (basic_small_string.inside (ptr_add (basic_small_string.data built_core) 2)) 2)
     = Ok w' /\
     strings w' !! 0%nat = Some core' /\
     holds (heap_of w') core' (take 2 hello ++ hello)).
Proof.
  split.
  - assert (E : exists w', program.exec true built_state
                  (Insert 0 (chunk_at 32) 2 (basic_small_string.array hello) 3) = Ok w')
      by runs.
    destruct E as (w' & E).
    destruct (insert_inserts true built_state 0%nat built_core hello (chunk_at 32) 2
                (basic_small_string.array hello) 3
                built_reachable built_lookup built_holds) as (_ & _ & X & _);
      [in_range | in_range |].
    destruct (X ltac:(lia) hello w' eq_refl E) as (_ & _ & core' & L & Hh).
    exists w', core'. split; [exact E|]. split; [exact L | exact Hh].
  - assert (E : exists w', program.exec true built_state
                  (Insert 0 (chunk_at 32) 0
                     (basic_small_string.inside
                        (ptr_add (basic_small_string.data built_core) 2)) 2) = Ok w')
      by runs.
    destruct E as (w' & E).
    destruct (insert_inserts true built_state 0%nat built_core hello (chunk_at 32) 0
                (basic_small_string.inside
                   (ptr_add (basic_small_string.data built_core) 2)) 2
                built_reachable built_lookup built_holds) as (_ & _ & _ & X);
      [in_range | in_range |].
    assert (Hi : small_string_buffer.idle_capacity true (heap_of built_state) built_core
                 = Ok 5) by (vm_compute; reflexivity).
    assert (Hl : 2 + 2 <= len hello) by (vm_compute; discriminate).
    destruct (X ltac:(lia) 2 5 w' eq_refl ltac:(lia) Hl Hi E) as (N & _).
    destruct (N ltac:(lia)) as (_ & core' & L & Hh).
    exists w', core'. split; [exact E|]. split; [exact L | exact Hh].
Defined.


Lemma resize_pads_witness :
  exists w' core',
    program.exec true built_state (Resize 0 (chunk_at 32) 12 l) = Ok w' /\
    strings w' !! 0%nat = Some core' /\ holds (heap_of w') core' (hello ++ [l; l]).
Proof.
  assert (E : exists w', program.exec true built_state (Resize 0 (chunk_at 32) 12 l) = Ok w')
    by runs.
  destruct E as (w' & E).
  destruct (resize_pads true built_state 0%nat built_core hello (chunk_at 32) 12 l w'
              built_reachable built_lookup built_holds) as (core' & L & Hh);
    [in_range | exact E |].
  exists w', core'. split; [exact E|]. split; [exact L | exact Hh].
Defined.

Lemma append_appends_witness :
  (exists w' core',
     program.exec true built_state
       (Append 0 (chunk_at 32) (basic_small_string.array hello) 10) = Ok w' /\
     strings w' !! 0%nat = Some core' /\ holds (heap_of w') core' (hello ++ hello)) /\
  (exists w' core',
     program.exec true built_state
       (Append 0 (chunk_at 32)
          (basic_small_string.inside (ptr_add (basic_small_string.data built_core) 6)) 4)
     = Ok w' /\
     strings w' !! 0%nat = Some core' /\
     holds (heap_of w') core' (hello ++ drop 6 hello)).
Proof.
  split.
  - assert (E : exists w', program.exec true built_state
                  (Append 0 (chunk_at 32) (basic_small_string.array hello) 10) = Ok w')
      by runs.
    destruct E as (w' & E).
    destruct (append_appends true built_state 0%nat built_core hello (chunk_at 32)
                (basic_small_string.array hello) 10 w'
                built_reachable built_lookup built_holds) as (X & _);
      [in_range | exact E |].
    destruct (X hello eq_refl) as (_ & core' & L & Hh).
    exists w', core'. split; [exact E|]. split; [exact L | exact Hh].
  - assert (E : exists w', program.exec true built_state
                  (Append 0 (chunk_at 32)
                     (basic_small_string.inside
                        (ptr_add (basic_small_string.data built_core) 6)) 4) = Ok w')
      by runs.
    destruct E as (w' & E).
    destruct (append_appends true built_state 0%nat built_core hello (chunk_at 32)
                (basic_small_string.inside
                   (ptr_add (basic_small_string.data built_core) 6)) 4 w'
                built_reachable built_lookup built_holds) as (_ & X);
      [in_range | exact E |].
    assert (Hi : small_string_buffer.idle_capacity true (heap_of built_state) built_core
                 = Ok 5) by (vm_compute; reflexivity).
    assert (Hl : 6 + 4 <= len hello) by (vm_compute; discriminate).
    destruct (X 6 5 eq_refl ltac:(lia) ltac:(lia) Hl Hi) as (N & _).
    destruct (N ltac:(lia)) as (core' & L & Hh).
    exists w', core'. split; [exact E|]. split; [exact L | exact Hh].
Defined.

Lemma push_back_pop_back_witness :
  exists w1 core1 w2 core2,
    program.exec true built_state (PushBack 0 (chunk_at 32) l) = Ok w1 /\
    strings w1 !! 0%nat = Some core1 /\ holds (heap_of w1) core1 (hello ++ [l]) /\
    program.exec true w1 (PopBack 0) = Ok w2 /\
    strings w2 !! 0%nat = Some core2 /\ holds (heap_of w2) core2 hello.
Proof.
  assert (E : exists w1, program.exec true built_state (PushBack 0 (chunk_at 32) l) = Ok w1)
    by runs.
  destruct E as (w1 & E).
  destruct (push_back_pop_back true built_state 0%nat built_core hello (chunk_at 32) l
              built_reachable built_lookup built_holds) as (X & _).
  destruct (X w1 E) as (core1 & w2 & core2 & L1 & H1 & E2 & L2 & H2).
  exists w1, core1, w2, core2. auto 10.
Defined.

Lemma clear_keeps_buffer_witness :
  exists w' core',
    program.exec true built_state (Clear 0) = Ok w' /\
    strings w' !! 0%nat = Some core' /\ holds (heap_of w') core' [] /\
    basic_small_string.capacity true (heap_of w') core' = Ok 15.
Proof.
  destruct (clear_keeps_buffer true built_state 0%nat built_core built_reachable built_lookup)
    as (w' & core' & E & L & Hh & _ & _ & C).
  exists w', core'. split; [exact E|]. split; [exact L|]. split; [exact Hh|].
  rewrite C. vm_compute. reflexivity.
Defined.

Lemma copy_is_deep_witness :
  exists w' core',
    program.exec true built_state (Copy 1 (chunk_at 32) 0) = Ok w' /\
    strings w' !! 1%nat = Some core' /\ holds (heap_of w') core' hello /\
    strings w' !! 0%nat = Some built_core /\ holds (heap_of w') built_core hello /\
    inv.owner core' <> inv.owner built_core.
Proof.
  assert (E : exists w', program.exec true built_state (Copy 1 (chunk_at 32) 0) = Ok w')
    by runs.
  destruct E as (w' & E).
  destruct (copy_is_deep true built_state 1%nat (chunk_at 32) 0%nat built_core hello w'
              built_reachable built_lookup built_holds E)
    as (_ & core' & L & Hh & L0 & H0 & D).
  exists w', core'. split; [exact E|]. split; [exact L|]. split; [exact Hh|].
  split; [exact L0|]. split; [exact H0|].
  intros Eo. apply (D 16); rewrite ?Eo; vm_compute; reflexivity.
Defined.

Lemma destructor_frees_its_own_witness :
  exists w',
    program.exec true pair_state (Dtor 0) = Ok w' /\ strings w' !! 0%nat = None /\
    heap_of w' !! 16 = None /\
    strings w' !! 1%nat = Some short_core /\ holds (heap_of w') short_core (take 3 hello).
Proof.
  destruct (destructor_frees_its_own true pair_state 0%nat built_core pair_reachable
              pair_lookup_0) as (w' & E & L & F & K).
  exists w'. split; [exact E|]. split; [exact L|].
  split; [apply F; vm_compute; reflexivity|].
  apply (K 1%nat short_core (take 3 hello)); [discriminate | exact pair_lookup_1 |].
  exact pair_holds_1.
Defined.

Lemma fill_constructor_witness :
  exists w' core',
    program.exec true built_state (Fill 1 (chunk_at 32) 20 l) = Ok w' /\
    strings w' !! 1%nat = Some core' /\ holds (heap_of w') core' (replicate 20 l).
Proof.
  assert (E : exists w', program.exec true built_state (Fill 1 (chunk_at 32) 20 l) = Ok w')
    by runs.
  destruct E as (w' & E).
  destruct (fill_constructor true built_state 1%nat (chunk_at 32) 20 l w' built_reachable)
    as (_ & core' & L & Hh); [in_range | exact E |].
  exists w', core'. split; [exact E|]. split; [exact L | exact Hh].
Defined.

Lemma size_le_capacity_witness :
  exists n cap,
    basic_small_string.size (heap_of pair_state) short_core = Ok n /\
    basic_small_string.capacity true (heap_of pair_state) short_core = Ok cap /\
    n <= cap.
Proof.
  exact (size_le_capacity true pair_state 1%nat short_core pair_extended pair_lookup_1).
Defined.

Lemma further_members_keep_invariants_witness :
  exists n cap,
    basic_small_string.size (heap_of pair_state) built_core = Ok n /\
    basic_small_string.capacity true (heap_of pair_state) built_core = Ok cap /\
    n <= cap /\
    basic_small_string.deref (heap_of pair_state) built_core
      (ptr_add (basic_small_string.data built_core) n) = Ok zero.
Proof.
  destruct (further_members_keep_invariants true pair_state 0%nat built_core pair_extended
              pair_lookup_0) as ((n & cap & S & C & L & Z0) & _).
  exists n, cap. split; [exact S|]. split; [exact C|]. split; [exact L|].
  apply Z0. reflexivity.
Defined.

Lemma copy_assignment_witness :
  exists w' core',
    extended.exec true pair_state (extended.CopyAssign 1 (chunk_at 64) 0) = Ok w' /\
    strings w' !! 1%nat = Some core' /\ holds (heap_of w') core' hello /\
    strings w' !! 0%nat = Some built_core /\ holds (heap_of w') built_core hello.
Proof.
  assert (E : exists w', extended.exec true pair_state
                           (extended.CopyAssign 1 (chunk_at 64) 0) = Ok w') by runs.
  destruct E as (w' & E).
  destruct (copy_assignment true pair_state 1%nat 0%nat (chunk_at 64) short_core
              built_core hello w' pair_extended pair_lookup_1 pair_lookup_0 pair_holds_0 E)
    as (_ & core' & L & Hh & K).
  destruct (K ltac:(discriminate)) as (L0 & H0).
  exists w', core'. auto 10.
Defined.

Lemma append_string_appends_witness :
  exists w' core',
    extended.exec true pair_state (extended.AppendString 0 (chunk_at 64) 0) = Ok w' /\
    strings w' !! 0%nat = Some core' /\ holds (heap_of w') core' (hello ++ hello).
Proof.
  assert (E : exists w', extended.exec true pair_state
                           (extended.AppendString 0 (chunk_at 64) 0) = Ok w') by runs.
  destruct E as (w' & E).
  destruct (append_string_appends true pair_state 0%nat 0%nat (chunk_at 64) built_core
              built_core hello hello w' pair_extended pair_lookup_0 pair_holds_0
              pair_lookup_0 pair_holds_0 E) as (core' & L & Hh).
  exists w', core'. auto.
Defined.

Lemma fill_members_witness :
  exists w' core' w'' core'',
    extended.exec true pair_state (extended.AppendFill 0 (chunk_at 64) 2 l) = Ok w' /\
    strings w' !! 0%nat = Some core' /\ holds (heap_of w') core' (hello ++ [l; l]) /\
    extended.exec true pair_state (extended.InsertFill 0 (chunk_at 64) 2 2 l) = Ok w'' /\
    strings w'' !! 0%nat = Some core'' /\
    holds (heap_of w'') core'' (take 2 hello ++ [l; l] ++ drop 2 hello).
Proof.
  assert (E : exists w', extended.exec true pair_state
                           (extended.AppendFill 0 (chunk_at 64) 2 l) = Ok w') by runs.
  assert (E' : exists w', extended.exec true pair_state
                            (extended.InsertFill 0 (chunk_at 64) 2 2 l) = Ok w') by runs.
  destruct E as (w' & E). destruct E' as (w'' & E').
  destruct (fill_members true pair_state 0%nat (chunk_at 64) built_core hello 2 2 l
              pair_extended pair_lookup_0 pair_holds_0) as (X & Y & _); [lia | lia |].
  destruct (X w' E) as (core' & L & Hh).
  destruct (Y w'' ltac:(lia) E') as (_ & core'' & L' & Hh').
  exists w', core', w'', core''. auto 10.
Defined.

Lemma replace_splices_witness :
  exists w' core',
    extended.exec true pair_state (extended.Replace 0 (chunk_at 64) 2 3 hello 1) = Ok w' /\
    strings w' !! 0%nat = Some core' /\
    holds (heap_of w') core' (take 2 hello ++ take 1 hello ++ drop 5 hello).
Proof.
  assert (E : exists w', extended.exec true pair_state
                           (extended.Replace 0 (chunk_at 64) 2 3 hello 1) = Ok w') by runs.
  destruct E as (w' & E).
  destruct (replace_splices true pair_state 0%nat (chunk_at 64) built_core hello 2 3 hello 1
              pair_extended pair_lookup_0 pair_holds_0) as (_ & X & _); [lia | lia | lia |].
  destruct (X w' E) as (_ & _ & core' & L & Hh).
  exists w', core'. split; [exact E|]. split; [exact L | exact Hh].
Defined.

Lemma substr_copies_witness :
  exists w' core',
    extended.exec true pair_state (extended.Substr 2 (chunk_at 64) 0 2 3) = Ok w' /\
    strings w' !! 2%nat = Some core' /\
    holds (heap_of w') core' (take 3 (drop 2 hello)) /\
    holds (heap_of w') built_core hello.
Proof.
  assert (E : exists w', extended.exec true pair_state
                           (extended.Substr 2 (chunk_at 64) 0 2 3) = Ok w') by runs.
  destruct E as (w' & E).
  destruct (substr_copies true pair_state 2%nat 0%nat (chunk_at 64) built_core hello 2 3
              pair_extended pair_lookup_0 pair_holds_0) as (_ & X); [lia | lia |].
  destruct (X w' E) as (_ & core' & L & Hh & _ & H0).
  exists w', core'. auto.
Defined.

Lemma substr_move_takes_witness :
  exists w' core',
    extended.exec true pair_state (extended.SubstrMove 2 (chunk_at 64) 0 2 3) = Ok w' /\
    strings w' !! 2%nat = Some core' /\
    holds (heap_of w') core' (take 3 (drop 2 hello)) /\
    strings w' !! 0%nat = Some 0.
Proof.
  assert (E : exists w', extended.exec true pair_state
                           (extended.SubstrMove 2 (chunk_at 64) 0 2 3) = Ok w') by runs.
  destruct E as (w' & E).
  destruct (substr_move_takes true pair_state 2%nat 0%nat (chunk_at 64) built_core hello
              2 3 w' pair_extended pair_lookup_0 pair_holds_0) as (_ & core' & L & Hh & L0 & _);
    [lia | lia | exact E |].
  exists w', core'. auto.
Defined.

Lemma plus_concatenates_witness :
  exists w' core',
    extended.exec true pair_state (extended.Plus 2 (chunk_at 64) (chunk_at 96) 0 1) = Ok w' /\
    strings w' !! 2%nat = Some core' /\
    holds (heap_of w') core' (hello ++ take 3 hello).
Proof.
  assert (E : exists w', extended.exec true pair_state
                           (extended.Plus 2 (chunk_at 64) (chunk_at 96) 0 1) = Ok w')
    by runs.
  destruct E as (w' & E).
  destruct (plus_concatenates true pair_state 2%nat 0%nat 1%nat (chunk_at 64) (chunk_at 96)
              built_core short_core hello (take 3 hello) w' pair_extended pair_lookup_0
              pair_lookup_1 pair_holds_0 pair_holds_1 E) as (core' & L & Hh & _).
  exists w', core'. auto.
Defined.

Lemma copy_copies_out_witness :
  basic_small_string.copy (heap_of built_state) built_core (replicate 5 zero) 3 2
  = Ok (take 3 (drop 2 hello) ++ [zero; zero], 3) /\
  basic_small_string.copy (heap_of built_state) built_core (replicate 5 zero) 3 11
  = Throw out_of_range /\
  basic_small_string.copy (heap_of built_state) built_core (replicate 5 zero)
    (2 ^ 32 - 2) 2 = Abort.
Proof.
  destruct (copy_copies_out true built_state 0%nat built_core hello (replicate 5 zero) 3 2
              built_extended built_lookup built_holds) as (_ & X & _); [lia | lia |].
  destruct (copy_copies_out true built_state 0%nat built_core hello (replicate 5 zero) 3 11
              built_extended built_lookup built_holds) as (Y & _); [lia | lia |].
  destruct (copy_copies_out true built_state 0%nat built_core hello (replicate 5 zero)
              (2 ^ 32 - 2) 2 built_extended built_lookup built_holds) as (_ & _ & W);
    [lia | lia |].
  split; [|split].
  - apply X; [cbn; lia | right; lia].
  - apply Y. cbn. lia.
  - apply W; [cbn; lia | unfold basic_small_string.npos; lia | lia].
Defined.

Lemma find_char_first_witness :
  basic_small_string.find_char (heap_of built_state) built_core l 0 = Ok 2 /\
  hello !! 2%nat = Some l.
Proof.
  destruct (find_char_first true built_state 0%nat built_core hello l 0
              built_extended built_lookup built_holds) as (X & _); [lia|].
  destruct (X ltac:(cbn; lia)) as (r & E & _ & _).
  split; [|reflexivity]. rewrite E. vm_compute in E. exact (eq_sym E).
Defined.

Lemma find_first_match_witness :
  exists r,
    basic_small_string.find (heap_of built_state) built_core (drop 3 hello) 0 2 = Ok r /\
    (r = basic_small_string.npos \/
     0 <= r /\ r + 2 <= 10 /\ take 2 (drop (Z.to_nat r) hello) = take 2 (drop 3 hello)).
Proof.
  destruct (find_first_match true built_state 0%nat built_core hello (drop 3 hello) 0 2
              built_extended built_lookup built_holds) as (r & E & _ & X);
    [lia | cbn; lia |].
  exists r. split; [exact E | exact X].
Defined.

Lemma rfind_char_last_witness :
  exists r,
    basic_small_string.rfind_char (heap_of built_state) built_core l 9 = Ok r /\
    (r = basic_small_string.npos \/ 0 <= r < 10 /\ hello !! Z.to_nat r = Some l).
Proof.
  destruct (rfind_char_last true built_state 0%nat built_core hello l 9
              built_extended built_lookup built_holds) as (r & E & X); [lia|].
  exists r. split; [exact E|]. destruct X as [(N & _)|(Hr & _ & Er & _)]; [left; exact N|].
  right. split; [exact Hr | exact Er].
Defined.

Lemma compare_orders_witness :
  exists r,
    basic_small_string.compare (heap_of pair_state) built_core short_core = Ok r /\
    (r > 0 <-> lex_lt (take 3 hello) hello) /\
    basic_small_string.equal (heap_of pair_state) built_core short_core = Ok (r =? 0).
Proof.
  destruct (compare_orders true pair_state 0%nat 1%nat built_core short_core hello
              (take 3 hello) pair_extended pair_lookup_0 pair_lookup_1 pair_holds_0
              pair_holds_1) as (r & E & _ & X & _ & Q).
  exists r. auto.
Defined.

Lemma compare_chars_orders_witness :
  exists r,
    basic_small_string.compare_chars (heap_of built_state) built_core 2 3 hello 4 = Ok r /\
    (r = 0 <-> take 3 (drop 2 hello) = take 4 hello).
Proof.
  destruct (compare_chars_orders true built_state 0%nat built_core hello 2 3 hello 4
              built_extended built_lookup built_holds) as (_ & X); [lia | lia | cbn; lia |].
  destruct (X ltac:(cbn; lia)) as (r & E & _ & _ & Q).
  exists r. split; [exact E | exact Q].
Defined.

Lemma starts_and_ends_with_witness :
  exists b e,
    basic_small_string.starts_with (heap_of built_state) built_core (take 3 hello) = Ok b /\
    basic_small_string.ends_with (heap_of built_state) built_core (take 3 hello) = Ok e /\
    (b = true <-> exists rest, hello = take 3 hello ++ rest) /\
    (e = true <-> exists rest, hello = rest ++ take 3 hello).
Proof.
  exact (starts_and_ends_with true built_state 0%nat built_core hello (take 3 hello)
           built_extended built_lookup built_holds).
Defined.

Lemma front_and_back_witness :
  basic_small_string.front (heap_of built_state) built_core = Ok (byte.of_Z 104) /\
  basic_small_string.back (heap_of built_state) built_core = Ok l.
Proof.
  destruct (front_and_back true built_state 0%nat built_core hello
              built_extended built_lookup built_holds) as (F & B & _).
  split.
  - apply (F (byte.of_Z 104) (drop 1 hello)). reflexivity.
  - apply (B l (take 9 hello)). reflexivity.
Defined.

Lemma reserve_in_range_witness :
  exists w' core' cap,
    extended.exec true built_state (extended.Basic (Reserve 0 (chunk_at 64) 100)) = Ok w' /\
    strings w' !! 0%nat = Some core' /\ holds (heap_of w') core' hello /\
    basic_small_string.capacity true (heap_of w') core' = Ok cap /\ 100 <= cap.
Proof.
  apply (reserve_in_range true built_state 0%nat (chunk_at 64) built_core hello 100
           built_extended built_lookup built_holds).
  - cbn. lia.
  - split; [vm_compute; reflexivity|]. cbn. split; [lia|]. split; [lia | reflexivity].
Defined.

Lemma median_idle_cache_agrees_witness :
  exists n idle,
    basic_small_string.size (heap_of median_state) median_core = Ok n /\
    get_idle_capacity_from_buffer_header true (heap_of median_state) median_core = Ok idle /\
    idle_or_ignore median_core = idle /\
    malloc_core.idle_capacity true (heap_of median_state) median_core = Ok idle.
Proof.
  destruct (median_idle_cache_agrees true median_state 0%nat median_core median_extended)
    as (n & idle & S & I & _ & X); [vm_compute; reflexivity | vm_compute; reflexivity |].
  destruct (X (or_introl eq_refl)) as (E1 & E2).
  exists n, idle. auto.
Defined.

End Samples.

Module shrink_more.
Import malloc_core core_facts core_specs core_access core_resize small_string_buffer
  selector alloc_specs buffer_specs grow_specs init_specs size_specs string_specs
  ctor_specs shrink_specs.
Section NullTerminated.
Context (NullTerminated : bool).

Abbreviation nt := (nt_bytes NullTerminated).
Abbreviation repr := (inv.repr NullTerminated).

(** After [shrink_to_fit()] the buffer is no larger than the one the
    selector gives for the size. *)
Lemma shrink_to_fit_tight c h body t area sz h' body' t' area' :
  repr h body t area sz ->
  basic_small_string.shrink_to_fit NullTerminated c h body = Ok (h', body') ->
  repr h' body' t' area' sz ->
  exists ts,
    calculate_new_buffer_size NullTerminated sz = Ok ts /\
    len area' - nt <= buffer_size ts.
Proof.
  intros R H R'. pose proof (nt_range NullTerminated) as Hnt.
  pose proof (repr_bounds _ R) as [B Lb].
  unfold basic_small_string.shrink_to_fit in H.
  unfold small_string_buffer.get_capacity_and_size in H.
  rewrite (get_capacity_and_size_repr _ R) in H. rewrite bind_ok in H.
  cbv beta iota zeta delta [capacity_ size_] in H.
  bind_inv H x Ea. clear Ea. bind_inv H ts C. exists ts. split; [reflexivity|].
  pose proof (calculate_new_buffer_size_fits NullTerminated sz ts ltac:(lia) C) as Fi.
  destruct (Z.ltb_spec (buffer_size ts) (len area - nt)) as [Lt|Ge].
  - bind_inv H x A. destruct x as [h3 b3]. cbv beta iota in H.
    bind_inv H x At. injection H as <- <-.
    bind_inv A x Ia. destruct x as [h1 new]. cbv beta iota in A.
    unfold basic_small_string.ctor_initialized_later_with in Ia.
    assert (Eu : u32 sz = sz) by (unfold u32; apply Z.mod_small; lia).
    rewrite Eu in Ia.
    destruct (initial_allocate_with_post _ _ _ _ _ _ _ _ Ia
                ltac:(destruct Fi as [|(?&?&_)]; auto) ltac:(lia))
      as (area1 & R1 & T1 & K & Ki & O & La1 & F1).
    pose proof (repr_bounds _ R1) as [B1 Lb1].
    pose proof (ctor_evolves _ _ _ _ _ _ _ _ R1 K Ki O) as E1.
    assert (Ro1 : repr h1 body t area sz).
    { eapply repr_frame; [exact R|]. intros k Ok. apply E1; [|discriminate].
      apply (repr_owned _ _ _ _ _ _ _ R Ok). }
    unfold basic_small_string.data, get_buffer in A.
    rewrite <- (ptr_add_0 (begin_ptr body)) in A.
    rewrite (read_chars_repr _ _ _ _ _ _ 0 sz Ro1) in A by lia.
    rewrite bind_ok in A. cbv beta in A.
    set (src := slice area 0 sz) in *.
    assert (Lf : len src = sz) by (apply length_slice; lia).
    rewrite <- (ptr_add_0 (begin_ptr new)) in A.
    destruct (write_chars_repr _ _ _ _ _ _ 0 src R1) as (h2 & b2 & W & R2 & S2);
      [lia | lia |].
    rewrite W in A. rewrite bind_ok in A. cbv beta iota in A.
    unfold basic_small_string.swap, swap, malloc_core.swap in A.
    cbv beta iota zeta in A.
    assert (Nold : forall k, inv.owner body = Some k -> inv.owner new <> Some k).
    { intros k Ok On. destruct E1 as (_ & E1). destruct (E1 k On) as [X|X];
        [discriminate|].
      destruct (repr_owned _ _ _ _ _ _ _ R Ok) as [y Y]. congruence. }
    assert (Kold : forall k, inv.owner body = Some k -> h2 !! k = h !! k).
    { intros k Ok. destruct S2 as (_ & Ks). rewrite Ks by (apply Nold, Ok).
      apply E1; [|discriminate]. apply (repr_owned _ _ _ _ _ _ _ R Ok). }
    rewrite (dtor_ok _ h2 body t area sz) in A
      by (eapply repr_frame; [exact R | exact Kold]).
    rewrite bind_ok in A. injection A as <- <-.
    assert (R3 : repr (inv.release h2 body) b2 (core_type ts) (splice area1 0 src) sz).
    { apply (repr_frame _ h2); [exact R2|]. intros k Ok.
      apply program_specs.release_other.
      intros Ob. apply (Nold k Ob). rewrite <- (same_buffer_owner _ _ (proj1 S2)).
      exact Ok. }
    assert (Ea : len area' = len area1).
    { pose proof (capacity_repr _ R3) as C3. pose proof (capacity_repr _ R') as C'.
      rewrite C3 in C'. injection C' as C'. rewrite length_splice in C' by lia. lia. }
    rewrite Ea, La1. unfold inv.fits in F1. rewrite internal_buffer_size_eq in F1.
    destruct (core_type ts); lia.
  - rewrite bind_ok in H. cbv beta iota in H. bind_inv H x At. injection H as <- <-.
    pose proof (capacity_repr _ R) as C1. pose proof (capacity_repr _ R') as C'.
    rewrite C1 in C'. injection C' as C'. lia.
Qed.

(** [shrink_to_fit()] on a string that is as small as the selector makes
    it changes nothing. *)
Lemma shrink_to_fit_fixed c h body t area sz ts :
  repr h body t area sz ->
  calculate_new_buffer_size NullTerminated sz = Ok ts ->
  len area - nt <= buffer_size ts ->
  basic_small_string.shrink_to_fit NullTerminated c h body = Ok (h, body).
Proof.
  intros R C L. pose proof (repr_bounds _ R) as [B Lb].
  unfold basic_small_string.shrink_to_fit.
  unfold small_string_buffer.get_capacity_and_size.
  rewrite (get_capacity_and_size_repr _ R). rewrite bind_ok.
  cbv beta iota zeta delta [capacity_ size_].
  rewrite Assert_true by (apply Z.leb_le; lia). rewrite bind_ok.
  rewrite C. rewrite bind_ok.
  rewrite (proj2 (Z.ltb_ge (buffer_size ts) (len area - nt))) by lia.
  rewrite bind_ok. cbv beta iota.
  rewrite Assert_true by (apply Z.leb_le; lia). reflexivity.
Qed.

End NullTerminated.
End shrink_more.

Section Shrink.
Context (NullTerminated : bool).

Import malloc_core core_specs core_access small_string_buffer
  string_specs shrink_specs program program_specs observe observe_specs
  extended_specs shrink_more.

(** X29: [shrink_to_fit()] is idempotent: once it has returned, a second
    [shrink_to_fit()] returns too, allocates nothing and leaves the
    state as it is, whatever block the allocator has on offer. *)
Theorem shrink_to_fit_idempotent w i c c' w' :
  extended.reachable NullTerminated w ->
  extended.exec NullTerminated w (extended.Basic (ShrinkToFit i c)) = Ok w' ->
  extended.exec NullTerminated w' (extended.Basic (ShrinkToFit i c')) = Ok w'.
Proof.
  intros Rw H. pose proof (reachable_wf_ext _ w Rw) as W.
  assert (W' : wf_state NullTerminated w')
    by (apply (exec_wf_ext _ w (extended.Basic (ShrinkToFit i c)) w' W I H)).
  cbn [extended.exec program.exec] in *.
  destruct (on_string_inv _ _ _ _ H) as (b & h' & b' & Eb & A & ->).
  destruct (proj1 W i b Eb) as (t & area & sz & R & T).
  destruct (shrink_to_fit_post _ _ _ _ _ _ _ _ _ R A) as (t' & area' & R' & _).
  destruct (shrink_to_fit_tight _ _ _ _ _ _ _ _ _ _ _ R A R') as (ts & C & L).
  cbn [heap_of strings put] in *.
  rewrite (exec_on_string (put w i h' b') i b' _ h' b').
  - f_equal. unfold put. cbn [heap_of strings]. f_equal. apply insert_insert_eq.
  - apply lookup_insert_eq.
  - apply (shrink_to_fit_fixed _ c' _ _ _ _ _ _ R' C L).
Qed.

End Shrink.

Section ShrinkSample.
Import program example.

Lemma shrink_to_fit_idempotent_witness :
  extended.exec true shrunk_state (extended.Basic (ShrinkToFit 0 (chunk_at 64)))
  = Ok shrunk_state.
Proof.
  apply (shrink_to_fit_idempotent true reserved_state 0%nat (chunk_at 32) (chunk_at 64)
           shrunk_state).
  - apply extended_specs.reachable_basic, reserved_reachable.
  - vm_compute. reflexivity.
Defined.

End ShrinkSample.

(** * Growth that returns *)

Module growth_specs.
Import malloc_core core_facts core_specs core_access core_resize small_string_buffer
  selector alloc_specs buffer_specs grow_specs init_specs size_specs string_specs
  append_specs ctor_specs.
Section NullTerminated.
Context (NullTerminated : bool).

Abbreviation nt := (nt_bytes NullTerminated).
Abbreviation repr := (inv.repr NullTerminated).
Abbreviation idle_of := (inv.idle_of NullTerminated).

Local Ltac ko H := cbv beta iota delta [mbind result_bind] in H; discriminate H.

(** The growth of [allocate_more<Need0::No>(n)] is
    [buffer_reserve<Need0::No, true>] of the scaled length, without its
    assertion on the tier. *)
Lemma allocate_more_is_reserve c h body t area sz n r :
  repr h body t area sz -> 0 <= n -> sz + n < 2 ^ 32 ->
  idle_of t area sz < n -> len area - nt < mul_growth (sz + n) ->
  buffer_reserve NullTerminated false true c h body (mul_growth (sz + n)) = Ok r ->
  allocate_more NullTerminated false c h body n = Ok r.
Proof.
  intros R Hn Hs Hi Hg H. pose proof (repr_bounds _ R) as [B _].
  unfold allocate_more. rewrite (idle_capacity_repr _ R). rewrite bind_ok.
  rewrite (proj2 (Z.leb_gt n _) Hi).
  unfold small_string_buffer.size. rewrite (size_repr _ R). rewrite bind_ok.
  unfold calculate_new_buffer_size_growth. unfold u32. rewrite Z.mod_small by lia.
  unfold buffer_reserve, get_capacity_and_size in H.
  rewrite (get_capacity_and_size_repr _ R) in H. rewrite bind_ok in H.
  cbv beta iota zeta delta [capacity_ size_] in H.
  rewrite (proj2 (Z.ltb_lt _ _) Hg) in H.
  destruct (calculate_new_buffer_size NullTerminated (mul_growth (sz + n))) as [ts| |];
    [|ko H..].
  rewrite bind_ok in H |- *.
  destruct (allocate_new_external_buffer NullTerminated c h ts sz) as [[h1 ext]| |];
    [|ko H..].
  rewrite bind_ok in H |- *. cbv beta iota in H |- *.
  destruct (read_chars h1 body (get_buffer body) sz) as [old_data| |]; [|ko H..].
  rewrite bind_ok in H |- *.
  destruct (write_chars h1 ext (chars ext) old_data) as [[h2 ext2]| |]; [|ko H..].
  rewrite !bind_ok in H |- *. cbv beta iota in H |- *.
  rewrite !andb_false_r in H |- *. cbn [andb] in H. rewrite !bind_ok in H |- *.
  cbv beta iota in H |- *.
  destruct (free_if_external h2 body) as [h3| |]; [|ko H..].
  rewrite !bind_ok in H. cbv beta iota in H.
  destruct (malloc_core.get_core_type body <=? malloc_core.get_core_type ext2);
    [|ko H]. exact H.
Qed.

(** [append(s, count)] that has to grow returns. *)
Lemma append_grows c h body t area sz (s : list byte) count :
  repr h body t area sz -> 0 < count <= len s -> len area - nt < sz + count ->
  mul_growth (sz + count) <= 2 ^ 32 - 16 - nt ->
  NullTerminated = true \/ 0 < sz ->
  inv.valid_chunk c h (2 ^ 32) ->
  exists h' body',
    basic_small_string.append NullTerminated c h body (basic_small_string.array s) count
    = Ok (h', body').
Proof.
  intros R Hc Hcap Hg Hne V. pose proof (repr_bounds _ R) as [B _].
  pose proof (nt_range NullTerminated) as Hnt.
  pose proof (mul_growth_lower (sz + count) ltac:(lia)) as Hl.
  pose proof (idle_of_le _ t area sz B) as Hi.
  set (G := mul_growth (sz + count)) in *.
  destruct (calculate_new_buffer_size_total NullTerminated G ltac:(lia)) as (ts & Cs).
  destruct (calculate_new_buffer_size_fits NullTerminated G ts ltac:(lia) Cs)
    as [Fi|(_ & _ & X)]; [|lia].
  assert (Hb2 : buffer_size ts <= 2 ^ 32).
  { unfold inv.fits in Fi. rewrite internal_buffer_size_eq in Fi.
    destruct (core_type ts); lia. }
  destruct (buffer_reserve_grow NullTerminated false true c h body t area sz G ts R
              ltac:(lia) ltac:(lia) Cs Fi (valid_chunk_le _ _ _ _ V Hb2))
    as (h1 & b1 & area1 & E & R1 & L1 & C1 & _ & O1 & K1 & Kf & La).
  pose proof (allocate_more_is_reserve c h body t area sz count (h1, b1) R
                ltac:(lia) ltac:(lia) ltac:(lia) ltac:(fold G; lia) E) as A.
  unfold basic_small_string.append.
  rewrite (proj2 (Z.eqb_neq count 0)) by lia. rewrite A. rewrite bind_ok. cbv beta iota.
  unfold end_. rewrite (end_ptr_shape _ _ _ _ _ _ (repr_shape _ _ _ _ _ _ R1) ltac:(lia)).
  rewrite bind_ok. unfold basic_small_string.memcpy_from.
  cbn [basic_small_string.overlaps basic_small_string.read_from].
  rewrite block_read_ok by lia. rewrite bind_ok.
  set (src := slice s 0 count).
  assert (Lsrc : len src = count) by (apply length_slice; lia).
  destruct (write_chars_repr _ _ _ _ _ _ sz src R1) as (h2 & b2 & W & R2 & S2);
    [lia | lia |].
  rewrite W. rewrite bind_ok. cbv beta iota.
  assert (La2 : len (splice area1 sz src) = len area1)
    by (rewrite length_splice by lia; reflexivity).
  destruct (increase_size_ok _ _ _ _ _ _ count R2) as (h3 & b3 & I & _).
  { unfold inv.idle_of. rewrite La2. split; [lia|].
    destruct (core_type ts) eqn:Et; try lia.
    rewrite Z.mod_small; [lia|].
    unfold inv.fits in Fi. rewrite Et in Fi.
    destruct Hne as [->|Hz]; cbn [nt_bytes] in *; lia. }
  rewrite I. eauto.
Qed.

End NullTerminated.
End growth_specs.

Section Growth.
Context (NullTerminated : bool).

Import malloc_core core_specs core_access small_string_buffer selector
  string_specs append_specs program program_specs observe observe_specs
  content_specs extended_specs growth_specs.

Abbreviation nt := (nt_bytes NullTerminated).

(** X30: [append(s, count)] of an array, on a string whose capacity is
    below [size() + count], returns with a new buffer, the old content
    followed by the [count] characters of [s], and a capacity of at
    least the scaled length [(size() + count) * 1.5F]: whenever that
    scaled length is at most [2 ^ 32 - 16] (one less with the
    terminator), the allocator has an unused block, and the string keeps
    a terminator or is not empty. *)
Theorem append_grows_returns w i c _core bs (s : list byte) count cap :
  extended.reachable NullTerminated w -> strings w !! i = Some _core ->
  holds (heap_of w) _core bs -> 0 < count <= len s ->
  basic_small_string.capacity NullTerminated (heap_of w) _core = Ok cap ->
  cap < len bs + count ->
  mul_growth (len bs + count) <= 2 ^ 32 - 16 - nt ->
  NullTerminated = true \/ 0 < len bs ->
  inv.valid_chunk c (heap_of w) (2 ^ 32) ->
  exists w' core' cap',
    extended.exec NullTerminated w
      (extended.Basic (Append i c (basic_small_string.array s) count)) = Ok w' /\
    strings w' !! i = Some core' /\
    holds (heap_of w') core' (bs ++ take (Z.to_nat count) s) /\
    basic_small_string.get_core_type core' <> kIsInternal /\
    basic_small_string.capacity NullTerminated (heap_of w') core' = Ok cap' /\
    mul_growth (len bs + count) <= cap'.
Proof.
  intros Rw Ei Hb Hc Hcap Lt Hg Hne V. pose proof (reachable_wf_ext _ w Rw) as W.
  destruct (wf_repr _ w i _core bs W Ei Hb) as (t & area & R & T & C).
  pose proof (repr_bounds _ R) as [B _]. pose proof (nt_range NullTerminated) as Hnt.
  set (sz := len bs) in *.
  rewrite (string_capacity_repr _ _ _ _ _ _ R) in Hcap. injection Hcap as <-.
  pose proof (mul_growth_lower (sz + count) ltac:(lia)) as Hl.
  pose proof (core_resize.idle_of_le _ t area sz B) as Hi.
  destruct (append_grows _ c _ _ _ _ _ s count R Hc Lt Hg Hne V) as (h' & b' & A).
  assert (Tc : 0 <= count < 2 ^ 32) by lia.
  destruct (append_post _ _ _ _ _ _ _ _ _ _ _ R Tc A)
    as (src & Lsrc & Rd & t' & area' & R' & _ & C' & _ & _ & Grow).
  destruct (Rd ltac:(lia)) as (h1 & b1 & _ & Er).
  apply read_from_array in Er as (_ & ->).
  destruct (Grow ltac:(lia)) as (ts & Cts & -> & Lts).
  unfold calculate_new_buffer_size_growth, u32 in Cts.
  rewrite Z.mod_small in Cts by lia.
  assert (Hr : 0 <= mul_growth (sz + count) < 2 ^ 64) by lia.
  destruct (calculate_new_buffer_size_fits NullTerminated _ ts Hr Cts)
    as [Fi|(_ & _ & X)]; [|lia].
  pose proof (calculate_new_buffer_size_tier NullTerminated _ ts Hr Cts) as Ht.
  exists (put w i h' b'), b', (len area' - nt). cbn [heap_of strings put].
  split; [cbn [extended.exec program.exec]; apply (exec_on_string w i _core _ _ _ Ei A)|].
  split; [apply lookup_insert_eq|]. split.
  { pose proof (holds_repr _ _ _ _ _ _ R') as Hh. rewrite C', <- C in Hh.
    unfold slice in Hh. rewrite drop_0 in Hh. exact Hh. }
  split.
  { unfold basic_small_string.get_core_type, small_string_buffer.get_core_type,
      malloc_core.get_core_type.
    destruct R' as (-> & _).
    pose proof (repr_len_area _ R) as La.
    assert (7 <= len area) by (destruct t; lia).
    destruct (core_type ts); cbv beta iota in Ht; cbn; try discriminate. lia. }
  split; [apply (string_capacity_repr _ _ _ _ _ _ R')|].
  rewrite Lts. unfold inv.fits in Fi. rewrite internal_buffer_size_eq in Fi.
  destruct (core_type ts); lia.
Qed.

End Growth.

Section GrowthSample.
Import program example observe.

Lemma append_grows_returns_witness :
  exists w' core' cap',
    extended.exec true built_state
      (extended.Basic (Append 0 (chunk_at 32) (basic_small_string.array hello) 10)) = Ok w' /\
    strings w' !! 0%nat = Some core' /\
    holds (heap_of w') core' (hello ++ hello) /\
    basic_small_string.capacity true (heap_of w') core' = Ok cap' /\ 30 <= cap'.
Proof.
  destruct (append_grows_returns true built_state 0%nat (chunk_at 32) built_core hello hello
              10 15 built_extended built_lookup built_holds)
    as (w' & core' & cap' & E & L & Hh & _ & C & G).
  - vm_compute. split; [reflexivity | discriminate].
  - vm_compute. reflexivity.
  - vm_compute. reflexivity.
  - vm_compute. discriminate.
  - left. reflexivity.
  - split; [vm_compute; reflexivity|]. cbn. split; [lia|]. split; [lia | reflexivity].
  - exists w', core', cap'. split; [exact E|]. split; [exact L|]. split; [exact Hh|].
    split; [exact C | exact G].
Defined.

End GrowthSample.
